(** * fgb-vt: FlatGeobuf to Mapbox Vector Tile pipeline

    A shallow embedding of the tile materialisation core of fgb-vt
    (TypeScript) and the properties of its specification.

    Conventions of the embedding.
    - A JavaScript [number] that holds an integer (indices, byte offsets,
      tile coordinates, counts) is a [Z]; the 32-bit conversions that the
      bit operators perform are written out ([Js.ToInt32], [Js.ToUint32]).
    - A JavaScript [number] that holds a coordinate in WGS84 or Mercator
      space, a distance or a tolerance is a binary64 [float].
    - A typed array is a list of its elements; bytes are [Z] in [0, 255].
    - A [while] loop whose exit depends on the data takes a [fuel] and
      returns [None] (or [OutOfFuel], where the code can also throw) when
      the fuel runs out; [for] loops over an index range recurse on the
      number of iterations.
    - An exception is a value of [error] in the [result] type.
    - An [async] function is the tree of its awaited connector calls.
    - The 64-bit fields of the index are read as exact integers (they are
      exact in JavaScript below [2^53]). *)

From Stdlib Require Import ZArith List Bool Lia String Ascii Floats Sorted.
From Stdlib Require Uint63.
Import ListNotations.
Local Open Scope Z_scope.

(** ** JavaScript numeric conversions and bit operators *)

Module Js.

Definition ToUint32 (x : Z) : Z := x mod 2 ^ 32.

Definition ToInt32 (x : Z) : Z := (x + 2 ^ 31) mod 2 ^ 32 - 2 ^ 31.

Definition ToUint8 (x : Z) : Z := x mod 256.

(** [a & b], [a | b], [a ^ b] *)
Definition and (a b : Z) : Z := Z.land (ToInt32 a) (ToInt32 b).
Definition or (a b : Z) : Z := Z.lor (ToInt32 a) (ToInt32 b).
Definition xor (a b : Z) : Z := Z.lxor (ToInt32 a) (ToInt32 b).

(** [a << n], [a >> n], [a >>> n] *)
Definition shl (a n : Z) : Z := ToInt32 (Z.shiftl (ToInt32 a) (ToUint32 n mod 32)).
Definition sar (a n : Z) : Z := Z.shiftr (ToInt32 a) (ToUint32 n mod 32).
Definition shr (a n : Z) : Z := Z.shiftr (ToUint32 a) (ToUint32 n mod 32).

(** [Math.ceil(n / d)] on integers, [d <> 0] *)
Definition ceilDiv (n d : Z) : Z := - ((- n) / d).

End Js.

(** ** Results of code that can throw *)

Inductive error : Type :=
| RangeError                 (* an out-of-bounds DataView or typed-array access *)
| TypeError                  (* a property access on [undefined] *)
| Error (message : string).  (* [throw new Error(message)] *)

Inductive result (A : Type) : Type :=
| Ok (a : A)
| Throw (e : error)
| OutOfFuel.                 (* a loop of the model ran out of fuel *)
Arguments Ok {A} a.
Arguments Throw {A} e.
Arguments OutOfFuel {A}.

Definition bind {A B : Type} (r : result A) (k : A -> result B) : result B :=
  match r with
  | Ok a => k a
  | Throw e => Throw e
  | OutOfFuel => OutOfFuel
  end.

(** A result that is a value or the [RangeError] of a read out of
    bounds. *)
Definition rangeChecked {A : Type} (r : result A) : Prop :=
  (exists a, r = Ok a) \/ r = Throw RangeError.

Definition obind {A B : Type} (o : option A) (k : A -> option B) : option B :=
  match o with
  | Some a => k a
  | None => None
  end.

Declare Scope js_scope.
Delimit Scope js_scope with js.
Notation "'let!' x ':=' r 'in' k" := (bind r (fun x => k))
  (at level 10, x pattern, r at level 100, k at level 200) : js_scope.
Notation "'let?' x ':=' o 'in' k" := (obind o (fun x => k))
  (at level 10, x pattern, o at level 100, k at level 200) : js_scope.
Local Open Scope js_scope.

(** ** Byte buffers, [Uint8Array] and [DataView]

    A [Uint8Array] or a [DataView] is a window [byteOffset, byteOffset +
    byteLength) on an [ArrayBuffer], here the list of its bytes.  A
    [DataView] read that leaves the window throws a [RangeError]; a typed
    array created on the buffer is checked against the buffer. *)

Module Buf.
Local Open Scope float_scope.

Record view : Type := mkView {
  buffer : list Z;
  byteOffset : Z;
  byteLength : Z
}.

(** The elements of the buffer are bytes. *)
Definition wellFormed (a : view) : Prop := Forall (fun b => (0 <= b < 256)%Z) (buffer a).

(** A fresh array holding [bytes]. *)
Definition ofBytes (bytes : list Z) : view := mkView bytes 0 (Z.of_nat (List.length bytes)).

(** The bytes seen through the window. *)
Definition bytesOf (a : view) : list Z :=
  firstn (Z.to_nat (byteLength a)) (skipn (Z.to_nat (byteOffset a)) (buffer a)).

(** [a.subarray(begin, end)] for [0 <= begin]: both ends are clamped to the
    length. *)
Definition subarray (a : view) (begin end_ : Z) : view :=
  let b := Z.min (Z.max begin 0) (byteLength a) in
  let e := Z.min (Z.max end_ 0) (byteLength a) in
  mkView (buffer a) (byteOffset a + b) (Z.max (e - b) 0).

(** [new DataView(buffer, byteOffset, byteLength)] and
    [new Uint8Array(buffer, byteOffset, length)] *)
Definition newView (buffer : list Z) (byteOffset byteLength : Z) : result view :=
  if (0 <=? byteOffset)%Z && (0 <=? byteLength)%Z
     && (byteOffset + byteLength <=? Z.of_nat (List.length buffer))%Z
  then Ok (mkView buffer byteOffset byteLength)
  else Throw RangeError.

(** The [n] bytes at [offset] of the window, or a [RangeError]. *)
Definition read (v : view) (offset : Z) (n : nat) : result (list Z) :=
  if (0 <=? offset)%Z && (offset + Z.of_nat n <=? byteLength v)%Z then
    Ok (firstn n (skipn (Z.to_nat (byteOffset v + offset)) (buffer v)))
  else Throw RangeError.

(** Little-endian value of a byte list. *)
Fixpoint le (bytes : list Z) : Z :=
  match bytes with
  | [] => 0%Z
  | b :: rest => (b + 256 * le rest)%Z
  end.

Definition signed (bits : Z) (u : Z) : Z :=
  if (u <? 2 ^ (bits - 1))%Z then u else (u - 2 ^ bits)%Z.

Definition getUint8 (v : view) (offset : Z) : result Z :=
  let! b := read v offset 1 in Ok (le b).
Definition getInt8 (v : view) (offset : Z) : result Z :=
  let! b := read v offset 1 in Ok (signed 8 (le b)).
Definition getUint16 (v : view) (offset : Z) : result Z :=
  let! b := read v offset 2 in Ok (le b).
Definition getInt16 (v : view) (offset : Z) : result Z :=
  let! b := read v offset 2 in Ok (signed 16 (le b)).
Definition getUint32 (v : view) (offset : Z) : result Z :=
  let! b := read v offset 4 in Ok (le b).
Definition getInt32 (v : view) (offset : Z) : result Z :=
  let! b := read v offset 4 in Ok (signed 32 (le b)).

(** The binary64 number with the given bit pattern. *)
Definition f64_of_bits (b : Z) : float :=
  let s := Z.testbit b 63 in
  let e := Z.land (Z.shiftr b 52) 2047 in
  let m := Z.land b (2 ^ 52 - 1) in
  if (e =? 2047)%Z then
    if (m =? 0)%Z then (if s then neg_infinity else infinity) else nan
  else if (e =? 0)%Z then
    if (m =? 0)%Z then (if s then neg_zero else zero)
    else SF2Prim (S754_finite s (Z.to_pos m) (-1074))
  else SF2Prim (S754_finite s (Z.to_pos (m + 2 ^ 52)) (e - 1075)).

(** The binary32 number with the given bit pattern, as a binary64. *)
Definition f32_of_bits (b : Z) : float :=
  let s := Z.testbit b 31 in
  let e := Z.land (Z.shiftr b 23) 255 in
  let m := Z.land b (2 ^ 23 - 1) in
  if (e =? 255)%Z then
    if (m =? 0)%Z then (if s then neg_infinity else infinity) else nan
  else if (e =? 0)%Z then
    if (m =? 0)%Z then (if s then neg_zero else zero)
    else SF2Prim (S754_finite s (Z.to_pos m) (-149))
  else SF2Prim (S754_finite s (Z.to_pos (m + 2 ^ 23)) (e - 150)).

Definition getFloat64 (v : view) (offset : Z) : result float :=
  let! b := read v offset 8 in Ok (f64_of_bits (le b)).
Definition getFloat32 (v : view) (offset : Z) : result float :=
  let! b := read v offset 4 in Ok (f32_of_bits (le b)).

(** An integer below [2^63] in magnitude as a binary64 number. *)
Definition float_of_Z (z : Z) : float :=
  match z with
  | Z0 => zero
  | Zpos _ => of_uint63 (Uint63.of_Z z)
  | Zneg _ => - of_uint63 (Uint63.of_Z (- z))
  end.

End Buf.

(** ** types: geometry enums and the MVT feature *)

Module Types.

Inductive GeomType : Type :=
| Unknown | Point | LineString | Polygon | MultiPoint | MultiLineString | MultiPolygon
| OtherGeomType (code : Z).   (* a byte outside the enum *)

Inductive MvtGeomType : Type := POINT | LINESTRING | POLYGON.

Definition MvtGeomType_value (t : MvtGeomType) : Z :=
  match t with POINT => 1 | LINESTRING => 2 | POLYGON => 3 end.

Record MvtFeature : Type := mkMvtFeature {
  mvt_id : option Z;          (* [null] is [None] *)
  mvt_type : MvtGeomType;
  mvt_geometry : list Z;
  mvt_tags : list Z
}.

Definition GeomType_of_byte (b : Z) : GeomType :=
  match b with
  | 0 => Unknown | 1 => Point | 2 => LineString | 3 => Polygon
  | 4 => MultiPoint | 5 => MultiLineString | 6 => MultiPolygon
  | _ => OtherGeomType b
  end.

Record BBox : Type := mkBBox { minX : float; minY : float; maxX : float; maxY : float }.

Inductive ColumnType : Type :=
| Byte | UByte | Bool | Short | UShort | Int | UInt | Long | ULong
| Float | Double | String | Json | DateTime | Binary
| OtherColumnType (code : Z).   (* a byte outside the enum *)

Record ColumnMeta : Type := mkColumn {
  col_name : string;
  col_type : ColumnType;
  col_nullable : bool
}.

Record FgbHeader : Type := mkHeader {
  geometryType : GeomType;
  columns : list ColumnMeta;
  featuresCount : Z;
  indexNodeSize : Z;
  bbox : option BBox;
  indexOffset : Z;
  indexSize : Z;
  featuresOffset : Z;
  headerSize : Z
}.

(** [string | number | boolean | Uint8Array | null]; a string is held by
    its UTF-8 bytes. *)
Inductive PropertyValue : Type :=
| PString (s : string)
| PNumber (n : float)
| PBool (b : bool)
| PBinary (bytes : list Z)
| PNull.

(** A [Map<string, PropertyValue>]: the entries in insertion order. *)
Definition PropertyMap : Type := list (string * PropertyValue).

(** [map.set(key, value)]: an existing key keeps its place. *)
Fixpoint map_set (m : PropertyMap) (key : string) (value : PropertyValue) : PropertyMap :=
  match m with
  | [] => [(key, value)]
  | (k, v) :: rest =>
      if String.eqb k key then (k, value) :: rest else (k, v) :: map_set rest key value
  end.

Record RawFeature : Type := mkRawFeature {
  raw_type : GeomType;
  raw_xy : list float;
  raw_ends : option (list Z);
  raw_parts : option (list Z);
  raw_properties : PropertyMap;
  raw_id : option Z            (* [null] is [None] *)
}.

(** A feature whose [id] is [null]. *)
Definition noRawId (f : RawFeature) : Prop := raw_id f = None.
Definition noMvtId (f : MvtFeature) : Prop := mvt_id f = None.

End Types.

(** ** Numbers that may be [undefined] or [NaN], and typed-array access

    Reading a typed array outside its bounds gives [undefined]; arithmetic
    on [undefined] gives [NaN]; both are [None].  Storing [undefined] or
    [NaN] into an [Int32Array] stores 0, and a store outside the bounds is
    ignored. *)

Module Num.

Definition num : Type := option Z.

Definition get (a : list Z) (i : Z) : num :=
  if i <? 0 then None else nth_error a (Z.to_nat i).

Definition sub (a b : num) : num :=
  match a, b with Some x, Some y => Some (x - y) | _, _ => None end.
Definition add (a b : num) : num :=
  match a, b with Some x, Some y => Some (x + y) | _, _ => None end.
Definition mul (a b : num) : num :=
  match a, b with Some x, Some y => Some (x * y) | _, _ => None end.

(** [a === b] on array elements *)
Definition eqb (a b : num) : bool :=
  match a, b with
  | Some x, Some y => x =? y
  | None, None => true
  | _, _ => false
  end.

(** [a > 0] *)
Definition gt0 (a : num) : bool :=
  match a with Some x => x >? 0 | None => false end.

(** The integer that the 32-bit operators see. *)
Definition toInt (a : num) : Z :=
  match a with Some x => x | None => 0 end.

(** [a[i] = v] on an [Int32Array] *)
Definition set_i32 (a : list Z) (i : Z) (v : num) : list Z :=
  if (0 <=? i) && (i <? Z.of_nat (List.length a)) then
    firstn (Z.to_nat i) a ++ [Js.ToInt32 (toInt v)] ++ skipn (S (Z.to_nat i)) a
  else a.

End Num.

(** ** mvt/geometry: MVT command encoding

    [coords] holds x, y pairs, so [coords.length / 2] is their number. *)

Module Geometry.
Import Types.

Definition CMD_MOVE_TO : Z := 1.
Definition CMD_LINE_TO : Z := 2.
Definition CMD_CLOSE_PATH : Z := 7.

Definition zigzag (n : Num.num) : Z :=
  Js.xor (Js.shl (Num.toInt n) 1) (Js.sar (Num.toInt n) 31).

Definition toMvtGeomType (fgbType : GeomType) : MvtGeomType :=
  match fgbType with
  | Point | MultiPoint => POINT
  | LineString | MultiLineString => LINESTRING
  | Polygon | MultiPolygon => POLYGON
  | _ => POINT
  end.

Definition commandInt (id count : Z) : Z := Js.or (Js.and id 0x7) (Js.shl count 3).

(** The loop of [getRingBounds] over [ends]. *)
Fixpoint getRingBounds_loop (ends : list Z) (start : Z) (bounds : list (Z * Z))
    : list (Z * Z) :=
  match ends with
  | [] => bounds
  | end_ :: rest =>
      getRingBounds_loop rest end_
        (if end_ >? start then bounds ++ [(start, end_)] else bounds)
  end.

Definition getRingBounds (totalPairs : Z) (ends : option (list Z)) : list (Z * Z) :=
  match ends with
  | None | Some [] => [(0, totalPairs)]
  | Some ends => getRingBounds_loop ends 0 []
  end.

(** The state of an encoder loop: the commands and the cursor. *)
Definition cursor : Type := (list Z * Num.num * Num.num)%type.

(** [for (i = ...; i < ...; i++) { cmds.push(zigzag(coords[idx] - cx), ...);
    cx = coords[idx]; cy = coords[idx + 1]; }], [n] iterations from [i]. *)
Fixpoint lineTo_loop (coords : list Z) (n : nat) (i : Z) (st : cursor) : cursor :=
  match n with
  | O => st
  | S n' =>
      let '(cmds, cx, cy) := st in
      let idx := i * 2 in
      lineTo_loop coords n' (i + 1)
        (cmds ++ [zigzag (Num.sub (Num.get coords idx) cx);
                  zigzag (Num.sub (Num.get coords (idx + 1)) cy)],
         Num.get coords idx, Num.get coords (idx + 1))
  end.

(** [encodePoints] *)
Definition encodePoints (coords : list Z) : list Z :=
  let numPoints := Z.of_nat (List.length coords) / 2 in
  let '(cmds, _, _) :=
    lineTo_loop coords (Z.to_nat numPoints) 0
      ([commandInt CMD_MOVE_TO numPoints], Some 0, Some 0) in
  cmds.

(** The body of the loop of [encodeLines] for one segment. *)
Definition encodeLines_body (coords : list Z) (st : cursor) (seg : Z * Z) : cursor :=
  let '(cmds, cx, cy) := st in
  let '(startPair, endPair) := seg in
  let numPairs := endPair - startPair in
  if numPairs <? 2 then st
  else
    let si := startPair * 2 in
    let cmds := cmds ++ [commandInt CMD_MOVE_TO 1] in
    let cmds := cmds ++ [zigzag (Num.sub (Num.get coords si) cx);
                         zigzag (Num.sub (Num.get coords (si + 1)) cy)] in
    let cx := Num.get coords si in
    let cy := Num.get coords (si + 1) in
    let cmds := cmds ++ [commandInt CMD_LINE_TO (numPairs - 1)] in
    lineTo_loop coords (Z.to_nat (endPair - (startPair + 1))) (startPair + 1)
      (cmds, cx, cy).

Definition encodeLines (coords : list Z) (ends : option (list Z)) : list Z :=
  let segments := getRingBounds (Z.of_nat (List.length coords) / 2) ends in
  let '(cmds, _, _) := fold_left (encodeLines_body coords) segments ([], Some 0, Some 0) in
  cmds.

(** The body of the loop of [encodePolygons] for one ring. *)
Definition encodePolygons_body (coords : list Z) (st : cursor) (ring : Z * Z) : cursor :=
  let '(cmds, cx, cy) := st in
  let '(startPair, endPair) := ring in
  let numPairs := endPair - startPair in
  if numPairs <? 3 then st
  else
    let si := startPair * 2 in
    let lastIdx := (endPair - 1) * 2 in
    let isClosed :=
      Num.eqb (Num.get coords si) (Num.get coords lastIdx)
      && Num.eqb (Num.get coords (si + 1)) (Num.get coords (lastIdx + 1)) in
    let lineCount := if isClosed then numPairs - 2 else numPairs - 1 in
    if lineCount <? 2 then st
    else
      let cmds := cmds ++ [commandInt CMD_MOVE_TO 1] in
      let cmds := cmds ++ [zigzag (Num.sub (Num.get coords si) cx);
                           zigzag (Num.sub (Num.get coords (si + 1)) cy)] in
      let cx := Num.get coords si in
      let cy := Num.get coords (si + 1) in
      let cmds := cmds ++ [commandInt CMD_LINE_TO lineCount] in
      let lineEnd := if isClosed then endPair - 1 else endPair in
      let '(cmds, cx, cy) :=
        lineTo_loop coords (Z.to_nat (lineEnd - (startPair + 1))) (startPair + 1)
          (cmds, cx, cy) in
      (cmds ++ [commandInt CMD_CLOSE_PATH 1], cx, cy).

Definition encodePolygons (coords : list Z) (ends : option (list Z)) : list Z :=
  let rings := getRingBounds (Z.of_nat (List.length coords) / 2) ends in
  let '(cmds, _, _) := fold_left (encodePolygons_body coords) rings ([], Some 0, Some 0) in
  cmds.

Definition encodeGeometry (coords : list Z) (ends : option (list Z))
    (mvtType : MvtGeomType) : list Z :=
  match coords with
  | [] => []
  | _ =>
      match mvtType with
      | POINT => encodePoints coords
      | LINESTRING => encodeLines coords ends
      | POLYGON => encodePolygons coords ends
      end
  end.

End Geometry.

(** ** geometry/transform: winding order *)

Module Transform.
Import Types.

(** [for (i = start, j = end - 2; i < end; j = i, i += 2)
      area += (coords[i] - coords[j]) * (coords[i + 1] + coords[j + 1]);] *)
Fixpoint signedArea_loop (coords : list Z) (n : nat) (i j : Z) (area : Num.num)
    : Num.num :=
  match n with
  | O => area
  | S n' =>
      signedArea_loop coords n' (i + 2) i
        (Num.add area
           (Num.mul (Num.sub (Num.get coords i) (Num.get coords j))
                    (Num.add (Num.get coords (i + 1)) (Num.get coords (j + 1)))))
  end.

(** Iterations of [for (i = a; i < b; i += 2)]. *)
Definition steps2 (a b : Z) : nat := Z.to_nat ((b - a + 1) / 2).

Definition signedArea (coords : list Z) (start end_ : Z) : Num.num :=
  signedArea_loop coords (steps2 start end_) start (end_ - 2) (Some 0).

(** The body of the loop of [reverseRing]: swap the pairs at [li], [ri]. *)
Definition swapPairs (coords : list Z) (li ri : Z) : list Z :=
  let tx := Num.get coords li in
  let ty := Num.get coords (li + 1) in
  let coords := Num.set_i32 coords li (Num.get coords ri) in
  let coords := Num.set_i32 coords (li + 1) (Num.get coords (ri + 1)) in
  let coords := Num.set_i32 coords ri tx in
  Num.set_i32 coords (ri + 1) ty.

(** [for (i = 0; i < half; i += 2)], [n] iterations from [i]. *)
Fixpoint reverseRing_loop (start end_ : Z) (n : nat) (i : Z) (coords : list Z)
    : list Z :=
  match n with
  | O => coords
  | S n' =>
      let li := start + i in
      let ri := end_ - 2 - i in
      reverseRing_loop start end_ n' (i + 2) (swapPairs coords li ri)
  end.

Definition reverseRing (coords : list Z) (start end_ : Z) : list Z :=
  let half := Js.or (Z.quot (end_ - start) 2) 0 in
  reverseRing_loop start end_ (steps2 0 half) 0 coords.

Definition ensureWinding (coords : list Z) (start end_ : Z) (clockwise : bool)
    : list Z :=
  let area := signedArea coords start end_ in
  if negb (Bool.eqb (Num.gt0 area) clockwise) then reverseRing coords start end_
  else coords.

(** [exteriorSet.has(i)] *)
Definition has (exteriorSet : list Z) (i : Z) : bool := existsb (Z.eqb i) exteriorSet.

(** The loop of [correctWinding] over [ends], from ring index [i]. *)
Fixpoint correctWinding_loop (exteriorSet : list Z) (ends : list Z) (i start : Z)
    (coords : list Z) : list Z :=
  match ends with
  | [] => coords
  | e :: rest =>
      let end_ := e * 2 in
      let isExterior := has exteriorSet i in
      correctWinding_loop exteriorSet rest (i + 1) end_
        (ensureWinding coords start end_ isExterior)
  end.

Definition isPolygonal (geomType : GeomType) : bool :=
  match geomType with Polygon | MultiPolygon => true | _ => false end.

(** [correctWinding]; the result is the array after the call. *)
Definition correctWinding (coords : list Z) (ends : option (list Z))
    (geomType : GeomType) (parts : option (list Z)) : list Z :=
  if negb (isPolygonal geomType) then coords
  else
    match ends with
    | None | Some [] | Some [_] =>
        ensureWinding coords 0 (Z.of_nat (List.length coords)) true
    | Some ends =>
        let exteriorSet := match parts with Some parts => parts | None => [0] end in
        correctWinding_loop exteriorSet ends 0 0 coords
    end.

End Transform.

(** ** geometry/simplify: Douglas-Peucker simplification

    [xy] holds x, y pairs of binary64 numbers.  Reading a [Float64Array]
    outside its bounds gives [undefined], which every use below converts
    to [NaN]. *)

Module Simplify.
Local Open Scope float_scope.

Definition getF (a : list float) (i : Z) : float :=
  if (i <? 0)%Z then nan else nth (Z.to_nat i) a nan.

(** [a[i] = v] on a [Float64Array]; a store outside the bounds is ignored. *)
Definition setF (a : list float) (i : Z) (v : float) : list float :=
  if ((0 <=? i) && (i <? Z.of_nat (List.length a)))%Z then
    firstn (Z.to_nat i) a ++ [v] ++ skipn (S (Z.to_nat i)) a
  else a.

Definition sqSegDist (px py ax ay bx by_ : float) : float :=
  let dx := bx - ax in
  let dy := by_ - ay in
  let '(x, y) :=
    if negb (dx =? 0) || negb (dy =? 0) then
      let t := ((px - ax) * dx + (py - ay) * dy) / (dx * dx + dy * dy) in
      if 1 <? t then (bx, by_)
      else if 0 <? t then (ax + dx * t, ay + dy * t)
      else (ax, ay)
    else (ax, ay) in
  let dx := px - x in
  let dy := py - y in
  dx * dx + dy * dy.

(** The state of the scan of [dpMark]: [maxSqDist], [index], [minPosToMid]. *)
Definition scan : Type := (float * Z * Z)%type.

(** [for (i = first + 1; i < last; i++)], [n] iterations from [i]. *)
Fixpoint dpMark_scan (xy : list float) (ax ay bx by_ : float) (mid : Z)
    (n : nat) (i : Z) (st : scan) : scan :=
  match n with
  | O => st
  | S n' =>
      let '(maxSqDist, index, minPosToMid) := st in
      let d := sqSegDist (getF xy (i * 2)) (getF xy (i * 2 + 1)) ax ay bx by_ in
      let st' :=
        if maxSqDist <? d then (d, i, minPosToMid)
        else if d =? maxSqDist then
          let posToMid := Z.abs (i - mid) in
          if (posToMid <? minPosToMid)%Z then (maxSqDist, i, posToMid) else st
        else st in
      dpMark_scan xy ax ay bx by_ mid n' (i + 1)%Z st'
  end.

(** [dpMark]; the result is the [importance] array after the call. *)
Fixpoint dpMark (fuel : nat) (xy importance : list float) (first last : Z)
    : option (list float) :=
  match fuel with
  | O => None
  | S fuel' =>
      let mid := Js.sar (first + last) 1 in
      let ax := getF xy (first * 2) in
      let ay := getF xy (first * 2 + 1) in
      let bx := getF xy (last * 2) in
      let by_ := getF xy (last * 2 + 1) in
      let '(maxSqDist, index, _) :=
        dpMark_scan xy ax ay bx by_ mid (Z.to_nat (last - (first + 1))) (first + 1)%Z
          (0, (-1)%Z, (last - first)%Z) in
      if (index >=? 0)%Z && (0 <? maxSqDist) then
        let importance := setF importance index maxSqDist in
        let? importance :=
          if (index - first >? 1)%Z then dpMark fuel' xy importance first index
          else Some importance in
        if (last - index >? 1)%Z then dpMark fuel' xy importance index last
        else Some importance
      else Some importance
  end.

(** [for (i = 0; i < n / 2; i++) if (importance[i] > sqTolerance)
    out.push(xy[i * 2], xy[i * 2 + 1]);] *)
Fixpoint filter_loop (xy importance : list float) (sqTolerance : float)
    (n : nat) (i : Z) (out : list float) : list float :=
  match n with
  | O => out
  | S n' =>
      filter_loop xy importance sqTolerance n' (i + 1)%Z
        (if sqTolerance <? getF importance i
         then out ++ [getF xy (i * 2); getF xy (i * 2 + 1)]
         else out)
  end.

(** [simplify].  The recursion of [dpMark] is at most as deep as the range
    is long, so the length of [xy] is fuel enough. *)
Definition simplify (xy : list float) (sqTolerance : float) : option (list float) :=
  let n := Z.of_nat (List.length xy) in
  if (n <=? 4)%Z then Some xy
  else
    let importance := repeat 0 (Z.to_nat (n / 2)) in
    let importance := setF importance 0 infinity in
    let importance := setF importance (n / 2 - 1) infinity in
    let? importance := dpMark (List.length xy) xy importance 0 (n / 2 - 1) in
    Some (filter_loop xy importance sqTolerance (Z.to_nat (n / 2)) 0 []).

(** [ringTooSmall]: the bounding box of the ring is below the tolerance. *)
Definition bbox4 : Type := (float * float * float * float)%type.

Fixpoint ringTooSmall_loop (xy : list float) (n : nat) (i : Z) (box : bbox4) : bbox4 :=
  match n with
  | O => box
  | S n' =>
      let '(minX, minY, maxX, maxY) := box in
      let x := getF xy i in
      let y := getF xy (i + 1) in
      let minX := if x <? minX then x else minX in
      let maxX := if maxX <? x then x else maxX in
      let minY := if y <? minY then y else minY in
      let maxY := if maxY <? y then y else maxY in
      ringTooSmall_loop xy n' (i + 2)%Z (minX, minY, maxX, maxY)
  end.

Definition ringTooSmall (xy : list float) (start end_ : Z) (sqTolerance : float) : bool :=
  let '(minX, minY, maxX, maxY) :=
    ringTooSmall_loop xy (Z.to_nat ((end_ - start + 1) / 2)) start
      (infinity, infinity, neg_infinity, neg_infinity) in
  let dx := maxX - minX in
  let dy := maxY - minY in
  dx * dy <? sqTolerance.

End Simplify.

(** ** Vocabulary of the specification for rings and commands *)

Module RingSpec.

Abbreviation point := (Z * Z)%type.

(** The flat interleaved layout [x0, y0, x1, y1, ...] of a point list,
    and the points of a flat array. *)
Fixpoint flat (pts : list point) : list Z :=
  match pts with
  | [] => []
  | (x, y) :: rest => x :: y :: flat rest
  end.

Fixpoint pairs (coords : list Z) : list point :=
  match coords with
  | x :: y :: rest => (x, y) :: pairs rest
  | _ => []
  end.

Definition int32 (v : Z) : Prop := - 2 ^ 31 <= v < 2 ^ 31.
Definition pint32 (p : point) : Prop := int32 (fst p) /\ int32 (snd p).

(** [ends] are cumulative pair counts: non-decreasing from [from], the
    last one being [total]. *)
Fixpoint cumulative (from total : Z) (ends : list Z) : Prop :=
  match ends with
  | [] => from = total
  | e :: rest => from <= e /\ cumulative e total rest
  end.

(** A well-formed coordinate array with its ring ends: 32-bit values in
    pairs, fewer than [2^31] of them, [ends] cumulative up to the number
    of pairs. *)
Record wf (coords : list Z) (ends : option (list Z)) : Prop := {
  wf_int32 : Forall int32 coords;
  wf_pairs : flat (pairs coords) = coords;
  wf_size : Z.of_nat (List.length coords) < 2 ^ 31;
  wf_ends : match ends with
            | Some ends => cumulative 0 (Z.of_nat (List.length (pairs coords))) ends
            | None => True
            end
}.

(** The ring bounds [start, end) in pairs: consecutive ends, or the whole
    array when there are no ends. *)
Fixpoint boundsFrom (start : Z) (ends : list Z) : list (Z * Z) :=
  match ends with
  | [] => []
  | e :: rest => (start, e) :: boundsFrom e rest
  end.

Definition bounds (coords : list Z) (ends : option (list Z)) : list (Z * Z) :=
  match ends with
  | None | Some [] => [(0, Z.of_nat (List.length (pairs coords)))]
  | Some ends => boundsFrom 0 ends
  end.

Definition slice (pts : list point) (b : Z * Z) : list point :=
  firstn (Z.to_nat (snd b - fst b)) (skipn (Z.to_nat (fst b)) pts).

(** The rings of a feature, as point lists. *)
Definition rings (coords : list Z) (ends : option (list Z)) : list (list point) :=
  map (slice (pairs coords)) (bounds coords ends).

(** The shoelace sum [sum (x_i - x_{i-1}) * (y_i + y_{i-1})] of a ring,
    the predecessor of the first vertex being the last. *)
Definition term (p prev : point) : Z := (fst p - fst prev) * (snd p + snd prev).

Fixpoint chain (prev : point) (pts : list point) : Z :=
  match pts with
  | [] => 0
  | p :: rest => term p prev + chain p rest
  end.

Definition shoelace (ring : list point) : Z :=
  match ring with
  | [] => 0
  | p0 :: _ => chain (last ring p0) ring
  end.

(** The same sum along an open path: over its consecutive vertices. *)
Fixpoint path (pts : list point) : Z :=
  match pts with
  | [] => 0
  | a :: rest =>
      match rest with
      | [] => 0
      | b :: _ => term b a + path rest
      end
  end.

(** Ring [j] is exterior: ring 0 when [parts] is absent, the rings listed
    in [parts] otherwise. *)
Definition exterior (parts : option (list Z)) (j : nat) : bool :=
  match parts with
  | None => Nat.eqb j 0
  | Some parts => existsb (Z.eqb (Z.of_nat j)) parts
  end.

(** [parts] only comes with at least two rings. *)
Definition parts_wf (ends parts : option (list Z)) : Prop :=
  match parts, ends with
  | None, _ => True
  | Some _, Some (_ :: _ :: _) => True
  | Some _, _ => False
  end.

(** The ring with the required orientation: reversed when the sign of
    its shoelace sum is not the required one. *)
Definition orient (clockwise : bool) (ring : list point) : list point :=
  if negb (Bool.eqb (shoelace ring >? 0) clockwise) then rev ring else ring.

Fixpoint orientFrom (exteriorSet : list Z) (i : Z) (rings : list (list point))
    : list (list point) :=
  match rings with
  | [] => []
  | ring :: rest =>
      orient (existsb (Z.eqb i) exteriorSet) ring :: orientFrom exteriorSet (i + 1) rest
  end.

(** The cumulative ends of consecutive rings that start at pair [from]. *)
Fixpoint endsOf (from : Z) (rings : list (list point)) : list Z :=
  match rings with
  | [] => []
  | ring :: rest =>
      (from + Z.of_nat (List.length ring))
        :: endsOf (from + Z.of_nat (List.length ring)) rest
  end.

(** A ring is explicitly closed when its last vertex equals its first;
    its effective vertices leave the closing one out. *)
Definition pointEqb (p q : point) : bool := (fst p =? fst q) && (snd p =? snd q).

Definition explicitlyClosed (ring : list point) : bool :=
  match ring with
  | [] => false
  | p0 :: _ => pointEqb p0 (last ring p0)
  end.

Definition effective (ring : list point) : list point :=
  if explicitlyClosed ring then removelast ring else ring.

(** Command integer [(cmd & 0x7) | (count << 3)] and zigzag parameter
    [(n << 1) ^ (n >> 31)]. *)
Definition command (cmd count : Z) : Z := Js.or (Js.and cmd 0x7) (Js.shl count 3).
Definition MoveTo (count : Z) : Z := command 1 count.
Definition LineTo (count : Z) : Z := command 2 count.
Definition ClosePath (count : Z) : Z := command 7 count.
Definition zig (n : Z) : Z := Js.xor (Js.shl n 1) (Js.sar n 31).

(** Zigzag deltas of [pts] against a running cursor. *)
Fixpoint deltas (cursor : point) (pts : list point) : list Z :=
  match pts with
  | [] => []
  | p :: rest => zig (fst p - fst cursor) :: zig (snd p - snd cursor) :: deltas p rest
  end.

(** The commands of one polygon ring and the cursor after it: nothing for
    a ring with fewer than 3 effective vertices; otherwise [MoveTo(1)]
    and the first delta, [LineTo(k)] with [k] the number of remaining
    effective vertices and their deltas, [ClosePath(1)]. *)
Definition polygonRing (cursor : point) (ring : list point) : list Z * point :=
  let vertices := effective ring in
  if Z.of_nat (List.length vertices) <? 3 then ([], cursor)
  else
    match vertices with
    | [] => ([], cursor)
    | p0 :: rest =>
        ([MoveTo 1] ++ deltas cursor [p0]
           ++ [LineTo (Z.of_nat (List.length rest))] ++ deltas p0 rest
           ++ [ClosePath 1],
         last rest p0)
    end.

(** The commands of all rings, the cursor persisting from ring to ring. *)
Fixpoint polygonCommands (cursor : point) (rings : list (list point)) : list Z :=
  match rings with
  | [] => []
  | ring :: rest =>
      let '(cmds, cursor') := polygonRing cursor ring in
      cmds ++ polygonCommands cursor' rest
  end.

End RingSpec.

(** ** pbf/writer: the Protocol Buffer writer

    The writer is modelled by the bytes written so far, [buf[0 .. pos)];
    [ensure] and [grow] only change the capacity behind them.  The five
    placeholder bytes reserved by [beginMessage] are rewritten or closed up
    by the matching [endMessage]; they are 0 here. *)

Module Pbf.

Definition WIRE_VARINT : Z := 0.
Definition WIRE_I64 : Z := 1.
Definition WIRE_LEN : Z := 2.
Definition WIRE_I32 : Z := 5.

Record PbfWriter : Type := mkWriter {
  buf : list Z;          (* bytes [0 .. pos) *)
  lengthStack : list Z   (* top of the stack first *)
}.

Definition pos (w : PbfWriter) : Z := Z.of_nat (List.length (buf w)).

Definition newWriter : PbfWriter := mkWriter [] [].

(** [while (val > 0x7f) { buf[pos++] = (val & 0x7f) | 0x80; val >>>= 7; }
     buf[pos++] = val;] *)
Fixpoint writeVarint_loop (fuel : nat) (val : Z) (out : list Z) : option (list Z) :=
  if val >? 0x7f then
    match fuel with
    | O => None
    | S fuel' =>
        writeVarint_loop fuel' (Js.shr val 7)
          (out ++ [Js.ToUint8 (Js.or (Js.and val 0x7f) 0x80)])
    end
  else Some (out ++ [Js.ToUint8 val]).

(** [writeBigVarint]: the value split into two 32-bit halves. *)
Fixpoint writeBigVarint_loop (fuel : nat) (loPart hiPart : Z) (out : list Z)
    : option (list Z) :=
  if (hiPart >? 0) || (loPart >? 0x7f) then
    match fuel with
    | O => None
    | S fuel' =>
        writeBigVarint_loop fuel'
          (Js.or (Js.shl (Js.and hiPart 0x7f) 25) (Js.shr loPart 7))
          (Js.shr hiPart 7)
          (out ++ [Js.ToUint8 (Js.or (Js.and loPart 0x7f) 0x80)])
    end
  else Some (out ++ [Js.ToUint8 loPart]).

Definition writeBigVarint (val : Z) (out : list Z) : option (list Z) :=
  let lo := Js.shr val 0 in
  let hi := Js.shr (val / 0x100000000) 0 in
  writeBigVarint_loop 10 lo hi out.

(** The bytes that [writeVarint(val)] appends.  The loop of the
    non-negative branch runs at most four times, that of the negative
    branch at most nine. *)
Definition varintBytes (val : Z) (out : list Z) : option (list Z) :=
  if val <? 0 then writeBigVarint val out
  else writeVarint_loop 5 val out.

Definition writeVarint (val : Z) (w : PbfWriter) : option PbfWriter :=
  let? out := varintBytes val (buf w) in
  Some (mkWriter out (lengthStack w)).

Definition writeSVarint (val : Z) (w : PbfWriter) : option PbfWriter :=
  writeVarint (Js.xor (Js.shl val 1) (Js.sar val 31)) w.

Definition writeTag (fieldNum wireType : Z) (w : PbfWriter) : option PbfWriter :=
  writeVarint (Js.or (Js.shl fieldNum 3) wireType) w.

Definition writeVarintField (fieldNum val : Z) (w : PbfWriter) : option PbfWriter :=
  let? w1 := writeTag fieldNum WIRE_VARINT w in
  writeVarint val w1.

Definition writeSVarintField (fieldNum val : Z) (w : PbfWriter) : option PbfWriter :=
  let? w1 := writeTag fieldNum WIRE_VARINT w in
  writeSVarint val w1.

Definition writeBoolField (fieldNum : Z) (val : bool) (w : PbfWriter) : option PbfWriter :=
  writeVarintField fieldNum (if val then 1 else 0) w.

Definition varintSize (val : Z) : Z :=
  if val <? 0 then 10
  else if val <? 0x80 then 1
  else if val <? 0x4000 then 2
  else if val <? 0x200000 then 3
  else if val <? 0x10000000 then 4
  else 5.

Fixpoint writeVarints (values : list Z) (w : PbfWriter) : option PbfWriter :=
  match values with
  | [] => Some w
  | v :: rest => let? w1 := writeVarint v w in writeVarints rest w1
  end.

Definition writePackedVarint (fieldNum : Z) (values : list Z) (w : PbfWriter)
    : option PbfWriter :=
  match values with
  | [] => Some w
  | _ =>
      let? w1 := writeTag fieldNum WIRE_LEN w in
      let byteLen := fold_left (fun acc v => acc + varintSize v) values 0 in
      let? w2 := writeVarint byteLen w1 in
      writeVarints values w2
  end.

Definition beginMessage (fieldNum : Z) (w : PbfWriter) : option PbfWriter :=
  let? w1 := writeTag fieldNum WIRE_LEN w in
  Some (mkWriter (buf w1 ++ [0; 0; 0; 0; 0]) (pos w1 :: lengthStack w1)).

(** [buf[p] = v]: a store outside the array is ignored. *)
Definition store (b : list Z) (p v : Z) : list Z :=
  if (0 <=? p) && (p <? Z.of_nat (List.length b)) then
    firstn (Z.to_nat p) b ++ [Js.ToUint8 v] ++ skipn (S (Z.to_nat p)) b
  else b.

(** [buf.copyWithin(target, start, end)] for [target <= start <= end <= pos]. *)
Definition copyWithin (b : list Z) (target start end_ : Z) : list Z :=
  let moved := firstn (Z.to_nat (end_ - start)) (skipn (Z.to_nat start) b) in
  firstn (Z.to_nat target) b ++ moved
    ++ skipn (Z.to_nat target + List.length moved) b.

(** The back-patching loop of [endMessage]. *)
Fixpoint patchLength (fuel : nat) (val p : Z) (b : list Z) : option (list Z) :=
  if val >? 0x7f then
    match fuel with
    | O => None
    | S fuel' =>
        patchLength fuel' (Js.shr val 7) (p + 1)
          (store b p (Js.or (Js.and val 0x7f) 0x80))
    end
  else Some (store b p val).

(** [endMessage()].  With an empty [lengthStack], [pop()] is [undefined],
    every comparison with the [NaN] length fails and the final store is
    ignored: nothing changes. *)
Definition endMessage (w : PbfWriter) : option PbfWriter :=
  match lengthStack w with
  | [] => Some w
  | placeholderPos :: stack =>
      let messageLen := pos w - placeholderPos - 5 in
      let lenSize := varintSize messageLen in
      let b1 :=
        if lenSize <? 5 then
          firstn (Z.to_nat (pos w - (5 - lenSize)))
            (copyWithin (buf w) (placeholderPos + lenSize) (placeholderPos + 5) (pos w))
        else buf w in
      let? b2 := patchLength 5 messageLen placeholderPos b1 in
      Some (mkWriter b2 stack)
  end.

Definition finish (w : PbfWriter) : list Z := buf w.

End Pbf.

(** ** pbf/encode: the feature message *)

Module Encode.
Import Types.

Definition writeFeature (feature : MvtFeature) (w : Pbf.PbfWriter)
    : option Pbf.PbfWriter :=
  let? w1 := Pbf.beginMessage 2 w in
  let? w2 :=
    match mvt_id feature with
    | Some id => Pbf.writeVarintField 1 id w1
    | None => Some w1
    end in
  let? w3 :=
    if (0 <? Z.of_nat (List.length (mvt_tags feature)))
    then Pbf.writePackedVarint 2 (mvt_tags feature) w2
    else Some w2 in
  let? w4 := Pbf.writeVarintField 3 (MvtGeomType_value (mvt_type feature)) w3 in
  let? w5 :=
    if (0 <? Z.of_nat (List.length (mvt_geometry feature)))
    then Pbf.writePackedVarint 4 (mvt_geometry feature) w4
    else Some w4 in
  Pbf.endMessage w5.

End Encode.

(** ** The wire format a reader of the tile applies (protobuf encoding) *)

Module Wire.

(** Standard base-128 little-endian varint decoding: seven payload bits
    per byte, least significant group first, the high bit set on every
    byte but the last. *)
Fixpoint decodeVarint (bytes : list Z) : option (Z * list Z) :=
  match bytes with
  | [] => None
  | b :: rest =>
      if b <? 128 then Some (b, rest)
      else
        match decodeVarint rest with
        | Some (v, rest') => Some ((b - 128) + 128 * v, rest')
        | None => None
        end
  end.

(** The base-128 bytes of a non-negative value, at most [S n] of them. *)
Fixpoint encodeVarint (n : nat) (v : Z) : list Z :=
  match n with
  | O => [v]
  | S n' => if v <? 128 then [v] else (v mod 128 + 128) :: encodeVarint n' (v / 128)
  end.

Definition varint (v : Z) : list Z := encodeVarint 5 v.

(** A packed repeated field: tag, byte length, the values. *)
Definition packed (fieldNum : Z) (values : list Z) : list Z :=
  match values with
  | [] => []
  | _ =>
      let payload := List.concat (map varint values) in
      (fieldNum * 8 + 2) :: varint (Z.of_nat (List.length payload)) ++ payload
  end.

(** The bytes left after the payload of a field of the given wire type. *)
Definition skipField (wireType : Z) (bytes : list Z) : option (list Z) :=
  if wireType =? 0 then
    let? (_, rest) := decodeVarint bytes in Some rest
  else if wireType =? 2 then
    let? (len, rest) := decodeVarint bytes in
    if len <=? Z.of_nat (List.length rest) then Some (skipn (Z.to_nat len) rest) else None
  else if wireType =? 1 then
    if 8 <=? Z.of_nat (List.length bytes) then Some (skipn 8 bytes) else None
  else if wireType =? 5 then
    if 4 <=? Z.of_nat (List.length bytes) then Some (skipn 4 bytes) else None
  else None.

(** The field numbers of a message body, in the order of the fields. *)
Fixpoint fieldNumbers (fuel : nat) (bytes : list Z) : option (list Z) :=
  match bytes with
  | [] => Some []
  | _ :: _ =>
      match fuel with
      | O => None
      | S fuel' =>
          let? (tag, rest) := decodeVarint bytes in
          let? rest' := skipField (Z.land tag 7) rest in
          let? numbers := fieldNumbers fuel' rest' in
          Some (Z.shiftr tag 3 :: numbers)
      end
  end.

(** A value that fits 32 bits unsigned. *)
Definition u32 (v : Z) : Prop := 0 <= v < 2 ^ 32.

(** The field number that a packed field contributes to a message: none
    when it has no values. *)
Definition packedNumber (fieldNum : Z) (values : list Z) : list Z :=
  match values with
  | [] => []
  | _ => [fieldNum]
  end.

(** The body of a feature message without an id: tags (field 2), type
    (field 3), geometry (field 4). *)
Definition featureBody (feature : Types.MvtFeature) : list Z :=
  packed 2 (Types.mvt_tags feature)
  ++ [24; Types.MvtGeomType_value (Types.mvt_type feature)]
  ++ packed 4 (Types.mvt_geometry feature).

End Wire.

(** ** fgb/flatbuffers: the FlatBuffers reader

    A reader is always built on a [Uint8Array] at offset 0, so its
    [DataView] is the window of the array. *)

Module FlatBuffers.

Definition FlatBufferReader : Type := Buf.view.

Definition readUint8 (fb : FlatBufferReader) (offset : Z) := Buf.getUint8 fb offset.
Definition readUint16 (fb : FlatBufferReader) (offset : Z) := Buf.getUint16 fb offset.
Definition readInt32 (fb : FlatBufferReader) (offset : Z) := Buf.getInt32 fb offset.
Definition readUint32 (fb : FlatBufferReader) (offset : Z) := Buf.getUint32 fb offset.
Definition readFloat64 (fb : FlatBufferReader) (offset : Z) := Buf.getFloat64 fb offset.

Definition rootTableOffset (fb : FlatBufferReader) : result Z := readUint32 fb 0.

Definition vtableOffset (fb : FlatBufferReader) (tablePos : Z) : result Z :=
  let! soffset := readInt32 fb tablePos in
  Ok (tablePos - soffset).

(** [fieldOffset]: 0 when the field is absent. *)
Definition fieldOffset (fb : FlatBufferReader) (tablePos fieldIndex : Z) : result Z :=
  let! vtable := vtableOffset fb tablePos in
  let! vtableSize := readUint16 fb vtable in
  let slotOffset := 4 + fieldIndex * 2 in
  if slotOffset >=? vtableSize then Ok 0
  else
    let! fieldOff := readUint16 fb (vtable + slotOffset) in
    if fieldOff =? 0 then Ok 0 else Ok (tablePos + fieldOff).

Definition indirect (fb : FlatBufferReader) (pos : Z) : result Z :=
  let! rel := readUint32 fb pos in
  Ok (pos + rel).

Definition vectorLen (fb : FlatBufferReader) (vectorOffset : Z) : result Z :=
  readUint32 fb vectorOffset.

Definition vectorStart (vectorOffset : Z) : Z := vectorOffset + 4.

(** The little-endian values of [count] elements of [size] bytes. *)
Fixpoint elements (size : nat) (count : nat) (bytes : list Z) : list Z :=
  match count with
  | O => []
  | S count' => Buf.le (firstn size bytes) :: elements size count' (skipn size bytes)
  end.

(** [readFloat64Array]: a typed array on the buffer when the position is
    8-byte aligned, a copy read through a [DataView] on the buffer
    otherwise; both are checked against the buffer and hold the same
    numbers. *)
Definition readFloat64Array (fb : FlatBufferReader) (offset count : Z)
    : result (list float) :=
  let byteOffset := Buf.byteOffset fb + offset in
  let! window := Buf.newView (Buf.buffer fb) byteOffset (count * 8) in
  Ok (map Buf.f64_of_bits (elements 8 (Z.to_nat count) (Buf.bytesOf window))).

(** [readBytes] *)
Definition readBytes (fb : FlatBufferReader) (offset length : Z) : result Buf.view :=
  Buf.newView (Buf.buffer fb) (Buf.byteOffset fb + offset) length.

(** The slow path of [readUint32Array]: [count] reads through the view. *)
Fixpoint readUint32_each (fb : FlatBufferReader) (offset : Z) (count : nat)
    : result (list Z) :=
  match count with
  | O => Ok []
  | S count' =>
      let! v := readUint32 fb offset in
      let! rest := readUint32_each fb (offset + 4) count' in
      Ok (v :: rest)
  end.

Definition readUint32Array (fb : FlatBufferReader) (offset count : Z) : result (list Z) :=
  let byteOffset := Buf.byteOffset fb + offset in
  if byteOffset mod 4 =? 0 then
    let! window := Buf.newView (Buf.buffer fb) byteOffset (count * 4) in
    Ok (elements 4 (Z.to_nat count) (Buf.bytesOf window))
  else readUint32_each fb offset (Z.to_nat count).

End FlatBuffers.

(** ** fgb/feature: the feature decoder *)

Module Feature.
Import Types FlatBuffers.
Local Open Scope float_scope.

Definition MAX_GEOMETRY_DEPTH : Z := 4.

(** A string holds the bytes that [TextDecoder] is given. *)
Definition decodeText (bytes : list Z) : string :=
  string_of_list_ascii (map (fun b => ascii_of_N (Z.to_N b)) bytes).

Record DecodedGeometry : Type := mkGeometry {
  geom_type : GeomType;
  geom_xy : list float;
  geom_ends : option (list Z);
  geom_parts : option (list Z)
}.

(** The accumulators of the parts loop of [decodeGeometry]: [allXy],
    [allEnds], [partStarts], [coordPairCount]. *)
Record partsAcc : Type := mkPartsAcc {
  allXy : list (list float);
  allEnds : list Z;
  partStarts : list Z;
  coordPairCount : Z
}.

(** [for (let i = 0; i < partsLen; i++)] with the decoder of one part.
    The [xy] of a part holds pairs: [partPairs] is half its length. *)
Fixpoint decodeParts (decodePart : Z -> result (option DecodedGeometry))
    (fb : FlatBufferReader) (partsDataStart : Z) (n : nat) (i : Z) (acc : partsAcc)
    : result partsAcc :=
  match n with
  | O => Ok acc
  | S n' =>
      let! partOffset := indirect fb (partsDataStart + i * 4)%Z in
      let! partGeom := decodePart partOffset in
      let acc' :=
        match partGeom with
        | None => acc
        | Some g =>
            match geom_xy g with
            | [] => acc
            | _ =>
                let partPairs := (Z.of_nat (List.length (geom_xy g)) / 2)%Z in
                mkPartsAcc
                  (allXy acc ++ [geom_xy g])
                  (match geom_ends g with
                   | Some ends =>
                       allEnds acc ++ map (fun e => (e + coordPairCount acc)%Z) ends
                   | None => allEnds acc ++ [(coordPairCount acc + partPairs)%Z]
                   end)
                  (partStarts acc ++ [Z.of_nat (List.length (allEnds acc))])
                  (coordPairCount acc + partPairs)%Z
            end
        end in
      decodeParts decodePart fb partsDataStart n' (i + 1)%Z acc'
  end.

Definition isMultiPolygon (t : GeomType) : bool :=
  match t with MultiPolygon => true | _ => false end.

(** [decodeGeometry] with [levels] recursion levels left: the call at
    [depth] has [MAX_GEOMETRY_DEPTH + 1 - depth] of them, and none is left
    when [depth > MAX_GEOMETRY_DEPTH]. *)
Fixpoint decodeGeometry (levels : nat) (fb : FlatBufferReader) (headerGeomType : GeomType)
    (tablePos : Z) : result (option DecodedGeometry) :=
  match levels with
  | O => Ok None
  | S levels' =>
      let! typeFieldOff := fieldOffset fb tablePos 6 in
      let! type :=
        if (typeFieldOff =? 0)%Z then Ok headerGeomType
        else let! b := readUint8 fb typeFieldOff in Ok (GeomType_of_byte b) in
      let! xyFieldOff := fieldOffset fb tablePos 1 in
      let! flatGeometry :=
        if (xyFieldOff =? 0)%Z then Ok None
        else
          let! xyVecOffset := indirect fb xyFieldOff in
          let! xyLen := vectorLen fb xyVecOffset in
          if (xyLen >? 0)%Z then
            let! xy := readFloat64Array fb (vectorStart xyVecOffset) xyLen in
            let! endsFieldOff := fieldOffset fb tablePos 0 in
            let! ends :=
              if (endsFieldOff =? 0)%Z then Ok None
              else
                let! endsVecOffset := indirect fb endsFieldOff in
                let! endsLen := vectorLen fb endsVecOffset in
                if (endsLen >? 0)%Z then
                  let! e := readUint32Array fb (vectorStart endsVecOffset) endsLen in
                  Ok (Some e)
                else Ok None in
            Ok (Some (mkGeometry type xy ends None))
          else Ok None in
      match flatGeometry with
      | Some g => Ok (Some g)
      | None =>
          let! partsFieldOff := fieldOffset fb tablePos 7 in
          if (partsFieldOff =? 0)%Z then Ok None
          else
            let! partsVecOffset := indirect fb partsFieldOff in
            let! partsLen := vectorLen fb partsVecOffset in
            if (partsLen =? 0)%Z then Ok None
            else
              let partsDataStart := vectorStart partsVecOffset in
              let! acc :=
                decodeParts (decodeGeometry levels' fb headerGeomType) fb partsDataStart
                  (Z.to_nat partsLen) 0 (mkPartsAcc [] [] [] 0) in
              match allXy acc with
              | [] => Ok None
              | _ =>
                  let xy := List.concat (allXy acc) in
                  let ends :=
                    match allEnds acc with
                    | [] => None
                    | _ => Some (map Js.ToUint32 (allEnds acc))
                    end in
                  let parts :=
                    if isMultiPolygon type
                       && (1 <? Z.of_nat (List.length (partStarts acc)))%Z
                    then Some (map Js.ToUint32 (partStarts acc))
                    else None in
                  Ok (Some (mkGeometry type xy ends parts))
              end
      end
  end.

(** The outcome of [readPropertyValue]: [value] and [bytesRead]. *)
Definition readPropertyValue (view : Buf.view) (bytes : Buf.view) (offset : Z)
    (type : ColumnType) : result (PropertyValue * Z) :=
  match type with
  | Bool => let! v := Buf.getUint8 view offset in Ok (PBool (negb (v =? 0)%Z), 1%Z)
  | Byte => let! v := Buf.getInt8 view offset in Ok (PNumber (Buf.float_of_Z v), 1%Z)
  | UByte => let! v := Buf.getUint8 view offset in Ok (PNumber (Buf.float_of_Z v), 1%Z)
  | Short => let! v := Buf.getInt16 view offset in Ok (PNumber (Buf.float_of_Z v), 2%Z)
  | UShort => let! v := Buf.getUint16 view offset in Ok (PNumber (Buf.float_of_Z v), 2%Z)
  | Int => let! v := Buf.getInt32 view offset in Ok (PNumber (Buf.float_of_Z v), 4%Z)
  | UInt => let! v := Buf.getUint32 view offset in Ok (PNumber (Buf.float_of_Z v), 4%Z)
  | Float => let! v := Buf.getFloat32 view offset in Ok (PNumber v, 4%Z)
  | Long =>
      let! lo := Buf.getUint32 view offset in
      let! hi := Buf.getInt32 view (offset + 4) in
      Ok (PNumber (Buf.float_of_Z hi * 0x100000000 + Buf.float_of_Z lo), 8%Z)
  | ULong =>
      let! lo := Buf.getUint32 view offset in
      let! hi := Buf.getUint32 view (offset + 4) in
      Ok (PNumber (Buf.float_of_Z hi * 0x100000000 + Buf.float_of_Z lo), 8%Z)
  | Double => let! v := Buf.getFloat64 view offset in Ok (PNumber v, 8%Z)
  | String | Json | DateTime =>
      if (offset + 4 >? Buf.byteLength bytes)%Z then Ok (PNull, 0%Z)
      else
        let! strLen := Buf.getUint32 view offset in
        if (offset + 4 + strLen >? Buf.byteLength bytes)%Z then Ok (PNull, 0%Z)
        else
          let strBytes := Buf.subarray bytes (offset + 4) (offset + 4 + strLen) in
          Ok (PString (decodeText (Buf.bytesOf strBytes)), (4 + strLen)%Z)
  | Binary =>
      if (offset + 4 >? Buf.byteLength bytes)%Z then Ok (PNull, 0%Z)
      else
        let! binLen := Buf.getUint32 view offset in
        if (offset + 4 + binLen >? Buf.byteLength bytes)%Z then Ok (PNull, 0%Z)
        else
          let! bin :=
            Buf.newView (Buf.buffer bytes) (Buf.byteOffset bytes + offset + 4) binLen in
          Ok (PBinary (Buf.bytesOf bin), (4 + binLen)%Z)
  | OtherColumnType _ => Ok (PNull, 0%Z)
  end.

(** [while (offset < propsLen)]: every iteration advances by at least the
    two bytes of the column index. *)
Fixpoint decodeProperties_loop (fuel : nat) (view propsBytes : Buf.view) (propsLen : Z)
    (columns : list ColumnMeta) (offset : Z) (props : PropertyMap) : result PropertyMap :=
  if (offset <? propsLen)%Z then
    match fuel with
    | O => OutOfFuel
    | S fuel' =>
        if (offset + 2 >? propsLen)%Z then Ok props
        else
          let! colIdx := Buf.getUint16 view offset in
          let offset := (offset + 2)%Z in
          if (colIdx >=? Z.of_nat (List.length columns))%Z then Ok props
          else
            match nth_error columns (Z.to_nat colIdx) with
            | None => Throw TypeError
            | Some col =>
                let! (value, bytesRead) :=
                  readPropertyValue view propsBytes offset (col_type col) in
                let offset := (offset + bytesRead)%Z in
                decodeProperties_loop fuel' view propsBytes propsLen columns offset
                  (map_set props (col_name col) value)
            end
    end
  else Ok props.

Definition decodeProperties (fb : FlatBufferReader) (propsVecOffset : Z)
    (columns : list ColumnMeta) : result PropertyMap :=
  let! propsLen := vectorLen fb propsVecOffset in
  if (propsLen =? 0)%Z then Ok []
  else
    let dataStart := vectorStart propsVecOffset in
    let! propsBytes := readBytes fb dataStart propsLen in
    decodeProperties_loop (Z.to_nat propsLen) propsBytes propsBytes propsLen columns 0 [].

Definition decodeSingleFeature (bytes : Buf.view) (header : FgbHeader)
    : result (option RawFeature) :=
  let fb : FlatBufferReader := bytes in
  let! rootOffset := rootTableOffset fb in
  let! geomFieldOff := fieldOffset fb rootOffset 0 in
  if (geomFieldOff =? 0)%Z then Ok None
  else
    let! geomTableOffset := indirect fb geomFieldOff in
    let! geom :=
      decodeGeometry (S (Z.to_nat MAX_GEOMETRY_DEPTH)) fb (geometryType header)
        geomTableOffset in
    match geom with
    | None => Ok None
    | Some geom =>
        let! propsFieldOff := fieldOffset fb rootOffset 1 in
        let! properties :=
          if (propsFieldOff =? 0)%Z then Ok []
          else
            let! propsVecOffset := indirect fb propsFieldOff in
            decodeProperties fb propsVecOffset (columns header) in
        Ok (Some (mkRawFeature (geom_type geom) (geom_xy geom) (geom_ends geom)
                    (geom_parts geom) properties None))
    end.

(** [features.length < maxFeatures]; [Infinity] is [None]. *)
Definition below (count : nat) (maxFeatures : option Z) : bool :=
  match maxFeatures with
  | None => true
  | Some m => (Z.of_nat count <? m)%Z
  end.

(** [while (offset < bytes.length && features.length < maxFeatures)] *)
Fixpoint decodeFeatures_loop (fuel : nat) (bytes : Buf.view) (header : FgbHeader)
    (maxFeatures : option Z) (offset : Z) (features : list RawFeature)
    : result (list RawFeature) :=
  if (offset <? Buf.byteLength bytes)%Z && below (List.length features) maxFeatures then
    match fuel with
    | O => OutOfFuel
    | S fuel' =>
        if (offset + 4 >? Buf.byteLength bytes)%Z then Ok features
        else
          let! view := Buf.newView (Buf.buffer bytes) (Buf.byteOffset bytes + offset) 4 in
          let! featureSize := Buf.getUint32 view 0 in
          if (featureSize =? 0)%Z then Ok features
          else
            let offset := (offset + 4)%Z in
            if (offset + featureSize >? Buf.byteLength bytes)%Z then Ok features
            else
              let featureBytes := Buf.subarray bytes offset (offset + featureSize) in
              let! feature := decodeSingleFeature featureBytes header in
              let features :=
                match feature with
                | Some f => features ++ [f]
                | None => features
                end in
              decodeFeatures_loop fuel' bytes header maxFeatures
                (offset + featureSize)%Z features
    end
  else Ok features.

Definition decodeFeatures (bytes : Buf.view) (header : FgbHeader)
    (maxFeatures : option Z) : result (list RawFeature) :=
  decodeFeatures_loop (Z.to_nat (Buf.byteLength bytes)) bytes header maxFeatures 0 [].

End Feature.

(** ** fgb/header: size of the packed R-tree *)

Module Header.

Definition NODE_ITEM_BYTE_SIZE : Z := 40.

(** [while (n > 1) { n = Math.ceil(n / nodeSize); totalNodes += n; }]
    With [nodeSize = 0] the quotient is [Infinity] and the loop never
    exits. *)
Fixpoint calcIndexSize_loop (fuel : nat) (nodeSize n totalNodes : Z) : option Z :=
  if n >? 1 then
    match fuel with
    | O => None
    | S fuel' =>
        if nodeSize =? 0 then None
        else
          let n' := Js.ceilDiv n nodeSize in
          calcIndexSize_loop fuel' nodeSize n' (totalNodes + n')
    end
  else Some totalNodes.

Definition calcIndexSize (fuel : nat) (featuresCount nodeSize : Z) : option Z :=
  if (featuresCount =? 0) || (nodeSize =? 0) then Some 0
  else
    match calcIndexSize_loop fuel nodeSize featuresCount featuresCount with
    | Some totalNodes => Some (totalNodes * NODE_ITEM_BYTE_SIZE)
    | None => None
    end.

End Header.

(** ** fgb/index: level bounds of the packed R-tree *)

Module Index.

Definition NODE_ITEM_SIZE : Z := 40.

(** The counting loop of [computeLevelBounds]; [levelNumNodes] grows at
    its end, leaf level first. *)
Fixpoint levelNumNodes_loop (fuel : nat) (nodeSize n : Z)
    (levelNumNodes : list Z) (numNodes : Z) : option (list Z * Z) :=
  if n >? 1 then
    match fuel with
    | O => None
    | S fuel' =>
        if nodeSize =? 0 then None
        else
          let n' := Js.ceilDiv n nodeSize in
          levelNumNodes_loop fuel' nodeSize n' (levelNumNodes ++ [n']) (numNodes + n')
    end
  else Some (levelNumNodes, numNodes).

(** [for (i = levelNumNodes.length - 1; i >= 0; i--)]: the counts are
    visited root first, and [levelBounds[i]] is filled from the back. *)
Fixpoint assignBounds (rootFirst : list Z) (offset : Z) (levelBounds : list (Z * Z))
    : list (Z * Z) :=
  match rootFirst with
  | [] => levelBounds
  | c :: rest => assignBounds rest (offset + c) ((offset, offset + c) :: levelBounds)
  end.

Definition computeLevelBounds (fuel : nat) (featuresCount nodeSize : Z)
    : option (list (Z * Z)) :=
  match levelNumNodes_loop fuel nodeSize featuresCount [featuresCount] featuresCount with
  | Some (levelNumNodes, _) => Some (assignBounds (rev levelNumNodes) 0 [])
  | None => None
  end.

(** A contiguous byte range of the file. *)
Record ByteRange : Type := mkRange { offset : Z; length : Z }.

(** The loop of [mergeRanges].  The array [merged] is never empty: it is
    kept as the ranges already closed ([closed]) followed by its last
    element [prev], the one the loop reads and extends in place. *)
Fixpoint mergeRanges_loop (gap : Z) (closed : list ByteRange) (prev : ByteRange)
    (rest : list ByteRange) : list ByteRange :=
  match rest with
  | [] => closed ++ [prev]
  | curr :: rest' =>
      let prevEnd := offset prev + length prev in
      if offset curr <=? prevEnd + gap then
        let newEnd := Z.max prevEnd (offset curr + length curr) in
        mergeRanges_loop gap closed (mkRange (offset prev) (newEnd - offset prev)) rest'
      else mergeRanges_loop gap (closed ++ [prev]) curr rest'
  end.

Definition mergeRanges_gap (ranges : list ByteRange) (gap : Z) : list ByteRange :=
  match ranges with
  | [] | [_] => ranges
  | first :: rest => mergeRanges_loop gap [] first rest
  end.

Definition GAP : Z := 512.

(** [mergeRanges(ranges)] with the default [gap = 512]. *)
Definition mergeRanges (ranges : list ByteRange) : list ByteRange :=
  mergeRanges_gap ranges GAP.

(** [readUint64AsNumber]: [hi * 0x100000000 + lo], an exact integer below
    [2^53]; the model keeps the integer. *)
Definition readUint64AsNumber (view : Buf.view) (offset : Z) : result Z :=
  let! lo := Buf.getUint32 view offset in
  let! hi := Buf.getUint32 view (offset + 4) in
  Ok (hi * 0x100000000 + lo).

(** [a[i]] of an array; [None] is [undefined]. *)
Definition at_ {A : Type} (a : list A) (i : Z) : option A :=
  if i <? 0 then None else nth_error a (Z.to_nat i).

(** [for (let i = first; ...; i++) stack.push(i, level)], [count] times.
    The stack holds the pairs [(nodeIdx, level)], the top first. *)
Fixpoint pushNodes (count : nat) (first level : Z) (stack : list (Z * Z)) : list (Z * Z) :=
  match count with
  | O => stack
  | S count' => pushNodes count' (first + 1) level ((first, level) :: stack)
  end.

(** The intersection test: [true] when the node misses the query box. *)
Definition disjoint (nodeMinX nodeMinY nodeMaxX nodeMaxY : float) (bbox : Types.BBox)
    : bool :=
  PrimFloat.ltb nodeMaxX (Types.minX bbox) || PrimFloat.ltb (Types.maxX bbox) nodeMinX
  || PrimFloat.ltb nodeMaxY (Types.minY bbox) || PrimFloat.ltb (Types.maxY bbox) nodeMinY.

(** [while (stack.length > 0)]: the result is [matchingLeafIndices]. *)
Fixpoint traverse (fuel : nat) (view indexBytes : Buf.view) (nodeSize : Z)
    (bbox : Types.BBox) (levelBounds : list (Z * Z)) (stack : list (Z * Z))
    (matchingLeafIndices : list Z) : result (list Z) :=
  match stack with
  | [] => Ok matchingLeafIndices
  | (nodeIdx, level) :: stack =>
      match fuel with
      | O => OutOfFuel
      | S fuel' =>
          let nodeByteOff := nodeIdx * NODE_ITEM_SIZE in
          if nodeByteOff + NODE_ITEM_SIZE >? Buf.byteLength indexBytes
          then Ok matchingLeafIndices
          else
            let! nodeMinX := Buf.getFloat64 view nodeByteOff in
            let! nodeMinY := Buf.getFloat64 view (nodeByteOff + 8) in
            let! nodeMaxX := Buf.getFloat64 view (nodeByteOff + 16) in
            let! nodeMaxY := Buf.getFloat64 view (nodeByteOff + 24) in
            if disjoint nodeMinX nodeMinY nodeMaxX nodeMaxY bbox then
              traverse fuel' view indexBytes nodeSize bbox levelBounds stack
                matchingLeafIndices
            else if level =? 0 then
              traverse fuel' view indexBytes nodeSize bbox levelBounds stack
                (matchingLeafIndices ++ [nodeIdx])
            else
              let! firstChild := readUint64AsNumber view (nodeByteOff + 32) in
              match at_ levelBounds (level - 1) with
              | None => Throw TypeError
              | Some (_, childLevelEnd) =>
                  let childEnd := Z.min (firstChild + nodeSize) childLevelEnd in
                  traverse fuel' view indexBytes nodeSize bbox levelBounds
                    (pushNodes (Z.to_nat (childEnd - firstChild)) firstChild (level - 1)
                       stack)
                    matchingLeafIndices
              end
      end
  end.

(** [matchingLeafIndices.sort((a, b) => a - b)] *)
Fixpoint insertAsc (x : Z) (sorted : list Z) : list Z :=
  match sorted with
  | [] => [x]
  | y :: rest => if x <=? y then x :: sorted else y :: insertAsc x rest
  end.

Definition sortAsc (l : list Z) : list Z := fold_right insertAsc [] l.

(** [for (const nodeIdx of matchingLeafIndices)]: the byte range of each
    matching leaf. *)
Fixpoint leafRanges (view : Buf.view) (featuresOffset leafEnd : Z)
    (matchingLeafIndices : list Z) : result (list ByteRange) :=
  match matchingLeafIndices with
  | [] => Ok []
  | nodeIdx :: rest =>
      let nodeByteOff := nodeIdx * NODE_ITEM_SIZE in
      let! featureByteOffset := readUint64AsNumber view (nodeByteOff + 32) in
      let! featureLength :=
        if nodeIdx + 1 <? leafEnd then
          let! nextByteOffset :=
            readUint64AsNumber view ((nodeIdx + 1) * NODE_ITEM_SIZE + 32) in
          Ok (nextByteOffset - featureByteOffset)
        else Ok (1024 * 1024) in
      let! ranges := leafRanges view featuresOffset leafEnd rest in
      Ok (mkRange (featuresOffset + featureByteOffset) featureLength :: ranges)
  end.

(** [queryIndex]; [fuel] bounds the iterations of the level loop and of
    the traversal loop. *)
Definition queryIndex (fuel : nat) (indexBytes : Buf.view)
    (featuresCount nodeSize featuresOffset : Z) (bbox : Types.BBox)
    : result (list ByteRange) :=
  if (featuresCount =? 0) || (nodeSize =? 0) then Ok []
  else
    let view := indexBytes in
    match computeLevelBounds fuel featuresCount nodeSize with
    | None => OutOfFuel
    | Some levelBounds =>
        let numLevels := Z.of_nat (List.length levelBounds) in
        match at_ levelBounds 0, at_ levelBounds (numLevels - 1) with
        | Some (_, leafEnd), Some (rootStart, rootEnd) =>
            let rootLevel := numLevels - 1 in
            let stack := pushNodes (Z.to_nat (rootEnd - rootStart)) rootStart rootLevel [] in
            let! matchingLeafIndices :=
              traverse fuel view indexBytes nodeSize bbox levelBounds stack [] in
            match matchingLeafIndices with
            | [] => Ok []
            | _ =>
                let! ranges :=
                  leafRanges view featuresOffset leafEnd (sortAsc matchingLeafIndices) in
                Ok (mergeRanges ranges)
            end
        | _, _ => Throw TypeError
        end
    end.

End Index.

(** ** mvt/layer: the layer builder

    The geometric stages that the properties below do not depend on are
    parameters of the builder: the projection, the clipping of one
    feature, the chain simplify - transformToTile - correctWinding -
    encodeGeometry of one clipped feature, and the tag dictionary. *)

Module Layer.
Import Types.

Inductive MvtValue : Type :=
| VString (value : string)
| VDouble (value : float)
| VInt (value : float)
| VUint (value : float)
| VBool (value : bool).

Record MvtLayer : Type := mkLayer {
  layer_name : string;
  layer_extent : Z;
  layer_features : list MvtFeature;
  layer_keys : list string;
  layer_values : list MvtValue
}.

(** What [clipFeatures] does with one feature: [continue] without a push,
    [result.push(feature)], or a push of [{...feature, xy, ends, parts}]. *)
Inductive clipOutcome : Type :=
| Rejected
| Accepted
| Clipped (xy : list float) (ends parts : option (list Z)).

Section Builder.

Variable projectToMercator : list float -> list float.
Variable clipGeometry : RawFeature -> BBox -> clipOutcome.

(** The commands of one clipped feature at tile [z/x/y] for the given
    extent and tolerance; [None] when the loop [continue]s. *)
Variable encodeFeature : RawFeature -> Z -> Z -> Z -> Z -> float -> option (list Z).

(** [buildTags]: the tags of a feature and the grown [keys] and [values]. *)
Variable buildTags :
  PropertyMap -> list string * list MvtValue -> list Z * (list string * list MvtValue).

(** [{...feature, xy, ends, parts}] *)
Definition withGeometry (feature : RawFeature) (xy : list float)
    (ends parts : option (list Z)) : RawFeature :=
  mkRawFeature (raw_type feature) xy ends parts (raw_properties feature) (raw_id feature).

Fixpoint clipFeatures (features : list RawFeature) (clipBounds : BBox) : list RawFeature :=
  match features with
  | [] => []
  | feature :: rest =>
      match clipGeometry feature clipBounds with
      | Rejected => clipFeatures rest clipBounds
      | Accepted => feature :: clipFeatures rest clipBounds
      | Clipped xy ends parts =>
          withGeometry feature xy ends parts :: clipFeatures rest clipBounds
      end
  end.

(** [for (const f of features) projectToMercator(f.xy)]: in place, so the
    features that reach the clipper are the projected ones. *)
Definition projectAll (features : list RawFeature) : list RawFeature :=
  map (fun f => withGeometry f (projectToMercator (raw_xy f)) (raw_ends f) (raw_parts f))
    features.

(** [for (const feature of clipped)] *)
Fixpoint buildFeatures (clipped : list RawFeature) (z x y extent : Z) (tolerance : float)
    (tables : list string * list MvtValue) (mvtFeatures : list MvtFeature)
    : list MvtFeature * (list string * list MvtValue) :=
  match clipped with
  | [] => (mvtFeatures, tables)
  | feature :: rest =>
      match encodeFeature feature z x y extent tolerance with
      | None => buildFeatures rest z x y extent tolerance tables mvtFeatures
      | Some geometry =>
          let mvtType := Geometry.toMvtGeomType (raw_type feature) in
          let (tags, tables') := buildTags (raw_properties feature) tables in
          buildFeatures rest z x y extent tolerance tables'
            (mvtFeatures ++ [mkMvtFeature (raw_id feature) mvtType geometry tags])
      end
  end.

Definition buildMvtLayer (features : list RawFeature) (name : string) (z x y : Z)
    (clipBounds : BBox) (extent : Z) (tolerance : float) : MvtLayer :=
  let clipped := clipFeatures (projectAll features) clipBounds in
  let (mvtFeatures, tables) := buildFeatures clipped z x y extent tolerance ([], []) [] in
  mkLayer name extent mvtFeatures (fst tables) (snd tables).

End Builder.

End Layer.

(** ** pipeline: one source of one tile

    An [async] function is the tree of its connector calls: a node for
    each awaited [connector.read] or [connector.readRanges], with the rest
    of the function as its continuation. *)

Module Pipeline.
Import Types Layer.

Inductive io (A : Type) : Type :=
| Ret (a : A)
| Raise (e : error)
| NoFuel
| Read (path : string) (offset length : Z) (k : Buf.view -> io A)
| ReadRanges (path : string) (ranges : list Index.ByteRange) (k : list Buf.view -> io A).
Arguments Ret {A} a.
Arguments Raise {A} e.
Arguments NoFuel {A}.
Arguments Read {A} path offset length k.
Arguments ReadRanges {A} path ranges k.

Definition lift {A : Type} (r : result A) : io A :=
  match r with
  | Ok a => Ret a
  | Throw e => Raise e
  | OutOfFuel => NoFuel
  end.

Fixpoint iobind {A B : Type} (m : io A) (f : A -> io B) : io B :=
  match m with
  | Ret a => f a
  | Raise e => Raise e
  | NoFuel => NoFuel
  | Read path offset length k => Read path offset length (fun bytes => iobind (k bytes) f)
  | ReadRanges path ranges k => ReadRanges path ranges (fun chunks => iobind (k chunks) f)
  end.

Notation "'await!' x ':=' m 'in' k" := (iobind m (fun x => k))
  (at level 10, x pattern, m at level 100, k at level 200) : js_scope.

(** A connector and the calls made to it. *)
Record Connector : Type := mkConnector {
  read : string -> Z -> Z -> result Buf.view;
  readRanges : string -> list Index.ByteRange -> result (list Buf.view)
}.

Inductive call : Type :=
| CallRead (path : string) (offset length : Z)
| CallReadRanges (path : string) (ranges : list Index.ByteRange).

(** The outcome of a tree against a connector, and the calls it made. *)
Fixpoint run {A : Type} (connector : Connector) (m : io A) : result A * list call :=
  match m with
  | Ret a => (Ok a, [])
  | Raise e => (Throw e, [])
  | NoFuel => (OutOfFuel, [])
  | Read path offset length k =>
      match read connector path offset length with
      | Ok bytes =>
          let (r, calls) := run connector (k bytes) in
          (r, CallRead path offset length :: calls)
      | Throw e => (Throw e, [CallRead path offset length])
      | OutOfFuel => (OutOfFuel, [CallRead path offset length])
      end
  | ReadRanges path ranges k =>
      match readRanges connector path ranges with
      | Ok chunks =>
          let (r, calls) := run connector (k chunks) in
          (r, CallReadRanges path ranges :: calls)
      | Throw e => (Throw e, [CallReadRanges path ranges])
      | OutOfFuel => (OutOfFuel, [CallReadRanges path ranges])
      end
  end.

(** [P] holds of every value a tree can return. *)
Inductive always {A : Type} (P : A -> Prop) : io A -> Prop :=
| always_Ret (a : A) : P a -> always P (Ret a)
| always_Raise (e : error) : always P (Raise e)
| always_NoFuel : always P NoFuel
| always_Read (path : string) (offset length : Z) (k : Buf.view -> io A) :
    (forall bytes, always P (k bytes)) -> always P (Read path offset length k)
| always_ReadRanges (path : string) (ranges : list Index.ByteRange)
    (k : list Buf.view -> io A) :
    (forall chunks, always P (k chunks)) -> always P (ReadRanges path ranges k).

Record Source : Type := mkSource { src_name : string; src_path : string }.

(** [Required<TileOptions>] *)
Record TileOptions : Type := mkTileOptions {
  extent : Z;
  buffer : Z;
  tolerance : float;
  maxZoom : Z;
  minZoom : Z
}.

Record FgbCache : Type := mkCache { cache_header : FgbHeader; cache_indexBytes : Buf.view }.

Definition HEADER_MAGIC_SIZE : Z := 8.
Definition INITIAL_HEADER_READ_SIZE : Z := HEADER_MAGIC_SIZE + 4.

Definition headerByteSize (bytes : Buf.view) : result Z :=
  if Buf.byteLength bytes <? HEADER_MAGIC_SIZE + 4 then
    Throw (Error "Not enough bytes to read FGB header size")
  else
    let! view :=
      Buf.newView (Buf.buffer bytes) (Buf.byteOffset bytes + HEADER_MAGIC_SIZE) 4 in
    let! size := Buf.getUint32 view 0 in
    Ok (HEADER_MAGIC_SIZE + 4 + size).

Definition emptyLayer (name : string) (extent : Z) : MvtLayer :=
  mkLayer name extent [] [] [].

Section Source.

(** The header parser and the stages of the layer builder. *)
Variable parseHeader : Buf.view -> result FgbHeader.
Variable projectToMercator : list float -> list float.
Variable clipGeometry : RawFeature -> BBox -> clipOutcome.
Variable encodeFeature : RawFeature -> Z -> Z -> Z -> Z -> float -> option (list Z).
Variable buildTags :
  PropertyMap -> list string * list MvtValue -> list Z * (list string * list MvtValue).

Definition readHeader (path : string) : io (FgbHeader * Buf.view) :=
  await! initialBytes := Read path 0 INITIAL_HEADER_READ_SIZE Ret in
  await! hdrSize := lift (headerByteSize initialBytes) in
  await! headerBytes :=
    if hdrSize <=? Buf.byteLength initialBytes
    then Ret (Buf.subarray initialBytes 0 hdrSize)
    else Read path 0 hdrSize Ret in
  await! header := lift (parseHeader headerBytes) in
  await! indexBytes :=
    if indexSize header >? 0
    then Read path (indexOffset header) (indexSize header) Ret
    else Ret (Buf.ofBytes []) in
  Ret (header, indexBytes).

(** The decoding loop over the chunks. *)
Fixpoint decodeChunks (featureChunks : list Buf.view) (header : FgbHeader)
    (allFeatures : list RawFeature) : result (list RawFeature) :=
  match featureChunks with
  | [] => Ok allFeatures
  | chunk :: rest =>
      let! features := Feature.decodeFeatures chunk header None in
      decodeChunks rest header (allFeatures ++ features)
  end.

(** [processSource]; [fuel] is that of [queryIndex]. *)
Definition processSource (fuel : nat) (source : Source) (z x y : Z)
    (wgs84BBox clipBounds : BBox) (tileOpts : TileOptions) (cache : option FgbCache)
    : io MvtLayer :=
  if (z <? minZoom tileOpts) || (z >? maxZoom tileOpts) then
    Ret (emptyLayer (src_name source) (extent tileOpts))
  else
    await! (header, indexBytes) :=
      match cache with
      | Some c => Ret (cache_header c, cache_indexBytes c)
      | None => readHeader (src_path source)
      end in
    if (indexNodeSize header =? 0) || (featuresCount header =? 0) then
      Ret (emptyLayer (src_name source) (extent tileOpts))
    else
      await! ranges :=
        lift (Index.queryIndex fuel indexBytes (featuresCount header)
                (indexNodeSize header) (featuresOffset header) wgs84BBox) in
      match ranges with
      | [] => Ret (emptyLayer (src_name source) (extent tileOpts))
      | _ =>
          await! featureChunks := ReadRanges (src_path source) ranges Ret in
          await! allFeatures := lift (decodeChunks featureChunks header []) in
          match allFeatures with
          | [] => Ret (emptyLayer (src_name source) (extent tileOpts))
          | _ =>
              Ret (buildMvtLayer projectToMercator clipGeometry encodeFeature buildTags
                     allFeatures (src_name source) z x y clipBounds (extent tileOpts)
                     (tolerance tileOpts))
          end
      end.

End Source.

End Pipeline.

(** ** A measure of the traversal stack of [queryIndex]

    A node of level [l] stands for itself and at most [nodeSize] nodes of
    level [l - 1]. *)

Module TraversalSpec.

Fixpoint levelWeight (nodeSize : nat) (level : nat) : nat :=
  match level with
  | O => 1
  | S level' => 1 + nodeSize * levelWeight nodeSize level'
  end.

Fixpoint stackWeight (nodeSize : nat) (stack : list (Z * Z)) : nat :=
  match stack with
  | [] => 0
  | (_, level) :: rest =>
      levelWeight nodeSize (Z.to_nat level) + stackWeight nodeSize rest
  end.

(** Every level on the stack is a level of the tree. *)
Definition levelsBelow (numLevels : Z) (stack : list (Z * Z)) : Prop :=
  Forall (fun entry => 0 <= snd entry < numLevels) stack.

End TraversalSpec.

(** ** A file with one point feature

    The feature table holds a geometry table with the [xy] vector
    [1.0, 2.0] and no properties; the index is its single leaf node. *)

Module Example.
Import Types.

Definition featureBytes : list Z :=
  [ 56; 0; 0; 0                          (* size prefix *)
  ; 12; 0; 0; 0                          (* root table *)
  ; 6; 0; 8; 0; 4; 0; 0; 0               (* vtable of the feature, padding *)
  ; 8; 0; 0; 0; 12; 0; 0; 0              (* feature: vtable, geometry *)
  ; 8; 0; 8; 0; 0; 0; 4; 0               (* vtable of the geometry *)
  ; 8; 0; 0; 0; 4; 0; 0; 0               (* geometry: vtable, xy *)
  ; 2; 0; 0; 0                           (* xy: length *)
  ; 0; 0; 0; 0; 0; 0; 240; 63            (* 1.0 *)
  ; 0; 0; 0; 0; 0; 0; 0; 64 ].           (* 2.0 *)

Definition header : FgbHeader :=
  mkHeader Point [] 1 16 None 100 40 140 100.

Definition feature : RawFeature :=
  mkRawFeature Point [1; 2]%float None None [] None.

(** One leaf: the box [0, 0, 0, 0] and the offset 0. *)
Definition indexBytes : list Z := repeat 0 40.

Definition origin : BBox := mkBBox 0 0 0 0.

Definition connector : Pipeline.Connector :=
  Pipeline.mkConnector
    (fun _ _ _ => Ok (Buf.ofBytes []))
    (fun _ ranges => Ok (map (fun _ => Buf.ofBytes featureBytes) ranges)).

Definition source : Pipeline.Source := Pipeline.mkSource "points" "points.fgb".

Definition tileOpts : Pipeline.TileOptions := Pipeline.mkTileOptions 4096 64 3 14 0.

Definition cache : Pipeline.FgbCache := Pipeline.mkCache header (Buf.ofBytes indexBytes).

(** The point as the single command MoveTo(1, 2). *)
Definition mvtFeature : MvtFeature := mkMvtFeature None POINT [9; 2; 4] [].

End Example.

(** ** Vocabulary of the specification for byte ranges *)

Module RangeSpec.
Import Index.

Definition endOf (r : ByteRange) : Z := offset r + length r.

(** Byte [b] lies in range [r]; in some range of [l]. *)
Definition covers (r : ByteRange) (b : Z) : Prop := offset r <= b < endOf r.
Definition covered (l : list ByteRange) (b : Z) : Prop := Exists (fun r => covers r b) l.

(** A well-formed byte range has a non-negative offset and length. *)
Definition wf (r : ByteRange) : Prop := 0 <= offset r /\ 0 <= length r.

Definition ascending (l : list ByteRange) : Prop :=
  StronglySorted (fun a b => offset a <= offset b) l.

(** The end of the bytes covered by the ranges of [l]. *)
Definition coveredEnd (l : list ByteRange) : Z := fold_right Z.max 0 (map endOf l).

(** Byte [b] lies in an inter-range gap of at most [gap] bytes: between
    the end of what the ranges before [r] cover and the start of [r]. *)
Definition in_small_gap (gap : Z) (l : list ByteRange) (b : Z) : Prop :=
  exists l1 r l2,
    l = l1 ++ r :: l2 /\ l1 <> [] /\
    coveredEnd l1 <= b < offset r /\ offset r - coveredEnd l1 <= gap.

(** Every later range starts at least [gap + 1] bytes after the end of
    every earlier one. *)
Definition separated (gap : Z) (l : list ByteRange) : Prop :=
  StronglySorted (fun a b => offset b - endOf a >= gap + 1) l.

(** One merge decision, on the last merged range [prev] and the next
    input range [curr]. *)
Definition coalesce (gap : Z) (merged : list ByteRange) (curr : ByteRange)
    : list ByteRange :=
  match rev merged with
  | [] => [curr]
  | prev :: _ =>
      if offset curr <=? endOf prev + gap then
        removelast merged
          ++ [mkRange (offset prev) (Z.max (endOf prev) (endOf curr) - offset prev)]
      else merged ++ [curr]
  end.

(** The same gap, seen from inside the loop: [e] is the end of what has
    been merged so far and [rest] the ranges still to come. *)
Definition in_gap_from (gap e : Z) (rest : list ByteRange) (b : Z) : Prop :=
  exists l1 r l2,
    rest = l1 ++ r :: l2 /\
    let e' := fold_left (fun e r => Z.max e (endOf r)) l1 e in
    e' <= b < offset r /\ offset r - e' <= gap.

End RangeSpec.

(** ** tiles: tile ids and the cache of tile bounds *)

Module Tiles.
Import Types.

(** [tileId]: an exact integer below [2^53] for [0 <= z <= 24] and
    [x], [y] in the grid of the zoom level. *)
Definition tileId (z x y : Z) : Z := ((Js.shl 1 z * y + x) * 32) + z.

(** A tile of the grid of a zoom level that the options allow. *)
Definition validTile (z x y : Z) : Prop :=
  0 <= z <= 24 /\ 0 <= x < 2 ^ z /\ 0 <= y < 2 ^ z.

(** [Map<number, BBox>]: the entries in insertion order. *)
Definition BoundsMap : Type := list (Z * BBox).

Fixpoint get (m : BoundsMap) (id : Z) : option BBox :=
  match m with
  | [] => None
  | (k, bbox) :: rest => if k =? id then Some bbox else get rest id
  end.

Fixpoint set (m : BoundsMap) (id : Z) (bbox : BBox) : BoundsMap :=
  match m with
  | [] => [(id, bbox)]
  | (k, v) :: rest => if k =? id then (k, bbox) :: rest else (k, v) :: set rest id bbox
  end.

Section Cache.

(** [tileBBox] (it calls [Math.atan] and [Math.sinh]). *)
Variable tileBBox : Z -> Z -> Z -> BBox.

(** [TileBoundsCache.getWgs84]: the box and the [wgs84] map after the
    call. *)
Definition getWgs84 (wgs84 : BoundsMap) (z x y : Z) : BBox * BoundsMap :=
  let id := tileId z x y in
  match get wgs84 id with
  | Some bbox => (bbox, wgs84)
  | None =>
      let bbox := tileBBox z x y in
      (bbox, set wgs84 id bbox)
  end.

(** The map after a sequence of requests on a cache. *)
Definition afterRequests (wgs84 : BoundsMap) (requests : list (Z * Z * Z)) : BoundsMap :=
  fold_left (fun m '(z, x, y) => snd (getWgs84 m z x y)) requests wgs84.

End Cache.

End Tiles.

(** ** fgb/flatbuffers: 64-bit and string reads *)

Module Reader.
Import FlatBuffers.

Definition readInt64AsNumber (fb : FlatBufferReader) (offset : Z) : result Z :=
  let! lo := Buf.getUint32 fb offset in
  let! hi := Buf.getInt32 fb (offset + 4) in
  Ok (hi * 0x100000000 + lo).

Definition readUint64AsNumber (fb : FlatBufferReader) (offset : Z) : result Z :=
  let! lo := Buf.getUint32 fb offset in
  let! hi := Buf.getUint32 fb (offset + 4) in
  Ok (hi * 0x100000000 + lo).

(** [readString]: the bytes are taken from the buffer, not from the
    window. *)
Definition readString (fb : FlatBufferReader) (offset : Z) : result string :=
  let! len := Buf.getUint32 fb offset in
  let start := Buf.byteOffset fb + offset + 4 in
  let! bytes := Buf.newView (Buf.buffer fb) start len in
  Ok (Feature.decodeText (Buf.bytesOf bytes)).

End Reader.

(** ** fgb/header: the header parser *)

Module HeaderParse.
Import Types FlatBuffers.

Definition MAGIC_BYTES : list Z := [0x66; 0x67; 0x62; 0x03; 0x66; 0x67; 0x62; 0x00].
Definition HEADER_MAGIC_SIZE : Z := 8.

(** [a[i]] on a [Uint8Array]; [None] is [undefined]. *)
Definition byteAt (a : Buf.view) (i : Z) : option Z :=
  if (0 <=? i) && (i <? Buf.byteLength a)
  then nth_error (Buf.buffer a) (Z.to_nat (Buf.byteOffset a + i))
  else None.

(** [for (let i = 0; i < HEADER_MAGIC_SIZE - 1; i++)], [n] iterations
    from [i]. *)
Fixpoint verifyMagic_loop (bytes : Buf.view) (n : nat) (i : Z) : bool :=
  match n with
  | O => true
  | S n' =>
      if negb (Num.eqb (byteAt bytes i) (Num.get MAGIC_BYTES i)) then false
      else verifyMagic_loop bytes n' (i + 1)
  end.

Definition verifyMagic (bytes : Buf.view) : bool :=
  if Buf.byteLength bytes <? HEADER_MAGIC_SIZE then false
  else verifyMagic_loop bytes (Z.to_nat (HEADER_MAGIC_SIZE - 1)) 0.

Definition ColumnType_of_byte (b : Z) : ColumnType :=
  match b with
  | 0 => Byte | 1 => UByte | 2 => Bool | 3 => Short | 4 => UShort | 5 => Int
  | 6 => UInt | 7 => Long | 8 => ULong | 9 => Float | 10 => Double
  | 11 => String | 12 => Json | 13 => DateTime | 14 => Binary
  | _ => OtherColumnType b
  end.

Definition parseColumn (fb : FlatBufferReader) (tablePos : Z) : result ColumnMeta :=
  let! nameOff := fieldOffset fb tablePos 0 in
  let! name :=
    if nameOff =? 0 then Ok EmptyString
    else let! pos := indirect fb nameOff in Reader.readString fb pos in
  let! typeOff := fieldOffset fb tablePos 1 in
  let! type :=
    if typeOff =? 0 then Ok String
    else let! b := readUint8 fb typeOff in Ok (ColumnType_of_byte b) in
  let! nullOff := fieldOffset fb tablePos 14 in
  let! nullable :=
    if nullOff =? 0 then Ok true
    else let! b := readUint8 fb nullOff in Ok (negb (b =? 0)) in
  Ok (mkColumn name type nullable).

(** [for (let i = 0; i < colsLen; i++)], [n] iterations from [i]. *)
Fixpoint parseColumns (fb : FlatBufferReader) (colsDataStart : Z) (n : nat) (i : Z)
    (columns : list ColumnMeta) : result (list ColumnMeta) :=
  match n with
  | O => Ok columns
  | S n' =>
      let! colOffset := indirect fb (colsDataStart + i * 4) in
      let! column := parseColumn fb colOffset in
      parseColumns fb colsDataStart n' (i + 1) (columns ++ [column])
  end.

(** [parseHeader]; [fuel] is that of [calcIndexSize]. *)
Definition parseHeader (fuel : nat) (bytes : Buf.view) : result FgbHeader :=
  if negb (verifyMagic bytes) then Throw (Error "Invalid FlatGeobuf magic bytes")
  else
    let! headerSizeView :=
      Buf.newView (Buf.buffer bytes) (Buf.byteOffset bytes + HEADER_MAGIC_SIZE) 4 in
    let! headerFbSize := Buf.getUint32 headerSizeView 0 in
    let headerStart := HEADER_MAGIC_SIZE + 4 in
    let totalHeaderSize := headerStart + headerFbSize in
    let fb : FlatBufferReader := Buf.subarray bytes headerStart totalHeaderSize in
    let! rootOffset := rootTableOffset fb in
    let! geomTypeOff := fieldOffset fb rootOffset 2 in
    let! geometryType :=
      if geomTypeOff =? 0 then Ok Unknown
      else let! b := readUint8 fb geomTypeOff in Ok (GeomType_of_byte b) in
    let! fcOff := fieldOffset fb rootOffset 8 in
    let! featuresCount :=
      if fcOff =? 0 then Ok 0 else Reader.readUint64AsNumber fb fcOff in
    let! insOff := fieldOffset fb rootOffset 9 in
    let! indexNodeSize := if insOff =? 0 then Ok 0 else readUint16 fb insOff in
    let! envOff := fieldOffset fb rootOffset 1 in
    let! bbox :=
      if envOff =? 0 then Ok None
      else
        let! envVecOffset := indirect fb envOff in
        let! envLen := vectorLen fb envVecOffset in
        if envLen >=? 4 then
          let dataStart := vectorStart envVecOffset in
          let! minX := readFloat64 fb dataStart in
          let! minY := readFloat64 fb (dataStart + 8) in
          let! maxX := readFloat64 fb (dataStart + 16) in
          let! maxY := readFloat64 fb (dataStart + 24) in
          Ok (Some (mkBBox minX minY maxX maxY))
        else Ok None in
    let! colsOff := fieldOffset fb rootOffset 7 in
    let! columns :=
      if colsOff =? 0 then Ok []
      else
        let! colsVecOffset := indirect fb colsOff in
        let! colsLen := vectorLen fb colsVecOffset in
        let colsDataStart := vectorStart colsVecOffset in
        parseColumns fb colsDataStart (Z.to_nat colsLen) 0 [] in
    let indexOffset := totalHeaderSize in
    let! indexSize :=
      if indexNodeSize >? 0 then
        match Header.calcIndexSize fuel featuresCount indexNodeSize with
        | Some size => Ok size
        | None => OutOfFuel
        end
      else Ok 0 in
    let featuresOffset := indexOffset + indexSize in
    Ok (mkHeader geometryType columns featuresCount indexNodeSize bbox indexOffset
          indexSize featuresOffset totalHeaderSize).

End HeaderParse.

(** ** Vocabulary for the levels of the packed R-tree *)

Module LevelSpec.

(** The levels tile the node indices below [top]: each level ends where
    the level below it starts, no level is empty and the last one (the
    root level) starts at node 0. *)
Fixpoint stacked (top : Z) (bounds : list (Z * Z)) : Prop :=
  match bounds with
  | [] => top = 0
  | (s, e) :: rest => e = top /\ s < e /\ stacked s rest
  end.

Definition sum (l : list Z) : Z := fold_right Z.add 0 l.

End LevelSpec.

(** ** A header of five point features

    The header table holds the geometry type (field 2), the feature
    count 5 (field 8) and the index node size 2 (field 9). *)

Module Sample.

Definition headerBytes : list Z :=
  [ 0x66; 0x67; 0x62; 0x03; 0x66; 0x67; 0x62; 0x00   (* magic *)
  ; 44; 0; 0; 0                                      (* size of the header table *)
  ; 28; 0; 0; 0                                      (* root table *)
  ; 24; 0; 16; 0                                     (* vtable: sizes *)
  ; 0; 0; 0; 0; 14; 0; 0; 0; 0; 0                    (* fields 0 to 4 *)
  ; 0; 0; 0; 0; 0; 0; 4; 0; 12; 0                    (* fields 5 to 9 *)
  ; 24; 0; 0; 0                                      (* table: vtable *)
  ; 5; 0; 0; 0; 0; 0; 0; 0                           (* features count *)
  ; 2; 0                                             (* index node size *)
  ; 1; 0 ].                                          (* geometry type, padding *)

Definition header : Types.FgbHeader :=
  Types.mkHeader Types.Point [] 5 2 None 56 440 496 56.

End Sample.

(** ** Vocabulary for what the writer appends and a reader finds *)

Module WireSpec.

(** A writer operation that appends [bytes] and leaves the stack of open
    messages as it was. *)
Definition appends (write : Pbf.PbfWriter -> option Pbf.PbfWriter) (bytes : list Z) : Prop :=
  forall w, write w = Some (Pbf.mkWriter (Pbf.buf w ++ bytes) (Pbf.lengthStack w)).

(** [beginMessage(fieldNum); write; endMessage()] *)
Definition message (fieldNum : Z) (write : Pbf.PbfWriter -> option Pbf.PbfWriter)
    (w : Pbf.PbfWriter) : option Pbf.PbfWriter :=
  let? w1 := Pbf.beginMessage fieldNum w in
  let? w2 := write w1 in
  Pbf.endMessage w2.

(** The reader of a length-delimited field: its number, its payload and
    the bytes after it. *)
Definition lenField (bytes : list Z) : option (Z * list Z * list Z) :=
  let? (tag, rest) := Wire.decodeVarint bytes in
  if Z.land tag 7 =? 2 then
    let? (len, rest') := Wire.decodeVarint rest in
    if len <=? Z.of_nat (List.length rest') then
      Some (Z.shiftr tag 3, firstn (Z.to_nat len) rest', skipn (Z.to_nat len) rest')
    else None
  else None.

(** The reader of a varint field: its number, its value and the bytes
    after it. *)
Definition varintField (bytes : list Z) : option (Z * Z * list Z) :=
  let? (tag, rest) := Wire.decodeVarint bytes in
  if Z.land tag 7 =? 0 then
    let? (value, rest') := Wire.decodeVarint rest in
    Some (Z.shiftr tag 3, value, rest')
  else None.

(** The values of a packed payload. *)
Fixpoint decodeVarints (fuel : nat) (bytes : list Z) : option (list Z) :=
  match bytes with
  | [] => Some []
  | _ :: _ =>
      match fuel with
      | O => None
      | S fuel' =>
          let? (v, rest) := Wire.decodeVarint bytes in
          let? values := decodeVarints fuel' rest in
          Some (v :: values)
      end
  end.

(** ZigZag decoding: [(z >>> 1) ^ -(z & 1)]. *)
Definition unzigzag (z : Z) : Z := if Z.even z then z / 2 else - ((z + 1) / 2).

(** What a reader collects from a feature message: the id (field 1), the
    tags (field 2, packed), the type (field 3) and the geometry (field 4,
    packed); a field it does not know is passed over. *)
Record featureFields : Type := mkFields {
  read_id : option Z;
  read_tags : list Z;
  read_type : Z;
  read_geometry : list Z
}.

Definition noFields : featureFields := mkFields None [] 0 [].

Fixpoint readFields (fuel : nat) (bytes : list Z) (acc : featureFields)
    : option featureFields :=
  match bytes with
  | [] => Some acc
  | _ :: _ =>
      match fuel with
      | O => None
      | S fuel' =>
          match lenField bytes with
          | Some (num, payload, rest) =>
              if num =? 2 then
                let? values := decodeVarints (List.length payload) payload in
                readFields fuel' rest
                  (mkFields (read_id acc) values (read_type acc) (read_geometry acc))
              else if num =? 4 then
                let? values := decodeVarints (List.length payload) payload in
                readFields fuel' rest
                  (mkFields (read_id acc) (read_tags acc) (read_type acc) values)
              else readFields fuel' rest acc
          | None =>
              let? (num, value, rest) := varintField bytes in
              if num =? 1 then
                readFields fuel' rest
                  (mkFields (Some value) (read_tags acc) (read_type acc) (read_geometry acc))
              else if num =? 3 then
                readFields fuel' rest
                  (mkFields (read_id acc) (read_tags acc) value (read_geometry acc))
              else readFields fuel' rest acc
          end
      end
  end.

Definition readFeature (body : list Z) : option featureFields :=
  readFields (List.length body) body noFields.

End WireSpec.

(** ** How a reader of the tile interprets a geometry

    The loop of the usual vector-tile readers: a command integer holds a
    command in its low three bits and a repeat count above them; MoveTo (1)
    starts a new line at the moved cursor, LineTo (2) extends the current
    line, ClosePath (7) repeats the first point of the current line. *)

Module GeometryRead.

Abbreviation point := (Z * Z)%type.

(** The cursor, the line being read and the lines read before it. *)
Definition state : Type := (point * option (list point) * list (list point))%type.

Definition flush (line : option (list point)) (lines : list (list point))
    : list (list point) :=
  match line with
  | Some l => lines ++ [l]
  | None => lines
  end.

(** [count] repetitions of the command [cmd]. *)
Fixpoint repeatCommand (cmd : Z) (count : nat) (params : list Z) (st : state)
    : option (state * list Z) :=
  match count with
  | O => Some (st, params)
  | S count' =>
      let '(cursor, line, lines) := st in
      if (cmd =? 1) || (cmd =? 2) then
        match params with
        | dx :: dy :: params' =>
            let p := (fst cursor + WireSpec.unzigzag dx, snd cursor + WireSpec.unzigzag dy) in
            if cmd =? 1 then
              repeatCommand cmd count' params' (p, Some [p], flush line lines)
            else
              match line with
              | Some l => repeatCommand cmd count' params' (p, Some (l ++ [p]), lines)
              | None => None
              end
        | _ => None
        end
      else if cmd =? 7 then
        match line with
        | Some (p0 :: l) => repeatCommand cmd count' params (cursor, Some ((p0 :: l) ++ [p0]), lines)
        | _ => repeatCommand cmd count' params st
        end
      else None
  end.

Fixpoint readCommands (fuel : nat) (cmds : list Z) (st : state)
    : option (list (list point)) :=
  match cmds with
  | [] => let '(_, line, lines) := st in Some (flush line lines)
  | c :: params =>
      match fuel with
      | O => None
      | S fuel' =>
          let? (st', rest) :=
            repeatCommand (Z.land c 7) (Z.to_nat (Z.shiftr c 3)) params st in
          readCommands fuel' rest st'
      end
  end.

(** The lines of a geometry. *)
Definition loadGeometry (cmds : list Z) : option (list (list point)) :=
  readCommands (List.length cmds) cmds ((0, 0), None, []).

(** A tile coordinate whose differences stay in the range of the 32-bit
    ZigZag code. *)
Definition small (p : point) : Prop :=
  - 2 ^ 29 <= fst p < 2 ^ 29 /\ - 2 ^ 29 <= snd p < 2 ^ 29.

(** The commands of one line and the cursor after it: nothing for fewer
    than 2 vertices; otherwise [MoveTo(1)] and the first delta, then
    [LineTo(n - 1)] and the deltas of the other vertices. *)
Definition lineRing (cursor : point) (ring : list point) : list Z * point :=
  if Z.of_nat (List.length ring) <? 2 then ([], cursor)
  else
    match ring with
    | [] => ([], cursor)
    | p0 :: rest =>
        ([RingSpec.MoveTo 1] ++ RingSpec.deltas cursor [p0]
           ++ [RingSpec.LineTo (Z.of_nat (List.length rest))] ++ RingSpec.deltas p0 rest,
         last rest p0)
    end.

(** The commands of all rings when one ring gives [ringCmds], the cursor
    persisting from ring to ring. *)
Fixpoint ringCommands (ringCmds : point -> list point -> list Z * point)
    (cursor : point) (rings : list (list point)) : list Z :=
  match rings with
  | [] => []
  | ring :: rest =>
      let '(cmds, cursor') := ringCmds cursor ring in
      cmds ++ ringCommands ringCmds cursor' rest
  end.

(** The lines a reader gets from the rings of a line feature and of a
    polygon feature. *)
Definition readableLine (ring : list point) : bool := 2 <=? Z.of_nat (List.length ring).

Definition readableRing (ring : list point) : bool :=
  3 <=? Z.of_nat (List.length (RingSpec.effective ring)).

Definition closedRing (ring : list point) : list point :=
  match RingSpec.effective ring with
  | [] => []
  | p0 :: rest => (p0 :: rest) ++ [p0]
  end.

End GeometryRead.

(** ** The rings that [correctWinding] treats as exterior *)

Module WindingSpec.

(** [parts ? new Set(parts) : new Set([0])] *)
Definition exteriorSet (parts : option (list Z)) : list Z :=
  match parts with
  | Some parts => parts
  | None => [0]
  end.

(** A ring after the call: as it was or reversed. *)
Definition keptOrReversed (before after : list RingSpec.point) : Prop :=
  after = before \/ after = rev before.

End WindingSpec.

(** ** Counting the connector calls of a pipeline function *)

Module IoSpec.
Import Pipeline.

Definition isRead (c : call) : bool :=
  match c with CallRead _ _ _ => true | CallReadRanges _ _ => false end.

Definition isReadRanges (c : call) : bool := negb (isRead c).

(** A call on the file [path]; a [readRanges] call asks for at least one
    range. *)
Definition onPath (path : string) (c : call) : Prop :=
  match c with
  | CallRead p _ _ => p = path
  | CallReadRanges p ranges => p = path /\ ranges <> []
  end.

(** Whatever the connector answers, the tree makes at most [reads] calls
    of [read] and [ranges] calls of [readRanges], all of which satisfy
    [P]. *)
Fixpoint bounded {A : Type} (reads ranges : nat) (P : call -> Prop) (m : io A) : Prop :=
  match m with
  | Ret _ | Raise _ | NoFuel => True
  | Read path offset length k =>
      P (CallRead path offset length)
      /\ match reads with
         | O => False
         | S reads' => forall bytes, bounded reads' ranges P (k bytes)
         end
  | ReadRanges path rs k =>
      P (CallReadRanges path rs)
      /\ match ranges with
         | O => False
         | S ranges' => forall chunks, bounded reads ranges' P (k chunks)
         end
  end.

End IoSpec.

(** ** The vertices that a simplification keeps *)

Module SimplifySpec.

(** The pairs of [xy] whose flag in [keep] is set, in order. *)
Fixpoint select (keep : list bool) (xy : list float) : list float :=
  match keep, xy with
  | b :: keep', x :: y :: xy' => (if b then [x; y] else []) ++ select keep' xy'
  | _, _ => []
  end.

End SimplifySpec.

(** ** Nodes that meet the query box *)

Module HitSpec.

(** The node [nodeIdx] lies inside the index bytes, and its box, as the
    traversal reads it, is not disjoint from [bbox]. *)
Definition hits (view indexBytes : Buf.view) (bbox : Types.BBox) (nodeIdx : Z) : Prop :=
  nodeIdx * Index.NODE_ITEM_SIZE + Index.NODE_ITEM_SIZE <= Buf.byteLength indexBytes
  /\ exists nodeMinX nodeMinY nodeMaxX nodeMaxY,
       Buf.getFloat64 view (nodeIdx * Index.NODE_ITEM_SIZE) = Ok nodeMinX
       /\ Buf.getFloat64 view (nodeIdx * Index.NODE_ITEM_SIZE + 8) = Ok nodeMinY
       /\ Buf.getFloat64 view (nodeIdx * Index.NODE_ITEM_SIZE + 16) = Ok nodeMaxX
       /\ Buf.getFloat64 view (nodeIdx * Index.NODE_ITEM_SIZE + 24) = Ok nodeMaxY
       /\ Index.disjoint nodeMinX nodeMinY nodeMaxX nodeMaxY bbox = false.

End HitSpec.

(** ** geometry/clip: clipping features to the tile box

    [xy] holds x, y pairs of binary64 numbers; a read outside a
    [Float64Array] gives [undefined], which the comparisons and the
    arithmetic below convert to [NaN].  The [slice] arrays only ever
    receive numbers.  [ends] is a [Uint32Array]: its elements are not
    negative. *)

Module Clip.
Import Types Layer.
Local Open Scope float_scope.

Definition getF := Simplify.getF.

Definition isPolygonType (t : GeomType) : bool :=
  match t with Polygon | MultiPolygon => true | _ => false end.

Definition isPointType (t : GeomType) : bool :=
  match t with Point | MultiPoint => true | _ => false end.

(** [for (let i = 0; i < xy.length; i += 2)], [n] iterations from [i]. *)
Fixpoint featureBBox_loop (xy : list float) (n : nat) (i : Z) (box : BBox) : BBox :=
  match n with
  | O => box
  | S n' =>
      let x := getF xy i in
      let y := getF xy (i + 1) in
      let minX := if x <? minX box then x else minX box in
      let maxX := if maxX box <? x then x else maxX box in
      let minY := if y <? minY box then y else minY box in
      let maxY := if maxY box <? y then y else maxY box in
      featureBBox_loop xy n' (i + 2)%Z (mkBBox minX minY maxX maxY)
  end.

Definition featureBBox (xy : list float) : BBox :=
  featureBBox_loop xy (Transform.steps2 0 (Z.of_nat (List.length xy))) 0
    (mkBBox infinity infinity neg_infinity neg_infinity).

(** The containment test [x >= minX && x <= maxX && y >= minY && y <= maxY]. *)
Definition inside (minX minY maxX maxY x y : float) : bool :=
  (minX <=? x) && (x <=? maxX) && (minY <=? y) && (y <=? maxY).

Fixpoint clipPoints_loop (xy : list float) (minX minY maxX maxY : float)
    (n : nat) (i : Z) (out : list float) : list float :=
  match n with
  | O => out
  | S n' =>
      let x := getF xy i in
      let y := getF xy (i + 1) in
      clipPoints_loop xy minX minY maxX maxY n' (i + 2)%Z
        (if inside minX minY maxX maxY x y then out ++ [x; y] else out)
  end.

Definition clipPoints (xy : list float) (minX minY maxX maxY : float) : list float :=
  clipPoints_loop xy minX minY maxX maxY
    (Transform.steps2 0 (Z.of_nat (List.length xy))) 0 [].

(** [xy.subarray(start, end)] for [start] and [end] that are not negative. *)
Definition subarray (xy : list float) (start end_ : Z) : list float :=
  skipn (Z.to_nat start) (firstn (Z.to_nat end_) xy).

Fixpoint extractRings_loop (xy : list float) (ends : list Z) (start : Z)
    : list (list float) :=
  match ends with
  | [] => []
  | e :: rest =>
      let end_ := (e * 2)%Z in
      subarray xy start end_ :: extractRings_loop xy rest end_
  end.

Definition extractRings (xy : list float) (ends : option (list Z)) : list (list float) :=
  match ends with
  | None | Some [] | Some [_] => [xy]
  | Some ends => extractRings_loop xy ends 0
  end.

Definition addIntersection (out : list float) (ax ay bx by_ k : float) (axis : Z)
    : list float :=
  if (axis =? 0)%Z then
    let t := (k - ax) / (bx - ax) in
    out ++ [k; ay + (by_ - ay) * t]
  else
    let t := (k - ay) / (by_ - ay) in
    out ++ [ax + (bx - ax) * t; k].

(** The state of the loop of [clipAxis]: [results] and [slice]. *)
Definition slices : Type := (list (list float) * list float)%type.

(** [if (!isPolygon && slice.length >= 4) { results.push(new
    Float64Array(slice)); slice = []; }] *)
Definition pushSlice (isPolygon : bool) (st : slices) : slices :=
  let '(results, slice) := st in
  if negb isPolygon && (4 <=? Z.of_nat (List.length slice))%Z
  then (results ++ [slice], [])
  else st.

Definition clipAxis_body (coords : list float) (k1 k2 : float) (axis : Z)
    (isPolygon : bool) (i : Z) (st : slices) : slices :=
  let '(results, slice) := st in
  let ax := getF coords i in
  let ay := getF coords (i + 1) in
  let bx := getF coords (i + 2) in
  let by_ := getF coords (i + 3) in
  let a := if (axis =? 0)%Z then ax else ay in
  let b := if (axis =? 0)%Z then bx else by_ in
  let aInside := (k1 <=? a) && (a <=? k2) in
  let bInside := (k1 <=? b) && (b <=? k2) in
  if aInside then
    let slice := slice ++ [ax; ay] in
    if negb bInside then
      let slice :=
        if b <? k1 then addIntersection slice ax ay bx by_ k1 axis
        else addIntersection slice ax ay bx by_ k2 axis in
      pushSlice isPolygon (results, slice)
    else (results, slice)
  else if bInside then
    (results,
     if a <? k1 then addIntersection slice ax ay bx by_ k1 axis
     else addIntersection slice ax ay bx by_ k2 axis)
  else if ((a <? k1) && (k2 <? b)) || ((k2 <? a) && (b <? k1)) then
    let enter := if a <? k1 then k1 else k2 in
    let exit := if a <? k1 then k2 else k1 in
    let slice := addIntersection slice ax ay bx by_ enter axis in
    let slice := addIntersection slice ax ay bx by_ exit axis in
    pushSlice isPolygon (results, slice)
  else st.

(** [for (let i = 0; i < n - 2; i += 2)], [count] iterations from [i]. *)
Fixpoint clipAxis_loop (coords : list float) (k1 k2 : float) (axis : Z)
    (isPolygon : bool) (count : nat) (i : Z) (st : slices) : slices :=
  match count with
  | O => st
  | S count' =>
      clipAxis_loop coords k1 k2 axis isPolygon count' (i + 2)%Z
        (clipAxis_body coords k1 k2 axis isPolygon i st)
  end.

Definition clipAxis (coords : list float) (k1 k2 : float) (axis : Z) (isPolygon : bool)
    : list (list float) :=
  let n := Z.of_nat (List.length coords) in
  if (n <? 4)%Z then []
  else
    let '(results, slice) :=
      clipAxis_loop coords k1 k2 axis isPolygon (Transform.steps2 0 (n - 2)) 0 ([], []) in
    let lastIdx := (n - 2)%Z in
    let lastA := if (axis =? 0)%Z then getF coords lastIdx else getF coords (lastIdx + 1) in
    let slice :=
      if (k1 <=? lastA) && (lastA <=? k2)
      then slice ++ [getF coords lastIdx; getF coords (lastIdx + 1)]
      else slice in
    let slice :=
      if isPolygon && (6 <=? Z.of_nat (List.length slice))%Z then
        let fx := getF slice 0 in
        let fy := getF slice 1 in
        let lx := getF slice (Z.of_nat (List.length slice) - 2) in
        let ly := getF slice (Z.of_nat (List.length slice) - 1) in
        if negb (fx =? lx) || negb (fy =? ly) then slice ++ [fx; fy] else slice
      else slice in
    if (4 <=? Z.of_nat (List.length slice))%Z then results ++ [slice] else results.

Definition clipRing (ring : list float) (minX minY maxX maxY : float) (isPolygon : bool)
    : list (list float) :=
  let xClipped := clipAxis ring minX maxX 0 isPolygon in
  match xClipped with
  | [] => []
  | _ => flat_map (fun segment => clipAxis segment minY maxY 1 isPolygon) xClipped
  end.

(** [for (let ringIdx = 0; ringIdx < rings.length; ringIdx++)]: the clipped
    rings of at least 2 pairs, each with the index of the ring it came
    from. *)
Fixpoint clipRings (rings : list (list float)) (minX minY maxX maxY : float)
    (isPolygon : bool) (ringIdx : Z) (clippedRings : list (list float))
    (ringOriginMap : list Z) : list (list float) * list Z :=
  match rings with
  | [] => (clippedRings, ringOriginMap)
  | ring :: rest =>
      let kept :=
        filter (fun c => (4 <=? Z.of_nat (List.length c))%Z)
          (clipRing ring minX minY maxX maxY isPolygon) in
      clipRings rest minX minY maxX maxY isPolygon (ringIdx + 1)%Z
        (clippedRings ++ kept) (ringOriginMap ++ map (fun _ => ringIdx) kept)
  end.

(** [offset += clippedRings[i].length; ends[i] = offset / 2], stored in a
    [Uint32Array]. *)
Fixpoint reassembleEnds (clippedRings : list (list float)) (offset : Z) : list Z :=
  match clippedRings with
  | [] => []
  | ring :: rest =>
      let offset := (offset + Z.of_nat (List.length ring))%Z in
      Js.ToUint32 (offset / 2)%Z :: reassembleEnds rest offset
  end.

(** The positions [i] with [exteriorOrigSet.has(ringOriginMap[i])]. *)
Fixpoint newPartStarts (parts : list Z) (ringOriginMap : list Z) (i : Z) : list Z :=
  match ringOriginMap with
  | [] => []
  | origin :: rest =>
      if existsb (Z.eqb origin) parts
      then i :: newPartStarts parts rest (i + 1)%Z
      else newPartStarts parts rest (i + 1)%Z
  end.

(** The body of the loop of [clipFeatures] for one feature. *)
Definition clipGeometry (feature : RawFeature) (clipBounds : BBox) : clipOutcome :=
  let fbox := featureBBox (raw_xy feature) in
  if (maxX fbox <? minX clipBounds) || (maxX clipBounds <? minX fbox)
     || (maxY fbox <? minY clipBounds) || (maxY clipBounds <? minY fbox)
  then Rejected
  else if (minX clipBounds <=? minX fbox) && (maxX fbox <=? maxX clipBounds)
          && (minY clipBounds <=? minY fbox) && (maxY fbox <=? maxY clipBounds)
  then Accepted
  else
    let isPolygon := isPolygonType (raw_type feature) in
    if isPointType (raw_type feature) then
      let clipped :=
        clipPoints (raw_xy feature) (minX clipBounds) (minY clipBounds)
          (maxX clipBounds) (maxY clipBounds) in
      match clipped with
      | [] => Rejected
      | _ => Clipped clipped (raw_ends feature) (raw_parts feature)
      end
    else
      let rings := extractRings (raw_xy feature) (raw_ends feature) in
      let '(clippedRings, ringOriginMap) :=
        clipRings rings (minX clipBounds) (minY clipBounds) (maxX clipBounds)
          (maxY clipBounds) isPolygon 0 [] [] in
      match clippedRings with
      | [] => Rejected
      | _ =>
          let xy := List.concat clippedRings in
          let ends := reassembleEnds clippedRings 0 in
          let newParts :=
            match raw_parts feature with
            | Some parts =>
                if isPolygon then
                  let starts := newPartStarts parts ringOriginMap 0 in
                  if (1 <? Z.of_nat (List.length starts))%Z
                  then Some (map Js.ToUint32 starts)
                  else None
                else None
            | None => None
            end in
          Clipped xy
            (if (1 <? Z.of_nat (List.length clippedRings))%Z then Some ends else None)
            newParts
      end.

End Clip.

(** ** Vocabulary for clipped geometry *)

Module ClipSpec.
Local Open Scope float_scope.

(** A number that is not [NaN]. *)
Definition number (x : float) : Prop := PrimFloat.leb x x = true.

(** The array holds pairs, and [P] holds of every pair. *)
Fixpoint allPairs (P : float -> float -> Prop) (xy : list float) : Prop :=
  match xy with
  | [] => True
  | x :: y :: rest => P x y /\ allPairs P rest
  | _ => False
  end.

Definition paired (xy : list float) : Prop := allPairs (fun _ _ => True) xy.

Definition numbers (xy : list float) : Prop :=
  allPairs (fun x y => number x /\ number y) xy.

(** Every pair of the segment has its coordinate on [axis] in [[k1, k2]]. *)
Definition inSlab (k1 k2 : float) (axis : Z) (segment : list float) : Prop :=
  allPairs (fun x y =>
              let c := if (axis =? 0)%Z then x else y in
              (k1 <=? c) = true /\ (c <=? k2) = true) segment.

(** The pairs of [xy] that pass the containment test of the box, in
    order. *)
Fixpoint keep (box : Types.BBox) (xy : list float) : list float :=
  match xy with
  | x :: y :: rest =>
      (if Clip.inside (Types.minX box) (Types.minY box) (Types.maxX box)
            (Types.maxY box) x y
       then [x; y] else []) ++ keep box rest
  | _ => []
  end.

(** The invariant of the loop of [clipAxis]: the finished segments have
    at least two pairs, and all pairs pushed so far satisfy [P]. *)
Definition sliced (P : float -> float -> Prop) (st : Clip.slices) : Prop :=
  Forall (fun segment => allPairs P segment /\ (4 <= List.length segment)%nat) (fst st)
  /\ allPairs P (snd st).

(** The last pair of the ring is its first pair again: the same two
    numbers, or numbers that compare equal. *)
Definition closed (ring : list float) : Prop :=
  let n := Z.of_nat (List.length ring) in
  (Clip.getF ring (n - 2) = Clip.getF ring 0 /\ Clip.getF ring (n - 1) = Clip.getF ring 1)
  \/ ((Clip.getF ring 0 =? Clip.getF ring (n - 2)) = true
      /\ (Clip.getF ring 1 =? Clip.getF ring (n - 1)) = true).

(** At most one ring, which is closed when it has three pairs or more. *)
Definition oneClosedRing (rings : list (list float)) : Prop :=
  match rings with
  | [] => True
  | [ring] => (6 <= List.length ring)%nat -> closed ring
  | _ => False
  end.

(** [ends] are the cumulative pair counts of rings of at least two pairs
    each, from [from] up to [total]. *)
Fixpoint ringEnds (from total : Z) (ends : list Z) : Prop :=
  match ends with
  | [] => from = total
  | e :: rest => (from + 2 <= e)%Z /\ ringEnds e total rest
  end.

End ClipSpec.

(** ** mvt/layer: the tags of a feature

    [keys] and [values] are the tables of the layer, [keyIndex] and
    [valueIndex] the [Map]s from a key, respectively from the identity
    string of a value, to its index.  A [Map<string, number>] is held as
    its entries. *)

Module Tags.
Import Types Layer.

(** [Number.isInteger] *)
Definition isInteger (n : float) : bool :=
  match Prim2SF n with
  | S754_zero _ => true
  | S754_finite _ m e => (0 <=? e) || (Z.pos m mod 2 ^ (- e) =? 0)
  | _ => false
  end.

Definition StringMap : Type := list (string * Z).

(** [map.get(key)]; [None] is [undefined]. *)
Fixpoint get (m : StringMap) (key : string) : option Z :=
  match m with
  | [] => None
  | (k, v) :: rest => if String.eqb k key then Some v else get rest key
  end.

(** [map.set(key, value)] *)
Fixpoint set (m : StringMap) (key : string) (value : Z) : StringMap :=
  match m with
  | [] => [(key, value)]
  | (k, v) :: rest =>
      if String.eqb k key then (k, value) :: rest else (k, v) :: set rest key value
  end.

Record tables : Type := mkTables {
  keys : list string;
  keyIndex : StringMap;
  values : list MvtValue;
  valueIndex : StringMap
}.

(** The tables that [buildMvtLayer] starts with. *)
Definition noTables : tables := mkTables [] [] [] [].

(** [index] holds exactly the identity strings of [items], each with the
    position of the item that has it. *)
Definition indexed {A : Type} (identity : A -> string) (items : list A)
    (index : StringMap) : Prop :=
  forall s k,
    get index s = Some k
    <-> 0 <= k /\ exists a, nth_error items (Z.to_nat k) = Some a /\ identity a = s.

(** The tables [t'] hold the keys and values of [t] at the same places. *)
Definition extends (t t' : tables) : Prop :=
  (exists more, keys t' = keys t ++ more) /\ (exists more, values t' = values t ++ more).

Section Build.

(** The string of a number in a template literal, and [String(value)] of
    a value that is not a string, a boolean or a number. *)
Variable numberToString : float -> string.
Variable stringOf : PropertyValue -> string.

Definition toMvtValue (value : PropertyValue) : MvtValue :=
  match value with
  | PString s => VString s
  | PBool b => VBool b
  | PNumber n =>
      if isInteger n then
        if PrimFloat.leb 0 n then VUint n else VInt n
      else VDouble n
  | _ => VString (stringOf value)
  end.

(** [`${v.type}:${v.value}`] *)
Definition mvtValueKey (v : MvtValue) : string :=
  match v with
  | VString s => "string:" ++ s
  | VDouble n => "double:" ++ numberToString n
  | VInt n => "int:" ++ numberToString n
  | VUint n => "uint:" ++ numberToString n
  | VBool b => "bool:" ++ (if b then "true" else "false")
  end.

(** [for (const [key, value] of properties)] *)
Fixpoint buildTags_loop (properties : PropertyMap) (t : tables) (tags : list Z)
    : list Z * tables :=
  match properties with
  | [] => (tags, t)
  | (key, value) :: rest =>
      match value with
      | PNull | PBinary _ => buildTags_loop rest t tags
      | _ =>
          let '(kIdx, keys', keyIndex') :=
            match get (keyIndex t) key with
            | Some kIdx => (kIdx, keys t, keyIndex t)
            | None =>
                let kIdx := Z.of_nat (List.length (keys t)) in
                (kIdx, keys t ++ [key], set (keyIndex t) key kIdx)
            end in
          let mvtVal := toMvtValue value in
          let valKey := mvtValueKey mvtVal in
          let '(vIdx, values', valueIndex') :=
            match get (valueIndex t) valKey with
            | Some vIdx => (vIdx, values t, valueIndex t)
            | None =>
                let vIdx := Z.of_nat (List.length (values t)) in
                (vIdx, values t ++ [mvtVal], set (valueIndex t) valKey vIdx)
            end in
          buildTags_loop rest (mkTables keys' keyIndex' values' valueIndex')
            (tags ++ [kIdx; vIdx])
      end
  end.

Definition buildTags (properties : PropertyMap) (t : tables) : list Z * tables :=
  buildTags_loop properties t [].

(** The index maps agree with the tables. *)
Definition synced (t : tables) : Prop :=
  indexed (fun key => key) (keys t) (keyIndex t)
  /\ indexed mvtValueKey (values t) (valueIndex t).

(** The properties that get a tag: those that are not [null] or binary. *)
Definition tagged (properties : PropertyMap) : PropertyMap :=
  filter (fun p => match snd p with PNull | PBinary _ => false | _ => true end) properties.

(** The tag pair [(k, v)] points at the key and at a value with the
    identity of the converted property value. *)
Definition pointsAt (t : tables) (p : string * PropertyValue) (tag : Z * Z) : Prop :=
  (0 <= fst tag /\ nth_error (keys t) (Z.to_nat (fst tag)) = Some (fst p))
  /\ (0 <= snd tag
      /\ exists val, nth_error (values t) (Z.to_nat (snd tag)) = Some val
                     /\ mvtValueKey val = mvtValueKey (toMvtValue (snd p))).

End Build.

End Tags.

(** ** connectors/s3: the path of an object

    A string is held by its UTF-8 bytes; ['/'] and ['s3://'] are ASCII, so
    the positions that [indexOf], [startsWith] and [slice] work with
    delimit the same pieces as in the UTF-16 string of the source. *)

Module S3.

(** [s.indexOf(c)]; [None] is [-1]. *)
Fixpoint indexOf (c : ascii) (s : string) : option nat :=
  match s with
  | EmptyString => None
  | String a rest =>
      if Ascii.eqb a c then Some O
      else match indexOf c rest with
           | Some i => Some (S i)
           | None => None
           end
  end.

(** [s.startsWith(prefix)] *)
Fixpoint startsWith (prefix s : string) : bool :=
  match prefix, s with
  | EmptyString, _ => true
  | String _ _, EmptyString => false
  | String a prefix', String b rest => Ascii.eqb a b && startsWith prefix' rest
  end.

(** [s.slice(n)] and [s.slice(0, n)] *)
Fixpoint sliceFrom (n : nat) (s : string) : string :=
  match n, s with
  | O, _ => s
  | S n', EmptyString => EmptyString
  | S n', String _ rest => sliceFrom n' rest
  end.

Fixpoint sliceTo (n : nat) (s : string) : string :=
  match n, s with
  | O, _ => EmptyString
  | S n', EmptyString => EmptyString
  | S n', String a rest => String a (sliceTo n' rest)
  end.

Definition parseS3Path (path : string) : result (string * string) :=
  let normalized := if startsWith "s3://" path then sliceFrom 5 path else path in
  match indexOf "/" normalized with
  | None => Throw (Error ("Invalid S3 path (no key): " ++ path))
  | Some slashIdx =>
      Ok (sliceTo slashIdx normalized, sliceFrom (slashIdx + 1) normalized)
  end.

End S3.

(** ** What every decoded geometry satisfies *)

Module FeatureSpec.
Import Types.

(** There are coordinates; [ends], when present, is not empty; [parts] is
    only present on a MultiPolygon, with two entries or more and together
    with [ends]. *)
Definition shaped (type : GeomType) (xy : list float) (ends parts : option (list Z))
    : Prop :=
  xy <> []
  /\ ends <> Some []
  /\ forall p, parts = Some p ->
       type = MultiPolygon /\ (2 <= List.length p)%nat /\ ends <> None.

Definition shapedGeometry (g : Feature.DecodedGeometry) : Prop :=
  shaped (Feature.geom_type g) (Feature.geom_xy g) (Feature.geom_ends g)
    (Feature.geom_parts g).

Definition shapedFeature (f : RawFeature) : Prop :=
  shaped (raw_type f) (raw_xy f) (raw_ends f) (raw_parts f).

(** The property names are distinct, and each one is the name of a column. *)
Definition named (columns : list ColumnMeta) (props : PropertyMap) : Prop :=
  NoDup (map fst props)
  /\ Forall (fun entry => In (fst entry) (map col_name columns)) props.

(** The invariant of the parts loop of [decodeGeometry]. *)
Definition partsOk (acc : Feature.partsAcc) : Prop :=
  Forall (fun xy => xy <> []) (Feature.allXy acc)
  /\ (Feature.allXy acc <> [] -> Feature.allEnds acc <> [])
  /\ List.length (Feature.partStarts acc) = List.length (Feature.allXy acc).

End FeatureSpec.

(* ================================================================== *)
(** * Properties *)
(* ================================================================== *)

(** ** JavaScript conversions *)

Section JsFacts.

Lemma ToInt32_small (x : Z) : - 2 ^ 31 <= x < 2 ^ 31 -> Js.ToInt32 x = x.
Proof.
  intros H. unfold Js.ToInt32. rewrite Z.mod_small; lia.
Qed.

Lemma ToInt32_mod128 (x : Z) : Js.ToInt32 x mod 128 = x mod 128.
Proof.
  unfold Js.ToInt32.
  pose proof (Z.div_mod (x + 2 ^ 31) (2 ^ 32) ltac:(lia)) as H.
  set (q := (x + 2 ^ 31) / 2 ^ 32) in *.
  replace ((x + 2 ^ 31) mod 2 ^ 32 - 2 ^ 31) with (x + (- q * 2 ^ 25) * 128) by lia.
  apply Z_mod_plus_full.
Qed.

Lemma ToUint32_small (x : Z) : 0 <= x < 2 ^ 32 -> Js.ToUint32 x = x.
Proof. intros H. unfold Js.ToUint32. apply Z.mod_small. assumption. Qed.

Lemma and_0x7f (val : Z) : Js.and val 0x7f = val mod 128.
Proof.
  unfold Js.and. rewrite (ToInt32_small 127) by lia.
  change 127 with (Z.ones 7). rewrite Z.land_ones by lia.
  apply ToInt32_mod128.
Qed.

Lemma or_0x80 (m : Z) : 0 <= m < 128 -> Js.or m 0x80 = m + 128.
Proof.
  intros H. unfold Js.or. rewrite !ToInt32_small by lia.
  pose proof (Z.add_lor_land m 128) as Hadd.
  assert (Hland : Z.land m 128 = 0).
  { rewrite <- (Z.mod_small m (2 ^ 7)) by lia.
    rewrite <- Z.land_ones by lia. rewrite <- Z.land_assoc. simpl.
    apply Z.land_0_r. }
  lia.
Qed.

Lemma shr_7 (val : Z) : Js.shr val 7 = (val mod 2 ^ 32) / 128.
Proof.
  unfold Js.shr, Js.ToUint32. change (7 mod 2 ^ 32 mod 32) with 7.
  rewrite Z.shiftr_div_pow2 by lia. reflexivity.
Qed.

End JsFacts.

(** ** Varints (pbf/writer) *)

Section Varint.

(** The loop of the non-negative branch on a value below [2^32]: with
    enough fuel it appends bytes that decode to the value. *)
Lemma writeVarint_loop_u32 (fuel : nat) :
  forall (val : Z) (out : list Z),
    0 <= val < 2 ^ 32 -> val < 128 * 2 ^ (7 * Z.of_nat fuel) ->
    exists bytes,
      Pbf.writeVarint_loop fuel val out = Some (out ++ bytes)
      /\ (forall rest, Wire.decodeVarint (bytes ++ rest) = Some (val, rest))
      /\ bytes <> [].
Proof.
  assert (Hlast : forall val out, 0 <= val <= 127 ->
            exists bytes,
              Some (out ++ [Js.ToUint8 val]) = Some (out ++ bytes)
              /\ (forall rest, Wire.decodeVarint (bytes ++ rest) = Some (val, rest))
              /\ bytes <> []).
  { intros val out Hv. exists [val]. unfold Js.ToUint8. rewrite Z.mod_small by lia.
    repeat split; [|discriminate]. intros rest. simpl.
    destruct (Z.ltb_spec val 128); [reflexivity|lia]. }
  induction fuel as [|fuel IH]; intros val out Hval Hfuel.
  - change (7 * Z.of_nat 0) with 0 in Hfuel. simpl Pbf.writeVarint_loop.
    destruct (Z.gtb_spec val 127); [lia|]. apply Hlast. lia.
  - simpl Pbf.writeVarint_loop. destruct (Z.gtb_spec val 127) as [Hgt|Hle].
    + rewrite shr_7, and_0x7f, (Z.mod_small val) by assumption.
      pose proof (Z.mod_pos_bound val 128 ltac:(lia)) as Hm.
      rewrite or_0x80 by assumption.
      unfold Js.ToUint8. rewrite (Z.mod_small (val mod 128 + 128)) by lia.
      pose proof (Z.div_mod val 128 ltac:(lia)) as Hdm.
      assert (Hq : 0 <= val / 128 < 2 ^ 32).
      { split; [apply Z.div_pos; lia|].
        apply Z.div_lt_upper_bound; lia. }
      destruct (IH (val / 128) (out ++ [val mod 128 + 128]) Hq) as (bytes & Heq & Hdec & _).
      { apply Z.div_lt_upper_bound; [lia|].
        replace (7 * Z.of_nat (S fuel)) with (7 + 7 * Z.of_nat fuel) in Hfuel by lia.
        rewrite Z.pow_add_r in Hfuel by lia. change (2 ^ 7) with 128 in Hfuel. lia. }
      exists ((val mod 128 + 128) :: bytes). rewrite Heq, <- app_assoc.
      repeat split; [|discriminate]. intros rest.
      rewrite <- app_comm_cons. cbn [Wire.decodeVarint].
      destruct (Z.ltb_spec (val mod 128 + 128) 128); [lia|].
      rewrite Hdec. f_equal. f_equal. lia.
    + apply Hlast. lia.
Qed.

(** Round trip below [2^32]. *)
Lemma varintBytes_u32 (val : Z) (out : list Z) :
  0 <= val < 2 ^ 32 ->
  exists bytes,
    Pbf.varintBytes val out = Some (out ++ bytes)
    /\ (forall rest, Wire.decodeVarint (bytes ++ rest) = Some (val, rest))
    /\ bytes <> [].
Proof.
  intros Hval. unfold Pbf.varintBytes.
  destruct (Z.ltb_spec val 0); [lia|].
  apply writeVarint_loop_u32; [assumption|].
  change (128 * 2 ^ (7 * Z.of_nat 5)) with (2 ^ 42). lia.
Qed.

End Varint.

(** C1 (the code departs from the claim).  [writeVarint] keeps only the
    low 32 bits of a non-negative value after its first byte: for
    [v = 2^32] it writes the two bytes [0x80 0x00], which the standard
    base-128 decoding reads back as 0, not as [v].  (Below [2^32] the
    round trip holds, [varintBytes_u32].) *)
Theorem writeVarint_drops_high_bits :
  Pbf.writeVarint 4294967296 Pbf.newWriter = Some (Pbf.mkWriter [128; 0] [])
  /\ Wire.decodeVarint [128; 0] = Some (0, [])
  /\ Wire.decodeVarint [128; 0] <> Some (4294967296, []).
Proof.
  split; [vm_compute; reflexivity|].
  split; [vm_compute; reflexivity|].
  vm_compute. discriminate.
Qed.

(** ** Level computation (fgb/header, fgb/index) *)

Section LevelComputation.

Lemma ceilDiv_decreases (n d : Z) : 1 < n -> 2 <= d -> 1 <= Js.ceilDiv n d < n.
Proof.
  intros Hn Hd. unfold Js.ceilDiv.
  pose proof (Z.div_mod (- n) d ltac:(lia)) as Hdm.
  pose proof (Z.mod_pos_bound (- n) d ltac:(lia)) as Hr.
  set (q := (- n) / d) in *. set (r := (- n) mod d) in *.
  assert (Hq1 : q <= -1).
  { destruct (Z_le_gt_dec q (-1)) as [|Hq]; [assumption|].
    assert (0 <= d * q) by (apply Z.mul_nonneg_nonneg; lia). lia. }
  assert (Hq2 : - n < q).
  { destruct (Z_lt_le_dec (- n) q) as [|Hq]; [assumption|].
    assert (d * q <= d * (- n)) by (apply Z.mul_le_mono_nonneg_l; lia).
    assert (2 * (n - 1) <= d * (n - 1)) by (apply Z.mul_le_mono_nonneg_r; lia).
    lia. }
  lia.
Qed.

Lemma calcIndexSize_loop_enough (d : Z) (Hd : 2 <= d) :
  forall (fuel : nat) (n total : Z),
    n <= Z.of_nat fuel -> exists t, Header.calcIndexSize_loop fuel d n total = Some t.
Proof.
  induction fuel as [|fuel IH]; intros n total Hn; simpl.
  - destruct (n >? 1) eqn:E; [lia | eauto].
  - destruct (n >? 1) eqn:E; [|eauto].
    destruct (d =? 0) eqn:E0; [lia|].
    apply IH. pose proof (ceilDiv_decreases n d). lia.
Qed.

Lemma levelNumNodes_loop_enough (d : Z) (Hd : 2 <= d) :
  forall (fuel : nat) (n : Z) (levels : list Z) (num : Z),
    n <= Z.of_nat fuel ->
    exists levels' num',
      Index.levelNumNodes_loop fuel d n levels num = Some (levels', num')
      /\ (levels <> [] -> levels' <> [])
      /\ (1 <= n -> last levels n = n -> last levels' 1 = 1).
Proof.
  induction fuel as [|fuel IH]; intros n levels num Hn; simpl.
  - destruct (n >? 1) eqn:E; [lia|]. exists levels, num.
    repeat split; auto. intros H1 Hl. assert (n = 1) by lia. subst n.
    exact Hl.
  - destruct (n >? 1) eqn:E.
    + destruct (d =? 0) eqn:E0; [lia|].
      pose proof (ceilDiv_decreases n d ltac:(lia) Hd) as Hc.
      destruct (IH (Js.ceilDiv n d) (levels ++ [Js.ceilDiv n d]) (num + Js.ceilDiv n d))
        as (levels' & num' & Heq & Hne & Hlast); [lia|].
      exists levels', num'. repeat split; auto.
      * intros _. apply Hne. destruct levels; discriminate.
      * intros _ _. apply Hlast; [lia|]. apply last_last.
    + exists levels, num. repeat split; auto. intros H1 Hl.
      assert (n = 1) by lia. subst n.
      exact Hl.
Qed.

Lemma assignBounds_app (l : list Z) :
  forall off acc, Index.assignBounds l off acc = Index.assignBounds l off [] ++ acc.
Proof.
  induction l as [|c l IH]; intros off acc; simpl; [reflexivity|].
  rewrite (IH _ ((off, off + c) :: acc)), (IH _ [(off, off + c)]).
  rewrite <- app_assoc. reflexivity.
Qed.

Lemma assignBounds_root (levels : list Z) (d : Z * Z) :
  levels <> [] ->
  last (Index.assignBounds (rev levels) 0 []) d = (0, 0 + last levels 1).
Proof.
  intros Hne. destruct (exists_last Hne) as (l & c & ->).
  rewrite rev_app_distr, last_last. simpl.
  rewrite assignBounds_app. apply last_last.
Qed.

Lemma calcIndexSize_loop_stuck (fuel : nat) :
  forall n total, 1 < n -> Header.calcIndexSize_loop fuel 1 n total = None.
Proof.
  induction fuel as [|fuel IH]; intros n total Hn; simpl;
    destruct (n >? 1) eqn:E; try lia; try reflexivity.
  replace (Js.ceilDiv n 1) with n by (unfold Js.ceilDiv; rewrite Z.div_1_r; lia).
  apply IH; assumption.
Qed.

Lemma levelNumNodes_loop_stuck (fuel : nat) :
  forall n levels num, 1 < n -> Index.levelNumNodes_loop fuel 1 n levels num = None.
Proof.
  induction fuel as [|fuel IH]; intros n levels num Hn; simpl;
    destruct (n >? 1) eqn:E; try lia; try reflexivity.
  replace (Js.ceilDiv n 1) with n by (unfold Js.ceilDiv; rewrite Z.div_1_r; lia).
  apply IH; assumption.
Qed.

(** C10. For [featuresCount >= 0] and [nodeSize >= 2] every iteration
    [n := ceil(n / nodeSize)] of the bottom-up level computation strictly
    decreases [n] while staying at least 1, so with enough fuel (the
    feature count bounds the iterations) [calcIndexSize] and
    [computeLevelBounds] return; the bounds list is not empty and, when
    there is a feature, its root level is the single node [0, 1).  The
    bound on [nodeSize] is needed: with [nodeSize = 1] and more than one
    feature neither function returns, whatever the fuel. *)
Theorem level_computation_terminates (featuresCount nodeSize : Z)
    (Hfc : 0 <= featuresCount) (Hns : 2 <= nodeSize) :
  (forall n, 1 < n -> 1 <= Js.ceilDiv n nodeSize < n) /\
  (forall fuel, (Z.to_nat featuresCount <= fuel)%nat ->
     (exists size, Header.calcIndexSize fuel featuresCount nodeSize = Some size) /\
     (exists bounds,
        Index.computeLevelBounds fuel featuresCount nodeSize = Some bounds
        /\ bounds <> []
        /\ (1 <= featuresCount -> last bounds (0, 0) = (0, 1)))) /\
  (forall fuel n, 1 < n ->
     Header.calcIndexSize fuel n 1 = None /\ Index.computeLevelBounds fuel n 1 = None).
Proof.
  split; [|split].
  - intros n Hn. apply ceilDiv_decreases; assumption.
  - intros fuel Hfuel. split.
    + unfold Header.calcIndexSize.
      destruct ((featuresCount =? 0) || (nodeSize =? 0)); [eauto|].
      destruct (calcIndexSize_loop_enough nodeSize Hns fuel featuresCount featuresCount)
        as [t Ht]; [lia|].
      rewrite Ht. eauto.
    + unfold Index.computeLevelBounds.
      destruct (levelNumNodes_loop_enough nodeSize Hns fuel featuresCount
                  [featuresCount] featuresCount)
        as (levels & num & Heq & Hne & Hlast); [lia|].
      rewrite Heq. eexists. split; [reflexivity|].
      assert (Hl : levels <> []) by (apply Hne; discriminate).
      split.
      * destruct (exists_last Hl) as (l & c & ->).
        rewrite rev_app_distr. simpl. rewrite assignBounds_app.
        intros Habs. apply app_eq_nil in Habs. destruct Habs; discriminate.
      * intros H1. rewrite assignBounds_root by assumption.
        rewrite Hlast; auto.
  - intros fuel n Hn. split.
    + unfold Header.calcIndexSize.
      replace (n =? 0) with false by (symmetry; apply Z.eqb_neq; lia). simpl.
      rewrite calcIndexSize_loop_stuck by assumption. reflexivity.
    + unfold Index.computeLevelBounds.
      rewrite levelNumNodes_loop_stuck by assumption. reflexivity.
Qed.

Lemma level_computation_terminates_witness :
  (exists size, Header.calcIndexSize 3221 3221 16 = Some size) /\
  Index.computeLevelBounds 3221 3221 16
    = Some [(216, 3437); (14, 216); (1, 14); (0, 1)].
Proof.
  assert (Hfc : 0 <= 3221) by lia.
  assert (Hns : 2 <= 16) by lia.
  pose proof (level_computation_terminates 3221 16 Hfc Hns) as H.
  split.
  - apply (proj2 H). vm_compute. lia.
  - vm_compute. reflexivity.
Defined.

End LevelComputation.

(** ** Merging of byte ranges (fgb/index) *)

Section MergeRanges.
Import Index RangeSpec.

Variable gap : Z.
Hypothesis gap_nonneg : 0 <= gap.

Lemma covered_app (l1 l2 : list ByteRange) (b : Z) :
  covered (l1 ++ l2) b <-> covered l1 b \/ covered l2 b.
Proof. unfold covered. apply Exists_app. Qed.

Lemma covered_cons (r : ByteRange) (l : list ByteRange) (b : Z) :
  covered (r :: l) b <-> covers r b \/ covered l b.
Proof. unfold covered. apply Exists_cons. Qed.

Lemma covered_nil (b : Z) : ~ covered [] b.
Proof. unfold covered. intros H. inversion H. Qed.

Lemma in_gap_from_nil (e b : Z) : ~ in_gap_from gap e [] b.
Proof. intros (l1 & r & l2 & Heq & _). destruct l1; discriminate. Qed.

Lemma in_gap_from_cons (e : Z) (curr : ByteRange) (rest : list ByteRange) (b : Z) :
  in_gap_from gap e (curr :: rest) b <->
  (e <= b < offset curr /\ offset curr - e <= gap)
  \/ in_gap_from gap (Z.max e (endOf curr)) rest b.
Proof.
  split.
  - intros (l1 & r & l2 & Heq & Hb).
    destruct l1 as [|c l1]; simpl in Heq; injection Heq as <- Hrest.
    + left. exact Hb.
    + right. exists l1, r, l2. split; [assumption|exact Hb].
  - intros [Hb | (l1 & r & l2 & Heq & Hb)].
    + exists [], curr, rest. split; [reflexivity|exact Hb].
    + exists (curr :: l1), r, l2. split; [simpl; congruence|exact Hb].
Qed.

(** Coverage invariant of the loop. *)
Lemma mergeRanges_loop_covered (rest : list ByteRange) :
  forall (closed : list ByteRange) (prev : ByteRange),
    ascending (prev :: rest) ->
    Forall (fun r => 0 <= length r) (prev :: rest) ->
    forall b,
      covered (mergeRanges_loop gap closed prev rest) b <->
      covered closed b \/ covers prev b \/ covered rest b
      \/ in_gap_from gap (endOf prev) rest b.
Proof.
  induction rest as [|curr rest IH]; intros closed prev Hasc Hlen b; simpl.
  - rewrite covered_app, covered_cons.
    pose proof (covered_nil b). pose proof (in_gap_from_nil (endOf prev) b). tauto.
  - apply StronglySorted_inv in Hasc. destruct Hasc as [Hasc Hprev].
    pose proof (StronglySorted_inv Hasc) as [Hasc' Hcurr].
    inversion Hprev as [|? ? Hpc Hprev']; subst.
    inversion Hlen as [|? ? Hlp Hlen']; subst.
    inversion Hlen' as [|? ? Hlc Hlen'']; subst.
    rewrite in_gap_from_cons, covered_cons.
    destruct (offset curr <=? offset prev + length prev + gap) eqn:E.
    + apply Z.leb_le in E.
      rewrite IH; simpl.
      * unfold covers, endOf; simpl.
        replace (offset prev + (Z.max (offset prev + length prev) (offset curr + length curr)
                                - offset prev))
          with (Z.max (offset prev + length prev) (offset curr + length curr)) by lia.
        unfold endOf. intuition lia.
      * constructor; assumption.
      * constructor; [simpl; lia | assumption].
    + apply Z.leb_gt in E.
      rewrite IH by assumption.
      rewrite covered_app, covered_cons.
      replace (Z.max (endOf prev) (endOf curr)) with (endOf curr)
        by (unfold endOf; lia).
      pose proof (covered_nil b). unfold covers, endOf. intuition lia.
Qed.

(** Separation invariant of the loop. *)
Lemma separated_snoc (l : list ByteRange) (r : ByteRange) :
  separated gap l ->
  Forall (fun a => offset r - endOf a >= gap + 1) l ->
  separated gap (l ++ [r]).
Proof.
  unfold separated. induction l as [|a l IH]; intros Hs Hf; simpl.
  - constructor; constructor.
  - apply StronglySorted_inv in Hs. destruct Hs as [Hs Ha].
    inversion Hf; subst.
    constructor; [apply IH; assumption|].
    apply Forall_app. split; [assumption|]. constructor; [assumption|constructor].
Qed.

Lemma mergeRanges_loop_separated (rest : list ByteRange) :
  forall (closed : list ByteRange) (prev : ByteRange),
    ascending (prev :: rest) ->
    separated gap closed ->
    Forall (fun a => offset prev - endOf a >= gap + 1) closed ->
    separated gap (mergeRanges_loop gap closed prev rest).
Proof.
  induction rest as [|curr rest IH]; intros closed prev Hasc Hsep Hcl; simpl.
  - apply separated_snoc; assumption.
  - apply StronglySorted_inv in Hasc. destruct Hasc as [Hasc Hprev].
    pose proof (StronglySorted_inv Hasc) as [Hasc' Hcurr].
    inversion Hprev as [|? ? Hpc Hprev']; subst.
    destruct (offset curr <=? offset prev + length prev + gap) eqn:E.
    + apply IH; simpl; try assumption. constructor; assumption.
    + apply Z.leb_gt in E. apply IH; try assumption.
      * apply separated_snoc; assumption.
      * apply Forall_app. split.
        -- eapply Forall_impl; [|exact Hcl]. simpl. intros a Ha. lia.
        -- constructor; [unfold endOf; lia|constructor].
Qed.

(** The loop is a left fold of [coalesce]. *)
Lemma coalesce_snoc (closed : list ByteRange) (prev curr : ByteRange) :
  coalesce gap (closed ++ [prev]) curr =
  if offset curr <=? endOf prev + gap then
    closed ++ [mkRange (offset prev) (Z.max (endOf prev) (endOf curr) - offset prev)]
  else (closed ++ [prev]) ++ [curr].
Proof.
  unfold coalesce. rewrite rev_app_distr. simpl.
  rewrite removelast_last. reflexivity.
Qed.

Lemma mergeRanges_loop_last (rest : list ByteRange) :
  forall (closed : list ByteRange) (prev : ByteRange),
  exists closed' prev', mergeRanges_loop gap closed prev rest = closed' ++ [prev'].
Proof.
  induction rest as [|curr rest IH]; intros closed prev; simpl.
  - eauto.
  - destruct (offset curr <=? offset prev + length prev + gap); apply IH.
Qed.

Lemma mergeRanges_loop_snoc (rest : list ByteRange) :
  forall (closed : list ByteRange) (prev curr : ByteRange),
    mergeRanges_loop gap closed prev (rest ++ [curr]) =
    coalesce gap (mergeRanges_loop gap closed prev rest) curr.
Proof.
  induction rest as [|c rest IH]; intros closed prev curr; simpl.
  - rewrite coalesce_snoc. unfold endOf.
    destruct (offset curr <=? offset prev + length prev + gap); reflexivity.
  - destruct (offset c <=? offset prev + length prev + gap); apply IH.
Qed.

Lemma fold_left_max_coveredEnd (l : list ByteRange) :
  forall e, 0 <= e ->
    fold_left (fun e r => Z.max e (endOf r)) l e = Z.max e (coveredEnd l).
Proof.
  induction l as [|a l IH]; intros e He; simpl.
  - unfold coveredEnd. simpl. lia.
  - rewrite IH by lia. unfold coveredEnd. simpl. lia.
Qed.

Lemma in_small_gap_cons (first : ByteRange) (rest : list ByteRange) (b : Z) :
  0 <= endOf first ->
  in_small_gap gap (first :: rest) b <-> in_gap_from gap (endOf first) rest b.
Proof.
  intros Hfirst. split.
  - intros (l1 & r & l2 & Heq & Hne & Hb & Hg).
    destruct l1 as [|c l1]; [contradiction|].
    simpl in Heq. injection Heq as <- Hrest.
    exists l1, r, l2. split; [assumption|]. simpl.
    rewrite fold_left_max_coveredEnd by assumption.
    unfold coveredEnd in *. simpl in *. lia.
  - intros (l1 & r & l2 & Heq & Hb).
    exists (first :: l1), r, l2. split; [simpl; congruence|].
    split; [discriminate|]. simpl in Hb.
    rewrite fold_left_max_coveredEnd in Hb by assumption.
    unfold coveredEnd in *. simpl in *. lia.
Qed.

Lemma in_small_gap_short (l : list ByteRange) (b : Z) :
  (List.length l <= 1)%nat -> ~ in_small_gap gap l b.
Proof.
  intros Hl (l1 & r & l2 & Heq & Hne & _). subst l.
  rewrite length_app in Hl. simpl in Hl.
  destruct l1; [contradiction|]. simpl in Hl. lia.
Qed.

Lemma mergeRanges_gap_covered (ranges : list ByteRange) :
  ascending ranges -> Forall wf ranges ->
  forall b, covered (mergeRanges_gap ranges gap) b
            <-> covered ranges b \/ in_small_gap gap ranges b.
Proof.
  intros Hasc Hwf b.
  destruct ranges as [|first [|second rest]].
  - assert (Hs : ~ in_small_gap gap [] b) by (apply in_small_gap_short; simpl; lia).
    simpl. tauto.
  - assert (Hs : ~ in_small_gap gap [first] b) by (apply in_small_gap_short; simpl; lia).
    simpl. tauto.
  - unfold mergeRanges_gap.
    assert (Hlen : Forall (fun r => 0 <= length r) (first :: second :: rest)).
    { eapply Forall_impl; [|exact Hwf]. unfold wf. tauto. }
    rewrite (mergeRanges_loop_covered _ [] first Hasc Hlen).
    rewrite in_small_gap_cons.
    + rewrite (covered_cons first). pose proof (covered_nil b). tauto.
    + inversion Hwf as [|? ? [? ?] ?]; subst. unfold endOf. lia.
Qed.

Lemma mergeRanges_gap_separated (ranges : list ByteRange) :
  ascending ranges -> separated gap (mergeRanges_gap ranges gap).
Proof.
  intros Hasc. destruct ranges as [|first [|second rest]].
  - constructor.
  - constructor; constructor.
  - apply mergeRanges_loop_separated; [assumption|constructor|constructor].
Qed.

Lemma mergeRanges_gap_snoc (l : list ByteRange) (curr : ByteRange) :
  l <> [] ->
  mergeRanges_gap (l ++ [curr]) gap = coalesce gap (mergeRanges_gap l gap) curr.
Proof.
  intros Hne. destruct l as [|first [|second rest]]; [contradiction| |].
  - change (mergeRanges_gap [first] gap) with ([] ++ [first]).
    rewrite (coalesce_snoc [] first curr). unfold endOf. simpl.
    destruct (offset curr <=? offset first + length first + gap); reflexivity.
  - change (mergeRanges_gap ((first :: second :: rest) ++ [curr]) gap)
      with (mergeRanges_loop gap [] first ((second :: rest) ++ [curr])).
    apply mergeRanges_loop_snoc.
Qed.

End MergeRanges.

(** C6. For input ranges sorted ascending by offset (non-negative offsets
    and lengths), the bytes covered by [mergeRanges] are exactly the bytes
    of the input ranges together with the inter-range gaps of at most
    [GAP = 512] bytes; every output range starts at least [GAP + 1] bytes
    after the end of every earlier output range; and each further input
    range is coalesced into the last merged range [prev] precisely when it
    starts at most [GAP] bytes after the end of [prev], the merged length
    being [max(prevEnd, currEnd) - prevStart]. *)
Theorem mergeRanges_correct (ranges : list Index.ByteRange)
    (Hsorted : RangeSpec.ascending ranges) (Hwf : Forall RangeSpec.wf ranges) :
  (forall b, RangeSpec.covered (Index.mergeRanges ranges) b
             <-> RangeSpec.covered ranges b
                 \/ RangeSpec.in_small_gap Index.GAP ranges b) /\
  RangeSpec.separated Index.GAP (Index.mergeRanges ranges) /\
  (forall l curr, ranges = l ++ [curr] -> l <> [] ->
     Index.mergeRanges ranges
     = RangeSpec.coalesce Index.GAP (Index.mergeRanges l) curr).
Proof.
  assert (Hgap : 0 <= Index.GAP) by (unfold Index.GAP; lia).
  split; [|split].
  - apply mergeRanges_gap_covered; assumption.
  - apply mergeRanges_gap_separated; assumption.
  - intros l curr -> Hne. apply mergeRanges_gap_snoc; assumption.
Qed.

Lemma mergeRanges_correct_witness :
  Index.mergeRanges
    [Index.mkRange 0 1000; Index.mkRange 10 1; Index.mkRange 1200 5; Index.mkRange 1718 2]
  = [Index.mkRange 0 1205; Index.mkRange 1718 2]
  /\ RangeSpec.separated Index.GAP
       (Index.mergeRanges
          [Index.mkRange 0 1000; Index.mkRange 10 1; Index.mkRange 1200 5;
           Index.mkRange 1718 2]).
Proof.
  split; [reflexivity|].
  apply (mergeRanges_correct
           [Index.mkRange 0 1000; Index.mkRange 10 1; Index.mkRange 1200 5;
            Index.mkRange 1718 2]).
  - unfold RangeSpec.ascending.
    repeat (constructor; [|repeat constructor; simpl; lia]). constructor.
  - repeat constructor; simpl; lia.
Defined.

(** ** Flat coordinate arrays and their points *)

Section FlatArrays.
Import RingSpec.

Lemma flat_app (a b : list point) : flat (a ++ b) = flat a ++ flat b.
Proof.
  induction a as [|[x y] a IH]; simpl; [reflexivity|]. rewrite IH. reflexivity.
Qed.

Lemma length_flat (a : list point) :
  Z.of_nat (List.length (flat a)) = 2 * Z.of_nat (List.length a).
Proof.
  induction a as [|[x y] a IH]; simpl List.length; [reflexivity|]. lia.
Qed.

Lemma pairs_flat (a : list point) : pairs (flat a) = a.
Proof.
  induction a as [|[x y] a IH]; simpl; [reflexivity|]. rewrite IH. reflexivity.
Qed.

Lemma get_app_r (a b : list Z) (i : Z) :
  i = Z.of_nat (List.length a) -> Num.get (a ++ b) i = Num.get b 0.
Proof.
  intros ->. unfold Num.get.
  destruct (Z.ltb_spec (Z.of_nat (List.length a)) 0); [lia|].
  rewrite Nat2Z.id, nth_error_app2 by lia. rewrite Nat.sub_diag. reflexivity.
Qed.

Lemma get_flat_x (a b : list point) (x y i : Z) :
  i = 2 * Z.of_nat (List.length a) ->
  Num.get (flat (a ++ (x, y) :: b)) i = Some x.
Proof.
  intros ->. rewrite flat_app. rewrite get_app_r by (rewrite length_flat; lia).
  reflexivity.
Qed.

Lemma get_flat_y (a b : list point) (x y i : Z) :
  i = 2 * Z.of_nat (List.length a) + 1 ->
  Num.get (flat (a ++ (x, y) :: b)) i = Some y.
Proof.
  intros ->. rewrite flat_app. cbn [flat].
  change (flat a ++ x :: y :: flat b) with (flat a ++ [x] ++ y :: flat b).
  rewrite app_assoc. rewrite get_app_r; [reflexivity|].
  rewrite length_app. simpl List.length. pose proof (length_flat a). lia.
Qed.

Lemma set_app_r (a b : list Z) (i : Z) (v : Z) :
  i = Z.of_nat (List.length a) -> b <> [] ->
  Num.set_i32 (a ++ b) i (Some v) = a ++ Js.ToInt32 v :: tl b.
Proof.
  intros -> Hb. unfold Num.set_i32. destruct b as [|b0 b]; [contradiction|].
  rewrite length_app. simpl List.length.
  destruct (Z.leb_spec 0 (Z.of_nat (List.length a))); [|lia].
  destruct (Z.ltb_spec (Z.of_nat (List.length a))
              (Z.of_nat (List.length a + S (List.length b)))); [|lia].
  simpl andb. cbv iota. rewrite Nat2Z.id.
  rewrite firstn_app, Nat.sub_diag, firstn_all. simpl firstn. rewrite app_nil_r.
  replace (S (List.length a)) with (List.length a + 1)%nat by lia.
  rewrite skipn_app. rewrite skipn_all2 by lia.
  replace (List.length a + 1 - List.length a)%nat with 1%nat by lia.
  reflexivity.
Qed.

Lemma set_flat_x (a b : list point) (x y v i : Z) :
  i = 2 * Z.of_nat (List.length a) -> int32 v ->
  Num.set_i32 (flat (a ++ (x, y) :: b)) i (Some v) = flat (a ++ (v, y) :: b).
Proof.
  intros -> Hv. rewrite !flat_app. cbn [flat].
  rewrite set_app_r; [|rewrite length_flat; lia|discriminate].
  rewrite ToInt32_small by exact Hv. reflexivity.
Qed.

Lemma set_flat_y (a b : list point) (x y v i : Z) :
  i = 2 * Z.of_nat (List.length a) + 1 -> int32 v ->
  Num.set_i32 (flat (a ++ (x, y) :: b)) i (Some v) = flat (a ++ (x, v) :: b).
Proof.
  intros -> Hv. rewrite !flat_app. cbn [flat].
  change (flat a ++ x :: y :: flat b) with (flat a ++ [x] ++ y :: flat b).
  rewrite app_assoc. rewrite set_app_r; [| |discriminate].
  - rewrite ToInt32_small by exact Hv. rewrite <- app_assoc. reflexivity.
  - rewrite length_app. simpl List.length. pose proof (length_flat a). lia.
Qed.

End FlatArrays.

(** ** The shoelace sum under reversal *)

Section Shoelace.
Import RingSpec.

Lemma term_antisym (a b : point) : term a b = - term b a.
Proof. unfold term. ring. Qed.

Lemma term_diag (a : point) : term a a = 0.
Proof. unfold term. ring. Qed.

Lemma chain_path (pts : list point) :
  forall prev, chain prev pts = path (prev :: pts).
Proof.
  induction pts as [|p pts IH]; intros prev; [reflexivity|].
  cbn [chain path]. rewrite IH. reflexivity.
Qed.

Lemma path_snoc (l : list point) :
  forall x, path (l ++ [x]) = path l + term x (last l x).
Proof.
  induction l as [|a l IH]; intros x.
  - cbn. rewrite term_diag. reflexivity.
  - destruct l as [|b l].
    + cbn. lia.
    + change (path ((a :: b :: l) ++ [x])) with (term b a + path ((b :: l) ++ [x])).
      rewrite IH.
      change (path (a :: b :: l)) with (term b a + path (b :: l)).
      change (last (a :: b :: l) x) with (last (b :: l) x). lia.
Qed.

Lemma path_rev (l : list point) : path (rev l) = - path l.
Proof.
  induction l as [|a l IH]; [reflexivity|].
  destruct l as [|b l]; [reflexivity|].
  change (rev (a :: b :: l)) with (rev (b :: l) ++ [a]).
  rewrite path_snoc, IH.
  change (rev (b :: l)) with (rev l ++ [b]). rewrite last_last.
  change (path (a :: b :: l)) with (term b a + path (b :: l)).
  rewrite (term_antisym a b). lia.
Qed.

Lemma shoelace_path (p0 : point) (l : list point) :
  shoelace (p0 :: l) = path ((p0 :: l) ++ [p0]).
Proof.
  unfold shoelace. rewrite chain_path, path_snoc.
  change (path (last (p0 :: l) p0 :: p0 :: l))
    with (term p0 (last (p0 :: l) p0) + path (p0 :: l)).
  lia.
Qed.

Lemma shoelace_rev (l : list point) : shoelace (rev l) = - shoelace l.
Proof.
  destruct l as [|p0 l]; [reflexivity|].
  rewrite shoelace_path.
  destruct (rev (p0 :: l)) as [|q0 r] eqn:Hrev.
  { apply (f_equal (@List.length point)) in Hrev.
    rewrite length_rev in Hrev. discriminate. }
  unfold shoelace. rewrite chain_path.
  assert (Hlast : last (q0 :: r) q0 = p0).
  { rewrite <- Hrev. change (rev (p0 :: l)) with (rev l ++ [p0]). apply last_last. }
  rewrite Hlast, <- Hrev.
  change (p0 :: rev (p0 :: l)) with (rev [p0] ++ rev (p0 :: l)).
  rewrite <- rev_app_distr. apply path_rev.
Qed.

End Shoelace.

(** ** Winding order (geometry/transform) *)

Section Winding.
Import RingSpec.

Lemma signedArea_loop_chain (pre post : list point) :
  forall (todo done : list point) (prev : point) (i j a : Z),
    i = 2 * Z.of_nat (List.length (pre ++ done)) ->
    Num.get (flat (pre ++ done ++ todo ++ post)) j = Some (fst prev) ->
    Num.get (flat (pre ++ done ++ todo ++ post)) (j + 1) = Some (snd prev) ->
    Transform.signedArea_loop (flat (pre ++ done ++ todo ++ post))
      (List.length todo) i j (Some a)
    = Some (a + chain prev todo).
Proof.
  induction todo as [|[x y] todo IH]; intros done prev i j a Hi Hx Hy.
  - cbn. f_equal. lia.
  - cbn [Transform.signedArea_loop List.length chain].
    assert (Hdec : pre ++ done ++ ((x, y) :: todo) ++ post
                   = (pre ++ done) ++ (x, y) :: (todo ++ post)).
    { rewrite <- app_assoc. reflexivity. }
    assert (Hgx : Num.get (flat (pre ++ done ++ ((x, y) :: todo) ++ post)) i = Some x).
    { rewrite Hdec. apply get_flat_x. exact Hi. }
    assert (Hgy : Num.get (flat (pre ++ done ++ ((x, y) :: todo) ++ post)) (i + 1)
                  = Some y).
    { rewrite Hdec. apply get_flat_y. lia. }
    rewrite Hgx, Hgy, Hx, Hy. cbn [Num.add Num.sub Num.mul].
    assert (Hdec' : pre ++ done ++ ((x, y) :: todo) ++ post
                    = pre ++ (done ++ [(x, y)]) ++ todo ++ post).
    { rewrite <- !app_assoc. reflexivity. }
    rewrite Hdec' in *.
    rewrite (IH (done ++ [(x, y)]) (x, y) (i + 2) i); try assumption.
    + f_equal. unfold term. cbn [fst snd]. lia.
    + rewrite app_assoc, length_app. cbn [List.length]. lia.
Qed.

Lemma steps2_pairs (s n : Z) : 0 <= n -> Transform.steps2 s (s + 2 * n) = Z.to_nat n.
Proof.
  intros Hn. unfold Transform.steps2. f_equal.
  replace (s + 2 * n - s + 1) with (1 + n * 2) by lia.
  rewrite Z.div_add by lia. reflexivity.
Qed.

(** On a ring laid out between [pre] and [post], [signedArea] is the
    shoelace sum of the ring. *)
Lemma signedArea_ring (pre ring post : list point) (s e : Z) :
  s = 2 * Z.of_nat (List.length pre) ->
  e = 2 * Z.of_nat (List.length pre + List.length ring) ->
  Transform.signedArea (flat (pre ++ ring ++ post)) s e = Some (shoelace ring).
Proof.
  intros Hs He. unfold Transform.signedArea.
  replace e with (s + 2 * Z.of_nat (List.length ring)) by lia.
  rewrite steps2_pairs, Nat2Z.id by lia.
  destruct ring as [|p0 r]; [reflexivity|].
  assert (Hne : p0 :: r <> []) by discriminate.
  pose proof (app_removelast_last p0 Hne) as Hsplit.
  set (q := last (p0 :: r) p0) in *. set (init := removelast (p0 :: r)) in *.
  assert (Hlen : List.length (p0 :: r) = S (List.length init)).
  { rewrite Hsplit, length_app. cbn [List.length]. lia. }
  assert (Hdec : pre ++ (p0 :: r) ++ post = (pre ++ init) ++ (fst q, snd q) :: post).
  { rewrite Hsplit, <- !app_assoc. destruct q. reflexivity. }
  pose proof (signedArea_loop_chain pre post (p0 :: r) [] q s
                (s + 2 * Z.of_nat (List.length (p0 :: r)) - 2) 0) as H.
  rewrite !app_nil_l in H. rewrite H.
  - unfold shoelace. fold q. f_equal.
  - rewrite app_nil_r. exact Hs.
  - rewrite Hdec. apply get_flat_x. rewrite length_app. lia.
  - rewrite Hdec. apply get_flat_y. rewrite length_app. lia.
Qed.

(** One iteration of the loop of [reverseRing] on two distinct pairs. *)
Lemma swap_step (l m r : list point) (p q : point) (li ri : Z) :
  pint32 p -> pint32 q ->
  li = 2 * Z.of_nat (List.length l) ->
  ri = 2 * Z.of_nat (List.length l + 1 + List.length m) ->
  Transform.swapPairs (flat (l ++ p :: m ++ q :: r)) li ri
  = flat (l ++ q :: m ++ p :: r).
Proof.
  intros [Hpx Hpy] [Hqx Hqy] Hli Hri. destruct p as [px py], q as [qx qy].
  cbn [fst snd] in *. unfold Transform.swapPairs.
  assert (Hdec : forall u v : point,
             l ++ u :: m ++ v :: r = (l ++ u :: m) ++ v :: r).
  { intros u v. rewrite <- app_assoc. reflexivity. }
  assert (Hlen : forall u : point,
             Z.of_nat (List.length (l ++ u :: m))
             = Z.of_nat (List.length l + 1 + List.length m)).
  { intros u. rewrite length_app. cbn [List.length]. lia. }
  set (c0 := flat (l ++ (px, py) :: m ++ (qx, qy) :: r)).
  assert (G1 : Num.get c0 li = Some px) by (apply get_flat_x; exact Hli).
  assert (G2 : Num.get c0 (li + 1) = Some py) by (apply get_flat_y; lia).
  assert (G3 : Num.get c0 ri = Some qx).
  { unfold c0. rewrite Hdec. apply get_flat_x. rewrite Hlen. lia. }
  rewrite G1, G2, G3.
  assert (S1 : Num.set_i32 c0 li (Some qx) = flat (l ++ (qx, py) :: m ++ (qx, qy) :: r))
    by (apply set_flat_x; assumption).
  rewrite S1. clear S1 G1 G2 G3. clearbody c0. clear c0.
  set (c1 := flat (l ++ (qx, py) :: m ++ (qx, qy) :: r)).
  assert (G4 : Num.get c1 (ri + 1) = Some qy).
  { unfold c1. rewrite Hdec. apply get_flat_y. rewrite Hlen. lia. }
  rewrite G4.
  assert (S2 : Num.set_i32 c1 (li + 1) (Some qy)
               = flat (l ++ (qx, qy) :: m ++ (qx, qy) :: r))
    by (apply set_flat_y; [lia|assumption]).
  rewrite S2. clear S2 G4. clearbody c1. clear c1.
  rewrite (Hdec (qx, qy) (qx, qy)).
  rewrite (set_flat_x (l ++ (qx, qy) :: m) r qx qy px ri)
    by (assumption || (rewrite Hlen; lia)).
  rewrite (set_flat_y (l ++ (qx, qy) :: m) r px qy py (ri + 1))
    by (assumption || (rewrite Hlen; lia)).
  rewrite <- Hdec. reflexivity.
Qed.

(** The middle pair of a ring with an odd number of pairs is swapped
    with itself. *)
Lemma swap_self (l r : list point) (p : point) (li : Z) :
  pint32 p ->
  li = 2 * Z.of_nat (List.length l) ->
  Transform.swapPairs (flat (l ++ p :: r)) li li = flat (l ++ p :: r).
Proof.
  intros [Hpx Hpy] Hli. destruct p as [px py]. cbn [fst snd] in *.
  unfold Transform.swapPairs.
  set (c0 := flat (l ++ (px, py) :: r)).
  assert (G1 : Num.get c0 li = Some px) by (apply get_flat_x; exact Hli).
  assert (G2 : Num.get c0 (li + 1) = Some py) by (apply get_flat_y; lia).
  assert (S1 : Num.set_i32 c0 li (Some px) = c0) by (apply set_flat_x; assumption).
  assert (S2 : Num.set_i32 c0 (li + 1) (Some py) = c0)
    by (apply set_flat_y; [lia|assumption]).
  rewrite G1, G2, S1, G2, S2, S1, S2. reflexivity.
Qed.

Lemma reverseRing_loop_rev (pre post : list point) (start end_ : Z) :
  forall (n : nat) (mid a b : list point),
    Forall pint32 mid ->
    Z.of_nat n = (Z.of_nat (List.length mid) + 1) / 2 ->
    List.length a = List.length b ->
    start = 2 * Z.of_nat (List.length pre) ->
    end_ = 2 * Z.of_nat (List.length pre + List.length a + List.length mid
                         + List.length b) ->
    Transform.reverseRing_loop start end_ n (2 * Z.of_nat (List.length a))
      (flat (pre ++ a ++ mid ++ b ++ post))
    = flat (pre ++ a ++ rev mid ++ b ++ post).
Proof.
  induction n as [|n IH]; intros mid a b Hint Hn Hab Hs He.
  - destruct mid as [|p mid]; [reflexivity|].
    exfalso. cbn [List.length] in Hn.
    assert (1 <= (Z.of_nat (S (List.length mid)) + 1) / 2)
      by (apply Z.div_le_lower_bound; lia).
    lia.
  - destruct mid as [|p mid].
    { exfalso. cbn in Hn. lia. }
    cbn [Transform.reverseRing_loop].
    destruct mid as [|p1 mid1].
    + (* a single pair: swapped with itself *)
      assert (n = 0%nat) by (cbn in Hn; lia). subst n.
      cbn [Transform.reverseRing_loop].
      pose proof (Forall_inv Hint) as Hp.
      replace (end_ - 2 - 2 * Z.of_nat (List.length a))
        with (start + 2 * Z.of_nat (List.length a))
        by (subst start end_; cbn [List.length]; lia).
      change (rev [p]) with [p].
      replace (pre ++ a ++ [p] ++ b ++ post) with ((pre ++ a) ++ p :: (b ++ post))
        by (rewrite <- !app_assoc; reflexivity).
      apply swap_self; [assumption|]. rewrite length_app. lia.
    + (* two distinct pairs at the ends *)
      assert (Hne : p1 :: mid1 <> []) by discriminate.
      destruct (exists_last Hne) as (m & q & Hm). rewrite Hm in *.
      clear Hne Hm p1 mid1.
      pose proof (Forall_inv Hint) as Hp.
      pose proof (Forall_inv_tail Hint) as Hrest.
      apply Forall_app in Hrest. destruct Hrest as [Hm Hq].
      apply Forall_inv in Hq.
      assert (Hlen : List.length (p :: m ++ [q]) = S (S (List.length m))).
      { cbn [List.length]. rewrite length_app. cbn [List.length]. lia. }
      rewrite Hlen in *.
      replace (pre ++ a ++ (p :: m ++ [q]) ++ b ++ post)
        with ((pre ++ a) ++ p :: m ++ q :: (b ++ post))
        by (rewrite <- !app_assoc; cbn [app]; rewrite <- !app_assoc; reflexivity).
      rewrite (swap_step (pre ++ a) m (b ++ post) p q); try assumption.
      * replace ((pre ++ a) ++ q :: m ++ p :: b ++ post)
          with (pre ++ (a ++ [q]) ++ m ++ (p :: b) ++ post)
          by (rewrite <- !app_assoc; reflexivity).
        replace (2 * Z.of_nat (List.length a) + 2)
          with (2 * Z.of_nat (List.length (a ++ [q])))
          by (rewrite length_app; cbn [List.length]; lia).
        rewrite IH.
        -- cbn [rev]. rewrite rev_app_distr. cbn [rev app].
           rewrite <- !app_assoc. reflexivity.
        -- assumption.
        -- replace (Z.of_nat (S (S (List.length m))) + 1)
             with (Z.of_nat (List.length m) + 1 + 1 * 2) in Hn by lia.
           rewrite Z.div_add in Hn by lia. lia.
        -- rewrite length_app. cbn [List.length]. lia.
        -- assumption.
        -- rewrite length_app. cbn [List.length]. lia.
      * rewrite length_app. lia.
      * rewrite length_app. lia.
Qed.

Lemma reverseRing_ring (pre ring post : list point) (s e : Z) :
  Forall pint32 ring ->
  Z.of_nat (List.length ring) < 2 ^ 31 ->
  s = 2 * Z.of_nat (List.length pre) ->
  e = 2 * Z.of_nat (List.length pre + List.length ring) ->
  Transform.reverseRing (flat (pre ++ ring ++ post)) s e
  = flat (pre ++ rev ring ++ post).
Proof.
  intros Hint Hsize Hs He. unfold Transform.reverseRing.
  replace (e - s) with (Z.of_nat (List.length ring) * 2) by lia.
  rewrite Z.quot_mul by lia.
  unfold Js.or. rewrite !ToInt32_small by lia. rewrite Z.lor_0_r.
  pose proof (reverseRing_loop_rev pre post s e
                (Transform.steps2 0 (Z.of_nat (List.length ring))) ring [] []) as H.
  cbn [List.length app] in H. rewrite Nat.add_0_r in H.
  change (2 * Z.of_nat 0) with 0 in H.
  apply H; try assumption; try reflexivity.
  - unfold Transform.steps2. rewrite Z2Nat.id.
    + f_equal. lia.
    + apply Z.div_pos; lia.
  - lia.
Qed.

Lemma length_orient (cw : bool) (ring : list point) :
  List.length (orient cw ring) = List.length ring.
Proof.
  unfold orient. destruct (negb _); [apply length_rev|reflexivity].
Qed.

Lemma orient_pint32 (cw : bool) (ring : list point) :
  Forall pint32 ring -> Forall pint32 (orient cw ring).
Proof.
  intros H. unfold orient. destruct (negb _); [|assumption].
  apply Forall_rev. assumption.
Qed.

(** The sign that [orient] achieves. *)
Lemma orient_sign (cw : bool) (ring : list point) :
  if cw
  then 0 <= shoelace (orient cw ring) /\ (shoelace ring <> 0 -> 0 < shoelace (orient cw ring))
  else shoelace (orient cw ring) <= 0 /\ (shoelace ring <> 0 -> shoelace (orient cw ring) < 0).
Proof.
  unfold orient.
  destruct (Z.gtb_spec (shoelace ring) 0), cw; cbn [Bool.eqb negb];
    rewrite ?shoelace_rev; lia.
Qed.

Lemma ensureWinding_ring (pre ring post : list point) (s e : Z) (cw : bool) :
  Forall pint32 ring ->
  Z.of_nat (List.length ring) < 2 ^ 31 ->
  s = 2 * Z.of_nat (List.length pre) ->
  e = 2 * Z.of_nat (List.length pre + List.length ring) ->
  Transform.ensureWinding (flat (pre ++ ring ++ post)) s e cw
  = flat (pre ++ orient cw ring ++ post).
Proof.
  intros Hint Hsize Hs He. unfold Transform.ensureWinding, orient.
  rewrite (signedArea_ring pre ring post s e Hs He). cbn [Num.gt0].
  destruct (negb (Bool.eqb (shoelace ring >? 0) cw)); [|reflexivity].
  apply reverseRing_ring; assumption.
Qed.

Lemma concat_length_le (rs : list (list point)) (ring : list point) :
  In ring rs -> (List.length ring <= List.length (List.concat rs))%nat.
Proof.
  induction rs as [|r rs IH]; intros Hin; [contradiction|].
  cbn [List.concat]. rewrite length_app. destruct Hin as [->|Hin]; [lia|].
  specialize (IH Hin). lia.
Qed.

(** The loop of [correctWinding] orients ring after ring. *)
Lemma correctWinding_loop_rings (exteriorSet : list Z) (post : list point) :
  forall (rs : list (list point)) (pre : list point) (i : Z),
    Forall (Forall pint32) rs ->
    Z.of_nat (List.length (List.concat rs)) < 2 ^ 31 ->
    Transform.correctWinding_loop exteriorSet
      (endsOf (Z.of_nat (List.length pre)) rs) i
      (2 * Z.of_nat (List.length pre)) (flat (pre ++ List.concat rs ++ post))
    = flat (pre ++ List.concat (orientFrom exteriorSet i rs) ++ post).
Proof.
  induction rs as [|ring rs IH]; intros pre i Hint Hsize; [reflexivity|].
  cbn [endsOf Transform.correctWinding_loop List.concat orientFrom].
  cbn [List.concat] in Hsize. rewrite length_app in Hsize.
  rewrite <- (app_assoc ring).
  rewrite (ensureWinding_ring pre ring (List.concat rs ++ post)); try lia.
  - unfold Transform.has.
    set (ring' := orient (existsb (Z.eqb i) exteriorSet) ring).
    replace (Z.of_nat (List.length pre) + Z.of_nat (List.length ring))
      with (Z.of_nat (List.length (pre ++ ring')))
      by (rewrite length_app; unfold ring'; rewrite length_orient; lia).
    replace ((Z.of_nat (List.length (pre ++ ring'))) * 2)
      with (2 * Z.of_nat (List.length (pre ++ ring'))) by lia.
    rewrite (app_assoc pre ring'). rewrite IH.
    + rewrite <- !app_assoc. reflexivity.
    + apply (Forall_inv_tail Hint).
    + lia.
  - apply (Forall_inv Hint).
Qed.

Lemma cumulative_le (ends : list Z) :
  forall from total, cumulative from total ends -> from <= total.
Proof.
  induction ends as [|e ends IH]; intros from total H; cbn in H; [lia|].
  destruct H as [Hle H]. specialize (IH _ _ H). lia.
Qed.

(** Cumulative ends cut the points into consecutive rings. *)
Lemma split_by_ends (ends : list Z) :
  forall (from : Z) (pts : list point),
    cumulative from (from + Z.of_nat (List.length pts)) ends ->
    exists rs, List.concat rs = pts /\ endsOf from rs = ends.
Proof.
  induction ends as [|e ends IH]; intros from pts H; cbn in H.
  - exists []. split; [|reflexivity]. destruct pts; [reflexivity|].
    cbn [List.length] in H. lia.
  - destruct H as [Hle H]. pose proof (cumulative_le _ _ _ H) as Hle'.
    set (k := Z.to_nat (e - from)).
    assert (Hk : List.length (firstn k pts) = k) by (apply firstn_length_le; lia).
    destruct (IH e (skipn k pts)) as (rs & Hcat & Hends).
    { rewrite length_skipn.
      replace (e + Z.of_nat (List.length pts - k))
        with (from + Z.of_nat (List.length pts)) by lia.
      exact H. }
    exists (firstn k pts :: rs). split.
    + cbn [List.concat]. rewrite Hcat. apply firstn_skipn.
    + cbn [endsOf]. rewrite Hk.
      replace (from + Z.of_nat k) with e by lia. rewrite Hends. reflexivity.
Qed.

Lemma endsOf_orientFrom (exteriorSet : list Z) (rs : list (list point)) :
  forall from i, endsOf from (orientFrom exteriorSet i rs) = endsOf from rs.
Proof.
  induction rs as [|r rs IH]; intros from i; [reflexivity|].
  cbn [orientFrom endsOf]. rewrite length_orient, IH. reflexivity.
Qed.

Lemma nth_orientFrom (exteriorSet : list Z) (rs : list (list point)) :
  forall (i : Z) (j : nat) (r : list point),
    nth_error rs j = Some r ->
    nth_error (orientFrom exteriorSet i rs) j
    = Some (orient (existsb (Z.eqb (i + Z.of_nat j)) exteriorSet) r).
Proof.
  induction rs as [|r0 rs IH]; intros i j r Hj; [destruct j; discriminate|].
  destruct j as [|j]; cbn [orientFrom nth_error] in *.
  - injection Hj as ->. rewrite Z.add_0_r. reflexivity.
  - rewrite (IH (i + 1) j r Hj).
    replace (i + Z.of_nat (S j)) with (i + 1 + Z.of_nat j) by lia. reflexivity.
Qed.

Lemma bounds_nth_ring (rs : list (list point)) :
  forall (from : Z) (j : nat) (b : Z * Z),
    nth_error (boundsFrom from (endsOf from rs)) j = Some b ->
    exists r, nth_error rs j = Some r.
Proof.
  induction rs as [|r0 rs IH]; intros from j b Hj; [destruct j; discriminate|].
  destruct j as [|j]; cbn [endsOf boundsFrom nth_error] in *; [eauto|].
  eapply IH. exact Hj.
Qed.

(** [signedArea] at the bounds of ring [j] is the shoelace sum of ring [j]. *)
Lemma signedArea_nth_ring (post : list point) (rs : list (list point)) :
  forall (pre : list point) (j : nat) (s e : Z) (r : list point),
    nth_error rs j = Some r ->
    nth_error (boundsFrom (Z.of_nat (List.length pre))
                 (endsOf (Z.of_nat (List.length pre)) rs)) j = Some (s, e) ->
    Transform.signedArea (flat (pre ++ List.concat rs ++ post)) (2 * s) (2 * e)
    = Some (shoelace r).
Proof.
  induction rs as [|r0 rs IH]; intros pre j s e r Hr Hb; [destruct j; discriminate|].
  destruct j as [|j]; cbn [endsOf boundsFrom nth_error List.concat] in *.
  - injection Hr as ->. injection Hb as <- <-.
    rewrite <- (app_assoc r). apply signedArea_ring; lia.
  - rewrite <- (app_assoc r0), (app_assoc pre r0).
    apply (IH (pre ++ r0) j s e r Hr).
    rewrite length_app, Nat2Z.inj_add. exact Hb.
Qed.

Lemma pint32_pairs (pts : list point) : Forall int32 (flat pts) -> Forall pint32 pts.
Proof.
  induction pts as [|[x y] pts IH]; intros H; [constructor|].
  cbn [flat] in H. inversion H as [|? ? Hx H']; subst.
  inversion H' as [|? ? Hy H'']; subst.
  constructor; [split; assumption|]. apply IH. assumption.
Qed.

Lemma exterior_default (j : nat) :
  existsb (Z.eqb (0 + Z.of_nat j)) [0] = Nat.eqb j 0.
Proof. destruct j; reflexivity. Qed.

End Winding.




(** ** Polygon command encoding (mvt/geometry) *)

Section PolygonCommands.
Import RingSpec.

Lemma zigzag_sub (a b : Z) : Geometry.zigzag (Num.sub (Some a) (Some b)) = zig (a - b).
Proof. reflexivity. Qed.

Lemma last_cons_default (t : list point) :
  forall (p d1 d2 : point), last (p :: t) d1 = last (p :: t) d2.
Proof.
  induction t as [|q t IH]; intros p d1 d2; [reflexivity|].
  change (last (p :: q :: t) d1) with (last (q :: t) d1).
  change (last (p :: q :: t) d2) with (last (q :: t) d2). apply IH.
Qed.

Lemma lineTo_loop_deltas (pre post : list point) :
  forall (todo done : list point) (cmds : list Z) (cur : point) (i : Z),
    i = Z.of_nat (List.length (pre ++ done)) ->
    Geometry.lineTo_loop (flat (pre ++ done ++ todo ++ post)) (List.length todo) i
      (cmds, Some (fst cur), Some (snd cur))
    = (cmds ++ deltas cur todo, Some (fst (last todo cur)), Some (snd (last todo cur))).
Proof.
  induction todo as [|[x y] todo IH]; intros done cmds cur i Hi.
  - cbn. rewrite app_nil_r. reflexivity.
  - cbn [Geometry.lineTo_loop List.length deltas].
    assert (Hdec : pre ++ done ++ ((x, y) :: todo) ++ post
                   = (pre ++ done) ++ (x, y) :: (todo ++ post)).
    { rewrite <- app_assoc. reflexivity. }
    assert (Hgx : Num.get (flat (pre ++ done ++ ((x, y) :: todo) ++ post)) (i * 2)
                  = Some x).
    { rewrite Hdec. apply get_flat_x. lia. }
    assert (Hgy : Num.get (flat (pre ++ done ++ ((x, y) :: todo) ++ post)) (i * 2 + 1)
                  = Some y).
    { rewrite Hdec. apply get_flat_y. lia. }
    rewrite Hgx, Hgy, !zigzag_sub.
    assert (Hdec' : pre ++ done ++ ((x, y) :: todo) ++ post
                    = pre ++ (done ++ [(x, y)]) ++ todo ++ post).
    { rewrite <- !app_assoc. reflexivity. }
    rewrite Hdec'.
    change (Some x) with (Some (fst (x, y))) at 1.
    change (Some y) with (Some (snd (x, y))) at 1.
    rewrite (IH (done ++ [(x, y)]) _ (x, y) (i + 1)).
    + rewrite <- app_assoc. cbn [fst snd app].
      destruct todo as [|q todo]; [reflexivity|].
      change (last ((x, y) :: q :: todo) cur) with (last (q :: todo) cur).
      rewrite (last_cons_default todo q cur (x, y)). reflexivity.
    + rewrite app_assoc, length_app. cbn [List.length]. lia.
Qed.

Lemma last_snoc_cons (p0 q d : point) (mid : list point) :
  last (p0 :: mid ++ [q]) d = q.
Proof.
  change (p0 :: mid ++ [q]) with ((p0 :: mid) ++ [q]). apply last_last.
Qed.

Lemma effective_snoc (p0 q : point) (mid : list point) :
  effective (p0 :: mid ++ [q]) = if pointEqb p0 q then p0 :: mid else p0 :: mid ++ [q].
Proof.
  unfold effective, explicitlyClosed. rewrite last_snoc_cons.
  destruct (pointEqb p0 q); [|reflexivity].
  change (p0 :: mid ++ [q]) with ((p0 :: mid) ++ [q]). apply removelast_last.
Qed.

Lemma effective_length (ring : list point) :
  (List.length (effective ring) <= List.length ring)%nat.
Proof.
  unfold effective. destruct (explicitlyClosed ring); [|lia].
  destruct ring as [|p ring]; [cbn; lia|].
  assert (Hne : p :: ring <> []) by discriminate.
  rewrite (app_removelast_last p Hne) at 2. rewrite length_app. lia.
Qed.

(** The loop body of [encodePolygons] on the ring laid out between [pre]
    and [post] emits the commands of [polygonRing]. *)
Lemma encodePolygons_body_ring (pre ring post : list point) (cmds : list Z)
    (cur : point) (startPair endPair : Z) :
  startPair = Z.of_nat (List.length pre) ->
  endPair = Z.of_nat (List.length pre) + Z.of_nat (List.length ring) ->
  Geometry.encodePolygons_body (flat (pre ++ ring ++ post))
    (cmds, Some (fst cur), Some (snd cur)) (startPair, endPair)
  = (cmds ++ fst (polygonRing cur ring),
     Some (fst (snd (polygonRing cur ring))), Some (snd (snd (polygonRing cur ring)))).
Proof.
  intros Hs He. unfold Geometry.encodePolygons_body.
  replace (endPair - startPair) with (Z.of_nat (List.length ring)) by lia.
  destruct (Z.ltb_spec (Z.of_nat (List.length ring)) 3) as [Hshort|Hlong].
  { unfold polygonRing. pose proof (effective_length ring).
    destruct (Z.ltb_spec (Z.of_nat (List.length (effective ring))) 3); [|lia].
    cbn [fst snd]. rewrite app_nil_r. reflexivity. }
  destruct ring as [|p0 ring]; [cbn [List.length] in Hlong; lia|].
  assert (Hne : ring <> []) by (destruct ring; [cbn [List.length] in Hlong; lia|discriminate]).
  destruct (exists_last Hne) as (mid & q & ->). clear Hne.
  assert (Hlen : Z.of_nat (List.length (p0 :: mid ++ [q]))
                 = Z.of_nat (List.length mid) + 2).
  { cbn [List.length]. rewrite length_app. cbn [List.length]. lia. }
  rewrite Hlen in *.
  set (coords := flat (pre ++ (p0 :: mid ++ [q]) ++ post)).
  assert (Hd0 : pre ++ (p0 :: mid ++ [q]) ++ post
                = pre ++ (fst p0, snd p0) :: (mid ++ [q]) ++ post).
  { destruct p0. reflexivity. }
  assert (Hdq : pre ++ (p0 :: mid ++ [q]) ++ post
                = (pre ++ p0 :: mid) ++ (fst q, snd q) :: post).
  { destruct q. rewrite <- !app_assoc. cbn [app]. rewrite <- !app_assoc. reflexivity. }
  assert (G0x : Num.get coords (startPair * 2) = Some (fst p0)).
  { unfold coords. rewrite Hd0. apply get_flat_x. lia. }
  assert (G0y : Num.get coords (startPair * 2 + 1) = Some (snd p0)).
  { unfold coords. rewrite Hd0. apply get_flat_y. lia. }
  assert (Gqx : Num.get coords ((endPair - 1) * 2) = Some (fst q)).
  { unfold coords. rewrite Hdq. apply get_flat_x.
    rewrite length_app. cbn [List.length]. lia. }
  assert (Gqy : Num.get coords ((endPair - 1) * 2 + 1) = Some (snd q)).
  { unfold coords. rewrite Hdq. apply get_flat_y.
    rewrite length_app. cbn [List.length]. lia. }
  rewrite G0x, G0y, Gqx, Gqy, !zigzag_sub. cbn [Num.eqb].
  change ((fst p0 =? fst q) && (snd p0 =? snd q)) with (pointEqb p0 q).
  unfold polygonRing. rewrite effective_snoc.
  destruct (pointEqb p0 q) eqn:Hclosed.
  - (* explicitly closed: the closing vertex is left out *)
    replace (Z.of_nat (List.length mid) + 2 - 2) with (Z.of_nat (List.length mid)) by lia.
    cbn [List.length]. rewrite Nat2Z.inj_succ.
    destruct (Z.ltb_spec (Z.of_nat (List.length mid)) 2) as [H2|H2];
      destruct (Z.ltb_spec (Z.succ (Z.of_nat (List.length mid))) 3) as [H3|H3];
      try lia.
    { cbn [fst snd]. rewrite app_nil_r. reflexivity. }
    replace (Z.to_nat (endPair - 1 - (startPair + 1))) with (List.length mid) by lia.
    assert (Hdm : pre ++ (p0 :: mid ++ [q]) ++ post
                  = (pre ++ [p0]) ++ [] ++ mid ++ ([q] ++ post)).
    { rewrite <- !app_assoc. cbn [app]. rewrite <- !app_assoc. reflexivity. }
    unfold coords. rewrite Hdm.
    rewrite (lineTo_loop_deltas (pre ++ [p0]) ([q] ++ post) mid [] _ p0 (startPair + 1)).
    + cbn [fst snd]. unfold Geometry.commandInt, MoveTo, LineTo, ClosePath, command.
      unfold Geometry.CMD_MOVE_TO, Geometry.CMD_LINE_TO, Geometry.CMD_CLOSE_PATH.
      cbn [deltas]. rewrite <- !app_assoc. reflexivity.
    + rewrite app_nil_r, length_app. cbn [List.length]. lia.
  - (* open ring: every vertex is kept *)
    replace (Z.of_nat (List.length mid) + 2 - 1) with (Z.of_nat (List.length (mid ++ [q])))
      by (rewrite length_app; cbn [List.length]; lia).
    rewrite Hlen.
    destruct (Z.ltb_spec (Z.of_nat (List.length (mid ++ [q]))) 2) as [H2|H2].
    { rewrite length_app in H2. cbn [List.length] in H2.
      destruct mid; [cbn [List.length] in Hlong; lia|cbn [List.length] in H2; lia]. }
    destruct (Z.ltb_spec (Z.of_nat (List.length mid) + 2) 3) as [H3|H3]; [lia|].
    replace (Z.to_nat (endPair - (startPair + 1))) with (List.length (mid ++ [q]))
      by (rewrite length_app; cbn [List.length]; lia).
    assert (Hdm : pre ++ (p0 :: mid ++ [q]) ++ post
                  = (pre ++ [p0]) ++ [] ++ (mid ++ [q]) ++ post).
    { rewrite <- !app_assoc. cbn [app]. rewrite <- ?app_assoc. reflexivity. }
    unfold coords. rewrite Hdm.
    rewrite (lineTo_loop_deltas (pre ++ [p0]) post (mid ++ [q]) [] _ p0 (startPair + 1)).
    + cbn [fst snd]. unfold Geometry.commandInt, MoveTo, LineTo, ClosePath, command.
      unfold Geometry.CMD_MOVE_TO, Geometry.CMD_LINE_TO, Geometry.CMD_CLOSE_PATH.
      cbn [deltas]. rewrite <- !app_assoc. reflexivity.
    + rewrite app_nil_r, length_app. cbn [List.length]. lia.
Qed.

Lemma getRingBounds_loop_app (ends : list Z) :
  forall start acc,
    Geometry.getRingBounds_loop ends start acc
    = acc ++ Geometry.getRingBounds_loop ends start [].
Proof.
  induction ends as [|e ends IH]; intros start acc; cbn [Geometry.getRingBounds_loop].
  - rewrite app_nil_r. reflexivity.
  - destruct (e >? start).
    + rewrite (IH e (acc ++ [(start, e)])), (IH e ([] ++ [(start, e)])).
      rewrite <- app_assoc. reflexivity.
    + apply IH.
Qed.

Lemma polygonRing_nil (cur : point) : polygonRing cur [] = ([], cur).
Proof. reflexivity. Qed.

(** The loop of [encodePolygons] over the ring bounds. *)
Lemma encodePolygons_fold (post : list point) (rs : list (list point)) :
  forall (pre : list point) (cmds : list Z) (cur : point),
  exists cur',
    fold_left (Geometry.encodePolygons_body (flat (pre ++ List.concat rs ++ post)))
      (Geometry.getRingBounds_loop (endsOf (Z.of_nat (List.length pre)) rs)
         (Z.of_nat (List.length pre)) [])
      (cmds, Some (fst cur), Some (snd cur))
    = (cmds ++ polygonCommands cur rs, Some (fst cur'), Some (snd cur')).
Proof.
  induction rs as [|r0 rs IH]; intros pre cmds cur.
  - exists cur. cbn. rewrite app_nil_r. reflexivity.
  - cbn [endsOf Geometry.getRingBounds_loop List.concat polygonCommands].
    assert (Hflat : flat (pre ++ (r0 ++ List.concat rs) ++ post)
                    = flat ((pre ++ r0) ++ List.concat rs ++ post)).
    { rewrite <- !app_assoc. reflexivity. }
    assert (Hpre : Z.of_nat (List.length pre) + Z.of_nat (List.length r0)
                   = Z.of_nat (List.length (pre ++ r0))).
    { rewrite length_app. lia. }
    destruct (Z.gtb_spec (Z.of_nat (List.length pre) + Z.of_nat (List.length r0))
                (Z.of_nat (List.length pre))) as [Hgt|Hle].
    + rewrite getRingBounds_loop_app. cbn [app fold_left].
      replace (pre ++ (r0 ++ List.concat rs) ++ post)
        with (pre ++ r0 ++ (List.concat rs ++ post))
        by (rewrite <- (app_assoc r0); reflexivity).
      rewrite (encodePolygons_body_ring pre r0 (List.concat rs ++ post) cmds cur)
        by reflexivity.
      destruct (polygonRing cur r0) as [c cur1]. cbn [fst snd].
      replace (pre ++ r0 ++ (List.concat rs ++ post))
        with ((pre ++ r0) ++ List.concat rs ++ post)
        by (rewrite <- (app_assoc pre); reflexivity).
      rewrite Hpre.
      destruct (IH (pre ++ r0) (cmds ++ c) cur1) as [cur' H].
      exists cur'. rewrite H, <- app_assoc. reflexivity.
    + assert (r0 = []) by (destruct r0; [reflexivity|cbn [List.length] in Hle; lia]).
      subst r0. rewrite polygonRing_nil. cbn [app List.length].
      change (Z.of_nat 0) with 0. rewrite Z.add_0_r. apply IH.
Qed.

Lemma slices_of_rings (post : list point) (rs : list (list point)) :
  forall pre : list point,
    map (slice (pre ++ List.concat rs ++ post))
      (boundsFrom (Z.of_nat (List.length pre)) (endsOf (Z.of_nat (List.length pre)) rs))
    = rs.
Proof.
  induction rs as [|r0 rs IH]; intros pre; [reflexivity|].
  cbn [endsOf boundsFrom map List.concat]. f_equal.
  - unfold slice. cbn [fst snd].
    replace (Z.to_nat (Z.of_nat (List.length pre) + Z.of_nat (List.length r0)
                       - Z.of_nat (List.length pre)))
      with (List.length r0) by lia.
    rewrite Nat2Z.id, skipn_app, skipn_all, Nat.sub_diag. cbn [skipn app].
    rewrite <- app_assoc, firstn_app, firstn_all, Nat.sub_diag. cbn [firstn].
    apply app_nil_r.
  - replace (Z.of_nat (List.length pre) + Z.of_nat (List.length r0))
      with (Z.of_nat (List.length (pre ++ r0))) by (rewrite length_app; lia).
    rewrite <- (app_assoc r0), (app_assoc pre r0). apply IH.
Qed.

Lemma effective_count (ring : list point) :
  Z.of_nat (List.length (effective ring))
  = if explicitlyClosed ring then Z.of_nat (List.length ring) - 1
    else Z.of_nat (List.length ring).
Proof.
  unfold effective. destruct (explicitlyClosed ring) eqn:E; [|reflexivity].
  destruct ring as [|p ring]; [discriminate|].
  assert (Hne : p :: ring <> []) by discriminate.
  rewrite (app_removelast_last p Hne) at 2. rewrite length_app.
  cbn [List.length]. lia.
Qed.

End PolygonCommands.

(** C4.  For tile coordinates in pairs with cumulative ring ends,
    [encodePolygons] emits the commands of the rings in order, the cursor
    starting at (0, 0) and persisting from ring to ring: a ring with at
    least 3 effective vertices gives [MoveTo(1)] and the first zigzag
    delta, then [LineTo(k)] with the deltas of the remaining effective
    vertices, then [ClosePath(1)]; a ring with fewer gives nothing.  The
    effective vertices of a ring of [n] vertices are [n - 1] when its last
    vertex equals its first and [n] otherwise, so [k = n - 2] or [n - 1].
    The closed triangle [(0,0), (10,0), (10,10), (0,0)] with [ends = [4]]
    encodes to [9, 0, 0, 18, 20, 0, 0, 20, 15]. *)
Theorem encodePolygons_commands (coords : list Z) (ends : option (list Z))
    (Hwf : RingSpec.wf coords ends) :
  Geometry.encodePolygons coords ends
  = RingSpec.polygonCommands (0, 0) (RingSpec.rings coords ends)
  /\ (forall ring,
        Z.of_nat (List.length (RingSpec.effective ring))
        = if RingSpec.explicitlyClosed ring then Z.of_nat (List.length ring) - 1
          else Z.of_nat (List.length ring))
  /\ Geometry.encodePolygons [0; 0; 10; 0; 10; 10; 0; 0] (Some [4])
     = [9; 0; 0; 18; 20; 0; 0; 20; 15].
Proof.
  split; [|split; [apply effective_count|reflexivity]].
  destruct Hwf as [Hint Hpairs Hsize Hends].
  set (pts := RingSpec.pairs coords) in *.
  assert (Hlen : Z.of_nat (List.length coords) / 2 = Z.of_nat (List.length pts)).
  { rewrite <- Hpairs at 1. rewrite length_flat, Z.mul_comm. apply Z.div_mul. lia. }
  unfold Geometry.encodePolygons. rewrite Hlen.
  assert (Hwhole :
    (let '(cmds, _, _) :=
       fold_left (Geometry.encodePolygons_body coords)
         [(0, Z.of_nat (List.length pts))] ([], Some 0, Some 0) in cmds)
    = RingSpec.polygonCommands (0, 0)
        [RingSpec.slice pts (0, Z.of_nat (List.length pts))]).
  { cbn [fold_left]. unfold RingSpec.slice. cbn [fst snd].
    rewrite Z.sub_0_r, Nat2Z.id. cbn [Z.to_nat skipn]. rewrite firstn_all.
    assert (Hc : coords = RingSpec.flat ([] ++ pts ++ [])).
    { rewrite app_nil_r. symmetry. exact Hpairs. }
    rewrite Hc at 1.
    rewrite (encodePolygons_body_ring [] pts [] [] (0, 0)) by reflexivity.
    cbn [RingSpec.polygonCommands app].
    destruct (RingSpec.polygonRing (0, 0) pts) as [c cur1]. cbn [fst snd].
    rewrite app_nil_r. reflexivity. }
  destruct ends as [[|e1 ends]|]; try exact Hwhole.
  set (es := e1 :: ends) in *.
  destruct (split_by_ends es 0 pts Hends) as (rs & Hcat & Hes).
  unfold RingSpec.rings. fold pts.
  change (Geometry.getRingBounds (Z.of_nat (List.length pts)) (Some es))
    with (Geometry.getRingBounds_loop es 0 []).
  change (RingSpec.bounds coords (Some es)) with (RingSpec.boundsFrom 0 es).
  rewrite <- Hes.
  assert (Hc : coords = RingSpec.flat ([] ++ List.concat rs ++ [])).
  { rewrite app_nil_r, Hcat. symmetry. exact Hpairs. }
  pose proof (slices_of_rings [] rs []) as Hsl.
  cbn [List.length app] in Hsl. change (Z.of_nat 0) with 0 in Hsl.
  rewrite app_nil_r, Hcat in Hsl. rewrite Hsl.
  rewrite Hc.
  destruct (encodePolygons_fold [] rs [] [] (0, 0)) as [cur' H].
  cbn [List.length app fst snd] in H. cbn [app].
  change (Z.of_nat 0) with 0 in H. rewrite H. reflexivity.
Qed.

Lemma encodePolygons_commands_witness :
  Geometry.encodePolygons [0; 0; 10; 0; 10; 10; 0; 0; 2; 2; 2; 4; 4; 4] (Some [4; 7])
  = RingSpec.polygonCommands (0, 0)
      [[(0, 0); (10, 0); (10, 10); (0, 0)]; [(2, 2); (2, 4); (4, 4)]].
Proof.
  apply (encodePolygons_commands
           [0; 0; 10; 0; 10; 10; 0; 0; 2; 2; 2; 4; 4; 4] (Some [4; 7])).
  constructor.
  - repeat (apply Forall_cons; [unfold RingSpec.int32; lia|]). apply Forall_nil.
  - reflexivity.
  - cbn. lia.
  - cbn. lia.
Defined.


(** ** Simplification (geometry/simplify) *)

Section Simplification.

(** Order of binary64 numbers: [a <= b] and [b < c] give [a < c]. *)
Lemma float_le_lt_trans (a b c : float) :
  PrimFloat.leb a b = true -> PrimFloat.ltb b c = true -> PrimFloat.ltb a c = true.
Proof.
  rewrite FloatAxioms.leb_spec, !FloatAxioms.ltb_spec. unfold SFleb, SFltb.
  destruct (Prim2SF a) as [sa|sa| |sa ma ea], (Prim2SF b) as [sb|sb| |sb mb eb],
    (Prim2SF c) as [sc|sc| |sc mc ec]; cbn [SFcompare];
    repeat match goal with s : bool |- _ => destruct s end; try congruence;
    try (destruct (Z.compare_spec ea eb); try congruence);
    try (destruct (Z.compare_spec eb ec); try congruence);
    try (destruct (Z.compare_spec ea ec); try congruence); try lia; subst;
    rewrite ?Z.compare_refl;
    try (destruct (Pos.compare_cont Eq ma mb) eqn:E1; cbn [CompOpp]; try congruence);
    try (destruct (Pos.compare_cont Eq mb mc) eqn:E2; cbn [CompOpp]; try congruence);
    try (destruct (Pos.compare_cont Eq ma mc) eqn:E3; cbn [CompOpp]; try congruence).
  all: try (change (Pos.compare_cont Eq ma mb) with (Pos.compare ma mb) in E1).
  all: try (change (Pos.compare_cont Eq mb mc) with (Pos.compare mb mc) in E2).
  all: try (change (Pos.compare_cont Eq ma mc) with (Pos.compare ma mc) in E3).
  all: rewrite ?Pos.compare_lt_iff, ?Pos.compare_gt_iff, ?Pos.compare_eq_iff in *; try lia.
Qed.

Lemma length_setF (a : list float) (i : Z) (v : float) :
  List.length (Simplify.setF a i v) = List.length a.
Proof.
  unfold Simplify.setF.
  destruct (Z.leb_spec 0 i); [|reflexivity].
  destruct (Z.ltb_spec i (Z.of_nat (List.length a))); [|reflexivity].
  cbn [andb]. rewrite !length_app, length_firstn, length_skipn. cbn [List.length]. lia.
Qed.

(** The index chosen by the scan is the initial one or lies in the range
    scanned. *)
Lemma dpMark_scan_index (xy : list float) (ax ay bx by_ : float) (mid : Z) (n : nat) :
  forall (i : Z) (maxSqDist : float) (index minPosToMid : Z),
    let '(_, index', _) :=
      Simplify.dpMark_scan xy ax ay bx by_ mid n i (maxSqDist, index, minPosToMid) in
    index' = index \/ i <= index' < i + Z.of_nat n.
Proof.
  induction n as [|n IH]; intros i maxSqDist index minPosToMid.
  - cbn. left. reflexivity.
  - cbn [Simplify.dpMark_scan].
    set (d := Simplify.sqSegDist _ _ _ _ _ _).
    destruct (PrimFloat.ltb maxSqDist d).
    + specialize (IH (i + 1) d i minPosToMid).
      destruct (Simplify.dpMark_scan xy ax ay bx by_ mid n (i + 1) (d, i, minPosToMid))
        as [[m idx] mp]. lia.
    + destruct (PrimFloat.eqb d maxSqDist).
      * destruct (Z.ltb_spec (Z.abs (i - mid)) minPosToMid).
        -- specialize (IH (i + 1) maxSqDist i (Z.abs (i - mid))).
           destruct (Simplify.dpMark_scan xy ax ay bx by_ mid n (i + 1)
                       (maxSqDist, i, Z.abs (i - mid))) as [[m idx] mp]. lia.
        -- specialize (IH (i + 1) maxSqDist index minPosToMid).
           destruct (Simplify.dpMark_scan xy ax ay bx by_ mid n (i + 1)
                       (maxSqDist, index, minPosToMid)) as [[m idx] mp]. lia.
      * specialize (IH (i + 1) maxSqDist index minPosToMid).
        destruct (Simplify.dpMark_scan xy ax ay bx by_ mid n (i + 1)
                    (maxSqDist, index, minPosToMid)) as [[m idx] mp]. lia.
Qed.

(** [dpMark] returns when the fuel exceeds the length of the range. *)
Lemma dpMark_total (xy : list float) (fuel : nat) :
  forall (importance : list float) (first last : Z),
    0 <= last - first < Z.of_nat fuel ->
    exists importance',
      Simplify.dpMark fuel xy importance first last = Some importance'
      /\ List.length importance' = List.length importance.
Proof.
  induction fuel as [|fuel IH]; intros importance first last Hfuel; [lia|].
  - cbn [Simplify.dpMark].
    pose proof (dpMark_scan_index xy
                  (Simplify.getF xy (first * 2)) (Simplify.getF xy (first * 2 + 1))
                  (Simplify.getF xy (last * 2)) (Simplify.getF xy (last * 2 + 1))
                  (Js.sar (first + last) 1) (Z.to_nat (last - (first + 1)))
                  (first + 1) 0%float (-1) (last - first)) as Hidx.
    destruct (Simplify.dpMark_scan _ _ _ _ _ _ _ _ _) as [[maxSqDist index] mp].
    destruct (Z.geb_spec index 0) as [Hge|Hlt]; cbn [andb]; [|eauto].
    destruct (PrimFloat.ltb 0 maxSqDist); [|eauto].
    assert (Hrange : first + 1 <= index < last) by lia.
    assert (Hleft : exists imp1,
               (if index - first >? 1
                then Simplify.dpMark fuel xy (Simplify.setF importance index maxSqDist)
                       first index
                else Some (Simplify.setF importance index maxSqDist)) = Some imp1
               /\ List.length imp1 = List.length importance).
    { destruct (Z.gtb_spec (index - first) 1).
      - destruct (IH (Simplify.setF importance index maxSqDist) first index)
          as (imp1 & H1 & L1); [lia|].
        exists imp1. split; [exact H1|]. rewrite L1. apply length_setF.
      - eexists. split; [reflexivity|]. apply length_setF. }
    destruct Hleft as (imp1 & H1 & L1). rewrite H1. cbn [obind].
    destruct (Z.gtb_spec (last - index) 1).
    + destruct (IH imp1 index last) as (imp2 & H2 & L2); [lia|].
      exists imp2. split; [exact H2|]. congruence.
    + eauto.
Qed.

(** A larger tolerance keeps no more vertices of the same importances. *)
Lemma filter_loop_monotone (xy importance : list float) (t t' : float) (n : nat) :
  PrimFloat.leb t t' = true ->
  forall (i : Z) (out out' : list float),
    (List.length out' <= List.length out)%nat ->
    (List.length (Simplify.filter_loop xy importance t' n i out')
     <= List.length (Simplify.filter_loop xy importance t n i out))%nat.
Proof.
  intros Hle. induction n as [|n IH]; intros i out out' Hlen; [exact Hlen|].
  cbn [Simplify.filter_loop]. apply IH.
  destruct (PrimFloat.ltb t' (Simplify.getF importance i)) eqn:E'.
  - rewrite (float_le_lt_trans _ _ _ Hle E'). rewrite !length_app. cbn [List.length]. lia.
  - destruct (PrimFloat.ltb t (Simplify.getF importance i));
      rewrite ?length_app; cbn [List.length]; lia.
Qed.

End Simplification.

(** C7 (amended: idempotence only for results of at most two vertices).
    For every flat coordinate array [xy] and tolerances [t <= t'],
    [simplify] returns for both, and [simplify(xy, t')] has at most as many
    vertices as [simplify(xy, t)]; a result of at most two vertices is
    returned unchanged by a second pass. *)
Theorem simplify_monotone (xy : list float) (t t' : float)
    (Hpairs : Nat.Even (List.length xy)) (Hle : PrimFloat.leb t t' = true) :
  exists out out',
    Simplify.simplify xy t = Some out /\
    Simplify.simplify xy t' = Some out' /\
    (List.length out' <= List.length out)%nat /\
    ((List.length out <= 4)%nat -> Simplify.simplify out t = Some out).
Proof.
  unfold Simplify.simplify at 1 2.
  destruct (Z.leb_spec (Z.of_nat (List.length xy)) 4) as [Hshort|Hlong].
  - exists xy, xy. repeat split; [lia|]. intros _. unfold Simplify.simplify.
    destruct (Z.leb_spec (Z.of_nat (List.length xy)) 4); [reflexivity|lia].
  - set (n := Z.of_nat (List.length xy)) in *.
    set (imp0 := Simplify.setF _ (n / 2 - 1) infinity).
    destruct (dpMark_total xy (List.length xy) imp0 0 (n / 2 - 1)) as (imp & Himp & _).
    { assert (n / 2 <= n) by (apply Z.div_le_upper_bound; lia).
      assert (2 <= n / 2) by (apply Z.div_le_lower_bound; lia). lia. }
    rewrite Himp. cbn [obind].
    eexists. eexists. split; [reflexivity|]. split; [reflexivity|]. split.
    + apply filter_loop_monotone; [exact Hle|]. cbn. lia.
    + intros Hout. unfold Simplify.simplify.
      destruct (Z.leb_spec (Z.of_nat (List.length
                  (Simplify.filter_loop xy imp t (Z.to_nat (n / 2)) 0 []))) 4);
        [reflexivity|lia].
Qed.

Lemma simplify_monotone_witness :
  exists out out',
    Simplify.simplify [0; 0; 10; -9; 50; 10; 100; 0]%float 90%float = Some out /\
    Simplify.simplify [0; 0; 10; -9; 50; 10; 100; 0]%float 110%float = Some out' /\
    (List.length out' <= List.length out)%nat /\
    ((List.length out <= 4)%nat -> Simplify.simplify out 90%float = Some out).
Proof.
  apply (simplify_monotone [0; 0; 10; -9; 50; 10; 100; 0]%float 90%float 110%float).
  - exists 4%nat. reflexivity.
  - vm_compute. reflexivity.
Defined.

(** C7, as stated, fails: [simplify] is not idempotent.  With the squared
    tolerance 110, the vertex (50, 10) of importance 100 is dropped and
    (10, -9), of importance about 116.3 against the chord to (50, 10), is
    kept; in the second pass (10, -9) has importance 81 against the chord
    (0, 0)-(100, 0) and is dropped too. *)
Lemma simplify_not_idempotent :
  Simplify.simplify [0; 0; 10; -9; 50; 10; 100; 0]%float 110%float
  = Some [0; 0; 10; -9; 100; 0]%float
  /\ Simplify.simplify [0; 0; 10; -9; 100; 0]%float 110%float
     = Some [0; 0; 100; 0]%float
  /\ Simplify.simplify [0; 0; 10; -9; 100; 0]%float 110%float
     <> Simplify.simplify [0; 0; 10; -9; 50; 10; 100; 0]%float 110%float.
Proof.
  split; [vm_compute; reflexivity|]. split; [vm_compute; reflexivity|].
  intros H. apply (f_equal (option_map (@List.length float))) in H.
  vm_compute in H. discriminate H.
Qed.

(** ** The feature message (pbf/writer, pbf/encode) *)

Section FeatureMessage.

Lemma pow_step (n : nat) : 128 * 2 ^ (7 * Z.of_nat (S n)) = 128 * (128 * 2 ^ (7 * Z.of_nat n)).
Proof.
  replace (7 * Z.of_nat (S n)) with (7 + 7 * Z.of_nat n) by lia.
  rewrite Z.pow_add_r by lia. reflexivity.
Qed.

Lemma decode_encodeVarint (n : nat) :
  forall (v : Z) (rest : list Z),
    0 <= v < 128 * 2 ^ (7 * Z.of_nat n) ->
    Wire.decodeVarint (Wire.encodeVarint n v ++ rest) = Some (v, rest).
Proof.
  induction n as [|n IH]; intros v rest Hv.
  - change (7 * Z.of_nat 0) with 0 in Hv. cbn [Wire.encodeVarint app Wire.decodeVarint].
    destruct (Z.ltb_spec v 128); [reflexivity|lia].
  - rewrite pow_step in Hv. cbn [Wire.encodeVarint].
    destruct (Z.ltb_spec v 128) as [Hlt|Hge].
    + cbn [app Wire.decodeVarint]. destruct (Z.ltb_spec v 128); [reflexivity|lia].
    + pose proof (Z.mod_pos_bound v 128 ltac:(lia)) as Hm.
      pose proof (Z.div_mod v 128 ltac:(lia)) as Hdm.
      cbn [app Wire.decodeVarint].
      destruct (Z.ltb_spec (v mod 128 + 128) 128); [lia|].
      rewrite IH.
      * f_equal. f_equal. lia.
      * split; [apply Z.div_pos; lia|apply Z.div_lt_upper_bound; lia].
Qed.

Lemma writeVarint_loop_encode (fuel : nat) :
  forall (val : Z) (out : list Z),
    Wire.u32 val -> val < 128 * 2 ^ (7 * Z.of_nat fuel) ->
    Pbf.writeVarint_loop fuel val out = Some (out ++ Wire.encodeVarint fuel val).
Proof.
  unfold Wire.u32. induction fuel as [|fuel IH]; intros val out Hval Hfuel.
  - change (7 * Z.of_nat 0) with 0 in Hfuel. cbn [Pbf.writeVarint_loop Wire.encodeVarint].
    destruct (Z.gtb_spec val 127); [lia|].
    unfold Js.ToUint8. rewrite Z.mod_small by lia. reflexivity.
  - rewrite pow_step in Hfuel. cbn [Pbf.writeVarint_loop Wire.encodeVarint].
    destruct (Z.gtb_spec val 127) as [Hgt|Hle]; destruct (Z.ltb_spec val 128); try lia.
    + rewrite shr_7, and_0x7f, (Z.mod_small val) by assumption.
      pose proof (Z.mod_pos_bound val 128 ltac:(lia)) as Hm.
      rewrite or_0x80 by assumption.
      unfold Js.ToUint8. rewrite (Z.mod_small (val mod 128 + 128)) by lia.
      rewrite IH.
      * rewrite <- app_assoc. reflexivity.
      * split; [apply Z.div_pos; lia|apply Z.div_lt_upper_bound; lia].
      * apply Z.div_lt_upper_bound; lia.
    + unfold Js.ToUint8. rewrite Z.mod_small by lia. reflexivity.
Qed.

Lemma varintBytes_varint (val : Z) (out : list Z) :
  Wire.u32 val -> Pbf.varintBytes val out = Some (out ++ Wire.varint val).
Proof.
  intros Hval. unfold Pbf.varintBytes, Wire.varint. unfold Wire.u32 in Hval.
  destruct (Z.ltb_spec val 0); [lia|].
  apply writeVarint_loop_encode; [assumption|].
  change (128 * 2 ^ (7 * Z.of_nat 5)) with (2 ^ 42). lia.
Qed.

Lemma writeVarint_varint (val : Z) (w : Pbf.PbfWriter) :
  Wire.u32 val ->
  Pbf.writeVarint val w = Some (Pbf.mkWriter (Pbf.buf w ++ Wire.varint val) (Pbf.lengthStack w)).
Proof.
  intros Hval. unfold Pbf.writeVarint. rewrite varintBytes_varint by assumption.
  reflexivity.
Qed.

Lemma decode_varint (v : Z) (rest : list Z) :
  Wire.u32 v -> Wire.decodeVarint (Wire.varint v ++ rest) = Some (v, rest).
Proof.
  intros Hv. unfold Wire.u32 in Hv. apply decode_encodeVarint.
  change (128 * 2 ^ (7 * Z.of_nat 5)) with (2 ^ 42). lia.
Qed.

(** The byte count that [writePackedVarint] announces is the one that
    [writeVarint] writes. *)
Lemma length_varint (v : Z) :
  Wire.u32 v -> Z.of_nat (List.length (Wire.varint v)) = Pbf.varintSize v.
Proof.
  unfold Wire.u32. intros Hv. unfold Pbf.varintSize, Wire.varint.
  destruct (Z.ltb_spec v 0); [lia|].
  pose proof (Z.div_mod v 128 ltac:(lia)) as E1.
  pose proof (Z.mod_pos_bound v 128 ltac:(lia)) as B1.
  pose proof (Z.div_mod (v / 128) 128 ltac:(lia)) as E2.
  pose proof (Z.mod_pos_bound (v / 128) 128 ltac:(lia)) as B2.
  pose proof (Z.div_mod (v / 128 / 128) 128 ltac:(lia)) as E3.
  pose proof (Z.mod_pos_bound (v / 128 / 128) 128 ltac:(lia)) as B3.
  pose proof (Z.div_mod (v / 128 / 128 / 128) 128 ltac:(lia)) as E4.
  pose proof (Z.mod_pos_bound (v / 128 / 128 / 128) 128 ltac:(lia)) as B4.
  pose proof (Z.div_mod (v / 128 / 128 / 128 / 128) 128 ltac:(lia)) as E5.
  pose proof (Z.mod_pos_bound (v / 128 / 128 / 128 / 128) 128 ltac:(lia)) as B5.
  set (q1 := v / 128) in *. set (q2 := q1 / 128) in *. set (q3 := q2 / 128) in *.
  set (q4 := q3 / 128) in *. set (q5 := q4 / 128) in *.
  cbn [Wire.encodeVarint]. fold q1 q2 q3 q4 q5.
  repeat match goal with
         | |- context [?a <? ?b] => destruct (Z.ltb_spec a b)
         end; try lia; reflexivity.
Qed.

Lemma writeVarints_varints (values : list Z) :
  forall (w : Pbf.PbfWriter),
    Forall Wire.u32 values ->
    Pbf.writeVarints values w
    = Some (Pbf.mkWriter (Pbf.buf w ++ List.concat (map Wire.varint values))
              (Pbf.lengthStack w)).
Proof.
  induction values as [|v values IH]; intros w Hall.
  - cbn. rewrite app_nil_r. destruct w; reflexivity.
  - cbn [Pbf.writeVarints map List.concat].
    rewrite writeVarint_varint by (exact (Forall_inv Hall)). cbn [obind].
    rewrite IH by (exact (Forall_inv_tail Hall)). cbn [Pbf.buf Pbf.lengthStack].
    rewrite <- app_assoc. reflexivity.
Qed.

Lemma byteLen_varints (values : list Z) :
  forall (acc : Z),
    Forall Wire.u32 values ->
    fold_left (fun acc v => acc + Pbf.varintSize v) values acc
    = acc + Z.of_nat (List.length (List.concat (map Wire.varint values))).
Proof.
  induction values as [|v values IH]; intros acc Hall.
  - cbn. lia.
  - cbn [fold_left map List.concat]. rewrite IH by (exact (Forall_inv_tail Hall)).
    rewrite length_app, Nat2Z.inj_add, length_varint by (exact (Forall_inv Hall)). lia.
Qed.

(** [writePackedVarint] for the two packed fields of a feature. *)
Lemma writePackedVarint_packed (fieldNum : Z) (values : list Z) (w : Pbf.PbfWriter) :
  fieldNum = 2 \/ fieldNum = 4 ->
  Forall Wire.u32 values ->
  Wire.u32 (Z.of_nat (List.length (List.concat (map Wire.varint values)))) ->
  Pbf.writePackedVarint fieldNum values w
  = Some (Pbf.mkWriter (Pbf.buf w ++ Wire.packed fieldNum values) (Pbf.lengthStack w)).
Proof.
  intros Hnum Hall Hlen. destruct values as [|v values].
  - cbn. rewrite app_nil_r. destruct w; reflexivity.
  - unfold Pbf.writePackedVarint, Wire.packed.
    set (vs := v :: values) in *.
    assert (Htag : Pbf.writeTag fieldNum Pbf.WIRE_LEN w
                   = Some (Pbf.mkWriter (Pbf.buf w ++ [fieldNum * 8 + 2]) (Pbf.lengthStack w))).
    { unfold Pbf.writeTag.
      destruct Hnum as [-> | ->].
      - change (Js.or (Js.shl 2 3) Pbf.WIRE_LEN) with 18.
        rewrite writeVarint_varint by (unfold Wire.u32; lia). reflexivity.
      - change (Js.or (Js.shl 4 3) Pbf.WIRE_LEN) with 34.
        rewrite writeVarint_varint by (unfold Wire.u32; lia). reflexivity. }
    rewrite Htag. cbn [obind].
    rewrite byteLen_varints by assumption. rewrite Z.add_0_l.
    rewrite writeVarint_varint by assumption. cbn [obind Pbf.buf Pbf.lengthStack].
    rewrite writeVarints_varints by assumption. cbn [Pbf.buf Pbf.lengthStack].
    rewrite <- !app_assoc. reflexivity.
Qed.

Lemma store_middle (pre : list Z) (h v : Z) (post : list Z) :
  0 <= v < 256 ->
  Pbf.store (pre ++ h :: post) (Z.of_nat (List.length pre)) v = pre ++ v :: post.
Proof.
  intros Hv. unfold Pbf.store. rewrite length_app. cbn [List.length].
  destruct (Z.leb_spec 0 (Z.of_nat (List.length pre))); [|lia].
  destruct (Z.ltb_spec (Z.of_nat (List.length pre))
              (Z.of_nat (List.length pre + S (List.length post)))); [|lia].
  cbn [andb]. rewrite Nat2Z.id.
  rewrite firstn_app, firstn_all, Nat.sub_diag, firstn_0, app_nil_r.
  replace (S (List.length pre)) with (List.length pre + 1)%nat by lia.
  rewrite skipn_app, skipn_all2 by lia.
  replace (List.length pre + 1 - List.length pre)%nat with 1%nat by lia.
  cbn [skipn app]. unfold Js.ToUint8. rewrite Z.mod_small by lia. reflexivity.
Qed.

(** The back-patching loop fills a hole of the right size with the bytes
    of the length. *)
Lemma patchLength_encode (fuel : nat) :
  forall (val : Z) (pre hole post : list Z),
    Wire.u32 val -> val < 128 * 2 ^ (7 * Z.of_nat fuel) ->
    List.length hole = List.length (Wire.encodeVarint fuel val) ->
    Pbf.patchLength fuel val (Z.of_nat (List.length pre)) (pre ++ hole ++ post)
    = Some (pre ++ Wire.encodeVarint fuel val ++ post).
Proof.
  unfold Wire.u32. induction fuel as [|fuel IH]; intros val pre hole post Hval Hfuel Hhole.
  - change (7 * Z.of_nat 0) with 0 in Hfuel.
    cbn [Pbf.patchLength Wire.encodeVarint] in *.
    destruct (Z.gtb_spec val 127); [lia|].
    destruct hole as [|h [|? ?]]; try discriminate Hhole.
    cbn [app]. rewrite store_middle by lia. reflexivity.
  - rewrite pow_step in Hfuel. cbn [Pbf.patchLength Wire.encodeVarint] in *.
    destruct (Z.gtb_spec val 127) as [Hgt|Hle]; destruct (Z.ltb_spec val 128); try lia.
    + rewrite shr_7, and_0x7f, (Z.mod_small val) by assumption.
      pose proof (Z.mod_pos_bound val 128 ltac:(lia)) as Hm.
      rewrite or_0x80 by assumption.
      destruct hole as [|h hole]; [discriminate Hhole|].
      cbn [app]. rewrite store_middle by lia.
      replace (Z.of_nat (List.length pre) + 1)
        with (Z.of_nat (List.length (pre ++ [val mod 128 + 128])))
        by (rewrite length_app; cbn [List.length]; lia).
      replace (pre ++ (val mod 128 + 128) :: hole ++ post)
        with ((pre ++ [val mod 128 + 128]) ++ hole ++ post)
        by (rewrite <- app_assoc; reflexivity).
      rewrite IH.
      * rewrite <- app_assoc. reflexivity.
      * split; [apply Z.div_pos; lia|apply Z.div_lt_upper_bound; lia].
      * apply Z.div_lt_upper_bound; lia.
      * cbn [List.length] in Hhole. lia.
    + destruct hole as [|h [|? ?]]; try discriminate Hhole.
      cbn [app]. rewrite store_middle by lia. reflexivity.
Qed.

Lemma firstn_exact {A : Type} (n : nat) (l rest : list A) :
  n = List.length l -> firstn n (l ++ rest) = l.
Proof.
  intros ->. rewrite firstn_app, firstn_all, Nat.sub_diag, firstn_0. apply app_nil_r.
Qed.

Lemma skipn_exact {A : Type} (n : nat) (l rest : list A) :
  n = List.length l -> skipn n (l ++ rest) = rest.
Proof.
  intros ->. rewrite skipn_app, skipn_all, Nat.sub_diag. reflexivity.
Qed.

(** Closing up the unused placeholder bytes: [copyWithin] and the new
    [pos]. *)
Lemma copyWithin_closeUp (pre body : list Z) (k : Z) :
  0 <= k <= 5 ->
  let p := Z.of_nat (List.length pre) in
  let e := p + 5 + Z.of_nat (List.length body) in
  firstn (Z.to_nat (e - (5 - k)))
    (Pbf.copyWithin (pre ++ [0; 0; 0; 0; 0] ++ body) (p + k) (p + 5) e)
  = pre ++ firstn (Z.to_nat k) [0; 0; 0; 0; 0] ++ body.
Proof.
  intros Hk p e. unfold Pbf.copyWithin.
  replace (Z.to_nat (e - (p + 5))) with (List.length body) by lia.
  replace (Z.to_nat (p + 5)) with (List.length (pre ++ [0; 0; 0; 0; 0]))
    by (rewrite length_app; cbn [List.length]; lia).
  rewrite (app_assoc pre), (skipn_exact _ (pre ++ [0; 0; 0; 0; 0]) body eq_refl).
  rewrite firstn_all, <- app_assoc.
  replace (Z.to_nat (p + k)) with (List.length pre + Z.to_nat k)%nat by lia.
  replace (Z.to_nat (e - (5 - k))) with (List.length pre + Z.to_nat k + List.length body)%nat
    by lia.
  rewrite (firstn_app (List.length pre + Z.to_nat k)), (firstn_all2 pre) by lia.
  replace (List.length pre + Z.to_nat k - List.length pre)%nat with (Z.to_nat k) by lia.
  assert (Hhole : firstn (Z.to_nat k) ([0; 0; 0; 0; 0] ++ body)
                  = firstn (Z.to_nat k) [0; 0; 0; 0; 0]
                  /\ List.length (firstn (Z.to_nat k) [0; 0; 0; 0; 0]) = Z.to_nat k).
  { assert (Hn : (Z.to_nat k <= 5)%nat) by lia.
    destruct (Z.to_nat k) as [|[|[|[|[|[|n]]]]]]; try (split; reflexivity). lia. }
  destruct Hhole as [-> Hlen].
  rewrite !app_assoc. apply firstn_exact.
  rewrite !length_app, Hlen. reflexivity.
Qed.

Lemma varintSize_range (v : Z) : Wire.u32 v -> 1 <= Pbf.varintSize v <= 5.
Proof.
  unfold Wire.u32, Pbf.varintSize. intros Hv.
  repeat match goal with
         | |- context [?a <? ?b] => destruct (Z.ltb_spec a b)
         end; lia.
Qed.

(** [endMessage] replaces the placeholder by the length of the body. *)
Lemma endMessage_patches (pre body : list Z) (stack : list Z) :
  Wire.u32 (Z.of_nat (List.length body)) ->
  Pbf.endMessage
    (Pbf.mkWriter (pre ++ [0; 0; 0; 0; 0] ++ body) (Z.of_nat (List.length pre) :: stack))
  = Some (Pbf.mkWriter (pre ++ Wire.varint (Z.of_nat (List.length body)) ++ body) stack).
Proof.
  intros Hbody. unfold Pbf.endMessage, Pbf.pos. cbn [Pbf.lengthStack Pbf.buf].
  set (m := Z.of_nat (List.length body)) in *.
  replace (Z.of_nat (List.length (pre ++ [0; 0; 0; 0; 0] ++ body)))
    with (Z.of_nat (List.length pre) + 5 + m)
    by (rewrite !length_app; cbn [List.length]; lia).
  replace (Z.of_nat (List.length pre) + 5 + m - Z.of_nat (List.length pre) - 5) with m by lia.
  pose proof (varintSize_range m Hbody) as Hsize.
  pose proof (length_varint m Hbody) as Hlen.
  assert (Hfuel : m < 128 * 2 ^ (7 * Z.of_nat 5)).
  { change (128 * 2 ^ (7 * Z.of_nat 5)) with (2 ^ 42). unfold Wire.u32 in Hbody. lia. }
  destruct (Z.ltb_spec (Pbf.varintSize m) 5) as [Hlt|Hge].
  - pose proof (copyWithin_closeUp pre body (Pbf.varintSize m) ltac:(lia)) as Hclose.
    cbv zeta in Hclose. fold m in Hclose. rewrite Hclose.
    rewrite (patchLength_encode 5 m pre _ body Hbody Hfuel).
    + reflexivity.
    + fold (Wire.varint m). apply Nat2Z.inj. rewrite Hlen.
      assert (Hn : (Z.to_nat (Pbf.varintSize m) <= 5)%nat) by lia.
      rewrite length_firstn. cbn [List.length]. lia.
  - rewrite (patchLength_encode 5 m pre [0; 0; 0; 0; 0] body Hbody Hfuel).
    + reflexivity.
    + fold (Wire.varint m). apply Nat2Z.inj. rewrite Hlen. cbn [List.length]. lia.
Qed.

Lemma varint_small (v : Z) : 0 <= v < 128 -> Wire.varint v = [v].
Proof.
  intros Hv. unfold Wire.varint. cbn [Wire.encodeVarint].
  destruct (Z.ltb_spec v 128); [reflexivity|lia].
Qed.

Lemma length_packed (fieldNum : Z) (values : list Z) :
  (List.length (List.concat (map Wire.varint values))
   <= List.length (Wire.packed fieldNum values))%nat.
Proof.
  destruct values as [|v values]; [cbn; lia|].
  unfold Wire.packed. cbn [List.length]. rewrite length_app. lia.
Qed.

(** A packed field that is written only when it has values. *)
Lemma writePacked_if_any (fieldNum : Z) (values : list Z) (w : Pbf.PbfWriter) :
  fieldNum = 2 \/ fieldNum = 4 ->
  Forall Wire.u32 values ->
  Wire.u32 (Z.of_nat (List.length (Wire.packed fieldNum values))) ->
  (if 0 <? Z.of_nat (List.length values)
   then Pbf.writePackedVarint fieldNum values w else Some w)
  = Some (Pbf.mkWriter (Pbf.buf w ++ Wire.packed fieldNum values) (Pbf.lengthStack w)).
Proof.
  intros Hnum Hall Hlen.
  destruct (Z.ltb_spec 0 (Z.of_nat (List.length values))) as [Hpos|Hzero].
  - apply writePackedVarint_packed; try assumption.
    pose proof (length_packed fieldNum values). unfold Wire.u32 in *. lia.
  - destruct values; [|cbn [List.length] in Hzero; lia].
    cbn. rewrite app_nil_r. destruct w; reflexivity.
Qed.

Lemma MvtGeomType_value_small (t : Types.MvtGeomType) :
  0 <= Types.MvtGeomType_value t < 128.
Proof. destruct t; cbn; lia. Qed.

(** The bytes of a feature message without an id. *)
Lemma writeFeature_body (feature : Types.MvtFeature) (w : Pbf.PbfWriter) :
  Types.mvt_id feature = None ->
  Forall Wire.u32 (Types.mvt_tags feature) ->
  Forall Wire.u32 (Types.mvt_geometry feature) ->
  Wire.u32 (Z.of_nat (List.length (Wire.featureBody feature))) ->
  Encode.writeFeature feature w
  = Some (Pbf.mkWriter
            (Pbf.buf w ++ 18 :: Wire.varint (Z.of_nat (List.length (Wire.featureBody feature)))
               ++ Wire.featureBody feature)
            (Pbf.lengthStack w)).
Proof.
  intros Hid Htags Hgeom Hbody.
  pose proof (MvtGeomType_value_small (Types.mvt_type feature)) as Htype.
  assert (Hsizes :
    Z.of_nat (List.length (Wire.packed 2 (Types.mvt_tags feature)))
    <= Z.of_nat (List.length (Wire.featureBody feature))
    /\ Z.of_nat (List.length (Wire.packed 4 (Types.mvt_geometry feature)))
       <= Z.of_nat (List.length (Wire.featureBody feature))).
  { unfold Wire.featureBody. rewrite !length_app. lia. }
  unfold Encode.writeFeature, Pbf.beginMessage, Pbf.writeTag.
  change (Js.or (Js.shl 2 3) Pbf.WIRE_LEN) with 18.
  rewrite writeVarint_varint by (unfold Wire.u32; lia).
  rewrite varint_small by lia. cbn [obind Pbf.buf Pbf.lengthStack]. rewrite Hid.
  cbn [obind].
  rewrite writePacked_if_any; [|left; reflexivity|assumption|unfold Wire.u32 in *; lia].
  cbn [obind Pbf.buf Pbf.lengthStack].
  unfold Pbf.writeVarintField, Pbf.writeTag.
  change (Js.or (Js.shl 3 3) Pbf.WIRE_VARINT) with 24.
  rewrite writeVarint_varint by (unfold Wire.u32; lia).
  rewrite varint_small by lia. cbn [obind Pbf.buf Pbf.lengthStack].
  rewrite writeVarint_varint by (unfold Wire.u32; lia).
  rewrite varint_small by lia. cbn [obind Pbf.buf Pbf.lengthStack].
  rewrite writePacked_if_any; [|right; reflexivity|assumption|unfold Wire.u32 in *; lia].
  cbn [obind Pbf.buf Pbf.lengthStack].
  unfold Pbf.pos. cbn [Pbf.buf].
  replace ((((((Pbf.buf w ++ [18]) ++ [0; 0; 0; 0; 0])
               ++ Wire.packed 2 (Types.mvt_tags feature)) ++ [24])
             ++ [Types.MvtGeomType_value (Types.mvt_type feature)])
            ++ Wire.packed 4 (Types.mvt_geometry feature))
    with ((Pbf.buf w ++ [18]) ++ [0; 0; 0; 0; 0] ++ Wire.featureBody feature)
    by (unfold Wire.featureBody; rewrite <- !app_assoc; reflexivity).
  rewrite endMessage_patches by assumption.
  rewrite <- app_assoc. reflexivity.
Qed.

Lemma fieldNumbers_packed (fuel : nat) (fieldNum : Z) (values rest : list Z) (l : list Z) :
  fieldNum = 2 \/ fieldNum = 4 ->
  values <> [] ->
  Wire.u32 (Z.of_nat (List.length (List.concat (map Wire.varint values)))) ->
  Wire.fieldNumbers fuel rest = Some l ->
  Wire.fieldNumbers (S fuel) (Wire.packed fieldNum values ++ rest) = Some (fieldNum :: l).
Proof.
  intros Hnum Hvalues Hlen Hrest.
  destruct values as [|v values]; [congruence|].
  unfold Wire.packed. set (payload := List.concat (map Wire.varint (v :: values))) in *.
  assert (Hskip : Wire.skipField 2
                    ((Wire.varint (Z.of_nat (List.length payload)) ++ payload) ++ rest)
                  = Some rest).
  { unfold Wire.skipField. cbn [Z.eqb Pos.eqb].
    rewrite <- app_assoc, decode_varint by assumption. cbn [obind].
    rewrite length_app.
    destruct (Z.leb_spec (Z.of_nat (List.length payload))
                (Z.of_nat (List.length payload + List.length rest))); [|lia].
    rewrite Nat2Z.id, skipn_exact by reflexivity. reflexivity. }
  destruct Hnum as [-> | ->].
  - change (2 * 8 + 2) with 18. rewrite <- app_comm_cons.
    cbn [Wire.fieldNumbers Wire.decodeVarint Z.ltb Z.compare Pos.compare Pos.compare_cont obind].
    change (Z.land 18 7) with 2. rewrite Hskip. cbn [obind]. rewrite Hrest. reflexivity.
  - change (4 * 8 + 2) with 34. rewrite <- app_comm_cons.
    cbn [Wire.fieldNumbers Wire.decodeVarint Z.ltb Z.compare Pos.compare Pos.compare_cont obind].
    change (Z.land 34 7) with 2. rewrite Hskip. cbn [obind]. rewrite Hrest. reflexivity.
Qed.

Lemma fieldNumbers_packed_last (fuel : nat) (fieldNum : Z) (values : list Z) :
  fieldNum = 2 \/ fieldNum = 4 ->
  Wire.u32 (Z.of_nat (List.length (Wire.packed fieldNum values))) ->
  Wire.fieldNumbers (S fuel) (Wire.packed fieldNum values)
  = Some (Wire.packedNumber fieldNum values).
Proof.
  intros Hnum Hlen. destruct values as [|v values]; [reflexivity|].
  rewrite <- (app_nil_r (Wire.packed fieldNum (v :: values))).
  apply fieldNumbers_packed; try assumption.
  - discriminate.
  - pose proof (length_packed fieldNum (v :: values)). unfold Wire.u32 in *. lia.
  - destruct fuel; reflexivity.
Qed.

Lemma fieldNumbers_type (fuel : nat) (t : Types.MvtGeomType) (rest l : list Z) :
  Wire.fieldNumbers fuel rest = Some l ->
  Wire.fieldNumbers (S fuel) ([24; Types.MvtGeomType_value t] ++ rest) = Some (3 :: l).
Proof.
  intros Hrest. destruct t; cbn; rewrite Hrest; reflexivity.
Qed.

(** A reader of the body of a feature message without an id finds the
    fields 2, 3 and 4 only. *)
Lemma fieldNumbers_featureBody (feature : Types.MvtFeature) :
  Wire.u32 (Z.of_nat (List.length (Wire.featureBody feature))) ->
  Wire.fieldNumbers 3 (Wire.featureBody feature)
  = Some (Wire.packedNumber 2 (Types.mvt_tags feature) ++ [3]
          ++ Wire.packedNumber 4 (Types.mvt_geometry feature)).
Proof.
  intros Hbody.
  assert (Hsizes :
    Z.of_nat (List.length (Wire.packed 2 (Types.mvt_tags feature)))
    <= Z.of_nat (List.length (Wire.featureBody feature))
    /\ Z.of_nat (List.length (Wire.packed 4 (Types.mvt_geometry feature)))
       <= Z.of_nat (List.length (Wire.featureBody feature))).
  { unfold Wire.featureBody. rewrite !length_app. lia. }
  assert (Hgeom : forall fuel,
            Wire.fieldNumbers (S fuel) (Wire.packed 4 (Types.mvt_geometry feature))
            = Some (Wire.packedNumber 4 (Types.mvt_geometry feature))).
  { intros fuel. apply fieldNumbers_packed_last; [right; reflexivity|].
    unfold Wire.u32 in *. lia. }
  unfold Wire.featureBody.
  destruct (Types.mvt_tags feature) as [|v tags] eqn:Htags.
  - cbn [Wire.packed Wire.packedNumber app].
    apply (fieldNumbers_type 2 (Types.mvt_type feature)). apply Hgeom.
  - cbn [Wire.packedNumber app]. apply fieldNumbers_packed.
    + left; reflexivity.
    + discriminate.
    + pose proof (length_packed 2 (v :: tags)). unfold Wire.u32 in *. lia.
    + apply (fieldNumbers_type 1 (Types.mvt_type feature)). apply Hgeom.
Qed.

Lemma packedNumber_not_1 (fieldNum : Z) (values : list Z) :
  fieldNum <> 1 -> ~ In 1 (Wire.packedNumber fieldNum values).
Proof.
  intros Hnum. destruct values; cbn; [tauto|]. intros [H|[]]. congruence.
Qed.

End FeatureMessage.

(** ** Feature ids (fgb/feature, mvt/layer, pipeline) *)

Section FeatureIds.
Import Types.

Lemma decodeSingleFeature_id (bytes : Buf.view) (header : FgbHeader) (f : RawFeature) :
  Feature.decodeSingleFeature bytes header = Ok (Some f) -> noRawId f.
Proof.
  unfold Feature.decodeSingleFeature. intros H.
  repeat match type of H with
         | bind ?r _ = _ => destruct r; cbn [bind] in H; try discriminate H
         | (if ?c then _ else _) = _ => destruct c; try discriminate H
         | match ?x with _ => _ end = _ => destruct x; try discriminate H
         end.
  injection H as <-. reflexivity.
Qed.

Lemma decodeFeatures_loop_ids (fuel : nat) (bytes : Buf.view) (header : FgbHeader)
    (maxFeatures : option Z) :
  forall (offset : Z) (features out : list RawFeature),
    Forall noRawId features ->
    Feature.decodeFeatures_loop fuel bytes header maxFeatures offset features = Ok out ->
    Forall noRawId out.
Proof.
  induction fuel as [|fuel IH]; intros offset features out Hall H.
  - cbn [Feature.decodeFeatures_loop] in H.
    destruct (_ && _); [discriminate H|]. injection H as <-. exact Hall.
  - cbn [Feature.decodeFeatures_loop] in H.
    destruct (_ && _); [|injection H as <-; exact Hall].
    destruct (_ >? _)%Z; [injection H as <-; exact Hall|].
    destruct (Buf.newView _ _ _) as [view| |]; cbn [bind] in H; try discriminate H.
    destruct (Buf.getUint32 view 0) as [featureSize| |]; cbn [bind] in H;
      try discriminate H.
    destruct (featureSize =? 0)%Z; [injection H as <-; exact Hall|].
    destruct (_ >? _)%Z; [injection H as <-; exact Hall|].
    destruct (Feature.decodeSingleFeature _ header) as [feature| |] eqn:Hone;
      cbn [bind] in H; try discriminate H.
    apply IH in H; [exact H|].
    destruct feature as [f|]; [|exact Hall].
    apply Forall_app. split; [exact Hall|].
    constructor; [|constructor]. exact (decodeSingleFeature_id _ _ _ Hone).
Qed.

Lemma decodeFeatures_ids (bytes : Buf.view) (header : FgbHeader) (maxFeatures : option Z)
    (features : list RawFeature) :
  Feature.decodeFeatures bytes header maxFeatures = Ok features -> Forall noRawId features.
Proof.
  unfold Feature.decodeFeatures. apply decodeFeatures_loop_ids. constructor.
Qed.

(** *** The decoder returns or throws: its loops end within their fuel *)

Lemma bind_fuel {A B : Type} (r : result A) (k : A -> result B) :
  r <> OutOfFuel -> (forall a, r = Ok a -> k a <> OutOfFuel) -> bind r k <> OutOfFuel.
Proof.
  intros Hr Hk. destruct r as [a|e|]; cbn [bind];
    [apply Hk; reflexivity|discriminate|exact (fun _ => Hr eq_refl)].
Qed.

Lemma Forall_firstn {A : Type} (P : A -> Prop) (n : nat) :
  forall l, Forall P l -> Forall P (firstn n l).
Proof.
  induction n as [|n IH]; intros l Hl; [constructor|].
  destruct Hl as [|a l Ha Hl]; cbn [firstn]; constructor; auto.
Qed.

Lemma Forall_skipn {A : Type} (P : A -> Prop) (n : nat) :
  forall l, Forall P l -> Forall P (skipn n l).
Proof.
  induction n as [|n IH]; intros l Hl; [exact Hl|].
  destruct Hl as [|a l Ha Hl]; cbn [skipn]; [constructor|auto].
Qed.

Lemma le_nonneg (bytes : list Z) : Forall (fun b => 0 <= b < 256) bytes -> 0 <= Buf.le bytes.
Proof.
  induction 1 as [|b bytes Hb _ IH]; cbn [Buf.le]; lia.
Qed.

Lemma read_fuel (v : Buf.view) (offset : Z) (n : nat) : Buf.read v offset n <> OutOfFuel.
Proof. unfold Buf.read. destruct (_ && _); discriminate. Qed.

Lemma read_bytes (v : Buf.view) (offset : Z) (n : nat) (bytes : list Z) :
  Buf.wellFormed v -> Buf.read v offset n = Ok bytes -> Forall (fun b => 0 <= b < 256) bytes.
Proof.
  unfold Buf.read, Buf.wellFormed. intros Hv H. destruct (_ && _); [|discriminate H].
  injection H as <-. apply Forall_firstn, Forall_skipn, Hv.
Qed.

Lemma newView_fuel (buffer : list Z) (byteOffset byteLength : Z) :
  Buf.newView buffer byteOffset byteLength <> OutOfFuel.
Proof. unfold Buf.newView. destruct (_ && _); discriminate. Qed.

Lemma newView_buffer (buffer : list Z) (byteOffset byteLength : Z) (v : Buf.view) :
  Buf.newView buffer byteOffset byteLength = Ok v -> Buf.buffer v = buffer.
Proof.
  unfold Buf.newView. destruct (_ && _); [|discriminate]. intros H.
  injection H as <-. reflexivity.
Qed.

Lemma getUint_fuel (v : Buf.view) (offset : Z) :
  Buf.getUint8 v offset <> OutOfFuel /\ Buf.getInt8 v offset <> OutOfFuel
  /\ Buf.getUint16 v offset <> OutOfFuel /\ Buf.getInt16 v offset <> OutOfFuel
  /\ Buf.getUint32 v offset <> OutOfFuel /\ Buf.getInt32 v offset <> OutOfFuel
  /\ Buf.getFloat32 v offset <> OutOfFuel /\ Buf.getFloat64 v offset <> OutOfFuel.
Proof.
  unfold Buf.getUint8, Buf.getInt8, Buf.getUint16, Buf.getInt16, Buf.getUint32,
    Buf.getInt32, Buf.getFloat32, Buf.getFloat64.
  repeat split; (apply bind_fuel; [apply read_fuel|discriminate]).
Qed.

Lemma getUint16_fuel (v : Buf.view) (offset : Z) : Buf.getUint16 v offset <> OutOfFuel.
Proof. apply (getUint_fuel v offset). Qed.

Lemma getUint32_fuel (v : Buf.view) (offset : Z) : Buf.getUint32 v offset <> OutOfFuel.
Proof. apply (getUint_fuel v offset). Qed.

Lemma getInt32_fuel (v : Buf.view) (offset : Z) : Buf.getInt32 v offset <> OutOfFuel.
Proof. apply (getUint_fuel v offset). Qed.

Lemma getUint8_fuel (v : Buf.view) (offset : Z) : Buf.getUint8 v offset <> OutOfFuel.
Proof. apply (getUint_fuel v offset). Qed.

Lemma getUint32_nonneg (v : Buf.view) (offset value : Z) :
  Buf.wellFormed v -> Buf.getUint32 v offset = Ok value -> 0 <= value.
Proof.
  unfold Buf.getUint32. intros Hv H.
  destruct (Buf.read v offset 4) as [bytes| |] eqn:Hread; cbn [bind] in H;
    try discriminate H.
  injection H as <-. apply le_nonneg. exact (read_bytes v offset 4 bytes Hv Hread).
Qed.

Create HintDb fuel.

#[local] Hint Resolve getUint8_fuel getUint16_fuel getUint32_fuel getInt32_fuel
  newView_fuel read_fuel : fuel.

Ltac fuel_step :=
  first
    [ discriminate
    | solve [auto with fuel]
    | apply bind_fuel; [|intros ? ?]
    | match goal with
      | |- (if ?c then _ else _) <> OutOfFuel => destruct c
      | |- match ?x with _ => _ end <> OutOfFuel => destruct x
      end ].

Lemma fieldOffset_fuel (fb : FlatBuffers.FlatBufferReader) (tablePos fieldIndex : Z) :
  FlatBuffers.fieldOffset fb tablePos fieldIndex <> OutOfFuel.
Proof.
  unfold FlatBuffers.fieldOffset, FlatBuffers.vtableOffset, FlatBuffers.readInt32,
    FlatBuffers.readUint16.
  repeat fuel_step.
Qed.

Lemma indirect_fuel (fb : FlatBuffers.FlatBufferReader) (pos : Z) :
  FlatBuffers.indirect fb pos <> OutOfFuel.
Proof. unfold FlatBuffers.indirect, FlatBuffers.readUint32. repeat fuel_step. Qed.

Lemma vectorLen_fuel (fb : FlatBuffers.FlatBufferReader) (pos : Z) :
  FlatBuffers.vectorLen fb pos <> OutOfFuel.
Proof. unfold FlatBuffers.vectorLen, FlatBuffers.readUint32. repeat fuel_step. Qed.

Lemma readFloat64Array_fuel (fb : FlatBuffers.FlatBufferReader) (offset count : Z) :
  FlatBuffers.readFloat64Array fb offset count <> OutOfFuel.
Proof. unfold FlatBuffers.readFloat64Array. repeat fuel_step. Qed.

Lemma readUint32_each_fuel (fb : FlatBuffers.FlatBufferReader) (count : nat) :
  forall offset, FlatBuffers.readUint32_each fb offset count <> OutOfFuel.
Proof.
  induction count as [|count IH]; intros offset; cbn [FlatBuffers.readUint32_each];
    [discriminate|].
  unfold FlatBuffers.readUint32.
  apply bind_fuel; [auto with fuel|intros v _].
  apply bind_fuel; [apply IH|discriminate].
Qed.

Lemma readUint32Array_fuel (fb : FlatBuffers.FlatBufferReader) (offset count : Z) :
  FlatBuffers.readUint32Array fb offset count <> OutOfFuel.
Proof.
  unfold FlatBuffers.readUint32Array. destruct (_ =? 0); [repeat fuel_step|].
  apply readUint32_each_fuel.
Qed.

#[local] Hint Resolve fieldOffset_fuel indirect_fuel vectorLen_fuel readFloat64Array_fuel
  readUint32Array_fuel : fuel.

Lemma decodeParts_fuel (decodePart : Z -> result (option Feature.DecodedGeometry))
    (fb : FlatBuffers.FlatBufferReader) (partsDataStart : Z) (n : nat) :
  (forall pos, decodePart pos <> OutOfFuel) ->
  forall (i : Z) (acc : Feature.partsAcc),
    Feature.decodeParts decodePart fb partsDataStart n i acc <> OutOfFuel.
Proof.
  intros Hpart. induction n as [|n IH]; intros i acc; cbn [Feature.decodeParts];
    [discriminate|].
  apply bind_fuel; [auto with fuel|intros partOffset _].
  apply bind_fuel; [apply Hpart|intros partGeom _]. apply IH.
Qed.

Lemma decodeGeometry_fuel (fb : FlatBuffers.FlatBufferReader) (headerGeomType : GeomType)
    (levels : nat) :
  forall tablePos, Feature.decodeGeometry levels fb headerGeomType tablePos <> OutOfFuel.
Proof.
  induction levels as [|levels IH]; intros tablePos; cbn [Feature.decodeGeometry];
    [discriminate|].
  unfold FlatBuffers.readUint8.
  apply bind_fuel; [auto with fuel|intros typeFieldOff _].
  apply bind_fuel; [repeat fuel_step|intros type _].
  apply bind_fuel; [auto with fuel|intros xyFieldOff _].
  apply bind_fuel; [repeat fuel_step|intros flatGeometry _].
  destruct flatGeometry; [discriminate|].
  apply bind_fuel; [auto with fuel|intros partsFieldOff _].
  destruct (_ =? _)%Z; [discriminate|].
  apply bind_fuel; [auto with fuel|intros partsVecOffset _].
  apply bind_fuel; [auto with fuel|intros partsLen _].
  destruct (_ =? _)%Z; [discriminate|].
  apply bind_fuel; [apply decodeParts_fuel; exact IH|intros acc _].
  destruct (Feature.allXy acc); discriminate.
Qed.

Lemma readPropertyValue_fuel (view bytes : Buf.view) (offset : Z) (type : ColumnType) :
  Feature.readPropertyValue view bytes offset type <> OutOfFuel.
Proof.
  pose proof (getUint_fuel view offset) as (? & ? & ? & ? & ? & ? & ? & ?).
  pose proof (getUint_fuel view (offset + 4)) as (? & ? & ? & ? & ? & ? & ? & ?).
  destruct type; cbn [Feature.readPropertyValue]; repeat fuel_step; assumption.
Qed.

Lemma readPropertyValue_bytesRead (view bytes : Buf.view) (offset : Z) (type : ColumnType)
    (value : PropertyValue) (bytesRead : Z) :
  Buf.wellFormed view ->
  Feature.readPropertyValue view bytes offset type = Ok (value, bytesRead) ->
  0 <= bytesRead.
Proof.
  intros Hview H.
  destruct type; cbn [Feature.readPropertyValue] in H;
    repeat match type of H with
           | bind ?r _ = _ =>
               let E := fresh "E" in
               destruct r eqn:E; cbn [bind] in H; try discriminate H
           | (if ?c then _ else _) = _ => destruct c
           end;
    apply (f_equal (fun r => match r with Ok (_, n) => n | _ => 0 end)) in H;
    cbv beta iota in H; subst bytesRead; try lia;
    match goal with
    | E : Buf.getUint32 view offset = Ok ?len |- _ =>
        pose proof (getUint32_nonneg view offset len Hview E); lia
    end.
Qed.

Lemma decodeProperties_loop_fuel (view propsBytes : Buf.view) (propsLen : Z)
    (columns : list ColumnMeta) (fuel : nat) :
  Buf.wellFormed view ->
  forall (offset : Z) (props : PropertyMap),
    propsLen - offset <= Z.of_nat fuel ->
    Feature.decodeProperties_loop fuel view propsBytes propsLen columns offset props
    <> OutOfFuel.
Proof.
  intros Hview. induction fuel as [|fuel IH]; intros offset props Hfuel;
    cbn [Feature.decodeProperties_loop].
  - destruct (Z.ltb_spec offset propsLen); [lia|discriminate].
  - destruct (Z.ltb_spec offset propsLen); [|discriminate].
    destruct (_ >? _)%Z; [discriminate|].
    apply bind_fuel; [auto with fuel|intros colIdx _].
    destruct (_ >=? _)%Z; [discriminate|].
    destruct (nth_error columns (Z.to_nat colIdx)) as [col|]; [|discriminate].
    apply bind_fuel; [apply readPropertyValue_fuel|intros [value bytesRead] Hvalue].
    apply IH.
    pose proof (readPropertyValue_bytesRead _ _ _ _ _ _ Hview Hvalue). lia.
Qed.

Lemma decodeProperties_fuel (fb : FlatBuffers.FlatBufferReader) (propsVecOffset : Z)
    (columns : list ColumnMeta) :
  Buf.wellFormed fb -> Feature.decodeProperties fb propsVecOffset columns <> OutOfFuel.
Proof.
  intros Hfb. unfold Feature.decodeProperties.
  apply bind_fuel; [auto with fuel|intros propsLen _].
  destruct (_ =? _)%Z; [discriminate|].
  unfold FlatBuffers.readBytes.
  apply bind_fuel; [auto with fuel|intros propsBytes Hbytes].
  apply decodeProperties_loop_fuel; [|lia].
  unfold Buf.wellFormed. rewrite (newView_buffer _ _ _ _ Hbytes). exact Hfb.
Qed.

Lemma decodeSingleFeature_fuel (bytes : Buf.view) (header : FgbHeader) :
  Buf.wellFormed bytes -> Feature.decodeSingleFeature bytes header <> OutOfFuel.
Proof.
  intros Hbytes. unfold Feature.decodeSingleFeature, FlatBuffers.rootTableOffset,
    FlatBuffers.readUint32.
  apply bind_fuel; [auto with fuel|intros rootOffset _].
  apply bind_fuel; [auto with fuel|intros geomFieldOff _].
  destruct (_ =? _)%Z; [discriminate|].
  apply bind_fuel; [auto with fuel|intros geomTableOffset _].
  apply bind_fuel; [apply decodeGeometry_fuel|intros geom _].
  destruct geom as [geom|]; [|discriminate].
  apply bind_fuel; [auto with fuel|intros propsFieldOff _].
  apply bind_fuel; [|discriminate].
  destruct (_ =? _)%Z; [discriminate|].
  apply bind_fuel; [auto with fuel|intros propsVecOffset _].
  apply decodeProperties_fuel. exact Hbytes.
Qed.

Lemma decodeFeatures_loop_fuel (bytes : Buf.view) (header : FgbHeader)
    (maxFeatures : option Z) (fuel : nat) :
  Buf.wellFormed bytes ->
  forall (offset : Z) (features : list RawFeature),
    Buf.byteLength bytes - offset <= Z.of_nat fuel ->
    Feature.decodeFeatures_loop fuel bytes header maxFeatures offset features <> OutOfFuel.
Proof.
  intros Hbytes. induction fuel as [|fuel IH]; intros offset features Hfuel;
    cbn [Feature.decodeFeatures_loop].
  - destruct (Z.ltb_spec offset (Buf.byteLength bytes)); [lia|discriminate].
  - destruct (Z.ltb_spec offset (Buf.byteLength bytes)); [|discriminate].
    cbn [andb]. destruct (Feature.below _ _); [|discriminate].
    destruct (_ >? _)%Z; [discriminate|].
    apply bind_fuel; [auto with fuel|intros view Hview].
    apply bind_fuel; [auto with fuel|intros featureSize Hsize].
    assert (0 <= featureSize).
    { apply (getUint32_nonneg view 0); [|exact Hsize].
      unfold Buf.wellFormed. rewrite (newView_buffer _ _ _ _ Hview). exact Hbytes. }
    destruct (_ =? _)%Z; [discriminate|].
    destruct (_ >? _)%Z; [discriminate|].
    apply bind_fuel; [apply decodeSingleFeature_fuel; exact Hbytes|intros feature _].
    apply IH. lia.
Qed.

(** [decodeFeatures] returns or throws. *)
Lemma decodeFeatures_fuel (bytes : Buf.view) (header : FgbHeader) (maxFeatures : option Z) :
  Buf.wellFormed bytes -> Feature.decodeFeatures bytes header maxFeatures <> OutOfFuel.
Proof.
  intros Hbytes. unfold Feature.decodeFeatures.
  apply decodeFeatures_loop_fuel; [exact Hbytes|]. lia.
Qed.

Section Builder.

Variable projectToMercator : list float -> list float.
Variable clipGeometry : RawFeature -> BBox -> Layer.clipOutcome.
Variable encodeFeature : RawFeature -> Z -> Z -> Z -> Z -> float -> option (list Z).
Variable buildTags :
  PropertyMap -> list string * list Layer.MvtValue
  -> list Z * (list string * list Layer.MvtValue).

Lemma projectAll_ids (features : list RawFeature) :
  Forall noRawId features -> Forall noRawId (Layer.projectAll projectToMercator features).
Proof.
  intros Hall. unfold Layer.projectAll. apply Forall_map.
  apply (Forall_impl _ (P := noRawId)); [|exact Hall]. intros f Hf. exact Hf.
Qed.

Lemma clipFeatures_ids (clipBounds : BBox) (features : list RawFeature) :
  Forall noRawId features ->
  Forall noRawId (Layer.clipFeatures clipGeometry features clipBounds).
Proof.
  induction features as [|f features IH]; intros Hall; [constructor|].
  pose proof (Forall_inv Hall) as Hf. pose proof (IH (Forall_inv_tail Hall)) as Hrest.
  cbn [Layer.clipFeatures]. destruct (clipGeometry f clipBounds).
  - exact Hrest.
  - constructor; assumption.
  - constructor; [exact Hf|exact Hrest].
Qed.

Lemma buildFeatures_ids (z x y extent : Z) (tolerance : float) (clipped : list RawFeature) :
  forall (tables : list string * list Layer.MvtValue) (mvtFeatures : list MvtFeature),
    Forall noRawId clipped -> Forall noMvtId mvtFeatures ->
    Forall noMvtId
      (fst (Layer.buildFeatures encodeFeature buildTags clipped z x y extent tolerance
              tables mvtFeatures)).
Proof.
  induction clipped as [|f clipped IH]; intros tables mvtFeatures Hall Hacc.
  - exact Hacc.
  - cbn [Layer.buildFeatures].
    destruct (encodeFeature f z x y extent tolerance) as [geometry|].
    + destruct (buildTags (raw_properties f) tables) as [tags tables'].
      apply IH; [exact (Forall_inv_tail Hall)|].
      apply Forall_app. split; [exact Hacc|].
      constructor; [|constructor]. exact (Forall_inv Hall).
    + apply IH; [exact (Forall_inv_tail Hall)|exact Hacc].
Qed.

(** The builder copies the id of each feature it keeps. *)
Lemma buildMvtLayer_ids (features : list RawFeature) (name : string) (z x y : Z)
    (clipBounds : BBox) (extent : Z) (tolerance : float) :
  Forall noRawId features ->
  Forall noMvtId
    (Layer.layer_features
       (Layer.buildMvtLayer projectToMercator clipGeometry encodeFeature buildTags
          features name z x y clipBounds extent tolerance)).
Proof.
  intros Hall. unfold Layer.buildMvtLayer.
  pose proof (buildFeatures_ids z x y extent tolerance
                (Layer.clipFeatures clipGeometry
                   (Layer.projectAll projectToMercator features) clipBounds)
                ([], []) []
                (clipFeatures_ids clipBounds _ (projectAll_ids _ Hall))
                (Forall_nil _)) as Hbuilt.
  destruct (Layer.buildFeatures _ _ _ _ _ _ _ _ _ _) as [mvtFeatures tables].
  exact Hbuilt.
Qed.

End Builder.

Lemma always_bind {A B : Type} (Q : A -> Prop) (P : B -> Prop) (m : Pipeline.io A)
    (f : A -> Pipeline.io B) :
  Pipeline.always Q m -> (forall a, Q a -> Pipeline.always P (f a)) ->
  Pipeline.always P (Pipeline.iobind m f).
Proof.
  intros Hm Hf. induction Hm; cbn [Pipeline.iobind].
  - apply Hf. assumption.
  - constructor.
  - constructor.
  - constructor. assumption.
  - constructor. assumption.
Qed.

Lemma always_lift {A : Type} (P : A -> Prop) (r : result A) :
  (forall a, r = Ok a -> P a) -> Pipeline.always P (Pipeline.lift r).
Proof.
  intros H. destruct r; cbn; constructor. apply H. reflexivity.
Qed.

Lemma always_True {A : Type} (m : Pipeline.io A) : Pipeline.always (fun _ => True) m.
Proof. induction m; constructor; auto. Qed.

Lemma always_run {A : Type} (P : A -> Prop) (connector : Pipeline.Connector)
    (m : Pipeline.io A) :
  Pipeline.always P m ->
  forall (a : A) (calls : list Pipeline.call),
    Pipeline.run connector m = (Ok a, calls) -> P a.
Proof.
  intros Hm. induction Hm as [a0 Ha| | |path offset length k Hk IH|path ranges k Hk IH];
    intros a calls Hrun; cbn [Pipeline.run] in Hrun.
  - injection Hrun as <- _. exact Ha.
  - discriminate Hrun.
  - discriminate Hrun.
  - destruct (Pipeline.read connector path offset length) as [bytes| |];
      try discriminate Hrun.
    destruct (Pipeline.run connector (k bytes)) as [r calls'] eqn:Hk'.
    injection Hrun as -> _. exact (IH bytes a calls' Hk').
  - destruct (Pipeline.readRanges connector path ranges) as [chunks| |];
      try discriminate Hrun.
    destruct (Pipeline.run connector (k chunks)) as [r calls'] eqn:Hk'.
    injection Hrun as -> _. exact (IH chunks a calls' Hk').
Qed.

Lemma decodeChunks_ids (header : FgbHeader) (featureChunks : list Buf.view) :
  forall (allFeatures out : list RawFeature),
    Forall noRawId allFeatures ->
    Pipeline.decodeChunks featureChunks header allFeatures = Ok out ->
    Forall noRawId out.
Proof.
  induction featureChunks as [|chunk rest IH]; intros allFeatures out Hall H.
  - injection H as <-. exact Hall.
  - cbn [Pipeline.decodeChunks] in H.
    destruct (Feature.decodeFeatures chunk header None) as [features| |] eqn:Hdec;
      cbn [bind] in H; try discriminate H.
    apply IH in H; [exact H|]. apply Forall_app. split; [exact Hall|].
    exact (decodeFeatures_ids _ _ _ _ Hdec).
Qed.

(** Every layer that [processSource] can return holds features without
    an id. *)
Lemma processSource_ids (parseHeader : Buf.view -> result FgbHeader)
    (projectToMercator : list float -> list float)
    (clipGeometry : RawFeature -> BBox -> Layer.clipOutcome)
    (encodeFeature : RawFeature -> Z -> Z -> Z -> Z -> float -> option (list Z))
    (buildTags : PropertyMap -> list string * list Layer.MvtValue
                 -> list Z * (list string * list Layer.MvtValue))
    (fuel : nat) (source : Pipeline.Source) (z x y : Z) (wgs84BBox clipBounds : BBox)
    (tileOpts : Pipeline.TileOptions) (cache : option Pipeline.FgbCache) :
  Pipeline.always (fun layer => Forall noMvtId (Layer.layer_features layer))
    (Pipeline.processSource parseHeader projectToMercator clipGeometry encodeFeature
       buildTags fuel source z x y wgs84BBox clipBounds tileOpts cache).
Proof.
  unfold Pipeline.processSource.
  destruct (_ || _); [constructor; constructor|].
  apply (always_bind (fun _ => True)); [apply always_True|].
  intros [header indexBytes] _.
  destruct (_ || _); [constructor; constructor|].
  apply (always_bind (fun _ => True)); [apply always_True|].
  intros ranges _. destruct ranges as [|range ranges]; [constructor; constructor|].
  apply (always_bind (fun _ => True)); [apply always_True|].
  intros featureChunks _.
  apply (always_bind (Forall noRawId)).
  - apply always_lift. intros allFeatures Hdec.
    exact (decodeChunks_ids header featureChunks [] allFeatures (Forall_nil _) Hdec).
  - intros allFeatures Hall. destruct allFeatures as [|f allFeatures].
    + constructor. constructor.
    + constructor. apply buildMvtLayer_ids. exact Hall.
Qed.

End FeatureIds.

(** C9. [decodeFeatures] ends on every buffer of bytes (with features or
    with an exception), and every feature that it returns has [id = null];
    every feature of a layer that [processSource] returns has [id = null]
    (the layer builder copies the id); and the message that [writeFeature]
    writes for a feature with [id = null] is the tag 18, the length of the
    body and the body, whose fields are 2 (tags, when there are any),
    3 (type) and 4 (geometry, when there is any): field 1 is not written.
    The values of tags and geometry, and the length of the body, are
    taken below [2^32]. *)
Theorem decoded_ids_never_written :
  (forall (bytes : Buf.view) (header : Types.FgbHeader) (maxFeatures : option Z)
          (features : list Types.RawFeature),
      Feature.decodeFeatures bytes header maxFeatures = Ok features ->
      Forall (fun f => Types.raw_id f = None) features)
  /\ (forall (bytes : Buf.view) (header : Types.FgbHeader) (maxFeatures : option Z),
         Buf.wellFormed bytes ->
         Feature.decodeFeatures bytes header maxFeatures <> OutOfFuel)
  /\ (forall (parseHeader : Buf.view -> result Types.FgbHeader)
             (projectToMercator : list float -> list float)
             (clipGeometry : Types.RawFeature -> Types.BBox -> Layer.clipOutcome)
             (encodeFeature : Types.RawFeature -> Z -> Z -> Z -> Z -> float
                              -> option (list Z))
             (buildTags : Types.PropertyMap -> list string * list Layer.MvtValue
                          -> list Z * (list string * list Layer.MvtValue))
             (connector : Pipeline.Connector) (fuel : nat) (source : Pipeline.Source)
             (z x y : Z) (wgs84BBox clipBounds : Types.BBox)
             (tileOpts : Pipeline.TileOptions) (cache : option Pipeline.FgbCache)
             (layer : Layer.MvtLayer) (calls : list Pipeline.call),
         Pipeline.run connector
           (Pipeline.processSource parseHeader projectToMercator clipGeometry
              encodeFeature buildTags fuel source z x y wgs84BBox clipBounds tileOpts
              cache)
         = (Ok layer, calls) ->
         Forall (fun f => Types.mvt_id f = None) (Layer.layer_features layer))
  /\ (forall (feature : Types.MvtFeature) (w : Pbf.PbfWriter),
         Types.mvt_id feature = None ->
         Forall Wire.u32 (Types.mvt_tags feature) ->
         Forall Wire.u32 (Types.mvt_geometry feature) ->
         Wire.u32 (Z.of_nat (List.length (Wire.featureBody feature))) ->
         Encode.writeFeature feature w
         = Some (Pbf.mkWriter
                   (Pbf.buf w
                    ++ 18 :: Wire.varint (Z.of_nat (List.length (Wire.featureBody feature)))
                    ++ Wire.featureBody feature)
                   (Pbf.lengthStack w))
         /\ Wire.fieldNumbers 3 (Wire.featureBody feature)
            = Some (Wire.packedNumber 2 (Types.mvt_tags feature) ++ [3]
                    ++ Wire.packedNumber 4 (Types.mvt_geometry feature))
         /\ ~ In 1 (Wire.packedNumber 2 (Types.mvt_tags feature) ++ [3]
                    ++ Wire.packedNumber 4 (Types.mvt_geometry feature))).
Proof.
  split; [|split; [|split]].
  - intros bytes header maxFeatures features Hdec.
    exact (decodeFeatures_ids bytes header maxFeatures features Hdec).
  - intros bytes header maxFeatures Hbytes. apply decodeFeatures_fuel. exact Hbytes.
  - intros parseHeader projectToMercator clipGeometry encodeFeature buildTags connector
      fuel source z x y wgs84BBox clipBounds tileOpts cache layer calls Hrun.
    exact (always_run _ connector _
             (processSource_ids parseHeader projectToMercator clipGeometry encodeFeature
                buildTags fuel source z x y wgs84BBox clipBounds tileOpts cache)
             layer calls Hrun).
  - intros feature w Hid Htags Hgeom Hbody. split; [|split].
    + apply writeFeature_body; assumption.
    + apply fieldNumbers_featureBody; assumption.
    + intros Hin. apply in_app_or in Hin. destruct Hin as [Hin|Hin].
      * revert Hin. apply packedNumber_not_1. discriminate.
      * apply in_app_or in Hin. destruct Hin as [[Hin|[]]|Hin]; [discriminate Hin|].
        revert Hin. apply packedNumber_not_1. discriminate.
Qed.

Lemma decoded_ids_never_written_witness :
  Forall (fun f => Types.raw_id f = None) [Example.feature]
  /\ Forall (fun f => Types.mvt_id f = None) [Example.mvtFeature]
  /\ Encode.writeFeature Example.mvtFeature Pbf.newWriter
     = Some (Pbf.mkWriter [18; 7; 24; 1; 34; 3; 9; 2; 4] []).
Proof.
  destruct decoded_ids_never_written as (Hdec & _ & Hrun & Hwrite).
  split; [|split].
  - apply (Hdec (Buf.ofBytes Example.featureBytes) Example.header None).
    vm_compute. reflexivity.
  - apply (Hrun (fun _ => Throw RangeError) (fun xy => xy) (fun _ _ => Layer.Accepted)
             (fun _ _ _ _ _ _ => Some [9; 2; 4]) (fun _ tables => ([], tables))
             Example.connector 1%nat Example.source 3 0 0 Example.origin Example.origin
             Example.tileOpts (Some Example.cache)
             (Layer.mkLayer "points" 4096 [Example.mvtFeature] [] [])
             [Pipeline.CallReadRanges "points.fgb" [Index.mkRange 140 1048576]]).
    vm_compute. reflexivity.
  - destruct (Hwrite Example.mvtFeature Pbf.newWriter) as (Hbytes & _).
    + reflexivity.
    + constructor.
    + repeat constructor; vm_compute; discriminate.
    + vm_compute. split; [discriminate|reflexivity].
    + rewrite Hbytes. vm_compute. reflexivity.
Defined.

(** ** The zoom range (pipeline) *)

(** C8. When [z] is below the minimum zoom or above the maximum zoom of
    the resolved options, [processSource] returns at once, without a call
    to the connector, the layer [emptyLayer(source.name, extent)]: the
    name of the source, the resolved extent, and no feature, key or
    value. *)
Theorem processSource_out_of_zoom
    (parseHeader : Buf.view -> result Types.FgbHeader)
    (projectToMercator : list float -> list float)
    (clipGeometry : Types.RawFeature -> Types.BBox -> Layer.clipOutcome)
    (encodeFeature : Types.RawFeature -> Z -> Z -> Z -> Z -> float -> option (list Z))
    (buildTags : Types.PropertyMap -> list string * list Layer.MvtValue
                 -> list Z * (list string * list Layer.MvtValue))
    (fuel : nat) (source : Pipeline.Source) (z x y : Z)
    (wgs84BBox clipBounds : Types.BBox) (tileOpts : Pipeline.TileOptions)
    (cache : option Pipeline.FgbCache)
    (Hzoom : z < Pipeline.minZoom tileOpts \/ z > Pipeline.maxZoom tileOpts) :
  let layer :=
    Layer.mkLayer (Pipeline.src_name source) (Pipeline.extent tileOpts) [] [] [] in
  Pipeline.processSource parseHeader projectToMercator clipGeometry encodeFeature buildTags
    fuel source z x y wgs84BBox clipBounds tileOpts cache
  = Pipeline.Ret layer
  /\ (forall connector : Pipeline.Connector,
        Pipeline.run connector
          (Pipeline.processSource parseHeader projectToMercator clipGeometry encodeFeature
             buildTags fuel source z x y wgs84BBox clipBounds tileOpts cache)
        = (Ok layer, [])).
Proof.
  intros layer.
  assert (Hret : Pipeline.processSource parseHeader projectToMercator clipGeometry
                   encodeFeature buildTags fuel source z x y wgs84BBox clipBounds tileOpts
                   cache
                 = Pipeline.Ret layer).
  { unfold Pipeline.processSource.
    destruct (Z.ltb_spec z (Pipeline.minZoom tileOpts)); [reflexivity|].
    destruct (Z.gtb_spec z (Pipeline.maxZoom tileOpts)); [reflexivity|]. lia. }
  split; [exact Hret|]. intros connector. rewrite Hret. reflexivity.
Qed.

Lemma processSource_out_of_zoom_witness :
  Pipeline.run Example.connector
    (Pipeline.processSource (fun _ => Throw RangeError) (fun xy => xy)
       (fun _ _ => Layer.Accepted) (fun _ _ _ _ _ _ => Some [9; 2; 4])
       (fun _ tables => ([], tables)) 1%nat Example.source 15 0 0 Example.origin
       Example.origin Example.tileOpts None)
  = (Ok (Layer.mkLayer "points" 4096 [] [] []), []).
Proof.
  refine (proj2 (processSource_out_of_zoom (fun _ => Throw RangeError) (fun xy => xy)
                   (fun _ _ => Layer.Accepted) (fun _ _ _ _ _ _ => Some [9; 2; 4])
                   (fun _ tables => ([], tables)) 1%nat Example.source 15 0 0
                   Example.origin Example.origin Example.tileOpts None _)
            Example.connector).
  right. vm_compute. reflexivity.
Defined.

(** ** The property stream (fgb/feature) *)

(** C3 (the code departs from the claim).  A column index beyond the
    schema ends the parsing, as claimed.  A truncated value does not:
    for a string whose announced length passes the end of the stream,
    [readPropertyValue] answers [null] with [bytesRead = 0], the loop
    records the [null] and goes on at the first byte of the value, which
    it reads as the next column index; here the four length bytes
    [1, 0, 0, 0] of the string add an entry for column 1 that the stream
    never held.  A column type outside the enum is handled the same way,
    and a truncated fixed-width value makes the [DataView] read throw a
    [RangeError]. *)
Theorem decodeProperties_goes_on_after_truncated_value :
  Feature.decodeProperties (Buf.ofBytes [6; 0; 0; 0; 0; 0; 1; 0; 0; 0]) 0
    [Types.mkColumn "a" Types.String false; Types.mkColumn "b" Types.UByte false]
  = Ok [("a"%string, Types.PNull); ("b"%string, Types.PNumber 0)]
  /\ Feature.decodeProperties (Buf.ofBytes [5; 0; 0; 0; 0; 0; 1; 0; 7]) 0
       [Types.mkColumn "a" (Types.OtherColumnType 99) false;
        Types.mkColumn "b" Types.UByte false]
     = Ok [("a"%string, Types.PNull); ("b"%string, Types.PNumber 7)]
  /\ Feature.decodeProperties (Buf.ofBytes [4; 0; 0; 0; 0; 0; 7; 0]) 0
       [Types.mkColumn "a" Types.Int false]
     = Throw RangeError
  /\ (forall (fuel : nat) (view propsBytes : Buf.view) (propsLen : Z)
             (columns : list Types.ColumnMeta) (offset colIdx : Z)
             (props : Types.PropertyMap),
        offset + 2 <= propsLen ->
        Buf.getUint16 view offset = Ok colIdx ->
        colIdx >= Z.of_nat (List.length columns) ->
        Feature.decodeProperties_loop (S fuel) view propsBytes propsLen columns offset props
        = Ok props).
Proof.
  split; [vm_compute; reflexivity|].
  split; [vm_compute; reflexivity|].
  split; [vm_compute; reflexivity|].
  intros fuel view propsBytes propsLen columns offset colIdx props Hroom Hidx Hbeyond.
  cbn [Feature.decodeProperties_loop].
  destruct (Z.ltb_spec offset propsLen); [|lia].
  destruct (Z.gtb_spec (offset + 2) propsLen); [lia|].
  rewrite Hidx. cbn [bind].
  destruct (Z.geb_spec colIdx (Z.of_nat (List.length columns))); [reflexivity|lia].
Qed.

(** ** The index query (fgb/index) *)

Section IndexQuery.

Lemma bind_not_Error {A B : Type} (r : result A) (k : A -> result B) (msg : string) :
  r <> Throw (Error msg) -> (forall a, k a <> Throw (Error msg)) ->
  bind r k <> Throw (Error msg).
Proof.
  intros Hr Hk. destruct r as [a|e|]; cbn [bind]; [apply Hk| |discriminate].
  intros H. apply Hr. injection H as ->. reflexivity.
Qed.

Lemma read_not_Error (v : Buf.view) (offset : Z) (n : nat) (msg : string) :
  Buf.read v offset n <> Throw (Error msg).
Proof. unfold Buf.read. destruct (_ && _); discriminate. Qed.

Lemma getFloat64_not_Error (v : Buf.view) (offset : Z) (msg : string) :
  Buf.getFloat64 v offset <> Throw (Error msg).
Proof.
  unfold Buf.getFloat64. apply bind_not_Error; [apply read_not_Error|discriminate].
Qed.

Lemma getUint32_not_Error (v : Buf.view) (offset : Z) (msg : string) :
  Buf.getUint32 v offset <> Throw (Error msg).
Proof.
  unfold Buf.getUint32. apply bind_not_Error; [apply read_not_Error|discriminate].
Qed.

Lemma readUint64AsNumber_not_Error (v : Buf.view) (offset : Z) (msg : string) :
  Index.readUint64AsNumber v offset <> Throw (Error msg).
Proof.
  unfold Index.readUint64AsNumber.
  apply bind_not_Error; [apply getUint32_not_Error|intros lo].
  apply bind_not_Error; [apply getUint32_not_Error|discriminate].
Qed.

Lemma traverse_not_Error (view indexBytes : Buf.view) (nodeSize : Z) (bbox : Types.BBox)
    (levelBounds : list (Z * Z)) (msg : string) (fuel : nat) :
  forall (stack : list (Z * Z)) (matching : list Z),
    Index.traverse fuel view indexBytes nodeSize bbox levelBounds stack matching
    <> Throw (Error msg).
Proof.
  induction fuel as [|fuel IH]; intros stack matching;
    destruct stack as [|[nodeIdx level] stack]; cbn [Index.traverse]; try discriminate.
  destruct (_ >? _); [discriminate|].
  apply bind_not_Error; [apply getFloat64_not_Error|intros nodeMinX].
  apply bind_not_Error; [apply getFloat64_not_Error|intros nodeMinY].
  apply bind_not_Error; [apply getFloat64_not_Error|intros nodeMaxX].
  apply bind_not_Error; [apply getFloat64_not_Error|intros nodeMaxY].
  destruct (Index.disjoint _ _ _ _ _); [apply IH|].
  destruct (level =? 0); [apply IH|].
  apply bind_not_Error; [apply readUint64AsNumber_not_Error|intros firstChild].
  destruct (Index.at_ levelBounds (level - 1)) as [[childLevelStart childLevelEnd]|];
    [apply IH|discriminate].
Qed.

Lemma leafRanges_not_Error (view : Buf.view) (featuresOffset leafEnd : Z) (msg : string)
    (leaves : list Z) :
  Index.leafRanges view featuresOffset leafEnd leaves <> Throw (Error msg).
Proof.
  induction leaves as [|nodeIdx leaves IH]; cbn [Index.leafRanges]; [discriminate|].
  apply bind_not_Error; [apply readUint64AsNumber_not_Error|intros featureByteOffset].
  apply bind_not_Error.
  - destruct (_ <? _); [|discriminate].
    apply bind_not_Error; [apply readUint64AsNumber_not_Error|discriminate].
  - intros featureLength. apply bind_not_Error; [exact IH|discriminate].
Qed.

(** No path of [queryIndex] throws an [Error]. *)
Lemma queryIndex_not_Error (fuel : nat) (indexBytes : Buf.view)
    (featuresCount nodeSize featuresOffset : Z) (bbox : Types.BBox) (msg : string) :
  Index.queryIndex fuel indexBytes featuresCount nodeSize featuresOffset bbox
  <> Throw (Error msg).
Proof.
  unfold Index.queryIndex. destruct (_ || _); [discriminate|].
  destruct (Index.computeLevelBounds fuel featuresCount nodeSize) as [levelBounds|];
    [|discriminate].
  destruct (Index.at_ levelBounds 0) as [[leafStart leafEnd]|]; [|discriminate].
  destruct (Index.at_ levelBounds _) as [[rootStart rootEnd]|]; [|discriminate].
  apply bind_not_Error; [apply traverse_not_Error|intros matching].
  destruct matching as [|leaf matching]; [discriminate|].
  apply bind_not_Error; [apply leafRanges_not_Error|discriminate].
Qed.

Lemma at_last {A : Type} (l : list A) (d : A) :
  l <> [] -> Index.at_ l (Z.of_nat (List.length l) - 1) = Some (last l d).
Proof.
  intros Hne. destruct (exists_last Hne) as (l' & a & ->).
  rewrite last_last, length_app. cbn [List.length]. unfold Index.at_.
  destruct (Z.ltb_spec (Z.of_nat (List.length l' + 1) - 1) 0); [lia|].
  replace (Z.to_nat (Z.of_nat (List.length l' + 1) - 1)) with (List.length l') by lia.
  rewrite nth_error_app2, Nat.sub_diag by lia. reflexivity.
Qed.

(** The level bounds of a tree with at least one feature: the root is the
    node 0 alone. *)
Lemma computeLevelBounds_root (featuresCount nodeSize : Z) (fuel : nat) :
  1 <= featuresCount -> 2 <= nodeSize -> (Z.to_nat featuresCount <= fuel)%nat ->
  exists bounds,
    Index.computeLevelBounds fuel featuresCount nodeSize = Some bounds
    /\ bounds <> [] /\ last bounds (0, 0) = (0, 1).
Proof.
  intros Hcount Hsize Hfuel. unfold Index.computeLevelBounds.
  destruct (levelNumNodes_loop_enough nodeSize Hsize fuel featuresCount
              [featuresCount] featuresCount)
    as (levels & num & Heq & Hne & Hlast); [lia|].
  rewrite Heq. eexists. split; [reflexivity|].
  assert (Hl : levels <> []) by (apply Hne; discriminate).
  split.
  - destruct (exists_last Hl) as (l & c & ->).
    rewrite rev_app_distr. cbn [rev app Index.assignBounds]. rewrite assignBounds_app.
    intros Habs. apply app_eq_nil in Habs. destruct Habs; discriminate.
  - rewrite assignBounds_root by assumption. rewrite Hlast; auto.
Qed.

Lemma rangeChecked_bind {A B : Type} (r : result A) (k : A -> result B) :
  rangeChecked r -> (forall a, rangeChecked (k a)) -> rangeChecked (bind r k).
Proof.
  intros [[a ->]| ->] Hk; cbn [bind]; [apply Hk|right; reflexivity].
Qed.

Lemma rangeChecked_Ok {A : Type} (a : A) : rangeChecked (Ok a).
Proof. left. exists a. reflexivity. Qed.

Lemma read_rangeChecked (v : Buf.view) (offset : Z) (n : nat) :
  rangeChecked (Buf.read v offset n).
Proof.
  unfold Buf.read. destruct (_ && _); [apply rangeChecked_Ok|right; reflexivity].
Qed.

Lemma getFloat64_rangeChecked (v : Buf.view) (offset : Z) :
  rangeChecked (Buf.getFloat64 v offset).
Proof.
  unfold Buf.getFloat64. apply rangeChecked_bind; [apply read_rangeChecked|].
  intros b. apply rangeChecked_Ok.
Qed.

Lemma getUint32_rangeChecked (v : Buf.view) (offset : Z) :
  rangeChecked (Buf.getUint32 v offset).
Proof.
  unfold Buf.getUint32. apply rangeChecked_bind; [apply read_rangeChecked|].
  intros b. apply rangeChecked_Ok.
Qed.

Lemma readUint64AsNumber_rangeChecked (v : Buf.view) (offset : Z) :
  rangeChecked (Index.readUint64AsNumber v offset).
Proof.
  unfold Index.readUint64AsNumber.
  apply rangeChecked_bind; [apply getUint32_rangeChecked|intros lo].
  apply rangeChecked_bind; [apply getUint32_rangeChecked|intros hi].
  apply rangeChecked_Ok.
Qed.

Lemma leafRanges_rangeChecked (view : Buf.view) (featuresOffset leafEnd : Z)
    (leaves : list Z) :
  rangeChecked (Index.leafRanges view featuresOffset leafEnd leaves).
Proof.
  induction leaves as [|nodeIdx leaves IH]; cbn [Index.leafRanges];
    [apply rangeChecked_Ok|].
  apply rangeChecked_bind; [apply readUint64AsNumber_rangeChecked|intros featureByteOffset].
  apply rangeChecked_bind.
  - destruct (_ <? _); [|apply rangeChecked_Ok].
    apply rangeChecked_bind; [apply readUint64AsNumber_rangeChecked|].
    intros next. apply rangeChecked_Ok.
  - intros featureLength. apply rangeChecked_bind; [exact IH|].
    intros ranges. apply rangeChecked_Ok.
Qed.

Lemma levelWeight_pos (nodeSize level : nat) :
  (1 <= TraversalSpec.levelWeight nodeSize level)%nat.
Proof. destruct level; cbn; lia. Qed.

Lemma pushNodes_weight (nodeSize : nat) (level : Z) (count : nat) :
  forall (first : Z) (stack : list (Z * Z)),
    TraversalSpec.stackWeight nodeSize (Index.pushNodes count first level stack)
    = (count * TraversalSpec.levelWeight nodeSize (Z.to_nat level)
       + TraversalSpec.stackWeight nodeSize stack)%nat.
Proof.
  induction count as [|count IH]; intros first stack; cbn [Index.pushNodes];
    [reflexivity|].
  rewrite IH. cbn [TraversalSpec.stackWeight]. lia.
Qed.

Lemma pushNodes_levels (numLevels level : Z) (count : nat) :
  0 <= level < numLevels ->
  forall (first : Z) (stack : list (Z * Z)),
    TraversalSpec.levelsBelow numLevels stack ->
    TraversalSpec.levelsBelow numLevels (Index.pushNodes count first level stack).
Proof.
  intros Hlevel. induction count as [|count IH]; intros first stack Hstack;
    cbn [Index.pushNodes]; [exact Hstack|].
  apply IH. constructor; [exact Hlevel|exact Hstack].
Qed.

(** The traversal ends within the weight of its stack, with the leaves
    or with the [RangeError] of a read. *)
Lemma traverse_rangeChecked (view indexBytes : Buf.view) (nodeSize : Z) (bbox : Types.BBox)
    (levelBounds : list (Z * Z)) (fuel : nat) :
  0 <= nodeSize ->
  forall (stack : list (Z * Z)) (matching : list Z),
    TraversalSpec.levelsBelow (Z.of_nat (List.length levelBounds)) stack ->
    (TraversalSpec.stackWeight (Z.to_nat nodeSize) stack <= fuel)%nat ->
    rangeChecked
      (Index.traverse fuel view indexBytes nodeSize bbox levelBounds stack matching).
Proof.
  intros Hsize. induction fuel as [|fuel IH]; intros stack matching Hlevels Hweight;
    destruct stack as [|[nodeIdx level] stack]; cbn [Index.traverse];
    try apply rangeChecked_Ok.
  - cbn [TraversalSpec.stackWeight] in Hweight.
    pose proof (levelWeight_pos (Z.to_nat nodeSize) (Z.to_nat level)). lia.
  - cbn [TraversalSpec.stackWeight] in Hweight.
    pose proof (levelWeight_pos (Z.to_nat nodeSize) (Z.to_nat level)) as Hpos.
    pose proof (Forall_inv Hlevels) as Hlevel. cbn [snd] in Hlevel.
    pose proof (Forall_inv_tail Hlevels) as Hrest.
    destruct (_ >? _); [apply rangeChecked_Ok|].
    apply rangeChecked_bind; [apply getFloat64_rangeChecked|intros nodeMinX].
    apply rangeChecked_bind; [apply getFloat64_rangeChecked|intros nodeMinY].
    apply rangeChecked_bind; [apply getFloat64_rangeChecked|intros nodeMaxX].
    apply rangeChecked_bind; [apply getFloat64_rangeChecked|intros nodeMaxY].
    destruct (Index.disjoint _ _ _ _ _); [apply IH; [exact Hrest|lia]|].
    destruct (Z.eqb_spec level 0) as [Hleaf|Hinner]; [apply IH; [exact Hrest|lia]|].
    apply rangeChecked_bind; [apply readUint64AsNumber_rangeChecked|intros firstChild].
    unfold Index.at_. destruct (Z.ltb_spec (level - 1) 0); [lia|].
    destruct (nth_error levelBounds (Z.to_nat (level - 1)))
      as [[childLevelStart childLevelEnd]|] eqn:Hnth.
    + apply IH.
      * apply pushNodes_levels; [lia|exact Hrest].
      * rewrite pushNodes_weight.
        replace (Z.to_nat level) with (S (Z.to_nat (level - 1))) in Hweight by lia.
        cbn [TraversalSpec.levelWeight] in Hweight.
        assert (Hcount : (Z.to_nat (Z.min (firstChild + nodeSize) childLevelEnd - firstChild)
                          <= Z.to_nat nodeSize)%nat) by lia.
        pose proof (Nat.mul_le_mono_r _ _
                      (TraversalSpec.levelWeight (Z.to_nat nodeSize) (Z.to_nat (level - 1)))
                      Hcount).
        lia.
    + apply nth_error_None in Hnth. lia.
Qed.

Lemma levelNumNodes_loop_more (d : Z) (fuel : nat) :
  forall (n : Z) (levels : list Z) (num : Z) (r : list Z * Z) (fuel' : nat),
    Index.levelNumNodes_loop fuel d n levels num = Some r -> (fuel <= fuel')%nat ->
    Index.levelNumNodes_loop fuel' d n levels num = Some r.
Proof.
  induction fuel as [|fuel IH]; intros n levels num r fuel' H Hfuel.
  - cbn [Index.levelNumNodes_loop] in H. destruct (n >? 1) eqn:Hn; [discriminate H|].
    destruct fuel'; cbn [Index.levelNumNodes_loop]; rewrite Hn; exact H.
  - destruct fuel' as [|fuel']; [lia|]. cbn [Index.levelNumNodes_loop] in *.
    destruct (n >? 1); [|exact H].
    destruct (d =? 0); [discriminate H|].
    apply (IH _ _ _ _ fuel' H). lia.
Qed.

(** With enough fuel [queryIndex] returns ranges, or throws the
    [RangeError] of a read past the end of the index. *)
Lemma queryIndex_rangeChecked (indexBytes : Buf.view)
    (featuresCount nodeSize featuresOffset : Z) (bbox : Types.BBox) :
  0 <= featuresCount -> 2 <= nodeSize ->
  exists fuel0, forall fuel, (fuel0 <= fuel)%nat ->
    rangeChecked
      (Index.queryIndex fuel indexBytes featuresCount nodeSize featuresOffset bbox).
Proof.
  intros Hcount Hsize.
  destruct (Z.eqb_spec featuresCount 0) as [Hzero|Hpos].
  { exists 0%nat. intros fuel _. unfold Index.queryIndex.
    destruct (Z.eqb_spec featuresCount 0); [|lia]. apply rangeChecked_Ok. }
  destruct (computeLevelBounds_root featuresCount nodeSize (Z.to_nat featuresCount)
              ltac:(lia) Hsize (le_n _)) as (bounds & Hbounds & Hne & Hroot).
  exists (Nat.max (Z.to_nat featuresCount)
            (TraversalSpec.levelWeight (Z.to_nat nodeSize) (List.length bounds - 1))).
  intros fuel Hfuel. unfold Index.queryIndex.
  destruct (Z.eqb_spec featuresCount 0); [lia|].
  destruct (Z.eqb_spec nodeSize 0); [lia|]. cbn [orb].
  assert (Hsame : Index.computeLevelBounds fuel featuresCount nodeSize = Some bounds).
  { unfold Index.computeLevelBounds in *.
    destruct (Index.levelNumNodes_loop (Z.to_nat featuresCount) nodeSize featuresCount
                [featuresCount] featuresCount) as [r|] eqn:Hloop; [|discriminate Hbounds].
    rewrite (levelNumNodes_loop_more _ _ _ _ _ r fuel Hloop) by lia. exact Hbounds. }
  rewrite Hsame, (at_last bounds (0, 0) Hne), Hroot.
  destruct bounds as [|[leafStart leafEnd] bounds]; [congruence|].
  cbn [Index.at_ Z.ltb Z.compare Z.to_nat nth_error].
  change (Z.to_nat (1 - 0)) with 1%nat. cbn [Index.pushNodes].
  apply rangeChecked_bind.
  - apply traverse_rangeChecked; [lia| |].
    + constructor; [|constructor]. cbn [snd List.length]. lia.
    + cbn [TraversalSpec.stackWeight List.length] in *.
      replace (Z.to_nat (Z.of_nat (S (List.length bounds)) - 1))
        with (S (List.length bounds) - 1)%nat by lia.
      lia.
  - intros matching. destruct matching as [|leaf matching]; [apply rangeChecked_Ok|].
    apply rangeChecked_bind; [apply leafRanges_rangeChecked|].
    intros ranges. apply rangeChecked_Ok.
Qed.

End IndexQuery.




(** * Further properties of the code *)

(** ** Tile ids and the bounds cache (tiles) *)

Section TileIds.

Lemma shl_1 (z : Z) : 0 <= z <= 30 -> Js.shl 1 z = 2 ^ z.
Proof.
  intros Hz. unfold Js.shl.
  rewrite (ToInt32_small 1) by lia. rewrite (ToUint32_small z) by lia.
  rewrite (Z.mod_small z 32) by lia. rewrite Z.shiftl_1_l.
  assert (2 ^ z <= 2 ^ 30) by (apply Z.pow_le_mono_r; lia).
  assert (0 < 2 ^ z) by (apply Z.pow_pos_nonneg; lia).
  apply ToInt32_small. lia.
Qed.

Lemma tileId_pow (z x y : Z) :
  Tiles.validTile z x y -> Tiles.tileId z x y = (2 ^ z * y + x) * 32 + z.
Proof.
  intros (Hz & _ & _). unfold Tiles.tileId. rewrite shl_1 by lia. reflexivity.
Qed.

Lemma tileId_range (z x y : Z) :
  Tiles.validTile z x y -> 0 <= Tiles.tileId z x y < 2 ^ 53.
Proof.
  intros Hvalid. rewrite tileId_pow by assumption. destruct Hvalid as (Hz & Hx & Hy).
  assert (Hp : 0 < 2 ^ z) by (apply Z.pow_pos_nonneg; lia).
  assert (Hp24 : 2 ^ z <= 2 ^ 24) by (apply Z.pow_le_mono_r; lia).
  assert (0 <= 2 ^ z * y) by (apply Z.mul_nonneg_nonneg; lia).
  assert (2 ^ z * y <= 2 ^ z * (2 ^ z - 1)) by (apply Z.mul_le_mono_nonneg_l; lia).
  assert (2 ^ z * (2 ^ z - 1) <= 2 ^ 24 * (2 ^ z - 1))
    by (apply Z.mul_le_mono_nonneg_r; lia).
  assert (2 ^ 24 * (2 ^ z - 1) <= 2 ^ 24 * (2 ^ 24 - 1))
    by (apply Z.mul_le_mono_nonneg_l; lia).
  lia.
Qed.

Lemma tileId_unique (z x y z' x' y' : Z) :
  Tiles.validTile z x y -> Tiles.validTile z' x' y' ->
  Tiles.tileId z x y = Tiles.tileId z' x' y' -> z = z' /\ x = x' /\ y = y'.
Proof.
  intros Hvalid Hvalid' Heq. rewrite !tileId_pow in Heq by assumption.
  destruct Hvalid as (Hz & Hx & Hy). destruct Hvalid' as (Hz' & Hx' & Hy').
  assert (Hzz : z = z') by lia. subst z'.
  split; [reflexivity|].
  assert (Hp : 0 < 2 ^ z) by (apply Z.pow_pos_nonneg; lia).
  assert (Hsum : 2 ^ z * y + x = 2 ^ z * y' + x') by lia.
  assert (Hy_eq : y = y').
  { destruct (Z.lt_trichotomy y y') as [Hlt|[Heq'|Hgt]]; [|exact Heq'|].
    - assert (2 ^ z * (y + 1) <= 2 ^ z * y') by (apply Z.mul_le_mono_nonneg_l; lia). lia.
    - assert (2 ^ z * (y' + 1) <= 2 ^ z * y) by (apply Z.mul_le_mono_nonneg_l; lia). lia. }
  subst y'. split; [lia|reflexivity].
Qed.

Lemma get_set (m : Tiles.BoundsMap) (id id' : Z) (bbox : Types.BBox) :
  Tiles.get (Tiles.set m id bbox) id'
  = if id =? id' then Some bbox else Tiles.get m id'.
Proof.
  induction m as [|[k v] m IH]; cbn [Tiles.set Tiles.get].
  - reflexivity.
  - destruct (Z.eqb_spec k id) as [->|Hk]; cbn [Tiles.get].
    + destruct (Z.eqb_spec id id'); reflexivity.
    + rewrite IH. destruct (Z.eqb_spec k id') as [->|Hk'].
      * destruct (Z.eqb_spec id id'); [congruence|reflexivity].
      * reflexivity.
Qed.

End TileIds.

(** X1. The id of a tile is an exact JavaScript integer (below [2^53])
    and identifies the tile: two tiles with [0 <= z <= 24] and [x], [y]
    in the grid of their zoom level that have the same id are the same
    tile. *)
Theorem tileId_injective (z x y z' x' y' : Z)
    (Hvalid : Tiles.validTile z x y) (Hvalid' : Tiles.validTile z' x' y') :
  0 <= Tiles.tileId z x y < 2 ^ 53
  /\ (Tiles.tileId z x y = Tiles.tileId z' x' y' -> z = z' /\ x = x' /\ y = y').
Proof.
  split; [apply tileId_range; assumption|]. apply tileId_unique; assumption.
Qed.

Lemma tileId_injective_witness :
  0 <= Tiles.tileId 3 5 2 < 2 ^ 53
  /\ (Tiles.tileId 3 5 2 = Tiles.tileId 3 2 5 -> 3 = 3 /\ 5 = 2 /\ 2 = 5).
Proof.
  apply (tileId_injective 3 5 2 3 2 5); unfold Tiles.validTile; cbn; lia.
Defined.



(** ** The feature limit of the decoder (fgb/feature) *)

Section FeatureLimit.

Lemma decodeFeatures_loop_at_most (bytes : Buf.view) (header : Types.FgbHeader) (m : Z)
    (fuel : nat) :
  forall (offset : Z) (features out : list Types.RawFeature),
    Z.of_nat (List.length features) <= m ->
    Feature.decodeFeatures_loop fuel bytes header (Some m) offset features = Ok out ->
    Z.of_nat (List.length out) <= m.
Proof.
  induction fuel as [|fuel IH]; intros offset features out Hlen H;
    cbn [Feature.decodeFeatures_loop] in H.
  - destruct (_ && _); [discriminate H|]. injection H as <-. exact Hlen.
  - destruct (offset <? Buf.byteLength bytes)%Z; cbn [andb] in H;
      [|injection H as <-; exact Hlen].
    unfold Feature.below in H.
    destruct (Z.ltb_spec (Z.of_nat (List.length features)) m) as [Hroom|_];
      [|injection H as <-; exact Hlen].
    destruct (_ >? _)%Z; [injection H as <-; exact Hlen|].
    destruct (Buf.newView _ _ _) as [view| |]; cbn [bind] in H; try discriminate H.
    destruct (Buf.getUint32 view 0) as [featureSize| |]; cbn [bind] in H;
      try discriminate H.
    destruct (featureSize =? 0)%Z; [injection H as <-; exact Hlen|].
    destruct (_ >? _)%Z; [injection H as <-; exact Hlen|].
    destruct (Feature.decodeSingleFeature _ header) as [feature| |];
      cbn [bind] in H; try discriminate H.
    apply IH in H; [exact H|].
    destruct feature as [f|]; [|exact Hlen].
    rewrite length_app. cbn [List.length]. lia.
Qed.

End FeatureLimit.

(** X3. [decodeFeatures] with a limit [maxFeatures >= 0] returns at most
    [maxFeatures] features, however many the buffer holds. *)
Theorem decodeFeatures_at_most (bytes : Buf.view) (header : Types.FgbHeader)
    (maxFeatures : Z) (features : list Types.RawFeature)
    (Hmax : 0 <= maxFeatures)
    (Hdec : Feature.decodeFeatures bytes header (Some maxFeatures) = Ok features) :
  Z.of_nat (List.length features) <= maxFeatures.
Proof.
  unfold Feature.decodeFeatures in Hdec.
  exact (decodeFeatures_loop_at_most bytes header maxFeatures _ 0 [] features Hmax Hdec).
Qed.

Lemma decodeFeatures_at_most_witness :
  Feature.decodeFeatures (Buf.ofBytes (Example.featureBytes ++ Example.featureBytes))
    Example.header None
  = Ok [Example.feature; Example.feature]
  /\ Z.of_nat (List.length [Example.feature]) <= 1.
Proof.
  split; [vm_compute; reflexivity|].
  apply (decodeFeatures_at_most
           (Buf.ofBytes (Example.featureBytes ++ Example.featureBytes)) Example.header 1
           [Example.feature]).
  - lia.
  - vm_compute. reflexivity.
Defined.

(** ** Merging merged ranges (fgb/index) *)

Section MergeAgain.
Import Index RangeSpec.

Variable gap : Z.

Lemma mergeRanges_loop_separate (rest : list ByteRange) :
  forall (closed : list ByteRange) (prev : ByteRange),
    separated gap (prev :: rest) ->
    mergeRanges_loop gap closed prev rest = closed ++ prev :: rest.
Proof.
  induction rest as [|curr rest IH]; intros closed prev Hsep; cbn [mergeRanges_loop].
  - reflexivity.
  - unfold separated in Hsep. apply StronglySorted_inv in Hsep.
    destruct Hsep as [Hrest Hprev].
    pose proof (Forall_inv Hprev) as Hcurr. unfold endOf in Hcurr.
    destruct (Z.leb_spec (offset curr) (offset prev + length prev + gap)); [lia|].
    rewrite IH by exact Hrest. rewrite <- app_assoc. reflexivity.
Qed.

Lemma mergeRanges_gap_separate (ranges : list ByteRange) :
  separated gap ranges -> mergeRanges_gap ranges gap = ranges.
Proof.
  intros Hsep. destruct ranges as [|first [|second rest]]; try reflexivity.
  unfold mergeRanges_gap. apply (mergeRanges_loop_separate _ [] first Hsep).
Qed.

Lemma mergeRanges_loop_length (rest : list ByteRange) :
  forall (closed : list ByteRange) (prev : ByteRange),
    (List.length (mergeRanges_loop gap closed prev rest)
     <= List.length closed + 1 + List.length rest)%nat.
Proof.
  induction rest as [|curr rest IH]; intros closed prev; cbn [mergeRanges_loop].
  - rewrite length_app. cbn [List.length]. lia.
  - destruct (_ <=? _).
    + specialize (IH closed
                    (mkRange (offset prev)
                       (Z.max (offset prev + length prev) (offset curr + length curr)
                        - offset prev))).
      cbn [List.length]. lia.
    + specialize (IH (closed ++ [prev]) curr). rewrite length_app in IH.
      cbn [List.length] in *. lia.
Qed.

Lemma mergeRanges_loop_prefix (rest : list ByteRange) :
  forall (before closed : list ByteRange) (prev : ByteRange),
    mergeRanges_loop gap (before ++ closed) prev rest
    = before ++ mergeRanges_loop gap closed prev rest.
Proof.
  induction rest as [|curr rest IH]; intros before closed prev; cbn [mergeRanges_loop].
  - rewrite <- app_assoc. reflexivity.
  - destruct (_ <=? _); [apply IH|]. rewrite <- app_assoc. apply IH.
Qed.

Lemma mergeRanges_loop_first (rest : list ByteRange) :
  forall (prev : ByteRange),
    exists len tail, mergeRanges_loop gap [] prev rest = mkRange (offset prev) len :: tail.
Proof.
  induction rest as [|curr rest IH]; intros prev; cbn [mergeRanges_loop].
  - exists (length prev), []. destruct prev; reflexivity.
  - destruct (_ <=? _).
    + destruct (IH (mkRange (offset prev)
                      (Z.max (offset prev + length prev) (offset curr + length curr)
                       - offset prev))) as (len & tail & Heq).
      exists len, tail. exact Heq.
    + change ([] ++ [prev]) with ([prev] ++ []). rewrite mergeRanges_loop_prefix.
      exists (length prev), (mergeRanges_loop gap [] curr rest).
      destruct prev; reflexivity.
Qed.

End MergeAgain.

(** X4. On ranges sorted by offset, [mergeRanges] is idempotent: merging
    its result again changes nothing.  It never returns more ranges than
    it was given, and its first range starts where the first input range
    starts. *)
Theorem mergeRanges_idempotent (ranges : list Index.ByteRange)
    (Hsorted : RangeSpec.ascending ranges) :
  Index.mergeRanges (Index.mergeRanges ranges) = Index.mergeRanges ranges
  /\ (List.length (Index.mergeRanges ranges) <= List.length ranges)%nat
  /\ map Index.offset (firstn 1 (Index.mergeRanges ranges))
     = map Index.offset (firstn 1 ranges).
Proof.
  split; [|split].
  - unfold Index.mergeRanges. apply mergeRanges_gap_separate.
    apply mergeRanges_gap_separated. exact Hsorted.
  - unfold Index.mergeRanges, Index.mergeRanges_gap.
    destruct ranges as [|first [|second rest]]; try (cbn; lia).
    pose proof (mergeRanges_loop_length Index.GAP (second :: rest) [] first) as H.
    cbn [List.length] in *. lia.
  - unfold Index.mergeRanges, Index.mergeRanges_gap.
    destruct ranges as [|first [|second rest]]; try reflexivity.
    destruct (mergeRanges_loop_first Index.GAP (second :: rest) first)
      as (len & tail & ->).
    reflexivity.
Qed.

Lemma mergeRanges_idempotent_witness :
  Index.mergeRanges
    (Index.mergeRanges
       [Index.mkRange 0 1000; Index.mkRange 10 1; Index.mkRange 1200 5;
        Index.mkRange 1718 2])
  = Index.mergeRanges
      [Index.mkRange 0 1000; Index.mkRange 10 1; Index.mkRange 1200 5;
       Index.mkRange 1718 2].
Proof.
  apply (mergeRanges_idempotent
           [Index.mkRange 0 1000; Index.mkRange 10 1; Index.mkRange 1200 5;
            Index.mkRange 1718 2]).
  repeat constructor; cbn; lia.
Defined.

(** ** The levels of the packed R-tree (fgb/header, fgb/index) *)

Section Levels.
Import LevelSpec.

Lemma sum_app (l1 l2 : list Z) : sum (l1 ++ l2) = sum l1 + sum l2.
Proof. unfold sum. induction l1 as [|a l1 IH]; cbn [app fold_right]; lia. Qed.

Lemma sum_rev (l : list Z) : sum (rev l) = sum l.
Proof.
  induction l as [|a l IH]; [reflexivity|]. cbn [rev]. rewrite sum_app, IH.
  unfold sum. cbn [fold_right]. lia.
Qed.

Lemma assignBounds_stacked (l : list Z) :
  forall (off : Z) (acc : list (Z * Z)),
    Forall (fun c => 1 <= c) l -> stacked off acc ->
    stacked (off + sum l) (Index.assignBounds l off acc).
Proof.
  induction l as [|c l IH]; intros off acc Hl Hacc; cbn [Index.assignBounds].
  - unfold sum. cbn [fold_right]. rewrite Z.add_0_r. exact Hacc.
  - replace (off + sum (c :: l)) with (off + c + sum l)
      by (unfold sum; cbn [fold_right]; lia).
    apply IH; [exact (Forall_inv_tail Hl)|].
    assert (1 <= c) by exact (Forall_inv Hl). cbn [stacked].
    repeat split; [lia|exact Hacc].
Qed.

Lemma assignBounds_snoc (l : list Z) :
  forall (c off : Z) (acc : list (Z * Z)),
    Index.assignBounds (l ++ [c]) off acc
    = (off + sum l, off + sum l + c) :: Index.assignBounds l off acc.
Proof.
  induction l as [|a l IH]; intros c off acc; cbn [app Index.assignBounds].
  - unfold sum. cbn [fold_right]. rewrite Z.add_0_r. reflexivity.
  - rewrite IH. unfold sum. cbn [fold_right]. do 2 f_equal; lia.
Qed.

(** The two level loops, of the header and of the index, count the same
    nodes. *)
Lemma level_loops_agree (nodeSize : Z) (Hsize : 2 <= nodeSize) (fuel : nat) :
  forall (n : Z) (levels : list Z) (num total : Z) (levels' : list Z) (num' : Z),
    Index.levelNumNodes_loop fuel nodeSize n levels num = Some (levels', num') ->
    exists ext,
      levels' = levels ++ ext /\ Forall (fun c => 1 <= c) ext
      /\ num' = num + sum ext
      /\ Header.calcIndexSize_loop fuel nodeSize n total = Some (total + sum ext).
Proof.
  induction fuel as [|fuel IH]; intros n levels num total levels' num' H;
    cbn [Index.levelNumNodes_loop Header.calcIndexSize_loop] in *.
  - destruct (n >? 1); [discriminate H|]. injection H as <- <-.
    exists []. rewrite app_nil_r. unfold sum. cbn [fold_right].
    repeat split; [constructor|lia|f_equal; lia].
  - destruct (Z.gtb_spec n 1) as [Hn|Hn].
    + destruct (nodeSize =? 0); [discriminate H|].
      pose proof (ceilDiv_decreases n nodeSize Hn Hsize) as Hc.
      destruct (IH _ _ _ (total + Js.ceilDiv n nodeSize) _ _ H)
        as (ext & -> & Hext & -> & Hcalc).
      exists (Js.ceilDiv n nodeSize :: ext). rewrite <- app_assoc.
      unfold sum in *. cbn [fold_right app].
      repeat split; [constructor; [lia|exact Hext]|lia|].
      rewrite Hcalc. f_equal. lia.
    + injection H as <- <-. exists []. rewrite app_nil_r. unfold sum. cbn [fold_right].
      repeat split; [constructor|lia|f_equal; lia].
Qed.

End Levels.

(** X5. For a tree of [featuresCount >= 1] features and [nodeSize >= 2],
    the level bounds that [queryIndex] computes tile the node indices
    [0 .. totalNodes): the leaf level is the last [featuresCount] nodes,
    each level ends where the level below it starts, no level is empty,
    the root level is node 0 alone; and the index size that the header
    parser computes is [totalNodes * 40] bytes, so every node of every
    level lies inside the index section. *)
Theorem levels_tile_the_index (featuresCount nodeSize : Z) (fuel : nat)
    (Hcount : 1 <= featuresCount) (Hsize : 2 <= nodeSize)
    (Hfuel : (Z.to_nat featuresCount <= fuel)%nat) :
  exists (bounds : list (Z * Z)) (totalNodes : Z),
    Index.computeLevelBounds fuel featuresCount nodeSize = Some bounds
    /\ Header.calcIndexSize fuel featuresCount nodeSize = Some (totalNodes * 40)
    /\ LevelSpec.stacked totalNodes bounds
    /\ hd (0, 0) bounds = (totalNodes - featuresCount, totalNodes)
    /\ last bounds (0, 0) = (0, 1).
Proof.
  destruct (computeLevelBounds_root featuresCount nodeSize fuel Hcount Hsize Hfuel)
    as (bounds & Hbounds & _ & Hroot).
  unfold Index.computeLevelBounds in Hbounds.
  destruct (Index.levelNumNodes_loop fuel nodeSize featuresCount [featuresCount]
              featuresCount) as [[levels num]|] eqn:Hloop; [|discriminate Hbounds].
  destruct (level_loops_agree nodeSize Hsize fuel _ _ _ featuresCount _ _ Hloop)
    as (ext & -> & Hext & -> & Hcalc).
  injection Hbounds as <-.
  exists (Index.assignBounds (rev ([featuresCount] ++ ext)) 0 []),
    (featuresCount + LevelSpec.sum ext).
  split; [unfold Index.computeLevelBounds; rewrite Hloop; reflexivity|].
  split.
  { unfold Header.calcIndexSize.
    destruct (Z.eqb_spec featuresCount 0); [lia|].
    destruct (Z.eqb_spec nodeSize 0); [lia|]. cbn [orb].
    rewrite Hcalc. reflexivity. }
  split.
  { replace (featuresCount + LevelSpec.sum ext)
      with (0 + LevelSpec.sum (rev ([featuresCount] ++ ext)))
      by (rewrite sum_rev, sum_app; unfold LevelSpec.sum; cbn [fold_right]; lia).
    apply assignBounds_stacked; [|reflexivity].
    apply Forall_rev. constructor; [lia|exact Hext]. }
  split; [|exact Hroot].
  cbn [app rev]. rewrite assignBounds_snoc. cbn [hd]. rewrite sum_rev. f_equal; lia.
Qed.

Lemma levels_tile_the_index_witness :
  exists (bounds : list (Z * Z)) (totalNodes : Z),
    Index.computeLevelBounds 5 5 2 = Some bounds
    /\ Header.calcIndexSize 5 5 2 = Some (totalNodes * 40)
    /\ LevelSpec.stacked totalNodes bounds
    /\ hd (0, 0) bounds = (totalNodes - 5, totalNodes)
    /\ last bounds (0, 0) = (0, 1).
Proof.
  apply (levels_tile_the_index 5 2 5); lia.
Defined.

(** ** The header parser (fgb/header) *)

Section HeaderParser.
Import Types.

Lemma getUint8_not_Error (v : Buf.view) (offset : Z) (msg : string) :
  Buf.getUint8 v offset <> Throw (Error msg).
Proof.
  unfold Buf.getUint8. apply bind_not_Error; [apply read_not_Error|discriminate].
Qed.

Lemma getUint16_not_Error (v : Buf.view) (offset : Z) (msg : string) :
  Buf.getUint16 v offset <> Throw (Error msg).
Proof.
  unfold Buf.getUint16. apply bind_not_Error; [apply read_not_Error|discriminate].
Qed.

Lemma getInt32_not_Error (v : Buf.view) (offset : Z) (msg : string) :
  Buf.getInt32 v offset <> Throw (Error msg).
Proof.
  unfold Buf.getInt32. apply bind_not_Error; [apply read_not_Error|discriminate].
Qed.

Lemma newView_not_Error (buffer : list Z) (byteOffset byteLength : Z) (msg : string) :
  Buf.newView buffer byteOffset byteLength <> Throw (Error msg).
Proof. unfold Buf.newView. destruct (_ && _); discriminate. Qed.

Create HintDb noerror.

#[local] Hint Resolve getUint8_not_Error getUint16_not_Error getUint32_not_Error
  getInt32_not_Error getFloat64_not_Error newView_not_Error read_not_Error : noerror.

Ltac error_step :=
  first
    [ discriminate
    | solve [auto with noerror]
    | apply bind_not_Error; [|intros ?]
    | match goal with
      | |- (if ?c then _ else _) <> Throw _ => destruct c
      | |- match ?x with _ => _ end <> Throw _ => destruct x
      end ].

Lemma fieldOffset_not_Error (fb : FlatBuffers.FlatBufferReader) (tablePos fieldIndex : Z)
    (msg : string) :
  FlatBuffers.fieldOffset fb tablePos fieldIndex <> Throw (Error msg).
Proof.
  unfold FlatBuffers.fieldOffset, FlatBuffers.vtableOffset, FlatBuffers.readInt32,
    FlatBuffers.readUint16.
  repeat error_step.
Qed.

Lemma indirect_not_Error (fb : FlatBuffers.FlatBufferReader) (pos : Z) (msg : string) :
  FlatBuffers.indirect fb pos <> Throw (Error msg).
Proof. unfold FlatBuffers.indirect, FlatBuffers.readUint32. repeat error_step. Qed.

Lemma vectorLen_not_Error (fb : FlatBuffers.FlatBufferReader) (pos : Z) (msg : string) :
  FlatBuffers.vectorLen fb pos <> Throw (Error msg).
Proof. unfold FlatBuffers.vectorLen, FlatBuffers.readUint32. repeat error_step. Qed.

Lemma readString_not_Error (fb : FlatBuffers.FlatBufferReader) (pos : Z) (msg : string) :
  Reader.readString fb pos <> Throw (Error msg).
Proof. unfold Reader.readString. repeat error_step. Qed.

Lemma readUint64_not_Error (fb : FlatBuffers.FlatBufferReader) (pos : Z) (msg : string) :
  Reader.readUint64AsNumber fb pos <> Throw (Error msg).
Proof. unfold Reader.readUint64AsNumber. repeat error_step. Qed.

#[local] Hint Resolve fieldOffset_not_Error indirect_not_Error vectorLen_not_Error
  readString_not_Error readUint64_not_Error : noerror.

Lemma parseColumn_not_Error (fb : FlatBuffers.FlatBufferReader) (tablePos : Z)
    (msg : string) :
  HeaderParse.parseColumn fb tablePos <> Throw (Error msg).
Proof.
  unfold HeaderParse.parseColumn, FlatBuffers.readUint8. repeat error_step.
Qed.

Lemma parseColumns_not_Error (fb : FlatBuffers.FlatBufferReader) (colsDataStart : Z)
    (msg : string) (n : nat) :
  forall (i : Z) (columns : list ColumnMeta),
    HeaderParse.parseColumns fb colsDataStart n i columns <> Throw (Error msg).
Proof.
  induction n as [|n IH]; intros i columns; cbn [HeaderParse.parseColumns];
    [discriminate|].
  apply bind_not_Error; [auto with noerror|intros colOffset].
  apply bind_not_Error; [apply parseColumn_not_Error|intros column]. apply IH.
Qed.

(** After the magic check no step of [parseHeader] throws an [Error]. *)
Lemma parseHeader_Error (fuel : nat) (bytes : Buf.view) (msg : string) :
  HeaderParse.parseHeader fuel bytes = Throw (Error msg) ->
  HeaderParse.verifyMagic bytes = false.
Proof.
  unfold HeaderParse.parseHeader.
  destruct (HeaderParse.verifyMagic bytes); [|reflexivity]. cbn [negb].
  intros H. exfalso. revert H.
  unfold FlatBuffers.rootTableOffset, FlatBuffers.readUint32, FlatBuffers.readUint8,
    FlatBuffers.readUint16, FlatBuffers.readFloat64.
  apply bind_not_Error; [auto with noerror|intros headerSizeView].
  apply bind_not_Error; [auto with noerror|intros headerFbSize].
  apply bind_not_Error; [auto with noerror|intros rootOffset].
  apply bind_not_Error; [auto with noerror|intros geomTypeOff].
  apply bind_not_Error; [repeat error_step|intros geometryType].
  apply bind_not_Error; [auto with noerror|intros fcOff].
  apply bind_not_Error; [repeat error_step|intros featuresCount].
  apply bind_not_Error; [auto with noerror|intros insOff].
  apply bind_not_Error; [repeat error_step|intros indexNodeSize].
  apply bind_not_Error; [auto with noerror|intros envOff].
  apply bind_not_Error; [repeat error_step|intros bbox].
  apply bind_not_Error; [auto with noerror|intros colsOff].
  apply bind_not_Error.
  { destruct (_ =? _); [discriminate|].
    apply bind_not_Error; [auto with noerror|intros colsVecOffset].
    apply bind_not_Error; [auto with noerror|intros colsLen].
    apply parseColumns_not_Error. }
  intros columns. apply bind_not_Error; [|discriminate].
  destruct (_ >? _); [|discriminate].
  destruct (Header.calcIndexSize _ _ _); discriminate.
Qed.

Lemma verifyMagic_ofBytes (l : list Z) :
  HeaderParse.verifyMagic (Buf.ofBytes l) = true
  <-> exists version rest, l = [0x66; 0x67; 0x62; 0x03; 0x66; 0x67; 0x62; version] ++ rest.
Proof.
  unfold HeaderParse.verifyMagic, Buf.ofBytes. cbn [Buf.byteLength].
  split.
  - destruct l as [|b0 [|b1 [|b2 [|b3 [|b4 [|b5 [|b6 [|b7 rest]]]]]]]];
      try (cbn; discriminate).
    destruct (Z.ltb_spec (Z.of_nat (List.length (b0 :: b1 :: b2 :: b3 :: b4 :: b5 :: b6
                                                    :: b7 :: rest)))
                HeaderParse.HEADER_MAGIC_SIZE) as [Hlt|Hge].
    { cbn [List.length] in Hlt. unfold HeaderParse.HEADER_MAGIC_SIZE in Hlt. lia. }
    unfold HeaderParse.byteAt, HeaderParse.HEADER_MAGIC_SIZE.
    change (Z.to_nat (8 - 1)) with 7%nat.
    cbn [HeaderParse.verifyMagic_loop HeaderParse.byteAt Buf.byteLength Buf.buffer
           Buf.byteOffset].
    unfold HeaderParse.byteAt. cbn [Buf.byteLength Buf.buffer Buf.byteOffset].
    set (len := Z.of_nat (List.length (b0 :: b1 :: b2 :: b3 :: b4 :: b5 :: b6 :: b7 :: rest)))
      in *.
    assert (Hlen : 8 <= len) by (unfold HeaderParse.HEADER_MAGIC_SIZE in Hge; lia).
    repeat match goal with
           | |- context [(?a <=? ?b) && (?c <? len)] =>
               replace ((a <=? b) && (c <? len)) with true
                 by (symmetry; apply andb_true_intro; split;
                     [apply Z.leb_le; lia|apply Z.ltb_lt; lia])
           end.
    cbv - [Z.eqb].
    destruct (Z.eqb_spec b0 102); [|discriminate].
    destruct (Z.eqb_spec b1 103); [|discriminate].
    destruct (Z.eqb_spec b2 98); [|discriminate].
    destruct (Z.eqb_spec b3 3); [|discriminate].
    destruct (Z.eqb_spec b4 102); [|discriminate].
    destruct (Z.eqb_spec b5 103); [|discriminate].
    destruct (Z.eqb_spec b6 98); [|discriminate].
    intros _. subst. exists b7, rest. reflexivity.
  - intros (version & rest & ->).
    destruct (Z.ltb_spec (Z.of_nat (List.length ([102; 103; 98; 3; 102; 103; 98; version]
                                                    ++ rest)))
                HeaderParse.HEADER_MAGIC_SIZE) as [Hlt|Hge].
    { cbn [List.length app] in Hlt. unfold HeaderParse.HEADER_MAGIC_SIZE in Hlt. lia. }
    unfold HeaderParse.HEADER_MAGIC_SIZE. change (Z.to_nat (8 - 1)) with 7%nat.
    cbn [HeaderParse.verifyMagic_loop].
    unfold HeaderParse.byteAt. cbn [Buf.byteLength Buf.buffer Buf.byteOffset].
    set (len := Z.of_nat (List.length ([102; 103; 98; 3; 102; 103; 98; version] ++ rest)))
      in *.
    assert (Hlen : 8 <= len) by (unfold HeaderParse.HEADER_MAGIC_SIZE in Hge; lia).
    repeat match goal with
           | |- context [(?a <=? ?b) && (?c <? len)] =>
               replace ((a <=? b) && (c <? len)) with true
                 by (symmetry; apply andb_true_intro; split;
                     [apply Z.leb_le; lia|apply Z.ltb_lt; lia])
           end.
    reflexivity.
Qed.

End HeaderParser.

(** X6. [parseHeader] fails with the error "Invalid FlatGeobuf magic
    bytes" exactly when the array is shorter than 8 bytes or its first
    seven bytes are not [66 67 62 03 66 67 62] (hex); the eighth byte, the
    patch version, is not looked at, and no other step of the parser
    throws an [Error] of its own. *)
Theorem parseHeader_magic (fuel : nat) (l : list Z) :
  (exists msg, HeaderParse.parseHeader fuel (Buf.ofBytes l) = Throw (Error msg))
  <-> ~ (exists version rest,
            l = [0x66; 0x67; 0x62; 0x03; 0x66; 0x67; 0x62; version] ++ rest).
Proof.
  rewrite <- verifyMagic_ofBytes. split.
  - intros (msg & H) Hmagic. apply parseHeader_Error in H. congruence.
  - intros Hmagic. exists "Invalid FlatGeobuf magic bytes"%string.
    unfold HeaderParse.parseHeader.
    destruct (HeaderParse.verifyMagic (Buf.ofBytes l)); [congruence|reflexivity].
Qed.

(** X7. A header that [parseHeader] returns describes the file
    consistently: its [headerSize] is the size that [headerByteSize]
    reads from the same bytes, the index starts where the header ends,
    the features start where the index ends, and the index size is the one
    [calcIndexSize] gives for the feature count and node size of the
    header (0 without an index). *)
Theorem parseHeader_layout (fuel : nat) (bytes : Buf.view) (h : Types.FgbHeader)
    (Hparse : HeaderParse.parseHeader fuel bytes = Ok h) :
  Pipeline.headerByteSize bytes = Ok (Types.headerSize h)
  /\ Types.indexOffset h = Types.headerSize h
  /\ Types.featuresOffset h = Types.indexOffset h + Types.indexSize h
  /\ (Types.indexNodeSize h > 0 ->
      Header.calcIndexSize fuel (Types.featuresCount h) (Types.indexNodeSize h)
      = Some (Types.indexSize h))
  /\ (Types.indexNodeSize h <= 0 -> Types.indexSize h = 0).
Proof.
  unfold HeaderParse.parseHeader in Hparse.
  destruct (HeaderParse.verifyMagic bytes); [|discriminate Hparse]. cbn [negb] in Hparse.
  destruct (Buf.newView _ _ 4) as [headerSizeView| |] eqn:Hview; cbn [bind] in Hparse;
    try discriminate Hparse.
  destruct (Buf.getUint32 headerSizeView 0) as [headerFbSize| |] eqn:Hsize;
    cbn [bind] in Hparse; try discriminate Hparse.
  destruct (FlatBuffers.rootTableOffset _) as [rootOffset| |] eqn:Hroot;
    cbn [bind] in Hparse; try discriminate Hparse.
  repeat match type of Hparse with
         | bind ?r _ = _ =>
             let E := fresh "E" in
             destruct r eqn:E; cbn [bind] in Hparse; try discriminate Hparse
         end.
  injection Hparse as <-. cbn [Types.headerSize Types.indexOffset Types.featuresOffset
                                 Types.indexSize Types.indexNodeSize Types.featuresCount].
  assert (Hlen : 16 <= Buf.byteLength bytes).
  { unfold FlatBuffers.rootTableOffset, FlatBuffers.readUint32, Buf.getUint32, Buf.read
      in Hroot.
    destruct (Z.leb_spec (0 + Z.of_nat 4)
                (Buf.byteLength
                   (Buf.subarray bytes (HeaderParse.HEADER_MAGIC_SIZE + 4)
                      (HeaderParse.HEADER_MAGIC_SIZE + 4 + headerFbSize)))) as [Hin|Hout];
      [|cbn in Hroot; discriminate Hroot].
    unfold Buf.subarray, HeaderParse.HEADER_MAGIC_SIZE in Hin. cbn [Buf.byteLength] in Hin.
    lia. }
  split.
  { unfold Pipeline.headerByteSize.
    destruct (Z.ltb_spec (Buf.byteLength bytes) (Pipeline.HEADER_MAGIC_SIZE + 4));
      [unfold Pipeline.HEADER_MAGIC_SIZE in *; lia|].
    change Pipeline.HEADER_MAGIC_SIZE with HeaderParse.HEADER_MAGIC_SIZE.
    rewrite Hview. cbn [bind]. rewrite Hsize. reflexivity. }
  split; [reflexivity|]. split; [reflexivity|].
  match goal with
  | E : (if ?n >? 0 then _ else _) = Ok ?size |- _ =>
      destruct (Z.gtb_spec n 0) as [Hpos|Hzero];
      [destruct (Header.calcIndexSize fuel _ n) as [size'|] eqn:Hcalc;
       [injection E as <-|discriminate E]
      |injection E as <-]
  end.
  - split; [intros _; reflexivity|lia].
  - split; [lia|reflexivity].
Qed.

Lemma parseHeader_layout_witness :
  Pipeline.headerByteSize (Buf.ofBytes Sample.headerBytes) = Ok 56
  /\ 56 = 56 /\ 496 = 56 + 440
  /\ (2 > 0 -> Header.calcIndexSize 5 5 2 = Some 440)
  /\ (2 <= 0 -> 440 = 0).
Proof.
  apply (parseHeader_layout 5 (Buf.ofBytes Sample.headerBytes) Sample.header).
  vm_compute. reflexivity.
Defined.

(** ** What the writer appends (pbf/writer) *)

Section WriterAppends.
Import WireSpec.

Lemma lor_small (a b : Z) : 0 <= a -> 0 <= b < 8 -> Z.lor (8 * a) b = 8 * a + b.
Proof.
  intros Ha Hb. pose proof (Z.add_lor_land (8 * a) b) as Hadd.
  assert (Hland : Z.land (8 * a) b = 0).
  { apply Z.bits_inj'. intros n Hn. rewrite Z.land_spec, Z.bits_0.
    destruct (Z_lt_le_dec n 3) as [Hlt|Hge].
    - replace (8 * a) with (a * 2 ^ 3) by lia. rewrite Z.mul_pow2_bits_low by lia.
      reflexivity.
    - destruct (Z.eq_dec b 0) as [->|Hb0]; [rewrite Z.bits_0; apply andb_false_r|].
      rewrite (Z.bits_above_log2 b n); [apply andb_false_r|lia|].
      apply Z.log2_lt_pow2; [lia|].
      assert (2 ^ 3 <= 2 ^ n) by (apply Z.pow_le_mono_r; lia). lia. }
  lia.
Qed.

(** The tag of a field: [(fieldNum << 3) | wireType]. *)
Lemma tag_value (fieldNum wireType : Z) :
  0 <= fieldNum < 2 ^ 28 -> 0 <= wireType < 8 ->
  Js.or (Js.shl fieldNum 3) wireType = fieldNum * 8 + wireType.
Proof.
  intros Hf Hw. unfold Js.or, Js.shl.
  rewrite (ToInt32_small fieldNum) by lia. rewrite (ToUint32_small 3) by lia.
  change (3 mod 32) with 3. rewrite Z.shiftl_mul_pow2 by lia. change (2 ^ 3) with 8.
  rewrite (ToInt32_small (fieldNum * 8)) by lia.
  rewrite (ToInt32_small (fieldNum * 8)) by lia.
  rewrite (ToInt32_small wireType) by lia.
  rewrite Z.mul_comm, lor_small by lia. lia.
Qed.

Lemma tag_parts (fieldNum wireType : Z) :
  0 <= fieldNum -> 0 <= wireType < 8 ->
  Z.land (fieldNum * 8 + wireType) 7 = wireType
  /\ Z.shiftr (fieldNum * 8 + wireType) 3 = fieldNum.
Proof.
  intros Hf Hw. split.
  - change 7 with (Z.ones 3). rewrite Z.land_ones by lia. change (2 ^ 3) with 8.
    rewrite Z.add_comm, Z.mod_add by lia. apply Z.mod_small. lia.
  - rewrite Z.shiftr_div_pow2 by lia. change (2 ^ 3) with 8.
    rewrite Z.add_comm, Z.div_add by lia. rewrite Z.div_small by lia. reflexivity.
Qed.

Lemma writeTag_appends (fieldNum wireType : Z) :
  0 <= fieldNum < 2 ^ 28 -> 0 <= wireType < 8 ->
  appends (Pbf.writeTag fieldNum wireType) (Wire.varint (fieldNum * 8 + wireType)).
Proof.
  intros Hf Hw w. unfold Pbf.writeTag. rewrite tag_value by assumption.
  apply writeVarint_varint. unfold Wire.u32. lia.
Qed.

Lemma message_appends (fieldNum : Z) (write : Pbf.PbfWriter -> option Pbf.PbfWriter)
    (body : list Z) :
  0 <= fieldNum < 2 ^ 28 ->
  appends write body ->
  Wire.u32 (Z.of_nat (List.length body)) ->
  appends (message fieldNum write)
    (Wire.varint (fieldNum * 8 + 2) ++ Wire.varint (Z.of_nat (List.length body)) ++ body).
Proof.
  intros Hf Hwrite Hbody w. unfold message, Pbf.beginMessage.
  rewrite (writeTag_appends fieldNum Pbf.WIRE_LEN Hf) by (unfold Pbf.WIRE_LEN; lia).
  cbn [obind Pbf.buf Pbf.lengthStack]. rewrite Hwrite. cbn [obind Pbf.buf Pbf.lengthStack].
  unfold Pbf.pos. cbn [Pbf.buf]. unfold Pbf.WIRE_LEN.
  rewrite <- (app_assoc (Pbf.buf w ++ Wire.varint (fieldNum * 8 + 2))).
  rewrite endMessage_patches by assumption.
  rewrite <- !app_assoc. reflexivity.
Qed.

Lemma lenField_message (fieldNum : Z) (body rest : list Z) :
  0 <= fieldNum < 2 ^ 28 ->
  Wire.u32 (Z.of_nat (List.length body)) ->
  lenField ((Wire.varint (fieldNum * 8 + 2) ++ Wire.varint (Z.of_nat (List.length body))
             ++ body) ++ rest)
  = Some (fieldNum, body, rest).
Proof.
  intros Hf Hbody. unfold lenField.
  rewrite <- !app_assoc, decode_varint by (unfold Wire.u32; lia). cbn [obind].
  destruct (tag_parts fieldNum 2) as [-> ->]; try lia. cbn [Z.eqb Pos.eqb].
  rewrite decode_varint by assumption. cbn [obind].
  rewrite length_app.
  destruct (Z.leb_spec (Z.of_nat (List.length body))
              (Z.of_nat (List.length body + List.length rest))); [|lia].
  rewrite Nat2Z.id, firstn_exact, skipn_exact by reflexivity. reflexivity.
Qed.

Lemma decodeVarints_varints (values : list Z) :
  Forall Wire.u32 values ->
  forall fuel, (List.length values <= fuel)%nat ->
    decodeVarints fuel (List.concat (map Wire.varint values)) = Some values.
Proof.
  induction values as [|v values IH]; intros Hall fuel Hfuel.
  - destruct fuel; reflexivity.
  - cbn [map List.concat].
    assert (Hne : exists b bytes, Wire.varint v = b :: bytes).
    { unfold Wire.varint. cbn [Wire.encodeVarint]. destruct (v <? 128); eauto. }
    destruct Hne as (b & bytes & Hv).
    destruct fuel as [|fuel]; [cbn [List.length] in Hfuel; lia|].
    rewrite Hv. cbn [app decodeVarints]. rewrite app_comm_cons, <- Hv.
    rewrite decode_varint by exact (Forall_inv Hall). cbn [obind].
    rewrite IH; [reflexivity|exact (Forall_inv_tail Hall)|].
    cbn [List.length] in Hfuel. lia.
Qed.

Lemma writePackedVarint_appends (fieldNum : Z) (values : list Z) :
  0 <= fieldNum < 16 ->
  Forall Wire.u32 values ->
  Wire.u32 (Z.of_nat (List.length (List.concat (map Wire.varint values)))) ->
  appends (Pbf.writePackedVarint fieldNum values) (Wire.packed fieldNum values).
Proof.
  intros Hf Hall Hlen w. destruct values as [|v values].
  - cbn. rewrite app_nil_r. destruct w; reflexivity.
  - unfold Pbf.writePackedVarint, Wire.packed.
    rewrite (writeTag_appends fieldNum Pbf.WIRE_LEN) by (unfold Pbf.WIRE_LEN; lia).
    cbn [obind]. rewrite byteLen_varints by assumption. rewrite Z.add_0_l.
    rewrite writeVarint_varint by assumption. cbn [obind Pbf.buf Pbf.lengthStack].
    rewrite writeVarints_varints by assumption. cbn [Pbf.buf Pbf.lengthStack].
    unfold Pbf.WIRE_LEN.
    rewrite varint_small by lia.
    rewrite <- !app_assoc. reflexivity.
Qed.

End WriterAppends.

Section WriterRoundTrips.
Import WireSpec.

Lemma zig_value (n : Z) :
  - 2 ^ 30 <= n < 2 ^ 30 ->
  Js.xor (Js.shl n 1) (Js.sar n 31) = if 0 <=? n then 2 * n else - 2 * n - 1.
Proof.
  intros Hn. unfold Js.xor, Js.shl, Js.sar.
  rewrite (ToInt32_small n) by lia.
  rewrite (ToUint32_small 1), (ToUint32_small 31) by lia.
  change (1 mod 32) with 1. change (31 mod 32) with 31.
  rewrite Z.shiftl_mul_pow2, Z.shiftr_div_pow2 by lia. change (2 ^ 1) with 2.
  rewrite (ToInt32_small (n * 2)) by lia. rewrite (ToInt32_small (n * 2)) by lia.
  destruct (Z.leb_spec 0 n) as [Hpos|Hneg].
  - rewrite (Z.div_small n (2 ^ 31)) by lia. rewrite (ToInt32_small 0) by lia.
    rewrite Z.lxor_0_r. lia.
  - assert (Hdiv : n / 2 ^ 31 = -1).
    { symmetry. apply (Z.div_unique n (2 ^ 31) (-1) (n + 2 ^ 31)); lia. }
    rewrite Hdiv. rewrite (ToInt32_small (-1)) by lia.
    rewrite Z.lxor_m1_r. unfold Z.lnot. lia.
Qed.

Lemma unzigzag_zig (n : Z) :
  unzigzag (if 0 <=? n then 2 * n else - 2 * n - 1) = n.
Proof.
  unfold unzigzag. destruct (Z.leb_spec 0 n).
  - rewrite Z.even_mul. cbn [Z.even orb]. rewrite Z.mul_comm, Z.div_mul by lia.
    reflexivity.
  - replace (- 2 * n - 1) with (1 + 2 * (- n - 1)) by lia.
    rewrite Z.even_add_mul_2. cbn [Z.even].
    replace (1 + 2 * (- n - 1) + 1) with ((- n) * 2) by lia.
    rewrite Z.div_mul by lia. lia.
Qed.

Lemma length_varints_le (values : list Z) :
  Forall Wire.u32 values ->
  Z.of_nat (List.length (List.concat (map Wire.varint values)))
  <= 5 * Z.of_nat (List.length values).
Proof.
  induction 1 as [|v values Hv _ IH]; cbn [map List.concat List.length]; [lia|].
  rewrite length_app, Nat2Z.inj_add, length_varint by exact Hv.
  pose proof (varintSize_range v Hv). lia.
Qed.

End WriterRoundTrips.

(** X8. A nested message is framed correctly whatever its size: when
    the writes between [beginMessage(fieldNum)] and [endMessage()] append
    the bytes [body] (fewer than [2^32]), the three steps together append
    the tag of the field, the length of [body] as a varint and [body], with
    no placeholder byte left, and the stack of open messages is as before;
    a reader finds the field [fieldNum] with the payload [body]. *)
Theorem message_framing (fieldNum : Z) (write : Pbf.PbfWriter -> option Pbf.PbfWriter)
    (body rest : list Z)
    (Hfield : 0 <= fieldNum < 2 ^ 28)
    (Hwrite : WireSpec.appends write body)
    (Hbody : Z.of_nat (List.length body) < 2 ^ 32) :
  WireSpec.appends (WireSpec.message fieldNum write)
    (Wire.varint (fieldNum * 8 + 2) ++ Wire.varint (Z.of_nat (List.length body)) ++ body)
  /\ WireSpec.lenField
       ((Wire.varint (fieldNum * 8 + 2) ++ Wire.varint (Z.of_nat (List.length body))
         ++ body) ++ rest)
     = Some (fieldNum, body, rest).
Proof.
  assert (Hu32 : Wire.u32 (Z.of_nat (List.length body))) by (unfold Wire.u32; lia).
  split; [apply message_appends; assumption|apply lenField_message; assumption].
Qed.

Lemma message_framing_witness :
  WireSpec.appends (WireSpec.message 3 (Pbf.writeVarint 300)) [26; 2; 172; 2]
  /\ WireSpec.lenField ([26; 2; 172; 2] ++ [7]) = Some (3, [172; 2], [7]).
Proof.
  apply (message_framing 3 (Pbf.writeVarint 300) [172; 2] [7]).
  - lia.
  - intros w. apply writeVarint_varint. unfold Wire.u32. lia.
  - cbn. lia.
Defined.

(** X9. A packed field round-trips: for a field number below 16 and a
    non-empty list of fewer than [2^29] values in [0, 2^32),
    [writePackedVarint] appends a length-delimited field whose announced
    byte length is the length of its payload, and the payload decodes to
    the values in order. *)
Theorem writePackedVarint_round_trip (fieldNum : Z) (values : list Z)
    (w : Pbf.PbfWriter) (rest : list Z)
    (Hfield : 0 <= fieldNum < 16)
    (Hvalues : values <> [])
    (Hall : Forall Wire.u32 values)
    (Hcount : Z.of_nat (List.length values) < 2 ^ 29) :
  exists bytes payload,
    Pbf.writePackedVarint fieldNum values w
    = Some (Pbf.mkWriter (Pbf.buf w ++ bytes) (Pbf.lengthStack w))
    /\ WireSpec.lenField (bytes ++ rest) = Some (fieldNum, payload, rest)
    /\ WireSpec.decodeVarints (List.length values) payload = Some values.
Proof.
  pose proof (length_varints_le values Hall) as Hle.
  assert (Hlen : Wire.u32 (Z.of_nat (List.length (List.concat (map Wire.varint values)))))
    by (unfold Wire.u32; lia).
  exists (Wire.packed fieldNum values), (List.concat (map Wire.varint values)).
  split; [apply writePackedVarint_appends; assumption|].
  split; [|apply decodeVarints_varints; [assumption|lia]].
  destruct values as [|v values]; [congruence|].
  unfold Wire.packed.
  replace (fieldNum * 8 + 2
           :: Wire.varint (Z.of_nat (List.length (List.concat (map Wire.varint (v :: values)))))
           ++ List.concat (map Wire.varint (v :: values)))
    with (Wire.varint (fieldNum * 8 + 2)
          ++ Wire.varint (Z.of_nat (List.length (List.concat (map Wire.varint (v :: values)))))
          ++ List.concat (map Wire.varint (v :: values)))
    by (rewrite varint_small by lia; reflexivity).
  apply lenField_message; [lia|assumption].
Qed.

Lemma writePackedVarint_round_trip_witness :
  exists bytes payload,
    Pbf.writePackedVarint 4 [9; 300; 0] Pbf.newWriter
    = Some (Pbf.mkWriter (Pbf.buf Pbf.newWriter ++ bytes) (Pbf.lengthStack Pbf.newWriter))
    /\ WireSpec.lenField (bytes ++ [24; 1]) = Some (4, payload, [24; 1])
    /\ WireSpec.decodeVarints (List.length [9; 300; 0]) payload = Some [9; 300; 0].
Proof.
  apply (writePackedVarint_round_trip 4 [9; 300; 0] Pbf.newWriter [24; 1]).
  - lia.
  - discriminate.
  - repeat constructor; vm_compute; discriminate.
  - cbn. lia.
Defined.

(** X10. A signed varint round-trips for [-2^30 <= val < 2^30]:
    [writeSVarint] appends the varint of the ZigZag code of [val]
    ([2 val] for [val >= 0], [-2 val - 1] otherwise), which is the value
    that [zigzag] gives in the geometry encoder, and ZigZag decoding of
    what a reader decodes gives [val] back. *)
Theorem writeSVarint_round_trip (val : Z) (w : Pbf.PbfWriter) (rest : list Z)
    (Hval : - 2 ^ 30 <= val < 2 ^ 30) :
  exists bytes z,
    Pbf.writeSVarint val w = Some (Pbf.mkWriter (Pbf.buf w ++ bytes) (Pbf.lengthStack w))
    /\ Wire.decodeVarint (bytes ++ rest) = Some (z, rest)
    /\ z = (if 0 <=? val then 2 * val else - 2 * val - 1)
    /\ Geometry.zigzag (Some val) = z
    /\ WireSpec.unzigzag z = val.
Proof.
  assert (Hu32 : Wire.u32 (if 0 <=? val then 2 * val else - 2 * val - 1)).
  { unfold Wire.u32. destruct (Z.leb_spec 0 val); lia. }
  exists (Wire.varint (if 0 <=? val then 2 * val else - 2 * val - 1)),
    (if 0 <=? val then 2 * val else - 2 * val - 1).
  split.
  { unfold Pbf.writeSVarint. rewrite zig_value by assumption.
    apply writeVarint_varint. exact Hu32. }
  split; [apply decode_varint; exact Hu32|].
  split; [reflexivity|].
  split; [unfold Geometry.zigzag; cbn [Num.toInt]; apply zig_value; assumption|].
  apply unzigzag_zig.
Qed.

Lemma writeSVarint_round_trip_witness :
  exists bytes z,
    Pbf.writeSVarint (-3) Pbf.newWriter
    = Some (Pbf.mkWriter (Pbf.buf Pbf.newWriter ++ bytes) (Pbf.lengthStack Pbf.newWriter))
    /\ Wire.decodeVarint (bytes ++ []) = Some (z, [])
    /\ z = (if 0 <=? -3 then 2 * -3 else - 2 * -3 - 1)
    /\ Geometry.zigzag (Some (-3)) = z
    /\ WireSpec.unzigzag z = -3.
Proof.
  apply (writeSVarint_round_trip (-3) Pbf.newWriter []). lia.
Defined.

(** X11. For [0 <= val < 2^32], [writeVarint] appends exactly
    [varintSize(val)] bytes, between one and five, which decode to [val]:
    the byte length that [writePackedVarint] announces from [varintSize] is
    the length that it writes. *)
Theorem writeVarint_size (val : Z) (w : Pbf.PbfWriter) (rest : list Z)
    (Hval : 0 <= val < 2 ^ 32) :
  exists bytes,
    Pbf.writeVarint val w = Some (Pbf.mkWriter (Pbf.buf w ++ bytes) (Pbf.lengthStack w))
    /\ Z.of_nat (List.length bytes) = Pbf.varintSize val
    /\ 1 <= Pbf.varintSize val <= 5
    /\ Wire.decodeVarint (bytes ++ rest) = Some (val, rest).
Proof.
  exists (Wire.varint val).
  split; [apply writeVarint_varint; exact Hval|].
  split; [apply length_varint; exact Hval|].
  split; [apply varintSize_range; exact Hval|apply decode_varint; exact Hval].
Qed.

Lemma writeVarint_size_witness :
  exists bytes,
    Pbf.writeVarint 300 Pbf.newWriter
    = Some (Pbf.mkWriter (Pbf.buf Pbf.newWriter ++ bytes) (Pbf.lengthStack Pbf.newWriter))
    /\ Z.of_nat (List.length bytes) = Pbf.varintSize 300
    /\ 1 <= Pbf.varintSize 300 <= 5
    /\ Wire.decodeVarint (bytes ++ []) = Some (300, []).
Proof.
  apply (writeVarint_size 300 Pbf.newWriter []). lia.
Defined.

(** ** Reading back an encoded geometry (mvt/geometry) *)

Section GeometryRoundTrip.
Import RingSpec GeometryRead.

Lemma command_value (id count : Z) :
  id = 1 \/ id = 2 \/ id = 7 -> 0 <= count < 2 ^ 28 ->
  command id count = count * 8 + id.
Proof.
  intros Hid Hcount. unfold command.
  assert (Hand : Js.and id 7 = id) by (destruct Hid as [->|[->| ->]]; reflexivity).
  rewrite Hand. unfold Js.or, Js.shl.
  rewrite (ToInt32_small count) by lia. rewrite (ToUint32_small 3) by lia.
  change (3 mod 32) with 3. rewrite Z.shiftl_mul_pow2 by lia. change (2 ^ 3) with 8.
  rewrite (ToInt32_small (count * 8)) by lia.
  rewrite (ToInt32_small (count * 8)) by lia.
  rewrite (ToInt32_small id) by lia.
  rewrite Z.lor_comm, Z.mul_comm, lor_small by lia. lia.
Qed.

Lemma command_parts (id count : Z) :
  id = 1 \/ id = 2 \/ id = 7 -> 0 <= count < 2 ^ 28 ->
  Z.land (command id count) 7 = id /\ Z.shiftr (command id count) 3 = count.
Proof.
  intros Hid Hcount. rewrite command_value by assumption.
  apply tag_parts; lia.
Qed.

Lemma unzigzag_delta (a b : Z) :
  - 2 ^ 29 <= a < 2 ^ 29 -> - 2 ^ 29 <= b < 2 ^ 29 ->
  b + WireSpec.unzigzag (zig (a - b)) = a.
Proof.
  intros Ha Hb. unfold zig. rewrite zig_value by lia. rewrite unzigzag_zig. lia.
Qed.

Lemma last_cons {A : Type} (l : list A) :
  forall a d : A, last (a :: l) d = last l a.
Proof.
  induction l as [|b l IH]; intros a d; [reflexivity|].
  change (last (a :: b :: l) d) with (last (b :: l) d).
  rewrite !IH. reflexivity.
Qed.

Lemma read_lineTo (rest : list Z) (lines : list (list point)) (pts : list point) :
  forall (cur : point) (line : list point),
    small cur -> Forall small pts ->
    repeatCommand 2 (List.length pts) (deltas cur pts ++ rest) (cur, Some line, lines)
    = Some ((last pts cur, Some (line ++ pts), lines), rest).
Proof.
  induction pts as [|[x y] pts IH]; intros [cx cy] line Hcur Hpts.
  - cbn. rewrite app_nil_r. reflexivity.
  - pose proof (Forall_inv Hpts) as Hp. destruct Hcur as [Hcx Hcy].
    destruct Hp as [Hx Hy]. cbn [fst snd] in *.
    cbn [List.length deltas app repeatCommand Z.eqb Pos.eqb orb fst snd].
    rewrite !unzigzag_delta by assumption.
    rewrite IH; [|split; assumption|exact (Forall_inv_tail Hpts)].
    rewrite <- app_assoc, last_cons. reflexivity.
Qed.

Lemma read_moveTo (rest : list Z) (more : list point) :
  forall (p cur : point) (line : option (list point)) (lines : list (list point)),
    small cur -> Forall small (p :: more) ->
    repeatCommand 1 (S (List.length more)) (deltas cur (p :: more) ++ rest)
      (cur, line, lines)
    = Some ((last more p, Some [last more p],
             flush line lines ++ map (fun q => [q]) (removelast (p :: more))), rest).
Proof.
  induction more as [|q more IH]; intros [x y] [cx cy] line lines Hcur Hpts;
    pose proof (Forall_inv Hpts) as Hp; destruct Hcur as [Hcx Hcy];
    destruct Hp as [Hx Hy]; cbn [fst snd] in *.
  - cbn [List.length deltas app repeatCommand Z.eqb Pos.eqb orb fst snd].
    rewrite !unzigzag_delta by assumption. cbn. rewrite app_nil_r. reflexivity.
  - change (deltas (cx, cy) ((x, y) :: q :: more))
      with (zig (x - cx) :: zig (y - cy) :: deltas (x, y) (q :: more)).
    cbn [List.length app]. 
    change (repeatCommand 1 (S (S (List.length more)))
              (zig (x - cx) :: zig (y - cy) :: deltas (x, y) (q :: more) ++ rest)
              (cx, cy, line, lines))
      with (repeatCommand 1 (S (List.length more)) (deltas (x, y) (q :: more) ++ rest)
              ((cx + WireSpec.unzigzag (zig (x - cx)), cy + WireSpec.unzigzag (zig (y - cy))),
               Some [(cx + WireSpec.unzigzag (zig (x - cx)),
                      cy + WireSpec.unzigzag (zig (y - cy)))],
               flush line lines)).
    rewrite !unzigzag_delta by assumption.
    rewrite IH; [|split; assumption|exact (Forall_inv_tail Hpts)].
    cbn [flush]. rewrite <- app_assoc, last_cons.
    change (removelast ((x, y) :: q :: more)) with ((x, y) :: removelast (q :: more)).
    reflexivity.
Qed.

Lemma read_line (fuel : nat) (more : list Z) (p0 : point) (rest : list point)
    (cur : point) (line : option (list point)) (lines : list (list point)) :
  small cur -> Forall small (p0 :: rest) -> Z.of_nat (List.length rest) < 2 ^ 28 ->
  readCommands (S (S fuel))
    ([MoveTo 1] ++ deltas cur [p0] ++ [LineTo (Z.of_nat (List.length rest))]
       ++ deltas p0 rest ++ more) (cur, line, lines)
  = readCommands fuel more (last rest p0, Some (p0 :: rest), flush line lines).
Proof.
  intros Hcur Hpts Hk.
  destruct (command_parts 1 1) as [Hc1 Hn1]; [auto|lia|].
  destruct (command_parts 2 (Z.of_nat (List.length rest))) as [Hc2 Hn2]; [auto|lia|].
  unfold MoveTo, LineTo. cbn [app].
  cbn [readCommands]. rewrite Hc1, Hn1. change (Z.to_nat 1) with 1%nat.
  pose proof (read_moveTo
                (command 2 (Z.of_nat (List.length rest)) :: deltas p0 rest ++ more)
                [] p0 cur line lines Hcur) as Hm.
  cbn [last removelast map List.length] in Hm. rewrite app_nil_r in Hm.
  rewrite Hm by (constructor; [exact (Forall_inv Hpts)|constructor]).
  cbn [obind]. rewrite Hc2, Hn2, Nat2Z.id.
  rewrite (read_lineTo more (flush line lines) rest p0 [p0]);
    [reflexivity|exact (Forall_inv Hpts)|exact (Forall_inv_tail Hpts)].
Qed.

Lemma read_closePath (fuel : nat) (more : list Z) (cur p0 : point) (l : list point)
    (lines : list (list point)) :
  readCommands (S fuel) ([ClosePath 1] ++ more) (cur, Some (p0 :: l), lines)
  = readCommands fuel more (cur, Some ((p0 :: l) ++ [p0]), lines).
Proof.
  destruct (command_parts 7 1) as [Hc Hn]; [auto|lia|].
  unfold ClosePath. cbn [app readCommands]. rewrite Hc, Hn. reflexivity.
Qed.

Lemma small_last (rest : list point) :
  forall p0 : point, Forall small (p0 :: rest) -> small (last rest p0).
Proof.
  induction rest as [|q rest IH]; intros p0 H; [exact (Forall_inv H)|].
  rewrite last_cons. apply IH. exact (Forall_inv_tail H).
Qed.

Lemma Forall_removelast {A : Type} (P : A -> Prop) (l : list A) :
  Forall P l -> Forall P (removelast l).
Proof.
  induction l as [|a l IH]; intros H; [constructor|].
  destruct l as [|b l]; [constructor|].
  change (removelast (a :: b :: l)) with (a :: removelast (b :: l)).
  constructor; [exact (Forall_inv H)|apply IH; exact (Forall_inv_tail H)].
Qed.

Lemma small_effective (ring : list point) :
  Forall small ring -> Forall small (effective ring).
Proof.
  intros H. unfold effective. destruct (explicitlyClosed ring);
    [apply Forall_removelast|]; exact H.
Qed.

Lemma polygonRing_length (cur : point) (ring : list point) :
  fst (polygonRing cur ring) = [] \/ (3 <= List.length (fst (polygonRing cur ring)))%nat.
Proof.
  unfold polygonRing.
  destruct (Z.of_nat (List.length (effective ring)) <? 3); [left; reflexivity|].
  destruct (effective ring) as [|p0 rest]; [left; reflexivity|].
  right. cbn [fst app deltas List.length]. lia.
Qed.

(** A reader of the commands of polygon rings gets the readable rings,
    each one closed by its first vertex. *)
Lemma read_polygonCommands (rs : list (list point)) :
  forall (fuel : nat) (cur : point) (line : option (list point))
         (lines : list (list point)),
    small cur ->
    Forall (Forall small) rs ->
    Forall (fun r => Z.of_nat (List.length r) < 2 ^ 28) rs ->
    (List.length (polygonCommands cur rs) <= fuel)%nat ->
    readCommands fuel (polygonCommands cur rs) (cur, line, lines)
    = Some (flush line lines ++ map closedRing (filter readableRing rs)).
Proof.
  induction rs as [|r rs IH]; intros fuel cur line lines Hcur Hsmall Hlen Hfuel.
  - destruct fuel; cbn; rewrite app_nil_r; reflexivity.
  - cbn [polygonCommands filter] in *. unfold readableRing at 1.
    pose proof (small_effective r (Forall_inv Hsmall)) as Heff.
    pose proof (effective_length r) as Hel.
    pose proof (Forall_inv Hlen) as Hr. cbv beta in Hr.
    unfold polygonRing in *.
    destruct (Z.ltb_spec (Z.of_nat (List.length (effective r))) 3) as [Hshort|Hlong];
      destruct (Z.leb_spec 3 (Z.of_nat (List.length (effective r)))) as [Hge|Hlt];
      try lia.
    + cbn [app] in *.
      apply IH; [assumption|exact (Forall_inv_tail Hsmall)|exact (Forall_inv_tail Hlen)
                |assumption].
    + destruct (effective r) as [|p0 rest] eqn:Hefr; [cbn [List.length] in Hlong; lia|].
      cbn [List.length] in Hel.
      rewrite <- !app_assoc in *.
      rewrite !length_app in Hfuel. cbn [List.length deltas] in Hfuel.
      destruct fuel as [|[|[|fuel]]]; try lia.
      rewrite read_line by (try assumption; lia).
      rewrite read_closePath.
      rewrite IH; [|apply small_last; assumption|exact (Forall_inv_tail Hsmall)
                   |exact (Forall_inv_tail Hlen)|lia].
      cbn [flush map].
      replace (closedRing r) with ((p0 :: rest) ++ [p0])
        by (unfold closedRing; rewrite Hefr; reflexivity).
      rewrite <- app_assoc. reflexivity.
Qed.

Lemma lineRing_nil (cur : point) : lineRing cur [] = ([], cur).
Proof. reflexivity. Qed.

Lemma lineRing_short (cur : point) (r : list point) :
  Z.of_nat (List.length r) < 2 -> lineRing cur r = ([], cur).
Proof.
  intros H. unfold lineRing. destruct (Z.ltb_spec (Z.of_nat (List.length r)) 2); [|lia].
  reflexivity.
Qed.

Lemma lineRing_long (cur p0 : point) (rest : list point) :
  2 <= Z.of_nat (List.length (p0 :: rest)) ->
  lineRing cur (p0 :: rest)
  = ([MoveTo 1] ++ deltas cur [p0]
       ++ [LineTo (Z.of_nat (List.length rest))] ++ deltas p0 rest,
     last rest p0).
Proof.
  intros H. unfold lineRing.
  destruct (Z.ltb_spec (Z.of_nat (List.length (p0 :: rest))) 2); [lia|reflexivity].
Qed.

(** A reader of the commands of lines gets the lines of 2 vertices or more. *)
Lemma read_lineCommands (rs : list (list point)) :
  forall (fuel : nat) (cur : point) (line : option (list point))
         (lines : list (list point)),
    small cur ->
    Forall (Forall small) rs ->
    Forall (fun r => Z.of_nat (List.length r) < 2 ^ 28) rs ->
    (List.length (ringCommands lineRing cur rs) <= fuel)%nat ->
    readCommands fuel (ringCommands lineRing cur rs) (cur, line, lines)
    = Some (flush line lines ++ filter readableLine rs).
Proof.
  induction rs as [|r rs IH]; intros fuel cur line lines Hcur Hsmall Hlen Hfuel.
  - destruct fuel; cbn; rewrite app_nil_r; reflexivity.
  - cbn [ringCommands filter] in *. unfold readableLine at 1.
    pose proof (Forall_inv Hsmall) as Hrs.
    pose proof (Forall_inv Hlen) as Hr. cbv beta in Hr.
    destruct (Z.leb_spec 2 (Z.of_nat (List.length r))) as [Hlong|Hshort].
    + destruct r as [|p0 rest]; [cbn [List.length] in Hlong; lia|].
      rewrite lineRing_long in * by assumption.
      cbn [List.length] in Hr.
      rewrite <- !app_assoc in *.
      rewrite !length_app in Hfuel. cbn [List.length deltas] in Hfuel.
      destruct fuel as [|[|fuel]]; try lia.
      rewrite read_line by (try assumption; lia).
      rewrite IH; [|apply small_last; assumption|exact (Forall_inv_tail Hsmall)
                   |exact (Forall_inv_tail Hlen)|lia].
      cbn [flush]. rewrite <- app_assoc. reflexivity.
    + rewrite lineRing_short in * by assumption. cbn [app] in *.
      apply IH; [assumption|exact (Forall_inv_tail Hsmall)|exact (Forall_inv_tail Hlen)
                |assumption].
Qed.

(** The loop body of [encodeLines] on the line laid out between [pre] and
    [post] emits the commands of [lineRing]. *)
Lemma encodeLines_body_ring (pre ring post : list point) (cmds : list Z)
    (cur : point) (startPair endPair : Z) :
  startPair = Z.of_nat (List.length pre) ->
  endPair = Z.of_nat (List.length pre) + Z.of_nat (List.length ring) ->
  Geometry.encodeLines_body (flat (pre ++ ring ++ post))
    (cmds, Some (fst cur), Some (snd cur)) (startPair, endPair)
  = (cmds ++ fst (lineRing cur ring),
     Some (fst (snd (lineRing cur ring))), Some (snd (snd (lineRing cur ring)))).
Proof.
  intros Hs He. unfold Geometry.encodeLines_body.
  replace (endPair - startPair) with (Z.of_nat (List.length ring)) by lia.
  destruct (Z.ltb_spec (Z.of_nat (List.length ring)) 2) as [Hshort|Hlong].
  { rewrite lineRing_short by assumption. cbn [fst snd]. rewrite app_nil_r. reflexivity. }
  destruct ring as [|p0 rest]; [cbn [List.length] in Hlong; lia|].
  rewrite lineRing_long by assumption. cbn [fst snd].
  set (coords := flat (pre ++ (p0 :: rest) ++ post)).
  assert (Hd0 : pre ++ (p0 :: rest) ++ post = pre ++ (fst p0, snd p0) :: rest ++ post).
  { destruct p0. reflexivity. }
  assert (G0x : Num.get coords (startPair * 2) = Some (fst p0)).
  { unfold coords. rewrite Hd0. apply get_flat_x. lia. }
  assert (G0y : Num.get coords (startPair * 2 + 1) = Some (snd p0)).
  { unfold coords. rewrite Hd0. apply get_flat_y. lia. }
  rewrite G0x, G0y, !zigzag_sub.
  cbn [List.length] in He, Hlong |- *.
  replace (Z.to_nat (endPair - (startPair + 1))) with (List.length rest) by lia.
  replace (Z.of_nat (S (List.length rest)) - 1) with (Z.of_nat (List.length rest)) by lia.
  assert (Hdm : pre ++ (p0 :: rest) ++ post = (pre ++ [p0]) ++ [] ++ rest ++ post).
  { rewrite <- !app_assoc. reflexivity. }
  unfold coords. rewrite Hdm.
  rewrite (lineTo_loop_deltas (pre ++ [p0]) post rest [] _ p0 (startPair + 1)).
  - unfold Geometry.commandInt, MoveTo, LineTo, command.
    unfold Geometry.CMD_MOVE_TO, Geometry.CMD_LINE_TO.
    cbn [deltas]. rewrite <- !app_assoc. reflexivity.
  - rewrite app_nil_r, length_app. cbn [List.length]. lia.
Qed.

Lemma polygonCommands_ring (rs : list (list point)) :
  forall cur : point, polygonCommands cur rs = ringCommands polygonRing cur rs.
Proof.
  induction rs as [|r rs IH]; intros cur; [reflexivity|].
  cbn [polygonCommands ringCommands]. destruct (polygonRing cur r) as [c cur'].
  rewrite IH. reflexivity.
Qed.

End GeometryRoundTrip.

(** The loop over the ring bounds that [encodeLines] and [encodePolygons]
    share, for a loop body that emits [ringCmds] for one ring. *)

Section RingLoop.
Import RingSpec GeometryRead.

Variable body : list Z -> Geometry.cursor -> Z * Z -> Geometry.cursor.
Variable ringCmds : point -> list point -> list Z * point.

Hypothesis body_ring :
  forall (pre ring post : list point) (cmds : list Z) (cur : point)
         (startPair endPair : Z),
    startPair = Z.of_nat (List.length pre) ->
    endPair = Z.of_nat (List.length pre) + Z.of_nat (List.length ring) ->
    body (flat (pre ++ ring ++ post)) (cmds, Some (fst cur), Some (snd cur))
      (startPair, endPair)
    = (cmds ++ fst (ringCmds cur ring),
       Some (fst (snd (ringCmds cur ring))), Some (snd (snd (ringCmds cur ring)))).

Hypothesis ring_nil : forall cur : point, ringCmds cur [] = ([], cur).

Lemma ring_loop_fold (post : list point) (rs : list (list point)) :
  forall (pre : list point) (cmds : list Z) (cur : point),
  exists cur',
    fold_left (body (flat (pre ++ List.concat rs ++ post)))
      (Geometry.getRingBounds_loop (endsOf (Z.of_nat (List.length pre)) rs)
         (Z.of_nat (List.length pre)) [])
      (cmds, Some (fst cur), Some (snd cur))
    = (cmds ++ ringCommands ringCmds cur rs, Some (fst cur'), Some (snd cur')).
Proof.
  induction rs as [|r0 rs IH]; intros pre cmds cur.
  - exists cur. cbn. rewrite app_nil_r. reflexivity.
  - cbn [endsOf Geometry.getRingBounds_loop List.concat ringCommands].
    assert (Hpre : Z.of_nat (List.length pre) + Z.of_nat (List.length r0)
                   = Z.of_nat (List.length (pre ++ r0))).
    { rewrite length_app. lia. }
    destruct (Z.gtb_spec (Z.of_nat (List.length pre) + Z.of_nat (List.length r0))
                (Z.of_nat (List.length pre))) as [Hgt|Hle].
    + rewrite getRingBounds_loop_app. cbn [app fold_left].
      replace (pre ++ (r0 ++ List.concat rs) ++ post)
        with (pre ++ r0 ++ (List.concat rs ++ post))
        by (rewrite <- (app_assoc r0); reflexivity).
      rewrite (body_ring pre r0 (List.concat rs ++ post) cmds cur) by reflexivity.
      destruct (ringCmds cur r0) as [c cur1]. cbn [fst snd].
      replace (pre ++ r0 ++ (List.concat rs ++ post))
        with ((pre ++ r0) ++ List.concat rs ++ post)
        by (rewrite <- (app_assoc pre); reflexivity).
      rewrite Hpre.
      destruct (IH (pre ++ r0) (cmds ++ c) cur1) as [cur' H].
      exists cur'. rewrite H, <- app_assoc. reflexivity.
    + assert (r0 = []) by (destruct r0; [reflexivity|cbn [List.length] in Hle; lia]).
      subst r0. rewrite ring_nil. cbn [app List.length].
      change (Z.of_nat 0) with 0. rewrite Z.add_0_r. apply IH.
Qed.

Lemma ring_loop_commands (coords : list Z) (ends : option (list Z)) :
  wf coords ends ->
  (let '(cmds, _, _) :=
     fold_left (body coords)
       (Geometry.getRingBounds (Z.of_nat (List.length coords) / 2) ends)
       ([], Some 0, Some 0) in cmds)
  = ringCommands ringCmds (0, 0) (rings coords ends).
Proof.
  intros [Hint Hpairs Hsize Hends].
  set (pts := pairs coords) in *.
  assert (Hlen : Z.of_nat (List.length coords) / 2 = Z.of_nat (List.length pts)).
  { rewrite <- Hpairs at 1. rewrite length_flat, Z.mul_comm. apply Z.div_mul. lia. }
  rewrite Hlen.
  assert (Hwhole :
    (let '(cmds, _, _) :=
       fold_left (body coords) [(0, Z.of_nat (List.length pts))] ([], Some 0, Some 0)
     in cmds)
    = ringCommands ringCmds (0, 0) [slice pts (0, Z.of_nat (List.length pts))]).
  { cbn [fold_left]. unfold slice. cbn [fst snd].
    rewrite Z.sub_0_r, Nat2Z.id. cbn [Z.to_nat skipn]. rewrite firstn_all.
    assert (Hc : coords = flat ([] ++ pts ++ [])).
    { rewrite app_nil_r. symmetry. exact Hpairs. }
    rewrite Hc at 1.
    rewrite (body_ring [] pts [] [] (0, 0)) by reflexivity.
    cbn [ringCommands app].
    destruct (ringCmds (0, 0) pts) as [c cur1]. cbn [fst snd].
    rewrite app_nil_r. reflexivity. }
  destruct ends as [[|e1 ends]|]; try exact Hwhole.
  set (es := e1 :: ends) in *.
  destruct (split_by_ends es 0 pts Hends) as (rs & Hcat & Hes).
  unfold rings. fold pts.
  change (Geometry.getRingBounds (Z.of_nat (List.length pts)) (Some es))
    with (Geometry.getRingBounds_loop es 0 []).
  change (bounds coords (Some es)) with (boundsFrom 0 es).
  rewrite <- Hes.
  assert (Hc : coords = flat ([] ++ List.concat rs ++ [])).
  { rewrite app_nil_r, Hcat. symmetry. exact Hpairs. }
  pose proof (slices_of_rings [] rs []) as Hsl.
  cbn [List.length app] in Hsl. change (Z.of_nat 0) with 0 in Hsl.
  rewrite app_nil_r, Hcat in Hsl. rewrite Hsl.
  rewrite Hc.
  destruct (ring_loop_fold [] rs [] [] (0, 0)) as [cur' H].
  cbn [List.length app fst snd] in H. cbn [app].
  change (Z.of_nat 0) with 0 in H. rewrite H. reflexivity.
Qed.

(** The rings of small points, fewer than [2^28] of them, are small. *)
Lemma rings_small (coords : list Z) (ends : option (list Z)) :
  Forall small (pairs coords) ->
  Z.of_nat (List.length (pairs coords)) < 2 ^ 28 ->
  Forall (Forall small) (rings coords ends)
  /\ Forall (fun r => Z.of_nat (List.length r) < 2 ^ 28) (rings coords ends).
Proof.
  intros Hsmall Hcount. unfold rings.
  split; apply Forall_map, Forall_forall; intros b _; unfold slice.
  - apply Forall_firstn, Forall_skipn. exact Hsmall.
  - rewrite length_firstn, length_skipn. lia.
Qed.

End RingLoop.

Section GeometryEncoders.
Import RingSpec GeometryRead.

Lemma encodePoints_deltas (pts : list point) :
  Geometry.encodePoints (flat pts)
  = MoveTo (Z.of_nat (List.length pts)) :: deltas (0, 0) pts.
Proof.
  unfold Geometry.encodePoints.
  assert (Hlen : Z.of_nat (List.length (flat pts)) / 2 = Z.of_nat (List.length pts)).
  { rewrite length_flat, Z.mul_comm. apply Z.div_mul. lia. }
  rewrite Hlen, Nat2Z.id.
  pose proof (lineTo_loop_deltas [] [] pts []
                [Geometry.commandInt Geometry.CMD_MOVE_TO (Z.of_nat (List.length pts))]
                (0, 0) 0 eq_refl) as H.
  cbn [app fst snd] in H. rewrite app_nil_r in H. rewrite H. reflexivity.
Qed.

Lemma encodeLines_commands (coords : list Z) (ends : option (list Z)) :
  wf coords ends ->
  Geometry.encodeLines coords ends = ringCommands lineRing (0, 0) (rings coords ends).
Proof.
  intros Hwf. unfold Geometry.encodeLines.
  apply (ring_loop_commands Geometry.encodeLines_body lineRing
           encodeLines_body_ring lineRing_nil coords ends Hwf).
Qed.

Lemma encodePolygons_rings (coords : list Z) (ends : option (list Z)) :
  wf coords ends ->
  Geometry.encodePolygons coords ends = polygonCommands (0, 0) (rings coords ends).
Proof.
  intros Hwf. unfold Geometry.encodePolygons. rewrite polygonCommands_ring.
  apply (ring_loop_commands Geometry.encodePolygons_body polygonRing
           encodePolygons_body_ring polygonRing_nil coords ends Hwf).
Qed.

Lemma slice_nil (b : Z * Z) : slice [] b = [].
Proof. unfold slice. rewrite skipn_nil, firstn_nil. reflexivity. Qed.

Lemma rings_nil (ends : option (list Z)) :
  filter readableLine (rings [] ends) = []
  /\ filter readableRing (rings [] ends) = [].
Proof.
  unfold rings. generalize (bounds [] ends). intros bs.
  induction bs as [|b bs [IH1 IH2]]; [split; reflexivity|].
  cbn [map filter]. rewrite slice_nil. split; assumption.
Qed.

Lemma small_origin : small (0, 0).
Proof. unfold small. cbn [fst snd]. lia. Qed.

Lemma pairs_count (coords : list Z) :
  flat (pairs coords) = coords ->
  Z.of_nat (List.length coords) = 2 * Z.of_nat (List.length (pairs coords)).
Proof. intros H. rewrite <- H at 1. apply length_flat. Qed.

End GeometryEncoders.

(** X12. A reader gets the points back: for fewer than [2^28] points with
    coordinates in [-2^29, 2^29), the commands that [encodeGeometry] emits
    for a point feature, one [MoveTo] with the count and the zigzag deltas
    from (0, 0), are read as one single-point line per point, in order. *)
Theorem encodePoints_round_trip (pts : list RingSpec.point) (ends : option (list Z))
    (Hsmall : Forall GeometryRead.small pts)
    (Hcount : Z.of_nat (List.length pts) < 2 ^ 28) :
  GeometryRead.loadGeometry (Geometry.encodeGeometry (RingSpec.flat pts) ends Types.POINT)
  = Some (map (fun p => [p]) pts).
Proof.
  destruct pts as [|p more]; [reflexivity|].
  assert (Hgeom : Geometry.encodeGeometry (RingSpec.flat (p :: more)) ends Types.POINT
                  = Geometry.encodePoints (RingSpec.flat (p :: more))).
  { destruct p. reflexivity. }
  rewrite Hgeom, encodePoints_deltas. unfold GeometryRead.loadGeometry.
  destruct (command_parts 1 (Z.of_nat (List.length (p :: more)))) as [Hc Hn];
    [auto|lia|].
  unfold RingSpec.MoveTo.
  cbn [List.length GeometryRead.readCommands] in Hc, Hn |- *.
  rewrite Hc, Hn, Nat2Z.id.
  pose proof (read_moveTo [] more p (0, 0) None [] small_origin Hsmall) as Hm.
  rewrite app_nil_r in Hm. rewrite Hm. cbn [obind GeometryRead.flush app].
  assert (Hne : p :: more <> []) by discriminate.
  rewrite (app_removelast_last p Hne) at 3.
  rewrite map_app, last_cons.
  destruct (List.length (RingSpec.deltas (0, 0) (p :: more))); reflexivity.
Qed.

Lemma encodePoints_round_trip_witness :
  GeometryRead.loadGeometry
    (Geometry.encodeGeometry (RingSpec.flat [(5, 7); (3, 2); (-1, 0)]) None Types.POINT)
  = Some (map (fun p => [p]) [(5, 7); (3, 2); (-1, 0)]).
Proof.
  apply (encodePoints_round_trip [(5, 7); (3, 2); (-1, 0)] None).
  - repeat constructor; cbn; lia.
  - cbn. lia.
Defined.

(** X13. A reader gets the lines back: for well-formed coordinates (in
    pairs, cumulative ends) with values in [-2^29, 2^29), the commands that
    [encodeGeometry] emits for a line feature are read as the lines of the
    feature that have 2 vertices or more, in order and vertex by vertex;
    shorter lines are left out. *)
Theorem encodeLines_round_trip (coords : list Z) (ends : option (list Z))
    (Hwf : RingSpec.wf coords ends)
    (Hsmall : Forall GeometryRead.small (RingSpec.pairs coords))
    (Hcount : Z.of_nat (List.length coords) < 2 ^ 29) :
  GeometryRead.loadGeometry (Geometry.encodeGeometry coords ends Types.LINESTRING)
  = Some (filter GeometryRead.readableLine (RingSpec.rings coords ends)).
Proof.
  destruct coords as [|c coords].
  { rewrite (proj1 (rings_nil ends)). reflexivity. }
  set (cs := c :: coords) in *.
  change (Geometry.encodeGeometry cs ends Types.LINESTRING)
    with (Geometry.encodeLines cs ends).
  rewrite encodeLines_commands by assumption.
  pose proof (pairs_count cs (RingSpec.wf_pairs _ _ Hwf)) as Hpc.
  destruct (rings_small cs ends Hsmall) as [Hrs Hrl]; [lia|].
  unfold GeometryRead.loadGeometry.
  rewrite read_lineCommands; [reflexivity|apply small_origin|assumption|assumption|lia].
Qed.

Lemma encodeLines_round_trip_witness :
  GeometryRead.loadGeometry
    (Geometry.encodeGeometry [0; 0; 4; 4; 9; 9; 1; 2; 3; 4; -5; 6] (Some [2; 3; 6])
       Types.LINESTRING)
  = Some (filter GeometryRead.readableLine
            (RingSpec.rings [0; 0; 4; 4; 9; 9; 1; 2; 3; 4; -5; 6] (Some [2; 3; 6]))).
Proof.
  apply (encodeLines_round_trip [0; 0; 4; 4; 9; 9; 1; 2; 3; 4; -5; 6] (Some [2; 3; 6])).
  - constructor.
    + repeat (apply Forall_cons; [unfold RingSpec.int32; lia|]). apply Forall_nil.
    + reflexivity.
    + cbn. lia.
    + cbn. lia.
  - repeat constructor; cbn; lia.
  - cbn. lia.
Defined.

(** X14. A reader gets the polygon rings back: for well-formed
    coordinates with values in [-2^29, 2^29), the commands that
    [encodeGeometry] emits for a polygon feature are read as the rings of
    the feature that have 3 effective vertices or more, in order, each one
    as its effective vertices followed by its first vertex again (the
    effect of ClosePath); rings with fewer effective vertices are left
    out. *)
Theorem encodePolygons_round_trip (coords : list Z) (ends : option (list Z))
    (Hwf : RingSpec.wf coords ends)
    (Hsmall : Forall GeometryRead.small (RingSpec.pairs coords))
    (Hcount : Z.of_nat (List.length coords) < 2 ^ 29) :
  GeometryRead.loadGeometry (Geometry.encodeGeometry coords ends Types.POLYGON)
  = Some (map GeometryRead.closedRing
            (filter GeometryRead.readableRing (RingSpec.rings coords ends))).
Proof.
  destruct coords as [|c coords].
  { rewrite (proj2 (rings_nil ends)). reflexivity. }
  set (cs := c :: coords) in *.
  change (Geometry.encodeGeometry cs ends Types.POLYGON)
    with (Geometry.encodePolygons cs ends).
  rewrite encodePolygons_rings by assumption.
  pose proof (pairs_count cs (RingSpec.wf_pairs _ _ Hwf)) as Hpc.
  destruct (rings_small cs ends Hsmall) as [Hrs Hrl]; [lia|].
  unfold GeometryRead.loadGeometry.
  rewrite read_polygonCommands; [reflexivity|apply small_origin|assumption|assumption|lia].
Qed.

Lemma encodePolygons_round_trip_witness :
  GeometryRead.loadGeometry
    (Geometry.encodeGeometry [0; 0; 10; 0; 10; 10; 0; 0; 2; 2; 2; 4; 4; 4; 7; 7; 8; 8]
       (Some [4; 7; 9]) Types.POLYGON)
  = Some (map GeometryRead.closedRing
            (filter GeometryRead.readableRing
               (RingSpec.rings [0; 0; 10; 0; 10; 10; 0; 0; 2; 2; 2; 4; 4; 4; 7; 7; 8; 8]
                  (Some [4; 7; 9])))).
Proof.
  apply (encodePolygons_round_trip
           [0; 0; 10; 0; 10; 10; 0; 0; 2; 2; 2; 4; 4; 4; 7; 7; 8; 8] (Some [4; 7; 9])).
  - constructor.
    + repeat (apply Forall_cons; [unfold RingSpec.int32; lia|]). apply Forall_nil.
    + reflexivity.
    + cbn. lia.
    + cbn. lia.
  - repeat constructor; cbn; lia.
  - cbn. lia.
Defined.

(** ** What [correctWinding] does to the rings (geometry/transform) *)

Section RingsAfterWinding.
Import RingSpec WindingSpec.

Lemma slice_whole (pts : list point) (n : Z) :
  n = Z.of_nat (List.length pts) -> slice pts (0, n) = pts.
Proof.
  intros ->. unfold slice. cbn [fst snd]. rewrite Z.sub_0_r, Nat2Z.id.
  cbn [Z.to_nat skipn]. apply firstn_all.
Qed.

Lemma endsOf_lengths (rs : list (list point)) :
  forall (rs' : list (list point)) (from : Z),
    map (@List.length point) rs' = map (@List.length point) rs ->
    endsOf from rs' = endsOf from rs.
Proof.
  induction rs as [|r rs IH]; intros [|r' rs'] from H; try discriminate; [reflexivity|].
  cbn [map] in H. injection H as Hr Hrs.
  cbn [endsOf]. rewrite Hr, (IH rs' _ Hrs). reflexivity.
Qed.

Lemma lengths_orientFrom (ext : list Z) (rs : list (list point)) :
  forall i, map (@List.length point) (orientFrom ext i rs) = map (@List.length point) rs.
Proof.
  induction rs as [|r rs IH]; intros i; [reflexivity|].
  cbn [orientFrom map]. rewrite length_orient, IH. reflexivity.
Qed.

Lemma length_concat_lengths (rs : list (list point)) :
  forall rs' : list (list point),
    map (@List.length point) rs' = map (@List.length point) rs ->
    List.length (List.concat rs') = List.length (List.concat rs).
Proof.
  induction rs as [|r rs IH]; intros [|r' rs'] H; try discriminate; [reflexivity|].
  cbn [map] in H. injection H as Hr Hrs.
  cbn [List.concat]. rewrite !length_app, Hr, (IH rs' Hrs). reflexivity.
Qed.

(** The rings of a well-formed array, and the rings of any array of the
    same ring lengths laid out under the same ends. *)
Lemma rings_layout (coords : list Z) (ends : option (list Z)) :
  wf coords ends ->
  List.concat (rings coords ends) = pairs coords
  /\ forall rs' : list (list point),
       map (@List.length point) rs' = map (@List.length point) (rings coords ends) ->
       rings (flat (List.concat rs')) ends = rs'.
Proof.
  intros [Hint Hpairs Hsize Hends].
  set (pts := pairs coords) in *.
  assert (Hsingle :
    forall ends' : option (list Z),
      (forall cs, bounds cs ends' = [(0, Z.of_nat (List.length (pairs cs)))]) ->
      List.concat (rings coords ends') = pts
      /\ forall rs' : list (list point),
           map (@List.length point) rs' = map (@List.length point) (rings coords ends') ->
           rings (flat (List.concat rs')) ends' = rs').
  { intros ends' Hb. unfold rings. rewrite Hb. fold pts. cbn [map List.concat].
    rewrite slice_whole by reflexivity. split; [apply app_nil_r|].
    intros [|r' [|r'' rs']] H; try discriminate.
    rewrite Hb. cbn [map List.concat]. rewrite app_nil_r, pairs_flat.
    rewrite slice_whole by reflexivity. reflexivity. }
  destruct ends as [[|e1 [|e2 ends]]|].
  - apply Hsingle. reflexivity.
  - cbn in Hends. destruct Hends as [He1 Htot].
    unfold rings. cbn [bounds boundsFrom map List.concat]. fold pts.
    rewrite slice_whole by exact Htot. split; [apply app_nil_r|].
    intros [|r' [|r'' rs']] H; try discriminate.
    cbn [map] in H. injection H as Hr.
    cbn [map List.concat]. rewrite app_nil_r, pairs_flat.
    rewrite slice_whole by lia. reflexivity.
  - set (es := e1 :: e2 :: ends) in *.
    destruct (split_by_ends es 0 pts Hends) as (rs & Hcat & Hes).
    assert (Hrings : rings coords (Some es) = rs).
    { unfold rings. fold pts.
      change (bounds coords (Some es)) with (boundsFrom 0 es). rewrite <- Hes.
      pose proof (slices_of_rings [] rs []) as Hsl.
      cbn [List.length app] in Hsl. change (Z.of_nat 0) with 0 in Hsl.
      rewrite app_nil_r, Hcat in Hsl. exact Hsl. }
    rewrite Hrings. split; [exact Hcat|].
    intros rs' Hlen. unfold rings. rewrite pairs_flat.
    change (bounds (flat (List.concat rs')) (Some es)) with (boundsFrom 0 es).
    rewrite <- Hes, <- (endsOf_lengths rs rs' 0 Hlen).
    pose proof (slices_of_rings [] rs' []) as Hsl.
    cbn [List.length app] in Hsl. change (Z.of_nat 0) with 0 in Hsl.
    rewrite app_nil_r in Hsl. exact Hsl.
  - apply Hsingle. reflexivity.
Qed.

(** [correctWinding] on a polygon lays out the oriented rings. *)
Lemma correctWinding_flat (coords : list Z) (ends : option (list Z))
    (geomType : Types.GeomType) (parts : option (list Z)) :
  Transform.isPolygonal geomType = true ->
  wf coords ends -> parts_wf ends parts ->
  Transform.correctWinding coords ends geomType parts
  = flat (List.concat (orientFrom (exteriorSet parts) 0 (rings coords ends))).
Proof.
  intros Hpoly Hwf Hparts.
  pose proof Hwf as [Hint Hpairs Hsize Hends].
  set (pts := pairs coords) in *.
  assert (Hp32 : Forall pint32 pts) by (apply pint32_pairs; rewrite Hpairs; exact Hint).
  assert (Hlen : Z.of_nat (List.length coords) = 2 * Z.of_nat (List.length pts))
    by (rewrite <- Hpairs at 1; apply length_flat).
  unfold Transform.correctWinding. rewrite Hpoly. cbn [negb].
  assert (Hsingle :
    rings coords ends = [pts] -> parts = None ->
    Transform.ensureWinding coords 0 (Z.of_nat (List.length coords)) true
    = flat (List.concat (orientFrom (exteriorSet parts) 0 (rings coords ends)))).
  { intros Hr ->. rewrite Hr. cbn [exteriorSet orientFrom existsb Z.eqb orb List.concat].
    rewrite app_nil_r.
    assert (Hc : coords = flat ([] ++ pts ++ [])).
    { rewrite app_nil_r. symmetry. exact Hpairs. }
    rewrite Hlen. rewrite Hc at 1.
    rewrite (ensureWinding_ring [] pts [] 0 (2 * Z.of_nat (List.length pts)) true);
      try assumption; try reflexivity; try lia.
    cbn [app]. rewrite app_nil_r. reflexivity. }
  assert (Hwhole : forall n, n = Z.of_nat (List.length pts) ->
                             map (slice pts) [(0, n)] = [pts]).
  { intros n Hn. cbn [map]. rewrite slice_whole by exact Hn. reflexivity. }
  destruct ends as [[|e1 [|e2 ends]]|].
  - apply Hsingle; [apply Hwhole; reflexivity|].
    destruct parts; [destruct Hparts|reflexivity].
  - apply Hsingle; [|destruct parts; [destruct Hparts|reflexivity]].
    cbn in Hends. destruct Hends as [_ Htot]. apply Hwhole. exact Htot.
  - set (es := e1 :: e2 :: ends) in *.
    destruct (rings_layout coords (Some es) Hwf) as [Hcat _].
    destruct (split_by_ends es 0 pts Hends) as (rs & Hcat' & Hes).
    assert (Hrings : rings coords (Some es) = rs).
    { unfold rings. fold pts.
      change (bounds coords (Some es)) with (boundsFrom 0 es). rewrite <- Hes.
      pose proof (slices_of_rings [] rs []) as Hsl.
      cbn [List.length app] in Hsl. change (Z.of_nat 0) with 0 in Hsl.
      rewrite app_nil_r, Hcat' in Hsl. exact Hsl. }
    rewrite Hrings.
    assert (Hc : coords = flat (List.concat rs)).
    { rewrite Hcat'. symmetry. exact Hpairs. }
    pose proof (correctWinding_loop_rings (exteriorSet parts) [] rs [] 0) as Hloop.
    cbn [List.length app] in Hloop. change (Z.of_nat 0) with 0 in Hloop.
    change (2 * 0) with 0 in Hloop. rewrite !app_nil_r in Hloop.
    rewrite Hes, <- Hc in Hloop.
    apply Hloop.
    + apply Forall_concat. rewrite Hcat'. exact Hp32.
    + rewrite Hcat'. lia.
  - apply Hsingle; [apply Hwhole; reflexivity|].
    destruct parts; [destruct Hparts|reflexivity].
Qed.

Lemma orientFrom_kept (ext : list Z) (rs : list (list point)) :
  forall i, Forall2 keptOrReversed rs (orientFrom ext i rs).
Proof.
  induction rs as [|r rs IH]; intros i; cbn [orientFrom]; constructor; [|apply IH].
  unfold keptOrReversed, orient. destruct (negb _); [right|left]; reflexivity.
Qed.

Lemma Forall2_kept_refl (rs : list (list point)) : Forall2 keptOrReversed rs rs.
Proof. induction rs; constructor; [left; reflexivity|assumption]. Qed.

Lemma orient_again (cw : bool) (r : list point) :
  shoelace r <> 0 -> orient cw (orient cw r) = orient cw r.
Proof.
  intros Hnz. unfold orient at 2.
  destruct (negb (Bool.eqb (shoelace r >? 0) cw)) eqn:E; unfold orient.
  - rewrite shoelace_rev.
    destruct (Z.gtb_spec (shoelace r) 0), (Z.gtb_spec (- shoelace r) 0), cw;
      cbn [Bool.eqb negb] in *; try discriminate; try reflexivity; lia.
  - rewrite E. reflexivity.
Qed.

Lemma orientFrom_again (ext : list Z) (rs : list (list point)) :
  forall i,
    Forall (fun r => shoelace r <> 0) rs ->
    orientFrom ext i (orientFrom ext i rs) = orientFrom ext i rs.
Proof.
  induction rs as [|r rs IH]; intros i H; [reflexivity|].
  cbn [orientFrom]. rewrite orient_again by exact (Forall_inv H).
  rewrite IH by exact (Forall_inv_tail H). reflexivity.
Qed.

Lemma int32_flat (pts : list point) : Forall pint32 pts -> Forall int32 (flat pts).
Proof.
  induction pts as [|[x y] pts IH]; intros H; [constructor|].
  pose proof (Forall_inv H) as [Hx Hy]. cbn [fst snd] in Hx, Hy.
  cbn [flat]. constructor; [exact Hx|]. constructor; [exact Hy|].
  apply IH. exact (Forall_inv_tail H).
Qed.

Lemma orientFrom_pint32 (ext : list Z) (rs : list (list point)) :
  forall i, Forall (Forall pint32) rs -> Forall (Forall pint32) (orientFrom ext i rs).
Proof.
  induction rs as [|r rs IH]; intros i H; cbn [orientFrom]; constructor.
  - apply orient_pint32. exact (Forall_inv H).
  - apply IH. exact (Forall_inv_tail H).
Qed.

(** The array after [correctWinding] is well-formed for the same ends. *)
Lemma correctWinding_wf (coords : list Z) (ends : option (list Z)) (ext : list Z) :
  wf coords ends ->
  wf (flat (List.concat (orientFrom ext 0 (rings coords ends)))) ends.
Proof.
  intros Hwf. pose proof Hwf as [Hint Hpairs Hsize Hends].
  destruct (rings_layout coords ends Hwf) as [Hcat _].
  pose proof (length_concat_lengths (rings coords ends) _
                (lengths_orientFrom ext (rings coords ends) 0)) as Hlen.
  rewrite Hcat in Hlen.
  assert (Hcount : Z.of_nat (List.length coords)
                   = 2 * Z.of_nat (List.length (pairs coords)))
    by (rewrite <- Hpairs at 1; apply length_flat).
  constructor.
  - apply int32_flat, Forall_concat, orientFrom_pint32.
    apply Forall_concat. rewrite Hcat. apply pint32_pairs. rewrite Hpairs. exact Hint.
  - rewrite pairs_flat. reflexivity.
  - rewrite length_flat, Hlen. lia.
  - rewrite pairs_flat, Hlen. exact Hends.
Qed.

End RingsAfterWinding.

(** X15. [correctWinding] only turns rings around: for well-formed
    coordinates (any geometry type), the array keeps its length and every
    ring of the array after the call is the ring at the same place before
    the call, either as it was or with its vertices in reverse order; no
    vertex is changed, dropped or moved to another ring. *)
Theorem correctWinding_keeps_rings (coords : list Z) (ends : option (list Z))
    (geomType : Types.GeomType) (parts : option (list Z))
    (Hwf : RingSpec.wf coords ends) (Hparts : RingSpec.parts_wf ends parts) :
  List.length (Transform.correctWinding coords ends geomType parts) = List.length coords
  /\ Forall2 WindingSpec.keptOrReversed
       (RingSpec.rings coords ends)
       (RingSpec.rings (Transform.correctWinding coords ends geomType parts) ends).
Proof.
  destruct (Transform.isPolygonal geomType) eqn:Hpoly.
  - rewrite (correctWinding_flat coords ends geomType parts Hpoly Hwf Hparts).
    destruct (rings_layout coords ends Hwf) as [Hcat Hlay].
    pose proof (lengths_orientFrom (WindingSpec.exteriorSet parts)
                  (RingSpec.rings coords ends) 0) as Hlen.
    split.
    + apply Nat2Z.inj. rewrite length_flat.
      rewrite (length_concat_lengths _ _ Hlen), Hcat.
      rewrite <- (RingSpec.wf_pairs _ _ Hwf) at 2. rewrite length_flat. reflexivity.
    + rewrite (Hlay _ Hlen). apply orientFrom_kept.
  - unfold Transform.correctWinding. rewrite Hpoly. cbn [negb].
    split; [reflexivity|apply Forall2_kept_refl].
Qed.

Lemma correctWinding_keeps_rings_witness :
  List.length
    (Transform.correctWinding [0; 0; 0; 100; 100; 100; 100; 0; 5; 5; 5; 6; 6; 6]
       (Some [4; 7]) Types.Polygon None)
  = List.length [0; 0; 0; 100; 100; 100; 100; 0; 5; 5; 5; 6; 6; 6]
  /\ Forall2 WindingSpec.keptOrReversed
       (RingSpec.rings [0; 0; 0; 100; 100; 100; 100; 0; 5; 5; 5; 6; 6; 6] (Some [4; 7]))
       (RingSpec.rings
          (Transform.correctWinding [0; 0; 0; 100; 100; 100; 100; 0; 5; 5; 5; 6; 6; 6]
             (Some [4; 7]) Types.Polygon None) (Some [4; 7])).
Proof.
  apply (correctWinding_keeps_rings [0; 0; 0; 100; 100; 100; 100; 0; 5; 5; 5; 6; 6; 6]
           (Some [4; 7]) Types.Polygon None).
  - constructor.
    + repeat (apply Forall_cons; [unfold RingSpec.int32; lia|]). apply Forall_nil.
    + reflexivity.
    + cbn. lia.
    + cbn. lia.
  - exact I.
Defined.



(** ** The connector calls of one source (pipeline) *)

Section ConnectorCalls.
Import Pipeline IoSpec.

Lemma bounded_more {A : Type} (P : call -> Prop) (m : io A) :
  forall reads ranges reads' ranges' : nat,
    (reads <= reads')%nat -> (ranges <= ranges')%nat ->
    bounded reads ranges P m -> bounded reads' ranges' P m.
Proof.
  induction m as [a|e| |path offset length k IH|path rs k IH];
    intros reads ranges reads' ranges' Hr Hq H; cbn [bounded] in *; try exact I.
  - destruct H as [HP H]. split; [exact HP|].
    destruct reads as [|reads]; [contradiction|].
    destruct reads' as [|reads']; [lia|].
    intros bytes. apply (IH bytes reads ranges); [lia|lia|apply H].
  - destruct H as [HP H]. split; [exact HP|].
    destruct ranges as [|ranges]; [contradiction|].
    destruct ranges' as [|ranges']; [lia|].
    intros chunks. apply (IH chunks reads ranges); [lia|lia|apply H].
Qed.

Lemma bounded_bind {A B : Type} (P : call -> Prop) (m : io A) (f : A -> io B) :
  forall reads ranges reads' ranges' : nat,
    bounded reads ranges P m ->
    (forall a, bounded reads' ranges' P (f a)) ->
    bounded (reads + reads') (ranges + ranges') P (iobind m f).
Proof.
  induction m as [a|e| |path offset length k IH|path rs k IH];
    intros reads ranges reads' ranges' H Hf; cbn [bounded iobind] in *; try exact I.
  - apply (bounded_more P (f a) reads' ranges'); [lia|lia|apply Hf].
  - destruct H as [HP H]. split; [exact HP|].
    destruct reads as [|reads]; [contradiction|].
    cbn [Nat.add]. intros bytes. apply IH; [apply H|exact Hf].
  - destruct H as [HP H]. split; [exact HP|].
    destruct ranges as [|ranges]; [contradiction|].
    cbn [Nat.add]. intros chunks. apply IH; [apply H|exact Hf].
Qed.

Lemma bounded_lift {A : Type} (P : call -> Prop) (r : result A) :
  bounded 0 0 P (lift r).
Proof. destruct r; exact I. Qed.

Lemma bounded_run {A : Type} (P : call -> Prop) (connector : Connector) (m : io A) :
  forall reads ranges : nat,
    bounded reads ranges P m ->
    (List.length (filter isRead (snd (run connector m))) <= reads)%nat
    /\ (List.length (filter isReadRanges (snd (run connector m))) <= ranges)%nat
    /\ Forall P (snd (run connector m)).
Proof.
  induction m as [a|e| |path offset length k IH|path rs k IH];
    intros reads ranges H; cbn [bounded run] in *;
    try (cbn; repeat split; try lia; constructor).
  - destruct H as [HP H]. destruct reads as [|reads]; [contradiction|].
    destruct (read connector path offset length) as [bytes|e|].
    + specialize (IH bytes reads ranges (H bytes)).
      destruct (run connector (k bytes)) as [r calls]. cbn [snd] in *.
      cbn [filter isRead isReadRanges negb List.length].
      destruct IH as (H1 & H2 & H3). repeat split; [lia|exact H2|constructor; assumption].
    + cbn. repeat split; try lia. constructor; [exact HP|constructor].
    + cbn. repeat split; try lia. constructor; [exact HP|constructor].
  - destruct H as [HP H]. destruct ranges as [|ranges]; [contradiction|].
    destruct (readRanges connector path rs) as [chunks|e|].
    + specialize (IH chunks reads ranges (H chunks)).
      destruct (run connector (k chunks)) as [r calls]. cbn [snd] in *.
      cbn [filter isRead isReadRanges negb List.length].
      destruct IH as (H1 & H2 & H3). repeat split; [exact H1|lia|constructor; assumption].
    + cbn. repeat split; try lia. constructor; [exact HP|constructor].
    + cbn. repeat split; try lia. constructor; [exact HP|constructor].
Qed.

Section Source.

Variable parseHeader : Buf.view -> result Types.FgbHeader.
Variable projectToMercator : list float -> list float.
Variable clipGeometry : Types.RawFeature -> Types.BBox -> Layer.clipOutcome.
Variable encodeFeature : Types.RawFeature -> Z -> Z -> Z -> Z -> float -> option (list Z).
Variable buildTags :
  Types.PropertyMap -> list string * list Layer.MvtValue
  -> list Z * (list string * list Layer.MvtValue).

Lemma readHeader_bounded (path : string) :
  bounded 3 0 (onPath path) (readHeader parseHeader path).
Proof.
  unfold readHeader.
  apply (bounded_bind _ _ _ 1 0 2 0); [cbn; auto|]. intros initialBytes.
  apply (bounded_bind _ _ _ 0 0 2 0); [apply bounded_lift|]. intros hdrSize.
  apply (bounded_bind _ _ _ 1 0 1 0).
  { destruct (hdrSize <=? Buf.byteLength initialBytes); cbn; auto. }
  intros headerBytes.
  apply (bounded_bind _ _ _ 0 0 1 0); [apply bounded_lift|]. intros header.
  apply (bounded_bind _ _ _ 1 0 0 0).
  { destruct (Types.indexSize header >? 0); cbn; auto. }
  intros indexBytes. exact I.
Qed.

Lemma processSource_bounded (fuel : nat) (source : Source) (z x y : Z)
    (wgs84BBox clipBounds : Types.BBox) (tileOpts : TileOptions)
    (cache : option FgbCache) :
  bounded (match cache with Some _ => 0 | None => 3 end) 1 (onPath (src_path source))
    (processSource parseHeader projectToMercator clipGeometry encodeFeature buildTags
       fuel source z x y wgs84BBox clipBounds tileOpts cache).
Proof.
  unfold processSource.
  destruct ((z <? minZoom tileOpts) || (z >? maxZoom tileOpts)); [exact I|].
  replace (match cache with Some _ => 0 | None => 3 end)%nat
    with (match cache with Some _ => 0 | None => 3 end + 0)%nat by lia.
  apply (bounded_bind _ _ _ _ 0 0 1).
  { destruct cache; [exact I|apply readHeader_bounded]. }
  intros [header indexBytes].
  destruct ((Types.indexNodeSize header =? 0) || (Types.featuresCount header =? 0));
    [exact I|].
  apply (bounded_bind _ _ _ 0 0 0 1); [apply bounded_lift|]. intros ranges.
  destruct ranges as [|range ranges]; [exact I|].
  apply (bounded_bind _ _ _ 0 1 0 0).
  { cbn. repeat split; try discriminate; auto. }
  intros featureChunks.
  apply (bounded_bind _ _ _ 0 0 0 0); [apply bounded_lift|]. intros allFeatures.
  destruct allFeatures; exact I.
Qed.

End Source.

End ConnectorCalls.

(** X17. The connector calls of [processSource], whatever the connector
    answers and whether the calls succeed or throw: at most three [read]
    calls (none when a cache of header and index is passed) and at most
    one [readRanges] call, all of them on the path of the source, and
    [readRanges] is never asked for an empty list of ranges. *)
Theorem processSource_connector_calls
    (parseHeader : Buf.view -> result Types.FgbHeader)
    (projectToMercator : list float -> list float)
    (clipGeometry : Types.RawFeature -> Types.BBox -> Layer.clipOutcome)
    (encodeFeature : Types.RawFeature -> Z -> Z -> Z -> Z -> float -> option (list Z))
    (buildTags : Types.PropertyMap -> list string * list Layer.MvtValue
                 -> list Z * (list string * list Layer.MvtValue))
    (fuel : nat) (source : Pipeline.Source) (z x y : Z)
    (wgs84BBox clipBounds : Types.BBox) (tileOpts : Pipeline.TileOptions)
    (cache : option Pipeline.FgbCache) (connector : Pipeline.Connector) :
  let calls :=
    snd (Pipeline.run connector
           (Pipeline.processSource parseHeader projectToMercator clipGeometry
              encodeFeature buildTags fuel source z x y wgs84BBox clipBounds tileOpts
              cache)) in
  (List.length (filter IoSpec.isRead calls)
   <= match cache with Some _ => 0 | None => 3 end)%nat
  /\ (List.length (filter IoSpec.isReadRanges calls) <= 1)%nat
  /\ Forall (IoSpec.onPath (Pipeline.src_path source)) calls.
Proof.
  intros calls. unfold calls.
  apply bounded_run, processSource_bounded.
Qed.

(** ** Reading back a feature message (pbf/encode) *)

Section FeatureRoundTrip.
Import WireSpec.

Lemma length_varint_pos (v : Z) : (1 <= List.length (Wire.varint v))%nat.
Proof.
  unfold Wire.varint. cbn [Wire.encodeVarint]. destruct (v <? 128); cbn [List.length]; lia.
Qed.

Lemma length_varints_ge (values : list Z) :
  (List.length values <= List.length (List.concat (map Wire.varint values)))%nat.
Proof.
  induction values as [|v values IH]; [cbn; lia|].
  cbn [map List.concat List.length]. rewrite length_app.
  pose proof (length_varint_pos v). lia.
Qed.

Lemma packed_field (fieldNum : Z) (v : Z) (values rest : list Z) :
  0 <= fieldNum < 16 ->
  Wire.packed fieldNum (v :: values) ++ rest
  = (Wire.varint (fieldNum * 8 + 2)
     ++ Wire.varint (Z.of_nat (List.length (List.concat (map Wire.varint (v :: values)))))
     ++ List.concat (map Wire.varint (v :: values))) ++ rest.
Proof.
  intros Hf. unfold Wire.packed. rewrite (varint_small (fieldNum * 8 + 2)) by lia.
  reflexivity.
Qed.

Lemma length_packed_le (fieldNum : Z) (values : list Z) :
  Forall Wire.u32 values ->
  Z.of_nat (List.length values) < 2 ^ 28 ->
  Z.of_nat (List.length (Wire.packed fieldNum values))
  <= 6 + 5 * Z.of_nat (List.length values).
Proof.
  intros Hall Hcount. pose proof (length_varints_le values Hall) as Hle.
  destruct values as [|v values]; [cbn; lia|].
  unfold Wire.packed. cbn [List.length]. rewrite length_app, Nat2Z.inj_succ, Nat2Z.inj_add.
  assert (Hu : Wire.u32 (Z.of_nat (List.length (List.concat (map Wire.varint (v :: values))))))
    by (unfold Wire.u32; lia).
  rewrite (length_varint _ Hu). pose proof (varintSize_range _ Hu).
  change (List.length (v :: values)) with (S (List.length values)) in Hle. lia.
Qed.

(** One packed field of the message is read in one step. *)
Lemma readFields_packed (fieldNum : Z) (values rest : list Z) (acc : featureFields)
    (fuel : nat) :
  fieldNum = 2 \/ fieldNum = 4 ->
  Forall Wire.u32 values ->
  Z.of_nat (List.length values) < 2 ^ 28 ->
  values <> [] ->
  readFields (S fuel) (Wire.packed fieldNum values ++ rest) acc
  = readFields fuel rest
      (if fieldNum =? 2
       then mkFields (read_id acc) values (read_type acc) (read_geometry acc)
       else mkFields (read_id acc) (read_tags acc) (read_type acc) values).
Proof.
  intros Hf Hall Hcount Hne.
  pose proof (length_varints_le values Hall) as Hle.
  destruct values as [|v values]; [congruence|].
  set (vs := v :: values) in *.
  assert (Hfield : lenField (Wire.packed fieldNum vs ++ rest)
                   = Some (fieldNum, List.concat (map Wire.varint vs), rest)).
  { unfold vs in *. rewrite packed_field by lia.
    apply lenField_message; [lia|unfold Wire.u32; lia]. }
  assert (Hcons : exists b bs, Wire.packed fieldNum vs ++ rest = b :: bs).
  { unfold vs, Wire.packed. cbn [app]. eauto. }
  destruct Hcons as (b & bs & Hcons).
  cbn [readFields]. rewrite Hcons. rewrite <- Hcons, Hfield.
  rewrite (decodeVarints_varints vs Hall) by apply length_varints_ge.
  cbn [obind]. destruct Hf as [-> | ->]; reflexivity.
Qed.

(** The type field is read in one step. *)
Lemma readFields_type (t : Z) (rest : list Z) (acc : featureFields) (fuel : nat) :
  0 <= t < 128 ->
  readFields (S fuel) ([24; t] ++ rest) acc
  = readFields fuel rest
      (mkFields (read_id acc) (read_tags acc) t (read_geometry acc)).
Proof.
  intros Ht. cbn [app readFields]. unfold lenField, varintField.
  cbn [Wire.decodeVarint Z.ltb Z.compare Pos.compare Pos.compare_cont obind].
  change (Z.land 24 7 =? 2) with false. change (Z.land 24 7 =? 0) with true.
  cbv iota. destruct (Z.ltb_spec t 128); [|lia]. reflexivity.
Qed.

Lemma readFields_end (fuel : nat) (acc : featureFields) :
  readFields fuel [] acc = Some acc.
Proof. destruct fuel; reflexivity. Qed.

(** The body of a feature message reads back as its fields. *)
Lemma readFields_body (feature : Types.MvtFeature) (fuel : nat) :
  Forall Wire.u32 (Types.mvt_tags feature) ->
  Forall Wire.u32 (Types.mvt_geometry feature) ->
  Z.of_nat (List.length (Types.mvt_tags feature)) < 2 ^ 28 ->
  Z.of_nat (List.length (Types.mvt_geometry feature)) < 2 ^ 28 ->
  (List.length (Wire.featureBody feature) <= fuel)%nat ->
  readFields fuel (Wire.featureBody feature) noFields
  = Some (mkFields None (Types.mvt_tags feature)
            (Types.MvtGeomType_value (Types.mvt_type feature))
            (Types.mvt_geometry feature)).
Proof.
  intros Htags Hgeom Hnt Hng Hfuel.
  pose proof (MvtGeomType_value_small (Types.mvt_type feature)) as Htype.
  unfold Wire.featureBody in *.
  destruct feature as [id type geometry tags]. cbn [Types.mvt_tags Types.mvt_geometry
    Types.mvt_type] in *.
  rewrite !length_app in Hfuel. cbn [List.length] in Hfuel.
  assert (Hlen : forall num v vs, (3 <= List.length (Wire.packed num (v :: vs)))%nat).
  { intros num v vs. pose proof (length_varints_ge (v :: vs)) as H1.
    pose proof (length_varint_pos
                  (Z.of_nat (List.length (List.concat (map Wire.varint (v :: vs)))))) as H2.
    unfold Wire.packed. change (List.length (v :: vs)) with (S (List.length vs)) in H1.
    cbn [List.length]. rewrite length_app. lia. }
  destruct tags as [|tg tags]; destruct geometry as [|g geometry].
  - change (Wire.packed 2 []) with (@nil Z) in *.
    change (Wire.packed 4 []) with (@nil Z) in *.
    rewrite app_nil_l. cbn [List.length] in Hfuel.
    destruct fuel as [|fuel]; [lia|].
    rewrite (readFields_type _ [] noFields fuel Htype). apply readFields_end.
  - change (Wire.packed 2 []) with (@nil Z) in *. rewrite app_nil_l.
    pose proof (Hlen 4 g geometry).
    destruct fuel as [|[|fuel]]; try lia.
    rewrite (readFields_type _ _ noFields (S fuel) Htype).
    rewrite <- (app_nil_r (Wire.packed 4 (g :: geometry))).
    rewrite readFields_packed; try assumption; try discriminate; [|auto].
    apply readFields_end.
  - change (Wire.packed 4 []) with (@nil Z) in *.
    pose proof (Hlen 2 tg tags).
    destruct fuel as [|[|fuel]]; try lia.
    rewrite readFields_packed; try assumption; try discriminate; [|auto].
    cbn [Z.eqb Pos.eqb].
    rewrite (readFields_type _ [] _ fuel Htype). apply readFields_end.
  - pose proof (Hlen 2 tg tags). pose proof (Hlen 4 g geometry).
    destruct fuel as [|[|[|fuel]]]; try lia.
    rewrite readFields_packed; try assumption; try discriminate; [|auto].
    cbn [Z.eqb Pos.eqb].
    rewrite (readFields_type _ _ _ (S fuel) Htype).
    rewrite <- (app_nil_r (Wire.packed 4 (g :: geometry))).
    rewrite readFields_packed; try assumption; try discriminate; [|auto].
    apply readFields_end.
Qed.

End FeatureRoundTrip.

(** X18. A feature message round-trips: for a feature without id whose
    tags and geometry are fewer than [2^28] values in [0, 2^32),
    [writeFeature] appends one length-delimited field 2 of the layer, whose
    payload a reader takes apart into the tags, the numeric geometry type
    and the geometry commands of the feature, in this order of values, and
    no id. *)
Theorem writeFeature_round_trip (feature : Types.MvtFeature) (w : Pbf.PbfWriter)
    (rest : list Z)
    (Hid : Types.mvt_id feature = None)
    (Htags : Forall Wire.u32 (Types.mvt_tags feature))
    (Hgeom : Forall Wire.u32 (Types.mvt_geometry feature))
    (Hnt : Z.of_nat (List.length (Types.mvt_tags feature)) < 2 ^ 28)
    (Hng : Z.of_nat (List.length (Types.mvt_geometry feature)) < 2 ^ 28) :
  exists bytes body,
    Encode.writeFeature feature w
    = Some (Pbf.mkWriter (Pbf.buf w ++ bytes) (Pbf.lengthStack w))
    /\ WireSpec.lenField (bytes ++ rest) = Some (2, body, rest)
    /\ WireSpec.readFeature body
       = Some (WireSpec.mkFields None (Types.mvt_tags feature)
                 (Types.MvtGeomType_value (Types.mvt_type feature))
                 (Types.mvt_geometry feature)).
Proof.
  assert (Hbody : Wire.u32 (Z.of_nat (List.length (Wire.featureBody feature)))).
  { unfold Wire.u32, Wire.featureBody. rewrite !length_app, !Nat2Z.inj_add.
    pose proof (length_packed_le 2 _ Htags Hnt).
    pose proof (length_packed_le 4 _ Hgeom Hng).
    cbn [List.length]. lia. }
  exists (18 :: Wire.varint (Z.of_nat (List.length (Wire.featureBody feature)))
            ++ Wire.featureBody feature), (Wire.featureBody feature).
  split; [apply writeFeature_body; assumption|].
  split.
  - change (18 :: Wire.varint (Z.of_nat (List.length (Wire.featureBody feature)))
              ++ Wire.featureBody feature)
      with ([18] ++ Wire.varint (Z.of_nat (List.length (Wire.featureBody feature)))
              ++ Wire.featureBody feature).
    rewrite <- (varint_small 18) by lia.
    apply (lenField_message 2); [lia|exact Hbody].
  - unfold WireSpec.readFeature. apply readFields_body; try assumption. lia.
Qed.

Lemma writeFeature_round_trip_witness :
  exists bytes body,
    Encode.writeFeature (Types.mkMvtFeature None Types.POLYGON [9; 0; 0; 18; 20; 0; 0; 20; 15]
                           [0; 0; 1; 300]) Pbf.newWriter
    = Some (Pbf.mkWriter (Pbf.buf Pbf.newWriter ++ bytes) (Pbf.lengthStack Pbf.newWriter))
    /\ WireSpec.lenField (bytes ++ [26; 0]) = Some (2, body, [26; 0])
    /\ WireSpec.readFeature body
       = Some (WireSpec.mkFields None [0; 0; 1; 300] 3 [9; 0; 0; 18; 20; 0; 0; 20; 15]).
Proof.
  apply (writeFeature_round_trip
           (Types.mkMvtFeature None Types.POLYGON [9; 0; 0; 18; 20; 0; 0; 20; 15]
              [0; 0; 1; 300]) Pbf.newWriter [26; 0]).
  - reflexivity.
  - repeat constructor; vm_compute; discriminate.
  - repeat constructor; vm_compute; discriminate.
  - cbn. lia.
  - cbn. lia.
Defined.

(** ** The vertices that [simplify] keeps (geometry/simplify) *)

Section KeptVertices.
Import SimplifySpec.

Lemma getF_middle (pre post : list float) (x : float) (i : Z) :
  i = Z.of_nat (List.length pre) -> Simplify.getF (pre ++ x :: post) i = x.
Proof.
  intros ->. unfold Simplify.getF.
  destruct (Z.ltb_spec (Z.of_nat (List.length pre)) 0); [lia|].
  rewrite Nat2Z.id. apply nth_middle.
Qed.

Lemma nth_middle_other (pre post : list float) (v x d : float) :
  forall j : nat,
    j <> List.length pre -> nth j (pre ++ v :: post) d = nth j (pre ++ x :: post) d.
Proof.
  induction pre as [|a pre IH]; intros [|j] Hj; cbn [app nth List.length] in *;
    try reflexivity; try congruence.
  apply IH. congruence.
Qed.

Lemma getF_setF_other (a : list float) (i j : Z) (v : float) :
  i <> j -> Simplify.getF (Simplify.setF a i v) j = Simplify.getF a j.
Proof.
  intros Hij. unfold Simplify.setF.
  destruct (Z.leb_spec 0 i) as [Hi|Hi]; [|reflexivity].
  destruct (Z.ltb_spec i (Z.of_nat (List.length a))) as [Hlt|Hge]; [|reflexivity].
  cbn [andb]. unfold Simplify.getF. destruct (Z.ltb_spec j 0); [reflexivity|].
  assert (Hsplit : exists x, a = firstn (Z.to_nat i) a ++ x :: skipn (S (Z.to_nat i)) a).
  { destruct (nth_error a (Z.to_nat i)) as [x|] eqn:E.
    - exists x. rewrite <- (firstn_skipn (Z.to_nat i) a) at 1. f_equal.
      clear - E. revert E. generalize (Z.to_nat i). intros n. revert a.
      induction n as [|n IH]; intros [|y a] E; cbn in *; try discriminate.
      + injection E as ->. reflexivity.
      + apply IH. exact E.
    - apply nth_error_None in E. lia. }
  destruct Hsplit as [x Hx]. rewrite Hx at 3. cbn [app].
  apply nth_middle_other. rewrite length_firstn. lia.
Qed.

Lemma getF_setF_same (a : list float) (i : Z) (v : float) :
  0 <= i < Z.of_nat (List.length a) -> Simplify.getF (Simplify.setF a i v) i = v.
Proof.
  intros Hi. unfold Simplify.setF.
  destruct (Z.leb_spec 0 i); [|lia].
  destruct (Z.ltb_spec i (Z.of_nat (List.length a))); [|lia].
  cbn [andb app]. apply getF_middle. rewrite length_firstn. lia.
Qed.

(** [dpMark] writes strictly between [first] and [last] only. *)
Lemma dpMark_outside (xy : list float) (j : Z) (fuel : nat) :
  forall (importance importance' : list float) (first last : Z),
    j <= first \/ last <= j ->
    Simplify.dpMark fuel xy importance first last = Some importance' ->
    Simplify.getF importance' j = Simplify.getF importance j.
Proof.
  induction fuel as [|fuel IH]; intros importance importance' first last Hj H;
    [discriminate|].
  cbn [Simplify.dpMark] in H.
  pose proof (dpMark_scan_index xy
                (Simplify.getF xy (first * 2)) (Simplify.getF xy (first * 2 + 1))
                (Simplify.getF xy (last * 2)) (Simplify.getF xy (last * 2 + 1))
                (Js.sar (first + last) 1) (Z.to_nat (last - (first + 1)))
                (first + 1) 0%float (-1) (last - first)) as Hidx.
  destruct (Simplify.dpMark_scan _ _ _ _ _ _ _ _ _) as [[maxSqDist index] mp].
  destruct (Z.geb_spec index 0) as [Hge|Hlt]; cbn [andb] in H;
    [|injection H as <-; reflexivity].
  destruct (PrimFloat.ltb 0 maxSqDist); [|injection H as <-; reflexivity].
  assert (Hrange : first + 1 <= index < last) by lia.
  assert (Hset : Simplify.getF (Simplify.setF importance index maxSqDist) j
                 = Simplify.getF importance j) by (apply getF_setF_other; lia).
  destruct (Z.gtb_spec (index - first) 1).
  - destruct (Simplify.dpMark fuel xy (Simplify.setF importance index maxSqDist)
                first index) as [imp1|] eqn:E1; [|discriminate].
    cbn [obind] in H.
    pose proof (IH _ _ first index ltac:(lia) E1) as H1.
    destruct (Z.gtb_spec (last - index) 1).
    + rewrite (IH _ _ index last ltac:(lia) H). congruence.
    + injection H as <-. congruence.
  - cbn [obind] in H.
    destruct (Z.gtb_spec (last - index) 1).
    + rewrite (IH _ _ index last ltac:(lia) H). exact Hset.
    + injection H as <-. exact Hset.
Qed.

(** The filter of [simplify] selects the pairs whose importance exceeds the
    tolerance. *)
Lemma filter_loop_select (t : float) (restImp : list float) :
  forall (restXy preXy preImp out : list float) (i : Z),
    i = Z.of_nat (List.length preImp) ->
    List.length preXy = (2 * List.length preImp)%nat ->
    List.length restXy = (2 * List.length restImp)%nat ->
    Simplify.filter_loop (preXy ++ restXy) (preImp ++ restImp) t
      (List.length restImp) i out
    = out ++ select (map (PrimFloat.ltb t) restImp) restXy.
Proof.
  induction restImp as [|v restImp IH]; intros restXy preXy preImp out i Hi Hpre Hrest.
  - cbn. rewrite app_nil_r. reflexivity.
  - destruct restXy as [|x [|y restXy]]; cbn [List.length] in Hrest; try lia.
    cbn [List.length Simplify.filter_loop map select].
    rewrite (getF_middle preImp restImp v i Hi).
    rewrite (getF_middle preXy (y :: restXy) x (i * 2)) by lia.
    assert (Hy : Simplify.getF (preXy ++ x :: y :: restXy) (i * 2 + 1) = y).
    { replace (preXy ++ x :: y :: restXy) with ((preXy ++ [x]) ++ y :: restXy)
        by (rewrite <- app_assoc; reflexivity).
      apply getF_middle. rewrite length_app. cbn [List.length]. lia. }
    rewrite Hy.
    replace (preXy ++ x :: y :: restXy) with ((preXy ++ [x; y]) ++ restXy)
      by (rewrite <- app_assoc; reflexivity).
    replace (preImp ++ v :: restImp) with ((preImp ++ [v]) ++ restImp)
      by (rewrite <- app_assoc; reflexivity).
    rewrite (IH restXy (preXy ++ [x; y]) (preImp ++ [v]) _ (i + 1)).
    + destruct (PrimFloat.ltb t v); [rewrite <- app_assoc|]; reflexivity.
    + rewrite length_app. cbn [List.length]. lia.
    + rewrite !length_app. cbn [List.length]. lia.
    + lia.
Qed.

Lemma select_all (xy : list float) :
  forall n : nat,
    List.length xy = (2 * n)%nat -> select (repeat true n) xy = xy.
Proof.
  induction xy as [xy IH] using (induction_ltof1 _ (@List.length float)).
  intros n Hn. destruct xy as [|x [|y xy]]; cbn [List.length] in Hn.
  - destruct n; [reflexivity|lia].
  - lia.
  - destruct n as [|n]; [lia|]. cbn [repeat select app]. f_equal. f_equal.
    apply IH; [unfold ltof; cbn [List.length]; lia|lia].
Qed.

Lemma hd_getF (f : float -> bool) (a : list float) :
  a <> [] -> hd true (map f a) = f (Simplify.getF a 0).
Proof. destruct a; [congruence|reflexivity]. Qed.

Lemma last_getF (f : float -> bool) (a : list float) :
  a <> [] ->
  last (map f a) true = f (Simplify.getF a (Z.of_nat (List.length a) - 1)).
Proof.
  intros Hne. destruct (exists_last Hne) as (pre & x & ->).
  rewrite map_app. cbn [map]. rewrite last_last, length_app. cbn [List.length].
  rewrite (getF_middle pre [] x); [reflexivity|lia].
Qed.

End KeptVertices.

(** X19. [simplify] keeps a subsequence with both ends: for a coordinate
    array of pairs and a tolerance below infinity, [simplify] returns the
    pairs of [xy] selected by one flag per vertex, in their order, and the
    flags of the first and of the last vertex are set. *)
Theorem simplify_keeps_ends (xy : list float) (sqTolerance : float) (n : nat)
    (Hpairs : List.length xy = (2 * n)%nat)
    (Hfinite : PrimFloat.ltb sqTolerance infinity = true) :
  exists keep,
    Simplify.simplify xy sqTolerance = Some (SimplifySpec.select keep xy)
    /\ List.length keep = n
    /\ hd true keep = true
    /\ last keep true = true.
Proof.
  unfold Simplify.simplify.
  destruct (Z.leb_spec (Z.of_nat (List.length xy)) 4) as [Hshort|Hlong].
  { exists (repeat true n). rewrite select_all by exact Hpairs.
    split; [reflexivity|]. split; [apply repeat_length|].
    destruct n as [|[|[|n]]]; try lia; split; reflexivity. }
  assert (Hhalf : Z.of_nat (List.length xy) / 2 = Z.of_nat n).
  { rewrite Hpairs, Nat2Z.inj_mul, Z.mul_comm. apply Z.div_mul. lia. }
  rewrite Hhalf, Nat2Z.id.
  set (imp0 := Simplify.setF (Simplify.setF (repeat 0%float n) 0 infinity)
                 (Z.of_nat n - 1) infinity).
  assert (Hlen0 : List.length imp0 = n).
  { unfold imp0. rewrite !length_setF. apply repeat_length. }
  destruct (dpMark_total xy (List.length xy) imp0 0 (Z.of_nat n - 1))
    as (imp & Himp & Hlen); [lia|].
  rewrite Himp. cbn [obind]. rewrite Hlen0 in Hlen.
  exists (map (PrimFloat.ltb sqTolerance) imp).
  assert (Hne : imp <> []) by (destruct imp; [cbn in Hlen; lia|discriminate]).
  assert (Hfirst : Simplify.getF imp 0 = infinity).
  { rewrite (dpMark_outside xy 0 _ imp0 imp 0 (Z.of_nat n - 1)
               (or_introl (Z.le_refl 0)) Himp). unfold imp0.
    rewrite getF_setF_other by lia. apply getF_setF_same.
    rewrite repeat_length. lia. }
  assert (Hlast : Simplify.getF imp (Z.of_nat n - 1) = infinity).
  { rewrite (dpMark_outside xy (Z.of_nat n - 1) _ imp0 imp 0 (Z.of_nat n - 1)
               (or_intror (Z.le_refl _)) Himp). unfold imp0.
    apply getF_setF_same. rewrite length_setF, repeat_length. lia. }
  split; [|split; [|split]].
  - pose proof (filter_loop_select sqTolerance imp xy [] [] [] 0 eq_refl eq_refl) as Hsel.
    cbn [app] in Hsel. rewrite Hlen in Hsel. rewrite Hsel by lia. reflexivity.
  - rewrite length_map. exact Hlen.
  - rewrite hd_getF, Hfirst by exact Hne. exact Hfinite.
  - rewrite last_getF, Hlen, Hlast by exact Hne. exact Hfinite.
Qed.

Lemma simplify_keeps_ends_witness :
  exists keep,
    Simplify.simplify [0; 0; 10; -9; 50; 10; 100; 0]%float 110%float
    = Some (SimplifySpec.select keep [0; 0; 10; -9; 50; 10; 100; 0]%float)
    /\ List.length keep = 4%nat
    /\ hd true keep = true
    /\ last keep true = true.
Proof.
  apply (simplify_keeps_ends [0; 0; 10; -9; 50; 10; 100; 0]%float 110%float 4).
  - reflexivity.
  - vm_compute. reflexivity.
Defined.

(** ** The leaves that the traversal reports (fgb/index) *)

Section ReportedLeaves.
Import HitSpec.

Lemma traverse_hits (fuel : nat) (view indexBytes : Buf.view) (nodeSize : Z)
    (bbox : Types.BBox) (levelBounds : list (Z * Z)) :
  forall (stack : list (Z * Z)) (matching leaves : list Z),
    Forall (hits view indexBytes bbox) matching ->
    Index.traverse fuel view indexBytes nodeSize bbox levelBounds stack matching
    = Ok leaves ->
    Forall (hits view indexBytes bbox) leaves.
Proof.
  induction fuel as [|fuel IH]; intros stack matching leaves Hm H;
    destruct stack as [|[nodeIdx level] stack]; cbn [Index.traverse] in H;
    try (injection H as <-; exact Hm); try discriminate H.
  destruct (Z.gtb_spec (nodeIdx * Index.NODE_ITEM_SIZE + Index.NODE_ITEM_SIZE)
              (Buf.byteLength indexBytes)) as [Hout|Hin];
    [injection H as <-; exact Hm|].
  destruct (Buf.getFloat64 view (nodeIdx * Index.NODE_ITEM_SIZE)) as [nodeMinX| |] eqn:E1;
    cbn [bind] in H; try discriminate H.
  destruct (Buf.getFloat64 view (nodeIdx * Index.NODE_ITEM_SIZE + 8))
    as [nodeMinY| |] eqn:E2; cbn [bind] in H; try discriminate H.
  destruct (Buf.getFloat64 view (nodeIdx * Index.NODE_ITEM_SIZE + 16))
    as [nodeMaxX| |] eqn:E3; cbn [bind] in H; try discriminate H.
  destruct (Buf.getFloat64 view (nodeIdx * Index.NODE_ITEM_SIZE + 24))
    as [nodeMaxY| |] eqn:E4; cbn [bind] in H; try discriminate H.
  destruct (Index.disjoint nodeMinX nodeMinY nodeMaxX nodeMaxY bbox) eqn:Hd.
  - exact (IH _ _ _ Hm H).
  - destruct (level =? 0).
    + apply (IH _ _ _) in H; [exact H|].
      apply Forall_app. split; [exact Hm|]. constructor; [|constructor].
      split; [exact Hin|]. exists nodeMinX, nodeMinY, nodeMaxX, nodeMaxY. auto.
    + destruct (Index.readUint64AsNumber view (nodeIdx * Index.NODE_ITEM_SIZE + 32))
        as [firstChild| |]; cbn [bind] in H; try discriminate H.
      destruct (Index.at_ levelBounds (level - 1)) as [[s e]|]; [|discriminate H].
      exact (IH _ _ _ Hm H).
Qed.

End ReportedLeaves.

(** X20. The traversal of the index reports no false leaf: every node
    index that the traversal loop of [queryIndex] returns lies inside the
    index bytes and has a box that is not disjoint from the query box. *)
Theorem traverse_reports_hits (fuel : nat) (view indexBytes : Buf.view) (nodeSize : Z)
    (bbox : Types.BBox) (levelBounds : list (Z * Z)) (stack : list (Z * Z))
    (leaves : list Z)
    (Hleaves : Index.traverse fuel view indexBytes nodeSize bbox levelBounds stack []
               = Ok leaves) :
  Forall (HitSpec.hits view indexBytes bbox) leaves.
Proof.
  exact (traverse_hits fuel view indexBytes nodeSize bbox levelBounds stack [] leaves
           (Forall_nil _) Hleaves).
Qed.

Lemma traverse_reports_hits_witness :
  Forall (HitSpec.hits (Buf.ofBytes Example.indexBytes) (Buf.ofBytes Example.indexBytes)
            Example.origin) [0].
Proof.
  apply (traverse_reports_hits 1 (Buf.ofBytes Example.indexBytes)
           (Buf.ofBytes Example.indexBytes) 16 Example.origin [(0, 1)] [(0, 0)] [0]).
  vm_compute. reflexivity.
Defined.

(** ** Clipping (geometry/clip) *)

Section FloatOrder.

Lemma leb_trans (a b c : float) :
  PrimFloat.leb a b = true -> PrimFloat.leb b c = true -> PrimFloat.leb a c = true.
Proof.
  rewrite !FloatAxioms.leb_spec. unfold SFleb.
  destruct (Prim2SF a) as [sa|sa| |sa ma ea], (Prim2SF b) as [sb|sb| |sb mb eb],
    (Prim2SF c) as [sc|sc| |sc mc ec]; cbn [SFcompare];
    repeat match goal with s : bool |- _ => destruct s end; try congruence;
    try (destruct (Z.compare_spec ea eb); try congruence);
    try (destruct (Z.compare_spec eb ec); try congruence);
    try (destruct (Z.compare_spec ea ec); try congruence); try lia; subst;
    rewrite ?Z.compare_refl;
    try (destruct (Pos.compare_cont Eq ma mb) eqn:E1; cbn [CompOpp]; try congruence);
    try (destruct (Pos.compare_cont Eq mb mc) eqn:E2; cbn [CompOpp]; try congruence);
    try (destruct (Pos.compare_cont Eq ma mc) eqn:E3; cbn [CompOpp]; try congruence).
  all: try (change (Pos.compare_cont Eq ma mb) with (Pos.compare ma mb) in E1).
  all: try (change (Pos.compare_cont Eq mb mc) with (Pos.compare mb mc) in E2).
  all: try (change (Pos.compare_cont Eq ma mc) with (Pos.compare ma mc) in E3).
  all: rewrite ?Pos.compare_lt_iff, ?Pos.compare_gt_iff, ?Pos.compare_eq_iff in *; try lia.
Qed.

(** Both sides of a true comparison are numbers. *)
Lemma leb_numbers (a b : float) :
  PrimFloat.leb a b = true -> ClipSpec.number a /\ ClipSpec.number b.
Proof.
  unfold ClipSpec.number. rewrite !FloatAxioms.leb_spec. unfold SFleb.
  destruct (Prim2SF a) as [sa|sa| |sa ma ea], (Prim2SF b) as [sb|sb| |sb mb eb];
    cbn [SFcompare]; repeat match goal with s : bool |- _ => destruct s end;
    try congruence; rewrite ?Z.compare_refl; intros _; split; try reflexivity.
  all: try (change (Pos.compare_cont Eq ?m ?m) with (Pos.compare m m)).
  all: rewrite ?Pos.compare_refl; reflexivity.
Qed.

Lemma not_ltb_leb (a b : float) :
  ClipSpec.number a -> ClipSpec.number b ->
  PrimFloat.ltb a b = false -> PrimFloat.leb b a = true.
Proof.
  unfold ClipSpec.number.
  rewrite !FloatAxioms.leb_spec, FloatAxioms.ltb_spec. unfold SFleb, SFltb.
  destruct (Prim2SF a) as [sa|sa| |sa ma ea], (Prim2SF b) as [sb|sb| |sb mb eb];
    cbn [SFcompare]; repeat match goal with s : bool |- _ => destruct s end;
    try congruence; intros _ _.
  all: try (destruct (Z.compare_spec ea eb), (Z.compare_spec eb ea);
            try congruence; try lia; subst).
  all: try (change (Pos.compare_cont Eq ma mb) with (Pos.compare ma mb)).
  all: try (change (Pos.compare_cont Eq mb ma) with (Pos.compare mb ma)).
  all: try rewrite (Pos.compare_antisym ma mb).
  all: try (destruct (Pos.compare ma mb); cbn; congruence).
Qed.

Lemma ltb_leb (a b : float) : PrimFloat.ltb a b = true -> PrimFloat.leb a b = true.
Proof.
  rewrite !FloatAxioms.leb_spec, FloatAxioms.ltb_spec. unfold SFleb, SFltb.
  destruct (SFcompare (Prim2SF a) (Prim2SF b)) as [[| |]|]; congruence.
Qed.

Lemma ltb_not_leb (a b : float) : PrimFloat.ltb a b = true -> PrimFloat.leb b a = false.
Proof.
  intros Hlt. destruct (PrimFloat.leb b a) eqn:Hle; [|reflexivity].
  destruct (leb_numbers _ _ Hle) as [Hb Ha].
  revert Hlt Hle. unfold ClipSpec.number in *. revert Ha Hb.
  rewrite !FloatAxioms.leb_spec, FloatAxioms.ltb_spec. unfold SFleb, SFltb.
  destruct (Prim2SF a) as [sa|sa| |sa ma ea], (Prim2SF b) as [sb|sb| |sb mb eb];
    cbn [SFcompare]; repeat match goal with s : bool |- _ => destruct s end;
    try congruence; intros _ _.
  all: try (destruct (Z.compare_spec ea eb), (Z.compare_spec eb ea);
            try congruence; try lia; subst).
  all: try (change (Pos.compare_cont Eq ma mb) with (Pos.compare ma mb)).
  all: try (change (Pos.compare_cont Eq mb ma) with (Pos.compare mb ma)).
  all: try rewrite (Pos.compare_antisym ma mb).
  all: try (destruct (Pos.compare ma mb); cbn; congruence).
Qed.

End FloatOrder.

Section PairsOfFloats.
Import ClipSpec.

Variable P : float -> float -> Prop.

Lemma allPairs_app (a : list float) :
  forall b, allPairs P a -> allPairs P b -> allPairs P (a ++ b).
Proof.
  induction a as [a IH] using (induction_ltof1 _ (@List.length float)).
  intros b Ha Hb. destruct a as [|x [|y a]]; cbn [allPairs app] in *;
    [exact Hb|contradiction|].
  destruct Ha as [Hxy Ha]. split; [exact Hxy|].
  apply IH; [unfold ltof; cbn [List.length]; lia|exact Ha|exact Hb].
Qed.

Lemma allPairs_pair (x y : float) : P x y -> allPairs P [x; y].
Proof. intros H. cbn. auto. Qed.

Lemma allPairs_snoc (a : list float) (x y : float) :
  allPairs P a -> P x y -> allPairs P (a ++ [x; y]).
Proof. intros Ha Hxy. apply allPairs_app; [exact Ha|apply allPairs_pair; exact Hxy]. Qed.

Lemma allPairs_length (a : list float) :
  allPairs P a -> exists n : nat, List.length a = (2 * n)%nat.
Proof.
  induction a as [a IH] using (induction_ltof1 _ (@List.length float)).
  intros Ha. destruct a as [|x [|y a]]; cbn [allPairs] in Ha;
    [exists 0%nat; reflexivity|contradiction|].
  destruct Ha as [_ Ha].
  destruct (IH a) as [n Hn]; [unfold ltof; cbn [List.length]; lia|exact Ha|].
  exists (S n). cbn [List.length]. lia.
Qed.

Lemma allPairs_weaken (Q : float -> float -> Prop) (a : list float) :
  (forall x y, Q x y -> P x y) -> allPairs Q a -> allPairs P a.
Proof.
  intros HQ. induction a as [a IH] using (induction_ltof1 _ (@List.length float)).
  intros Ha. destruct a as [|x [|y a]]; cbn [allPairs] in *; [exact I|contradiction|].
  destruct Ha as [Hxy Ha]. split; [apply HQ; exact Hxy|].
  apply IH; [unfold ltof; cbn [List.length]; lia|exact Ha].
Qed.

End PairsOfFloats.

Section AxisClipping.
Import ClipSpec.
Local Open Scope float_scope.

Variable P : float -> float -> Prop.
Variables k1 k2 : float.
Variable axis : Z.
Variable isPolygon : bool.

Hypothesis P_inside :
  forall x y : float,
    (k1 <=? (if (axis =? 0)%Z then x else y))
    && ((if (axis =? 0)%Z then x else y) <=? k2) = true ->
    P x y.

Hypothesis P_crossing :
  forall (out : list float) (ax ay bx by_ k : float),
    k = k1 \/ k = k2 ->
    allPairs P out -> allPairs P (Clip.addIntersection out ax ay bx by_ k axis).

Lemma pushSlice_sliced (st : Clip.slices) :
  sliced P st -> sliced P (Clip.pushSlice isPolygon st).
Proof.
  destruct st as [results slice]. intros [Hr Hs]. unfold Clip.pushSlice.
  destruct (negb isPolygon); cbn [andb]; [|split; assumption].
  destruct (Z.leb_spec 4 (Z.of_nat (List.length slice))); [|split; assumption].
  split; cbn [fst snd] in *; [|exact I].
  apply Forall_app. split; [exact Hr|]. constructor; [|constructor].
  split; [exact Hs|lia].
Qed.

Lemma clipAxis_body_sliced (coords : list float) (i : Z) (st : Clip.slices) :
  sliced P st -> sliced P (Clip.clipAxis_body coords k1 k2 axis isPolygon i st).
Proof.
  destruct st as [results slice]. intros [Hr Hs]. cbn [fst snd] in *.
  unfold Clip.clipAxis_body.
  set (ax := Clip.getF coords i). set (ay := Clip.getF coords (i + 1)).
  set (bx := Clip.getF coords (i + 2)). set (by_ := Clip.getF coords (i + 3)).
  destruct ((k1 <=? (if (axis =? 0)%Z then ax else ay))
            && ((if (axis =? 0)%Z then ax else ay) <=? k2)) eqn:Ha.
  - assert (Hpush : allPairs P (slice ++ [ax; ay])).
    { apply allPairs_snoc; [exact Hs|apply P_inside; exact Ha]. }
    destruct (negb _); [|split; assumption].
    apply pushSlice_sliced. split; [exact Hr|]. cbn [snd].
    destruct (_ <? k1); apply P_crossing; auto.
  - destruct ((k1 <=? (if (axis =? 0)%Z then bx else by_))
              && ((if (axis =? 0)%Z then bx else by_) <=? k2)).
    + split; [exact Hr|]. cbn [snd].
      destruct (_ <? k1); apply P_crossing; auto.
    + destruct (_ || _); [|split; assumption].
      apply pushSlice_sliced. split; [exact Hr|]. cbn [snd].
      destruct (_ <? k1); apply P_crossing; auto; apply P_crossing; auto.
Qed.

Lemma clipAxis_loop_sliced (coords : list float) (count : nat) :
  forall (i : Z) (st : Clip.slices),
    sliced P st -> sliced P (Clip.clipAxis_loop coords k1 k2 axis isPolygon count i st).
Proof.
  induction count as [|count IH]; intros i st Hst; [exact Hst|].
  cbn [Clip.clipAxis_loop]. apply IH, clipAxis_body_sliced, Hst.
Qed.

(** Every segment that [clipAxis] returns consists of at least two pairs
    that satisfy [P]. *)
Lemma clipAxis_allPairs (coords : list float) :
  Forall (fun segment => allPairs P segment /\ (4 <= List.length segment)%nat)
    (Clip.clipAxis coords k1 k2 axis isPolygon).
Proof.
  unfold Clip.clipAxis.
  destruct (Z.of_nat (List.length coords) <? 4)%Z; [constructor|].
  pose proof (clipAxis_loop_sliced coords
                (Transform.steps2 0 (Z.of_nat (List.length coords) - 2)) 0 ([], [])
                (conj (Forall_nil _) I)) as Hloop.
  destruct (Clip.clipAxis_loop _ _ _ _ _ _ _ _) as [results slice].
  destruct Hloop as [Hr Hs]. cbn [fst snd] in *.
  set (slice1 := if _ && _ then _ else slice).
  assert (Hs1 : allPairs P slice1).
  { unfold slice1.
    destruct ((k1 <=? _) && (_ <=? k2)) eqn:Hlast; [|exact Hs].
    apply allPairs_snoc; [exact Hs|].
    apply P_inside. destruct (axis =? 0)%Z; exact Hlast. }
  clearbody slice1.
  set (slice2 := if isPolygon && _ then _ else slice1).
  assert (Hs2 : allPairs P slice2).
  { unfold slice2. destruct isPolygon; cbn [andb]; [|exact Hs1].
    destruct (Z.leb_spec 6 (Z.of_nat (List.length slice1))); [|exact Hs1].
    destruct (negb _ || negb _); [|exact Hs1].
    destruct slice1 as [|x [|y rest]]; cbn [List.length] in *; try lia.
    apply allPairs_snoc; [exact Hs1|].
    change (Clip.getF (x :: y :: rest) 0) with x.
    change (Clip.getF (x :: y :: rest) 1) with y.
    exact (proj1 Hs1). }
  clearbody slice2.
  destruct (Z.leb_spec 4 (Z.of_nat (List.length slice2))); [|exact Hr].
  apply Forall_app. split; [exact Hr|]. constructor; [|constructor].
  split; [exact Hs2|lia].
Qed.

End AxisClipping.

Section ClippedRings.
Import ClipSpec.
Local Open Scope float_scope.

Lemma crossing_in_slab (k1 k2 : float) (axis : Z) :
  (k1 <=? k2) = true ->
  forall (out : list float) (ax ay bx by_ k : float),
    k = k1 \/ k = k2 ->
    inSlab k1 k2 axis out ->
    inSlab k1 k2 axis (Clip.addIntersection out ax ay bx by_ k axis).
Proof.
  intros Hk out ax ay bx by_ k Hkk Hout.
  destruct (leb_numbers _ _ Hk) as [H1 H2]. unfold number in H1, H2.
  assert (Hin : (k1 <=? k) = true /\ (k <=? k2) = true)
    by (destruct Hkk as [-> | ->]; split; assumption).
  unfold Clip.addIntersection, inSlab in *.
  destruct (Z.eqb_spec axis 0) as [-> | Hne].
  - apply allPairs_snoc; [exact Hout|exact Hin].
  - apply allPairs_snoc; [exact Hout|].
    cbv beta zeta. destruct (Z.eqb_spec axis 0); [contradiction|exact Hin].
Qed.

Lemma clipAxis_slab (coords : list float) (k1 k2 : float) (axis : Z) (isPolygon : bool) :
  (k1 <=? k2) = true ->
  Forall (fun segment => inSlab k1 k2 axis segment /\ (4 <= List.length segment)%nat)
    (Clip.clipAxis coords k1 k2 axis isPolygon).
Proof.
  intros Hk. apply clipAxis_allPairs.
  - intros x y H. apply andb_prop in H. exact H.
  - apply crossing_in_slab. exact Hk.
Qed.

Lemma clipAxis_paired (coords : list float) (k1 k2 : float) (axis : Z) (isPolygon : bool) :
  Forall (fun segment => paired segment /\ (4 <= List.length segment)%nat)
    (Clip.clipAxis coords k1 k2 axis isPolygon).
Proof.
  apply clipAxis_allPairs.
  - intros x y _. exact I.
  - intros out ax ay bx by_ k _ Hout. unfold Clip.addIntersection.
    destruct (axis =? 0)%Z; apply allPairs_snoc; auto.
Qed.

Lemma Forall_flat_map {A B : Type} (Q : B -> Prop) (f : A -> list B) (l : list A) :
  (forall a, Forall Q (f a)) -> Forall Q (flat_map f l).
Proof.
  intros H. induction l as [|a l IH]; cbn [flat_map]; [constructor|].
  apply Forall_app. split; [apply H|exact IH].
Qed.

Lemma clipRing_paired (ring : list float) (minX minY maxX maxY : float) (isPolygon : bool) :
  Forall (fun segment => paired segment /\ (4 <= List.length segment)%nat)
    (Clip.clipRing ring minX minY maxX maxY isPolygon).
Proof.
  unfold Clip.clipRing. destruct (Clip.clipAxis ring minX maxX 0 isPolygon) as [|s l];
    [constructor|].
  apply Forall_flat_map. intros segment. apply clipAxis_paired.
Qed.

Lemma clipRings_paired (rings : list (list float)) (minX minY maxX maxY : float)
    (isPolygon : bool) :
  forall (ringIdx : Z) (clippedRings : list (list float)) (ringOriginMap : list Z),
    Forall (fun segment => paired segment /\ (4 <= List.length segment)%nat) clippedRings ->
    List.length ringOriginMap = List.length clippedRings ->
    let out :=
      Clip.clipRings rings minX minY maxX maxY isPolygon ringIdx clippedRings
        ringOriginMap in
    Forall (fun segment => paired segment /\ (4 <= List.length segment)%nat) (fst out)
    /\ List.length (snd out) = List.length (fst out).
Proof.
  induction rings as [|ring rings IH]; intros ringIdx clippedRings ringOriginMap Hc Hl;
    [split; assumption|].
  cbn [Clip.clipRings]. apply IH.
  - apply Forall_app. split; [exact Hc|].
    pose proof (clipRing_paired ring minX minY maxX maxY isPolygon) as H.
    induction H as [|c l Hc' _ IHl]; cbn [filter]; [constructor|].
    destruct (4 <=? Z.of_nat (List.length c))%Z; [constructor; assumption|assumption].
  - rewrite !length_app, length_map, Hl. reflexivity.
Qed.

Lemma reassembleEnds_ringEnds (rings : list (list float)) :
  forall from : Z,
    (0 <= from)%Z ->
    Forall (fun segment => paired segment /\ (4 <= List.length segment)%nat) rings ->
    (2 * from + Z.of_nat (List.length (List.concat rings)) < 2 ^ 33)%Z ->
    ringEnds from ((2 * from + Z.of_nat (List.length (List.concat rings))) / 2)
      (Clip.reassembleEnds rings (2 * from))
    /\ List.length (Clip.reassembleEnds rings (2 * from)) = List.length rings.
Proof.
  induction rings as [|ring rings IH]; intros from Hfrom Hall Hsize.
  - cbn [List.concat List.length Clip.reassembleEnds ringEnds].
    change (Z.of_nat 0) with 0%Z.
    rewrite Z.add_0_r, Z.mul_comm, Z.div_mul by lia. auto.
  - destruct (Forall_inv Hall) as [Hpaired Hlen].
    destruct (allPairs_length _ _ Hpaired) as [n Hn].
    cbn [List.concat] in *. rewrite length_app, Nat2Z.inj_add in *.
    cbn [Clip.reassembleEnds ringEnds List.length].
    assert (Hoff : (2 * from + Z.of_nat (List.length ring) = 2 * (from + Z.of_nat n))%Z)
      by lia.
    rewrite Hoff.
    assert (Hhalf : (2 * (from + Z.of_nat n) / 2 = from + Z.of_nat n)%Z)
      by (rewrite Z.mul_comm; apply Z.div_mul; lia).
    rewrite Hhalf.
    assert (Hu : Js.ToUint32 (from + Z.of_nat n) = (from + Z.of_nat n)%Z).
    { unfold Js.ToUint32. apply Z.mod_small. lia. }
    rewrite Hu.
    destruct (IH (from + Z.of_nat n)%Z) as [Hends Hcount];
      [lia|exact (Forall_inv_tail Hall)|lia|].
    replace (2 * from + (Z.of_nat (List.length ring)
                         + Z.of_nat (List.length (List.concat rings))))%Z
      with (2 * (from + Z.of_nat n) + Z.of_nat (List.length (List.concat rings)))%Z by lia.
    split; [split; [lia|exact Hends]|]. rewrite Hcount. reflexivity.
Qed.

Lemma newPartStarts_range (parts : list Z) (ringOriginMap : list Z) :
  forall i : Z,
    Forall (fun p => (i <= p < i + Z.of_nat (List.length ringOriginMap))%Z)
      (Clip.newPartStarts parts ringOriginMap i).
Proof.
  induction ringOriginMap as [|origin rest IH]; intros i; cbn [Clip.newPartStarts];
    [constructor|].
  assert (Hrest : Forall (fun p => (i <= p < i + Z.of_nat (List.length (origin :: rest)))%Z)
                    (Clip.newPartStarts parts rest (i + 1))).
  { eapply Forall_impl; [|apply IH]. cbn [List.length]. intros p Hp. cbv beta in *. lia. }
  destruct (existsb _ parts); [constructor; [cbn [List.length]; lia|]|]; exact Hrest.
Qed.

Lemma paired_concat (rings : list (list float)) :
  Forall (fun segment => paired segment /\ (4 <= List.length segment)%nat) rings ->
  paired (List.concat rings).
Proof.
  induction 1 as [|ring rings [Hp _] _ IH]; [exact I|].
  cbn [List.concat]. apply allPairs_app; assumption.
Qed.

End ClippedRings.

(** X21. [clipAxis] stays in the slab: for bounds [k1 <= k2], every
    segment that [clipAxis] returns has at least two pairs, and the
    coordinate on the clipped axis of each of its pairs lies in
    [[k1, k2]]; so every ring that [clipRing] returns has its y
    coordinates in [[minY, maxY]]. *)
Theorem clipAxis_in_slab (coords : list float) (k1 k2 : float) (axis : Z)
    (isPolygon : bool)
    (Hbounds : PrimFloat.leb k1 k2 = true) :
  Forall (fun segment =>
            ClipSpec.inSlab k1 k2 axis segment /\ (4 <= List.length segment)%nat)
    (Clip.clipAxis coords k1 k2 axis isPolygon)
  /\ forall minX maxX : float,
       Forall (fun segment =>
                 ClipSpec.inSlab k1 k2 1 segment /\ (4 <= List.length segment)%nat)
         (Clip.clipRing coords minX k1 maxX k2 isPolygon).
Proof.
  split; [apply clipAxis_slab; exact Hbounds|].
  intros minX maxX. unfold Clip.clipRing.
  destruct (Clip.clipAxis coords minX maxX 0 isPolygon) as [|s l]; [constructor|].
  apply Forall_flat_map. intros segment. apply clipAxis_slab. exact Hbounds.
Qed.

Lemma clipAxis_in_slab_witness :
  Forall (fun segment =>
            ClipSpec.inSlab 0 1 0 segment /\ (4 <= List.length segment)%nat)
    (Clip.clipAxis [0.5; 0.5; 2; 0.5]%float 0 1 0 false)
  /\ forall minX maxX : float,
       Forall (fun segment =>
                 ClipSpec.inSlab 0 1 1 segment /\ (4 <= List.length segment)%nat)
         (Clip.clipRing [0.5; 0.5; 2; 0.5]%float minX 0 maxX 1 false).
Proof.
  apply (clipAxis_in_slab [0.5; 0.5; 2; 0.5]%float 0 1 0 false).
  vm_compute. reflexivity.
Defined.

(** X22. The geometry that [clipFeatures] rebuilds for a clipped line or
    polygon feature is well-formed (fewer than [2^32] pairs): [xy] holds
    at least two pairs; when [ends] is present it has at least two
    entries, each at least 2 above the one before (0 for the first), the
    last one being the number of pairs of [xy]; when [parts] is present,
    [ends] is present too and [parts] has at least two entries, each the
    index of a ring. *)
Theorem clipFeatures_rebuilds_rings (feature : Types.RawFeature) (clipBounds : Types.BBox)
    (xy : list float) (ends parts : option (list Z))
    (Hpoint : Clip.isPointType (Types.raw_type feature) = false)
    (Hclip : Clip.clipGeometry feature clipBounds = Layer.Clipped xy ends parts)
    (Hsize : Z.of_nat (List.length xy) < 2 ^ 33) :
  ClipSpec.paired xy
  /\ (4 <= List.length xy)%nat
  /\ match ends with
     | Some es =>
         (2 <= List.length es)%nat
         /\ ClipSpec.ringEnds 0 (Z.of_nat (List.length xy) / 2) es
     | None => True
     end
  /\ match parts with
     | Some ps =>
         exists es, ends = Some es /\ (2 <= List.length ps)%nat
                    /\ Forall (fun p => 0 <= p < Z.of_nat (List.length es)) ps
     | None => True
     end.
Proof.
  unfold Clip.clipGeometry in Hclip.
  destruct (_ || _ || _ || _); [discriminate Hclip|].
  destruct (_ && _ && _ && _); [discriminate Hclip|].
  rewrite Hpoint in Hclip.
  pose proof (clipRings_paired
                (Clip.extractRings (Types.raw_xy feature) (Types.raw_ends feature))
                (Types.minX clipBounds) (Types.minY clipBounds) (Types.maxX clipBounds)
                (Types.maxY clipBounds) (Clip.isPolygonType (Types.raw_type feature))
                0 [] [] (Forall_nil _) eq_refl) as Hrings.
  cbv zeta in Hrings.
  destruct (Clip.clipRings _ _ _ _ _ _ _ _ _) as [clippedRings ringOriginMap].
  cbn [fst snd] in Hrings. destruct Hrings as [Hall Hmap].
  destruct clippedRings as [|ring0 clippedRings]; [discriminate Hclip|].
  assert (Hne : (4 <= List.length (List.concat (ring0 :: clippedRings)))%nat).
  { cbn [List.concat]. rewrite length_app.
    pose proof (proj2 (Forall_inv Hall)). lia. }
  remember (ring0 :: clippedRings) as rs eqn:Hrs.
  injection Hclip as Hxy Hends Hparts.
  rewrite <- Hxy in Hsize |- *.
  destruct (reassembleEnds_ringEnds rs 0 ltac:(lia) Hall) as [Hre Hcount]; [lia|].
  change (2 * 0) with 0 in Hre, Hcount.
  rewrite Z.add_0_l in Hre.
  assert (Hes : forall es, ends = Some es ->
                  es = Clip.reassembleEnds rs 0 /\ (2 <= List.length rs)%nat).
  { intros es He. rewrite He in Hends.
    destruct (Z.ltb_spec 1 (Z.of_nat (List.length rs))); [|discriminate Hends].
    injection Hends as <-. split; [reflexivity|lia]. }
  split; [apply paired_concat; exact Hall|].
  split; [exact Hne|]. split.
  - destruct ends as [es|]; [|exact I].
    destruct (Hes es eq_refl) as [-> Hlen]. rewrite Hcount. split; assumption.
  - destruct parts as [ps|]; [|exact I].
    destruct (Types.raw_parts feature) as [parts0|]; [|discriminate Hparts].
    destruct (Clip.isPolygonType (Types.raw_type feature)); [|discriminate Hparts].
    pose proof (newPartStarts_range parts0 ringOriginMap 0) as Hrange.
    destruct (Z.ltb_spec 1 (Z.of_nat (List.length
                (Clip.newPartStarts parts0 ringOriginMap 0)))) as [Hmany|];
      [|discriminate Hparts].
    injection Hparts as <-.
    assert (Hpos : (2 <= List.length rs)%nat).
    { assert (Hle : forall l i, (List.length (Clip.newPartStarts parts0 l i)
                                 <= List.length l)%nat).
      { induction l as [|o l IHl]; intros i; cbn [Clip.newPartStarts List.length]; [lia|].
        destruct (existsb _ parts0); cbn [List.length]; specialize (IHl (i + 1)); lia. }
      specialize (Hle ringOriginMap 0). lia. }
    exists (Clip.reassembleEnds rs 0). split.
    + rewrite <- Hends. destruct (Z.ltb_spec 1 (Z.of_nat (List.length rs))); [reflexivity|lia].
    + split; [rewrite length_map; lia|].
      rewrite Hcount, <- Hmap. apply Forall_map.
      eapply Forall_impl; [|exact Hrange]. intros p Hp. cbv beta in *.
      unfold Js.ToUint32. rewrite Z.mod_small; [lia|].
      assert (Z.of_nat (List.length rs) * 4 <= Z.of_nat (List.length (List.concat rs))).
      { clear - Hall. induction Hall as [|r l [_ Hr] _ IH]; [cbn; lia|].
        cbn [List.concat List.length]. rewrite length_app. lia. }
      lia.
Qed.

Lemma clipFeatures_rebuilds_rings_witness :
  ClipSpec.paired [0.5; 0.5; 1; 0.5; 0.25; 0.25; 0.25; 1]%float
  /\ (4 <= List.length [0.5; 0.5; 1; 0.5; 0.25; 0.25; 0.25; 1]%float)%nat
  /\ ((2 <= List.length [2; 4])%nat
      /\ ClipSpec.ringEnds 0
           (Z.of_nat (List.length [0.5; 0.5; 1; 0.5; 0.25; 0.25; 0.25; 1]%float) / 2)
           [2; 4])
  /\ True.
Proof.
  apply (clipFeatures_rebuilds_rings
           (Types.mkRawFeature Types.MultiLineString
              [0.5; 0.5; 2; 0.5; 0.25; 0.25; 0.25; 3]%float (Some [2; 4]) None [] None)
           (Types.mkBBox 0 0 1 1)
           [0.5; 0.5; 1; 0.5; 0.25; 0.25; 0.25; 1]%float (Some [2; 4]) None).
  - reflexivity.
  - vm_compute. reflexivity.
  - cbn. lia.
Defined.

Section ClippedPoints.
Import ClipSpec.
Local Open Scope float_scope.

Lemma leb_nan (a : float) : (a <=? nan) = false.
Proof.
  rewrite FloatAxioms.leb_spec. unfold SFleb.
  change (Prim2SF nan) with S754_nan.
  destruct (Prim2SF a) as [s|s| |s m e]; try destruct s; reflexivity.
Qed.

Lemma inside_nan (minX minY maxX maxY x : float) :
  Clip.inside minX minY maxX maxY x nan = false.
Proof.
  unfold Clip.inside. rewrite leb_nan, andb_false_r. reflexivity.
Qed.

Lemma getF_beyond (a : list float) (i : Z) :
  (Z.of_nat (List.length a) <= i)%Z -> Clip.getF a i = nan.
Proof.
  intros Hi. unfold Clip.getF, Simplify.getF.
  destruct (Z.ltb_spec i 0); [reflexivity|]. apply nth_overflow. lia.
Qed.

(** The loop of [clipPoints] keeps the pairs that are inside. *)
Lemma clipPoints_loop_keep (box : Types.BBox) (rest : list float) :
  forall (pre out : list float) (i : Z),
    i = Z.of_nat (List.length pre) ->
    Clip.clipPoints_loop (pre ++ rest) (Types.minX box) (Types.minY box)
      (Types.maxX box) (Types.maxY box)
      (Z.to_nat ((Z.of_nat (List.length rest) + 1) / 2)) i out
    = out ++ keep box rest.
Proof.
  induction rest as [rest IH] using (induction_ltof1 _ (@List.length float)).
  intros pre out i Hi. destruct rest as [|x [|y rest]].
  - cbn. rewrite app_nil_r. reflexivity.
  - change (Z.to_nat ((Z.of_nat (List.length [x]) + 1) / 2)) with 1%nat.
    cbn [Clip.clipPoints_loop keep].
    rewrite (getF_beyond (pre ++ [x]) (i + 1))
      by (rewrite length_app; cbn [List.length]; lia).
    rewrite inside_nan, app_nil_r. reflexivity.
  - assert (Hcount : Z.to_nat ((Z.of_nat (List.length (x :: y :: rest)) + 1) / 2)
                     = S (Z.to_nat ((Z.of_nat (List.length rest) + 1) / 2))).
    { cbn [List.length].
      replace (Z.of_nat (S (S (List.length rest))) + 1)%Z
        with ((Z.of_nat (List.length rest) + 1) + 1 * 2)%Z by lia.
      rewrite Z.div_add by lia.
      assert (0 <= (Z.of_nat (List.length rest) + 1) / 2)%Z
        by (apply Z.div_pos; lia).
      lia. }
    rewrite Hcount. cbn [Clip.clipPoints_loop keep].
    unfold Clip.getF.
    rewrite (getF_middle pre (y :: rest) x i Hi).
    assert (Hy : Simplify.getF (pre ++ x :: y :: rest) (i + 1) = y).
    { replace (pre ++ x :: y :: rest) with ((pre ++ [x]) ++ y :: rest)
        by (rewrite <- app_assoc; reflexivity).
      apply getF_middle. rewrite length_app. cbn [List.length]. lia. }
    rewrite Hy.
    replace (pre ++ x :: y :: rest) with ((pre ++ [x; y]) ++ rest)
      by (rewrite <- app_assoc; reflexivity).
    rewrite (IH rest); [|unfold ltof; cbn [List.length]; lia
                        |rewrite length_app; cbn [List.length]; lia].
    destruct (Clip.inside _ _ _ _ x y); [rewrite <- app_assoc|]; reflexivity.
Qed.

Lemma clipPoints_keep (box : Types.BBox) (xy : list float) :
  Clip.clipPoints xy (Types.minX box) (Types.minY box) (Types.maxX box) (Types.maxY box)
  = keep box xy.
Proof.
  unfold Clip.clipPoints, Transform.steps2. rewrite Z.sub_0_r.
  apply (clipPoints_loop_keep box xy [] [] 0 eq_refl).
Qed.

Lemma keep_all (box : Types.BBox) (xy : list float) :
  allPairs (fun x y =>
              Clip.inside (Types.minX box) (Types.minY box) (Types.maxX box)
                (Types.maxY box) x y = true) xy ->
  keep box xy = xy.
Proof.
  induction xy as [xy IH] using (induction_ltof1 _ (@List.length float)).
  intros H. destruct xy as [|x [|y xy]]; cbn [allPairs keep] in *;
    [reflexivity|contradiction|].
  destruct H as [-> H]. cbn [app]. f_equal. f_equal.
  apply IH; [unfold ltof; cbn [List.length]; lia|exact H].
Qed.

Lemma keep_none (box : Types.BBox) (xy : list float) :
  allPairs (fun x y =>
              Clip.inside (Types.minX box) (Types.minY box) (Types.maxX box)
                (Types.maxY box) x y = false) xy ->
  keep box xy = [].
Proof.
  induction xy as [xy IH] using (induction_ltof1 _ (@List.length float)).
  intros H. destruct xy as [|x [|y xy]]; cbn [allPairs keep] in *;
    [reflexivity|contradiction|].
  destruct H as [-> H]. cbn [app].
  apply IH; [unfold ltof; cbn [List.length]; lia|exact H].
Qed.

(** One step of [featureBBox]: the box grows to hold the new point. *)
Lemma featureBBox_step (box : Types.BBox) (x y : float) :
  number (Types.minX box) -> number (Types.minY box) ->
  number (Types.maxX box) -> number (Types.maxY box) ->
  number x -> number y ->
  let box' :=
    Types.mkBBox (if x <? Types.minX box then x else Types.minX box)
      (if y <? Types.minY box then y else Types.minY box)
      (if Types.maxX box <? x then x else Types.maxX box)
      (if Types.maxY box <? y then y else Types.maxY box) in
  (number (Types.minX box') /\ number (Types.minY box')
   /\ number (Types.maxX box') /\ number (Types.maxY box'))
  /\ Clip.inside (Types.minX box') (Types.minY box') (Types.maxX box') (Types.maxY box')
       x y = true
  /\ forall u v,
       Clip.inside (Types.minX box) (Types.minY box) (Types.maxX box) (Types.maxY box)
         u v = true ->
       Clip.inside (Types.minX box') (Types.minY box') (Types.maxX box') (Types.maxY box')
         u v = true.
Proof.
  destruct box as [minX minY maxX maxY]. cbn [Types.minX Types.minY Types.maxX Types.maxY].
  intros HminX HminY HmaxX HmaxY Hx Hy. cbv zeta.
  cbn [Types.minX Types.minY Types.maxX Types.maxY]. unfold Clip.inside.
  assert (Hlow : forall m c : float, number m -> number c ->
            number (if c <? m then c else m)
            /\ ((if c <? m then c else m) <=? c) = true
            /\ ((if c <? m then c else m) <=? m) = true).
  { intros m c Hm Hc. destruct (c <? m) eqn:E.
    - split; [exact Hc|]. split; [exact Hc|apply ltb_leb; exact E].
    - split; [exact Hm|]. split; [apply not_ltb_leb; assumption|exact Hm]. }
  assert (Hhigh : forall m c : float, number m -> number c ->
            number (if m <? c then c else m)
            /\ (c <=? (if m <? c then c else m)) = true
            /\ (m <=? (if m <? c then c else m)) = true).
  { intros m c Hm Hc. destruct (m <? c) eqn:E.
    - split; [exact Hc|]. split; [exact Hc|apply ltb_leb; exact E].
    - split; [exact Hm|]. split; [apply not_ltb_leb; assumption|exact Hm]. }
  destruct (Hlow minX x HminX Hx) as (N1 & I1 & M1).
  destruct (Hlow minY y HminY Hy) as (N2 & I2 & M2).
  destruct (Hhigh maxX x HmaxX Hx) as (N3 & I3 & M3).
  destruct (Hhigh maxY y HmaxY Hy) as (N4 & I4 & M4).
  split; [auto|]. split.
  - rewrite I1, I2, I3, I4. reflexivity.
  - intros u v H. rewrite !andb_true_iff in H. destruct H as [[[H1 H2] H3] H4].
    rewrite (leb_trans _ _ _ M1 H1), (leb_trans _ _ _ H2 M3),
      (leb_trans _ _ _ M2 H3), (leb_trans _ _ _ H4 M4). reflexivity.
Qed.

(** The box of [featureBBox] holds every pair of an array of numbers. *)
Lemma featureBBox_loop_encloses (n : nat) :
  forall (rest pre : list float) (box : Types.BBox) (i : Z),
    List.length rest = (2 * n)%nat ->
    i = Z.of_nat (List.length pre) ->
    numbers rest ->
    number (Types.minX box) -> number (Types.minY box) ->
    number (Types.maxX box) -> number (Types.maxY box) ->
    allPairs (fun x y =>
                Clip.inside (Types.minX box) (Types.minY box) (Types.maxX box)
                  (Types.maxY box) x y = true) pre ->
    let box' := Clip.featureBBox_loop (pre ++ rest) n i box in
    allPairs (fun x y =>
                Clip.inside (Types.minX box') (Types.minY box') (Types.maxX box')
                  (Types.maxY box') x y = true) (pre ++ rest).
Proof.
  induction n as [|n IH]; intros rest pre box i Hlen Hi Hnum H1 H2 H3 H4 Hpre.
  - destruct rest; [|discriminate]. cbn [Clip.featureBBox_loop]. cbv zeta.
    rewrite app_nil_r. exact Hpre.
  - destruct rest as [|x [|y rest]]; cbn [List.length] in Hlen; try lia.
    destruct Hnum as [[Hx Hy] Hnum].
    cbn [Clip.featureBBox_loop]. cbv zeta. unfold Clip.getF.
    rewrite (getF_middle pre (y :: rest) x i Hi).
    assert (Hgy : Simplify.getF (pre ++ x :: y :: rest) (i + 1) = y).
    { replace (pre ++ x :: y :: rest) with ((pre ++ [x]) ++ y :: rest)
        by (rewrite <- app_assoc; reflexivity).
      apply getF_middle. rewrite length_app. cbn [List.length]. lia. }
    rewrite Hgy.
    destruct (featureBBox_step box x y H1 H2 H3 H4 Hx Hy) as ((N1 & N2 & N3 & N4) & Hin & Hold).
    cbv zeta in N1, N2, N3, N4, Hin, Hold.
    replace (pre ++ x :: y :: rest) with ((pre ++ [x; y]) ++ rest)
      by (rewrite <- app_assoc; reflexivity).
    apply (IH rest (pre ++ [x; y])); try assumption.
    + lia.
    + rewrite length_app. cbn [List.length]. lia.
    + apply allPairs_snoc; [|exact Hin].
      eapply allPairs_weaken; [|exact Hpre]. exact Hold.
Qed.

Lemma featureBBox_encloses (xy : list float) :
  numbers xy ->
  allPairs (fun x y =>
              Clip.inside (Types.minX (Clip.featureBBox xy)) (Types.minY (Clip.featureBBox xy))
                (Types.maxX (Clip.featureBBox xy)) (Types.maxY (Clip.featureBBox xy))
                x y = true) xy.
Proof.
  intros Hnum. destruct (allPairs_length _ _ Hnum) as [n Hn].
  unfold Clip.featureBBox, Transform.steps2. rewrite Z.sub_0_r.
  assert (Hcount : Z.to_nat ((Z.of_nat (List.length xy) + 1) / 2) = n).
  { rewrite Hn, Nat2Z.inj_mul.
    replace (Z.of_nat 2 * Z.of_nat n + 1)%Z with (1 + Z.of_nat n * 2)%Z by lia.
    rewrite Z.div_add by lia. change (1 / 2)%Z with 0%Z. lia. }
  rewrite Hcount.
  apply (featureBBox_loop_encloses n xy [] _ 0 Hn eq_refl Hnum);
    try (vm_compute; reflexivity); exact I.
Qed.

End ClippedPoints.

(** X23. For a point feature whose coordinates are numbers, the three
    outcomes of the clipping loop agree with the containment test of each
    point ([x >= minX && x <= maxX && y >= minY && y <= maxY]): a feature
    is dropped only when no point passes, it is pushed unchanged only when
    every point passes, and otherwise its [xy] is replaced by the points
    that pass, in their order, with [ends] and [parts] as they were. *)
Theorem clipFeatures_points (feature : Types.RawFeature) (clipBounds : Types.BBox)
    (Hpoint : Clip.isPointType (Types.raw_type feature) = true)
    (Hnumbers : ClipSpec.numbers (Types.raw_xy feature)) :
  match Clip.clipGeometry feature clipBounds with
  | Layer.Rejected => ClipSpec.keep clipBounds (Types.raw_xy feature) = []
  | Layer.Accepted => ClipSpec.keep clipBounds (Types.raw_xy feature) = Types.raw_xy feature
  | Layer.Clipped xy ends parts =>
      xy = ClipSpec.keep clipBounds (Types.raw_xy feature)
      /\ xy <> []
      /\ ends = Types.raw_ends feature
      /\ parts = Types.raw_parts feature
  end.
Proof.
  pose proof (featureBBox_encloses _ Hnumbers) as Henc.
  unfold Clip.clipGeometry.
  set (fbox := Clip.featureBBox (Types.raw_xy feature)) in *.
  destruct (_ || _ || _ || _) eqn:Hreject.
  - apply keep_none. eapply allPairs_weaken; [|exact Henc].
    intros x y Hin. cbv beta in *. unfold Clip.inside in *.
    rewrite !andb_true_iff in Hin. destruct Hin as [[[H1 H2] H3] H4].
    rewrite !orb_true_iff in Hreject.
    destruct Hreject as [[[Hr|Hr]|Hr]|Hr]; apply ltb_not_leb in Hr.
    + destruct (PrimFloat.leb (Types.minX clipBounds) x) eqn:E; [|reflexivity].
      rewrite (leb_trans _ _ _ E H2) in Hr. discriminate Hr.
    + destruct (PrimFloat.leb x (Types.maxX clipBounds)) eqn:E;
        [|rewrite andb_false_r; reflexivity].
      rewrite (leb_trans _ _ _ H1 E) in Hr. discriminate Hr.
    + destruct (PrimFloat.leb (Types.minY clipBounds) y) eqn:E;
        [|rewrite andb_false_r; reflexivity].
      rewrite (leb_trans _ _ _ E H4) in Hr. discriminate Hr.
    + destruct (PrimFloat.leb y (Types.maxY clipBounds)) eqn:E;
        [|rewrite andb_false_r; reflexivity].
      rewrite (leb_trans _ _ _ H3 E) in Hr. discriminate Hr.
  - destruct (_ && _ && _ && _) eqn:Haccept.
    + apply keep_all. eapply allPairs_weaken; [|exact Henc].
      intros x y Hin. cbv beta in *. unfold Clip.inside in *.
      rewrite !andb_true_iff in Hin, Haccept.
      destruct Hin as [[[H1 H2] H3] H4]. destruct Haccept as [[[A1 A2] A3] A4].
      rewrite (leb_trans _ _ _ A1 H1), (leb_trans _ _ _ H2 A2),
        (leb_trans _ _ _ A3 H3), (leb_trans _ _ _ H4 A4). reflexivity.
    + rewrite Hpoint, clipPoints_keep.
      destruct (ClipSpec.keep clipBounds (Types.raw_xy feature)) as [|k ks];
        [reflexivity|].
      repeat split. discriminate.
Qed.

Lemma clipFeatures_points_witness :
  [0.5; 0.5; 0.25; 0.25]%float
  = ClipSpec.keep (Types.mkBBox 0 0 1 1) [0.5; 0.5; 2; 0.5; 0.25; 0.25; 0.25; 3]%float
  /\ [0.5; 0.5; 0.25; 0.25]%float <> []
  /\ @None (list Z) = None
  /\ @None (list Z) = None.
Proof.
  apply (clipFeatures_points
           (Types.mkRawFeature Types.MultiPoint
              [0.5; 0.5; 2; 0.5; 0.25; 0.25; 0.25; 3]%float None None [] None)
           (Types.mkBBox 0 0 1 1)).
  - reflexivity.
  - vm_compute. tauto.
Defined.

(** ** The tags of a feature (mvt/layer) *)

Section TagTables.
Import Tags.

Lemma get_set_same (m : StringMap) (key : string) (v : Z) :
  get (set m key v) key = Some v.
Proof.
  induction m as [|[k w] m IH]; cbn [set get].
  - rewrite String.eqb_refl. reflexivity.
  - destruct (String.eqb_spec k key) as [->|Hne]; cbn [get].
    + rewrite String.eqb_refl. reflexivity.
    + destruct (String.eqb_spec k key); [contradiction|exact IH].
Qed.

Lemma get_set_other (m : StringMap) (key key' : string) (v : Z) :
  key <> key' -> get (set m key v) key' = get m key'.
Proof.
  intros Hne. induction m as [|[k w] m IH]; cbn [set get].
  - destruct (String.eqb_spec key key'); [contradiction|reflexivity].
  - destruct (String.eqb_spec k key) as [->|Hk]; cbn [get].
    + destruct (String.eqb_spec key key'); [contradiction|reflexivity].
    + rewrite IH. reflexivity.
Qed.

(** An item whose identity is not in the index is appended and indexed
    with its position. *)
Lemma indexed_miss {A : Type} (identity : A -> string) (items : list A)
    (index : StringMap) (x : A) :
  indexed identity items index ->
  get index (identity x) = None ->
  indexed identity (items ++ [x]) (set index (identity x) (Z.of_nat (List.length items))).
Proof.
  intros Hidx Hmiss s k.
  destruct (String.eqb_spec (identity x) s) as [<-|Hne].
  - rewrite get_set_same. split.
    + intros H. injection H as <-. split; [lia|]. exists x.
      rewrite Nat2Z.id, nth_error_app2, Nat.sub_diag by lia. auto.
    + intros (Hk & a & Ha & Hid).
      destruct (Z.ltb_spec k (Z.of_nat (List.length items))) as [Hlt|Hge].
      * rewrite nth_error_app1 in Ha by lia.
        assert (Hget : get index (identity x) = Some k)
          by (apply Hidx; split; [exact Hk|exists a; auto]).
        congruence.
      * destruct (Z.eqb_spec k (Z.of_nat (List.length items))) as [->|Hk'];
          [reflexivity|].
        assert (Hnone : nth_error (items ++ [x]) (Z.to_nat k) = None).
        { apply nth_error_None. rewrite length_app. cbn [List.length]. lia. }
        congruence.
  - rewrite get_set_other by exact Hne. rewrite (Hidx s k). split.
    + intros (Hk & a & Ha & Hid). split; [exact Hk|]. exists a.
      split; [|exact Hid]. rewrite nth_error_app1; [exact Ha|].
      apply nth_error_Some. congruence.
    + intros (Hk & a & Ha & Hid). split; [exact Hk|]. exists a. split; [|exact Hid].
      destruct (Z.ltb_spec k (Z.of_nat (List.length items))) as [Hlt|Hge].
      * rewrite nth_error_app1 in Ha by lia. exact Ha.
      * rewrite nth_error_app2 in Ha by lia.
        destruct (Z.to_nat k - List.length items)%nat as [|d] eqn:Hd; cbn in Ha.
        -- injection Ha as <-. contradiction.
        -- destruct d; discriminate Ha.
Qed.

Lemma nth_error_more {A : Type} (items more : list A) (k : nat) (a : A) :
  nth_error items k = Some a -> nth_error (items ++ more) k = Some a.
Proof.
  intros H. rewrite nth_error_app1; [exact H|]. apply nth_error_Some. congruence.
Qed.

Lemma extends_refl (t : tables) : extends t t.
Proof. split; exists []; rewrite app_nil_r; reflexivity. Qed.

Lemma extends_trans (t1 t2 t3 : tables) : extends t1 t2 -> extends t2 t3 -> extends t1 t3.
Proof.
  intros [[k1 Hk1] [v1 Hv1]] [[k2 Hk2] [v2 Hv2]]. split.
  - exists (k1 ++ k2). rewrite Hk2, Hk1, app_assoc. reflexivity.
  - exists (v1 ++ v2). rewrite Hv2, Hv1, app_assoc. reflexivity.
Qed.

Section Build.

Variable numberToString : float -> string.
Variable stringOf : Types.PropertyValue -> string.

Lemma pointsAt_extends (t t' : tables) (p : string * Types.PropertyValue) (tag : Z * Z) :
  extends t t' ->
  pointsAt numberToString stringOf t p tag -> pointsAt numberToString stringOf t' p tag.
Proof.
  intros [[mk Hk] [mv Hv]] [[Hk0 Hkey] [Hv0 (val & Hval & Hid)]].
  split; [split; [exact Hk0|]|split; [exact Hv0|]].
  - rewrite Hk. apply nth_error_more. exact Hkey.
  - exists val. split; [|exact Hid]. rewrite Hv. apply nth_error_more. exact Hval.
Qed.

(** One property that gets a tag. *)
Lemma buildTags_step (t : tables) (key : string) (value : Types.PropertyValue) :
  synced numberToString t ->
  let '(kIdx, keys', keyIndex') :=
    match get (keyIndex t) key with
    | Some kIdx => (kIdx, keys t, keyIndex t)
    | None =>
        (Z.of_nat (List.length (keys t)), keys t ++ [key],
         set (keyIndex t) key (Z.of_nat (List.length (keys t))))
    end in
  let valKey := mvtValueKey numberToString (toMvtValue stringOf value) in
  let '(vIdx, values', valueIndex') :=
    match get (valueIndex t) valKey with
    | Some vIdx => (vIdx, values t, valueIndex t)
    | None =>
        (Z.of_nat (List.length (values t)), values t ++ [toMvtValue stringOf value],
         set (valueIndex t) valKey (Z.of_nat (List.length (values t))))
    end in
  let t' := mkTables keys' keyIndex' values' valueIndex' in
  synced numberToString t' /\ extends t t'
  /\ pointsAt numberToString stringOf t' (key, value) (kIdx, vIdx).
Proof.
  intros [Hkeys Hvalues].
  assert (HK : exists kIdx keys' keyIndex',
             match get (keyIndex t) key with
             | Some kIdx => (kIdx, keys t, keyIndex t)
             | None =>
                 (Z.of_nat (List.length (keys t)), keys t ++ [key],
                  set (keyIndex t) key (Z.of_nat (List.length (keys t))))
             end = (kIdx, keys', keyIndex')
             /\ indexed (fun key => key) keys' keyIndex'
             /\ (exists more, keys' = keys t ++ more)
             /\ 0 <= kIdx /\ nth_error keys' (Z.to_nat kIdx) = Some key).
  { destruct (get (keyIndex t) key) as [kIdx|] eqn:Hget.
    - exists kIdx, (keys t), (keyIndex t). split; [reflexivity|].
      split; [exact Hkeys|]. split; [exists []; rewrite app_nil_r; reflexivity|].
      apply Hkeys in Hget. destruct Hget as (H0 & a & Ha & ->). auto.
    - eexists _, _, _. split; [reflexivity|].
      split; [apply (indexed_miss (fun key => key)); assumption|].
      split; [eauto|]. split; [lia|].
      rewrite Nat2Z.id, nth_error_app2, Nat.sub_diag by lia. reflexivity. }
  destruct HK as (kIdx & keys' & keyIndex' & -> & HK1 & HK2 & HK3 & HK4).
  cbv zeta.
  set (mvtVal := toMvtValue stringOf value).
  assert (HV : exists vIdx values' valueIndex',
             match get (valueIndex t) (mvtValueKey numberToString mvtVal) with
             | Some vIdx => (vIdx, values t, valueIndex t)
             | None =>
                 (Z.of_nat (List.length (values t)), values t ++ [mvtVal],
                  set (valueIndex t) (mvtValueKey numberToString mvtVal)
                    (Z.of_nat (List.length (values t))))
             end = (vIdx, values', valueIndex')
             /\ indexed (mvtValueKey numberToString) values' valueIndex'
             /\ (exists more, values' = values t ++ more)
             /\ 0 <= vIdx
             /\ exists val, nth_error values' (Z.to_nat vIdx) = Some val
                            /\ mvtValueKey numberToString val
                               = mvtValueKey numberToString mvtVal).
  { destruct (get (valueIndex t) (mvtValueKey numberToString mvtVal)) as [vIdx|] eqn:Hget.
    - exists vIdx, (values t), (valueIndex t). split; [reflexivity|].
      split; [exact Hvalues|]. split; [exists []; rewrite app_nil_r; reflexivity|].
      apply Hvalues in Hget. exact Hget.
    - eexists _, _, _. split; [reflexivity|].
      split; [apply (indexed_miss (mvtValueKey numberToString)); assumption|].
      split; [eauto|]. split; [lia|]. exists mvtVal.
      rewrite Nat2Z.id, nth_error_app2, Nat.sub_diag by lia. auto. }
  destruct HV as (vIdx & values' & valueIndex' & -> & HV1 & HV2 & HV3 & HV4).
  split; [split; assumption|]. split; [split; assumption|].
  split; [split; assumption|split; assumption].
Qed.

Lemma buildTags_loop_spec (properties : Types.PropertyMap) :
  forall (t : tables) (tags : list Z),
    synced numberToString t ->
    exists pairs,
      fst (buildTags_loop numberToString stringOf properties t tags)
      = tags ++ RingSpec.flat pairs
      /\ synced numberToString
           (snd (buildTags_loop numberToString stringOf properties t tags))
      /\ extends t (snd (buildTags_loop numberToString stringOf properties t tags))
      /\ Forall2
           (pointsAt numberToString stringOf
              (snd (buildTags_loop numberToString stringOf properties t tags)))
           (tagged properties) pairs.
Proof.
  induction properties as [|[key value] rest IH]; intros t tags Hsync.
  - exists []. cbn. rewrite app_nil_r.
    split; [reflexivity|]. split; [exact Hsync|]. split; [apply extends_refl|constructor].
  - assert (Hskip : tagged ((key, value) :: rest) = tagged rest ->
                    buildTags_loop numberToString stringOf ((key, value) :: rest) t tags
                    = buildTags_loop numberToString stringOf rest t tags ->
                    exists pairs,
                      fst (buildTags_loop numberToString stringOf ((key, value) :: rest) t tags)
                      = tags ++ RingSpec.flat pairs
                      /\ synced numberToString
                           (snd (buildTags_loop numberToString stringOf
                                   ((key, value) :: rest) t tags))
                      /\ extends t (snd (buildTags_loop numberToString stringOf
                                           ((key, value) :: rest) t tags))
                      /\ Forall2
                           (pointsAt numberToString stringOf
                              (snd (buildTags_loop numberToString stringOf
                                      ((key, value) :: rest) t tags)))
                           (tagged ((key, value) :: rest)) pairs).
    { intros -> ->. apply IH. exact Hsync. }
    pose proof (buildTags_step t key value Hsync) as Hstep.
    destruct value as [s|n|b|bytes|]; try (apply Hskip; reflexivity);
      cbn [buildTags_loop tagged filter snd];
      destruct (match get (keyIndex t) key with
                | Some kIdx => (kIdx, keys t, keyIndex t)
                | None => _
                end) as [[kIdx keys'] keyIndex'];
      cbv zeta in Hstep |- *;
      destruct (match get (valueIndex t) _ with
                | Some vIdx => (vIdx, values t, valueIndex t)
                | None => _
                end) as [[vIdx values'] valueIndex'];
      destruct Hstep as (Hsync' & Hext & Hpoint);
      destruct (IH (mkTables keys' keyIndex' values' valueIndex') (tags ++ [kIdx; vIdx])
                  Hsync') as (pairs & Hfst & Hs & He & Hall);
      exists ((kIdx, vIdx) :: pairs);
      (split; [rewrite Hfst, <- app_assoc; reflexivity|]);
      (split; [exact Hs|]); (split; [exact (extends_trans _ _ _ Hext He)|]);
      (constructor; [exact (pointsAt_extends _ _ _ _ He Hpoint)|exact Hall]).
Qed.

End Build.

End TagTables.

(** X24. The tags of a feature are valid indices: when the index maps
    agree with the tables of the layer (as they do for the empty tables
    that [buildMvtLayer] starts with), [buildTags] returns one pair
    [kIdx, vIdx] for each property that is not [null] or binary, in the
    order of the properties; [kIdx] is the position of the property key
    in the keys of the layer and [vIdx] the position of a value with the
    same type and string as the converted property value; the keys and
    values already in the tables keep their positions, and the maps agree
    with the tables again, so no key is stored twice. *)
Theorem buildTags_indices (numberToString : float -> string)
    (stringOf : Types.PropertyValue -> string)
    (properties : Types.PropertyMap) (t : Tags.tables)
    (Hsynced : Tags.synced numberToString t) :
  exists pairs,
    fst (Tags.buildTags numberToString stringOf properties t) = RingSpec.flat pairs
    /\ Forall2
         (Tags.pointsAt numberToString stringOf
            (snd (Tags.buildTags numberToString stringOf properties t)))
         (Tags.tagged properties) pairs
    /\ Tags.extends t (snd (Tags.buildTags numberToString stringOf properties t))
    /\ Tags.synced numberToString
         (snd (Tags.buildTags numberToString stringOf properties t))
    /\ NoDup (Tags.keys (snd (Tags.buildTags numberToString stringOf properties t))).
Proof.
  unfold Tags.buildTags.
  destruct (buildTags_loop_spec numberToString stringOf properties t [] Hsynced)
    as (pairs & Hfst & Hs & He & Hall).
  exists pairs. cbn [app] in Hfst.
  split; [exact Hfst|]. split; [exact Hall|]. split; [exact He|]. split; [exact Hs|].
  destruct Hs as [Hkeys _].
  set (ks := Tags.keys _) in *. set (ki := Tags.keyIndex _) in *.
  apply (proj2 (NoDup_nth_error ks)). intros i j Hi Hij.
  destruct (nth_error ks i) as [key|] eqn:Hkey;
    [|apply nth_error_None in Hkey; lia].
  assert (H1 : Tags.get ki key = Some (Z.of_nat i)).
  { apply Hkeys. split; [lia|]. exists key. rewrite Nat2Z.id. auto. }
  assert (H2 : Tags.get ki key = Some (Z.of_nat j)).
  { apply Hkeys. split; [lia|]. exists key. rewrite Nat2Z.id. auto. }
  rewrite H1 in H2. injection H2 as H2. lia.
Qed.

Lemma buildTags_indices_witness :
  exists pairs,
    fst (Tags.buildTags (fun _ => "0"%string) (fun _ => ""%string)
           [("name", Types.PString "a"); ("skip", Types.PNull); ("kind", Types.PString "a")]%string
           Tags.noTables)
    = RingSpec.flat pairs
    /\ Forall2
         (Tags.pointsAt (fun _ => "0"%string) (fun _ => ""%string)
            (snd (Tags.buildTags (fun _ => "0"%string) (fun _ => ""%string)
                    [("name", Types.PString "a"); ("skip", Types.PNull);
                     ("kind", Types.PString "a")]%string
                    Tags.noTables)))
         (Tags.tagged
            [("name", Types.PString "a"); ("skip", Types.PNull);
             ("kind", Types.PString "a")]%string)
         pairs
    /\ Tags.extends Tags.noTables
         (snd (Tags.buildTags (fun _ => "0"%string) (fun _ => ""%string)
                 [("name", Types.PString "a"); ("skip", Types.PNull);
                  ("kind", Types.PString "a")]%string
                 Tags.noTables))
    /\ Tags.synced (fun _ => "0"%string)
         (snd (Tags.buildTags (fun _ => "0"%string) (fun _ => ""%string)
                 [("name", Types.PString "a"); ("skip", Types.PNull);
                  ("kind", Types.PString "a")]%string
                 Tags.noTables))
    /\ NoDup (Tags.keys
                (snd (Tags.buildTags (fun _ => "0"%string) (fun _ => ""%string)
                        [("name", Types.PString "a"); ("skip", Types.PNull);
                         ("kind", Types.PString "a")]%string
                        Tags.noTables))).
Proof.
  apply (buildTags_indices (fun _ => "0"%string) (fun _ => ""%string)
           [("name", Types.PString "a"); ("skip", Types.PNull);
            ("kind", Types.PString "a")]%string Tags.noTables).
  split; intros s k; cbn; split; try discriminate;
    intros (_ & a & Ha & _); destruct (Z.to_nat k); discriminate Ha.
Defined.

(** ** The path of an S3 object (connectors/s3) *)

Section S3Paths.
Import S3.
Local Open Scope string_scope.

Lemma indexOf_separator (bucket key : string) :
  indexOf "/" bucket = None ->
  indexOf "/" (bucket ++ "/" ++ key) = Some (String.length bucket)
  /\ sliceTo (String.length bucket) (bucket ++ "/" ++ key) = bucket
  /\ sliceFrom (String.length bucket + 1) (bucket ++ "/" ++ key) = key.
Proof.
  induction bucket as [|a bucket IH]; intros Hnone.
  - cbn. auto.
  - cbn [indexOf] in Hnone. cbn [append indexOf String.length sliceTo sliceFrom Nat.add].
    destruct (Ascii.eqb a "/"); [discriminate Hnone|].
    destruct (indexOf "/" bucket) eqn:E; [discriminate Hnone|].
    destruct (IH eq_refl) as (H1 & H2 & H3).
    change (String "/" key) with ("/" ++ key). rewrite H1, H2, H3. auto.
Qed.

Lemma no_scheme (bucket : string) :
  indexOf "/" bucket = None -> startsWith "s3://" bucket = false.
Proof.
  intros Hnone.
  destruct bucket as [|a [|b [|c [|d [|e rest]]]]]; cbn [startsWith];
    rewrite ?andb_false_r; try reflexivity.
  destruct (Ascii.eqb_spec "s"%char a) as [<-|]; [|reflexivity].
  destruct (Ascii.eqb_spec "3"%char b) as [<-|]; [|reflexivity].
  destruct (Ascii.eqb_spec ":"%char c) as [<-|]; [|reflexivity].
  destruct (Ascii.eqb_spec "/"%char d) as [<-|]; [|reflexivity].
  cbn in Hnone. discriminate Hnone.
Qed.

End S3Paths.

(** X25. [parseS3Path] takes a path apart at the first slash after the
    scheme: for a bucket name without a slash, ["s3://" + bucket + "/" +
    key] gives the bucket and the key, so does the bare [bucket + "/" +
    key] unless it starts with ["s3://"] itself, and the bucket name alone
    throws the error "Invalid S3 path (no key)". *)
Theorem parseS3Path_round_trip (bucket key : string)
    (Hbucket : S3.indexOf "/" bucket = None) :
  S3.parseS3Path ("s3://" ++ bucket ++ "/" ++ key) = Ok (bucket, key)
  /\ (S3.startsWith "s3://" (bucket ++ "/" ++ key) = false ->
      S3.parseS3Path (bucket ++ "/" ++ key) = Ok (bucket, key))
  /\ S3.parseS3Path bucket = Throw (Error ("Invalid S3 path (no key): " ++ bucket)).
Proof.
  destruct (indexOf_separator bucket key Hbucket) as (H1 & H2 & H3).
  split; [|split].
  - unfold S3.parseS3Path.
    change (S3.startsWith "s3://" ("s3://" ++ bucket ++ "/" ++ key)) with true.
    change (S3.sliceFrom 5 ("s3://" ++ bucket ++ "/" ++ key))
      with (bucket ++ "/" ++ key)%string.
    cbv iota. rewrite H1, H2, H3. reflexivity.
  - intros Hbare. unfold S3.parseS3Path. rewrite Hbare, H1, H2, H3. reflexivity.
  - unfold S3.parseS3Path. rewrite (no_scheme bucket Hbucket), Hbucket. reflexivity.
Qed.

Lemma parseS3Path_round_trip_witness :
  S3.parseS3Path ("s3://" ++ "tiles" ++ "/" ++ "eu/roads.fgb")
  = Ok ("tiles"%string, "eu/roads.fgb"%string)
  /\ (S3.startsWith "s3://" ("tiles" ++ "/" ++ "eu/roads.fgb") = false ->
      S3.parseS3Path ("tiles" ++ "/" ++ "eu/roads.fgb")
      = Ok ("tiles"%string, "eu/roads.fgb"%string))
  /\ S3.parseS3Path "tiles" = Throw (Error ("Invalid S3 path (no key): " ++ "tiles")).
Proof.
  apply (parseS3Path_round_trip "tiles"%string "eu/roads.fgb"%string). reflexivity.
Defined.

(** ** Clipped polygon rings (geometry/clip) *)

Section PolygonRings.
Import ClipSpec.
Local Open Scope float_scope.

Lemma clipAxis_loop_polygon (coords : list float) (k1 k2 : float) (axis : Z)
    (count : nat) :
  forall (i : Z) (slice : list float),
    fst (Clip.clipAxis_loop coords k1 k2 axis true count i ([], slice)) = [].
Proof.
  induction count as [|count IH]; intros i slice; [reflexivity|].
  cbn [Clip.clipAxis_loop]. unfold Clip.clipAxis_body, Clip.pushSlice.
  cbn [negb andb].
  repeat match goal with
         | |- context [if ?c then _ else _] => destruct c
         end; apply IH.
Qed.

Lemma getF_app_front (a b : list float) (i : Z) :
  (0 <= i < Z.of_nat (List.length a))%Z -> Clip.getF (a ++ b) i = Clip.getF a i.
Proof.
  intros Hi. unfold Clip.getF, Simplify.getF.
  destruct (Z.ltb_spec i 0); [lia|]. apply app_nth1. lia.
Qed.

Lemma clipAxis_polygon (coords : list float) (k1 k2 : float) (axis : Z) :
  oneClosedRing (Clip.clipAxis coords k1 k2 axis true).
Proof.
  unfold Clip.clipAxis.
  destruct (Z.of_nat (List.length coords) <? 4)%Z; [exact I|].
  pose proof (clipAxis_loop_polygon coords k1 k2 axis
                (Transform.steps2 0 (Z.of_nat (List.length coords) - 2)) 0 []) as Hres.
  destruct (Clip.clipAxis_loop _ _ _ _ _ _ _ _) as [results slice].
  cbn [fst] in Hres. subst results.
  set (slice1 := if _ && _ then _ else slice). clearbody slice1. cbn [andb app].
  destruct (Z.leb_spec 6 (Z.of_nat (List.length slice1))) as [Hlong|Hshort].
  - set (n := Z.of_nat (List.length slice1)) in *.
    destruct (negb (Clip.getF slice1 0 =? Clip.getF slice1 (n - 2))
              || negb (Clip.getF slice1 1 =? Clip.getF slice1 (n - 1))) eqn:Hopen.
    + destruct (Z.leb_spec 4 (Z.of_nat (List.length
                  (slice1 ++ [Clip.getF slice1 0; Clip.getF slice1 1]))));
        [|exact I].
      intros _. left. rewrite length_app. cbn [List.length].
      rewrite (getF_app_front slice1 _ 0), (getF_app_front slice1 _ 1) by lia.
      replace (Z.of_nat (List.length slice1 + 2) - 2)%Z
        with (Z.of_nat (List.length slice1)) by lia.
      replace (Z.of_nat (List.length slice1 + 2) - 1)%Z
        with (Z.of_nat (List.length (slice1 ++ [Clip.getF slice1 0])))
        by (rewrite length_app; cbn [List.length]; lia).
      split.
      * apply (getF_middle slice1 [Clip.getF slice1 1]). reflexivity.
      * replace (slice1 ++ [Clip.getF slice1 0; Clip.getF slice1 1])
          with ((slice1 ++ [Clip.getF slice1 0]) ++ [Clip.getF slice1 1])
          by (rewrite <- app_assoc; reflexivity).
        apply (getF_middle (slice1 ++ [Clip.getF slice1 0]) []). reflexivity.
    + destruct (Z.leb_spec 4 (Z.of_nat (List.length slice1))); [|exact I].
      intros _. right. fold n. apply orb_false_elim in Hopen.
      destruct Hopen as [H1 H2]. apply negb_false_iff in H1, H2. split; assumption.
  - destruct (Z.leb_spec 4 (Z.of_nat (List.length slice1))); [|exact I].
    intros Hlen. lia.
Qed.

Lemma clipRing_polygon (ring : list float) (minX minY maxX maxY : float) :
  oneClosedRing (Clip.clipRing ring minX minY maxX maxY true).
Proof.
  unfold Clip.clipRing.
  pose proof (clipAxis_polygon ring minX maxX 0) as Hx.
  destruct (Clip.clipAxis ring minX maxX 0 true) as [|segment [|s l]];
    [exact I| |contradiction].
  cbn [flat_map]. rewrite app_nil_r. apply clipAxis_polygon.
Qed.

End PolygonRings.

(** X26. Clipping a polygon ring gives at most one ring, and a ring of
    three pairs or more that it gives is closed: [clipAxis] with
    [isPolygon] set returns no segment or one, whose last pair is its first
    pair (the same numbers, or numbers that compare equal) whenever it has
    at least three pairs; the same holds of [clipRing]. *)
Theorem clipAxis_closes_polygons (coords : list float) (k1 k2 : float) (axis : Z) :
  ClipSpec.oneClosedRing (Clip.clipAxis coords k1 k2 axis true)
  /\ forall minX minY maxX maxY : float,
       ClipSpec.oneClosedRing (Clip.clipRing coords minX minY maxX maxY true).
Proof.
  split; [apply clipAxis_polygon|]. intros. apply clipRing_polygon.
Qed.

(** ** The feature loop (fgb/feature) *)

Section FeatureLoop.

Lemma decodeFeatures_loop_consumes (bytes : Buf.view) (header : Types.FgbHeader)
    (maxFeatures : option Z) (Hbytes : Buf.wellFormed bytes) (fuel : nat) :
  forall (offset : Z) (features out : list Types.RawFeature),
    5 * Z.of_nat (List.length features) <= offset <= Buf.byteLength bytes ->
    Feature.decodeFeatures_loop fuel bytes header maxFeatures offset features = Ok out ->
    5 * Z.of_nat (List.length out) <= Buf.byteLength bytes.
Proof.
  induction fuel as [|fuel IH]; intros offset features out Hinv H;
    cbn [Feature.decodeFeatures_loop] in H.
  - destruct (_ && _); [discriminate H|]. injection H as <-. lia.
  - destruct (_ && _); [|injection H as <-; lia].
    destruct (_ >? _)%Z; [injection H as <-; lia|].
    destruct (Buf.newView _ _ _) as [view| |] eqn:Hview; cbn [bind] in H;
      try discriminate H.
    destruct (Buf.getUint32 view 0) as [featureSize| |] eqn:Hsize; cbn [bind] in H;
      try discriminate H.
    assert (0 <= featureSize).
    { apply (getUint32_nonneg view 0); [|exact Hsize].
      unfold Buf.wellFormed. rewrite (newView_buffer _ _ _ _ Hview). exact Hbytes. }
    destruct (Z.eqb_spec featureSize 0); [injection H as <-; lia|].
    destruct (Z.gtb_spec (offset + 4 + featureSize) (Buf.byteLength bytes));
      [injection H as <-; lia|].
    destruct (Feature.decodeSingleFeature _ header) as [feature| |];
      cbn [bind] in H; try discriminate H.
    apply IH in H; [exact H|].
    destruct feature as [f|]; [rewrite length_app; cbn [List.length]|]; lia.
Qed.

End FeatureLoop.

(** X27. The feature loop ends, and every feature costs at least five
    bytes: on an array of bytes, [decodeFeatures] returns or throws
    (the loop advances by the 4-byte size prefix and a size of at least 1
    in each round), and the features it returns are at most a fifth of the
    bytes of the array. *)
Theorem decodeFeatures_consumes (bytes : Buf.view) (header : Types.FgbHeader)
    (maxFeatures : option Z)
    (Hbytes : Buf.wellFormed bytes) (Hlength : 0 <= Buf.byteLength bytes) :
  Feature.decodeFeatures bytes header maxFeatures <> OutOfFuel
  /\ forall features,
       Feature.decodeFeatures bytes header maxFeatures = Ok features ->
       5 * Z.of_nat (List.length features) <= Buf.byteLength bytes.
Proof.
  split; [apply decodeFeatures_fuel; exact Hbytes|].
  intros features H. unfold Feature.decodeFeatures in H.
  apply (decodeFeatures_loop_consumes bytes header maxFeatures Hbytes
           (Z.to_nat (Buf.byteLength bytes)) 0 [] features);
    [cbn [List.length]; lia|exact H].
Qed.

Lemma decodeFeatures_consumes_witness :
  Feature.decodeFeatures (Buf.ofBytes (Example.featureBytes ++ Example.featureBytes))
    Example.header None <> OutOfFuel
  /\ forall features,
       Feature.decodeFeatures (Buf.ofBytes (Example.featureBytes ++ Example.featureBytes))
         Example.header None = Ok features ->
       5 * Z.of_nat (List.length features)
       <= Buf.byteLength (Buf.ofBytes (Example.featureBytes ++ Example.featureBytes)).
Proof.
  apply (decodeFeatures_consumes
           (Buf.ofBytes (Example.featureBytes ++ Example.featureBytes)) Example.header None).
  - unfold Buf.wellFormed. cbn [Buf.ofBytes Buf.buffer].
    repeat (apply Forall_cons; [lia|]). apply Forall_nil.
  - vm_compute. discriminate.
Defined.

(** ** The shape of decoded features (fgb/feature) *)

Section DecodedShape.
Import FeatureSpec.

Lemma length_elements (size count : nat) :
  forall bytes, List.length (FlatBuffers.elements size count bytes) = count.
Proof.
  induction count as [|count IH]; intros bytes; cbn [FlatBuffers.elements List.length];
    [reflexivity|]. rewrite IH. reflexivity.
Qed.

Lemma readUint32_each_length (fb : FlatBuffers.FlatBufferReader) (count : nat) :
  forall offset values,
    FlatBuffers.readUint32_each fb offset count = Ok values -> List.length values = count.
Proof.
  induction count as [|count IH]; intros offset values H;
    cbn [FlatBuffers.readUint32_each] in H.
  - injection H as <-. reflexivity.
  - destruct (FlatBuffers.readUint32 fb offset) as [v| |]; cbn [bind] in H;
      try discriminate H.
    destruct (FlatBuffers.readUint32_each fb (offset + 4) count) as [rest| |] eqn:E;
      cbn [bind] in H; try discriminate H.
    injection H as <-. cbn [List.length]. rewrite (IH _ _ E). reflexivity.
Qed.

Lemma readUint32Array_length (fb : FlatBuffers.FlatBufferReader) (offset count : Z)
    (values : list Z) :
  FlatBuffers.readUint32Array fb offset count = Ok values ->
  List.length values = Z.to_nat count.
Proof.
  unfold FlatBuffers.readUint32Array. destruct (_ =? 0).
  - destruct (Buf.newView _ _ _) as [window| |]; cbn [bind]; try discriminate.
    intros H. injection H as <-. apply length_elements.
  - apply readUint32_each_length.
Qed.

Lemma readFloat64Array_length (fb : FlatBuffers.FlatBufferReader) (offset count : Z)
    (values : list float) :
  FlatBuffers.readFloat64Array fb offset count = Ok values ->
  List.length values = Z.to_nat count.
Proof.
  unfold FlatBuffers.readFloat64Array.
  destruct (Buf.newView _ _ _) as [window| |]; cbn [bind]; try discriminate.
  intros H. injection H as <-. rewrite length_map. apply length_elements.
Qed.

Lemma nonempty_length {A : Type} (l : list A) (n : Z) :
  List.length l = Z.to_nat n -> 0 < n -> l <> [].
Proof. intros Hl Hn ->. cbn [List.length] in Hl. lia. Qed.

Lemma decodeParts_partsOk (decodePart : Z -> result (option Feature.DecodedGeometry))
    (fb : FlatBuffers.FlatBufferReader) (partsDataStart : Z) (n : nat) :
  (forall pos g, decodePart pos = Ok (Some g) -> shapedGeometry g) ->
  forall (i : Z) (acc acc' : Feature.partsAcc),
    partsOk acc ->
    Feature.decodeParts decodePart fb partsDataStart n i acc = Ok acc' ->
    partsOk acc'.
Proof.
  intros Hpart. induction n as [|n IH]; intros i acc acc' Hacc H;
    cbn [Feature.decodeParts] in H.
  - injection H as <-. exact Hacc.
  - destruct (FlatBuffers.indirect fb _) as [partOffset| |]; cbn [bind] in H;
      try discriminate H.
    destruct (decodePart partOffset) as [partGeom| |] eqn:Hgeom; cbn [bind] in H;
      try discriminate H.
    apply IH in H; [exact H|].
    destruct partGeom as [g|]; [|exact Hacc].
    destruct (Feature.geom_xy g) as [|c cs] eqn:Hxy; [exact Hacc|].
    destruct Hacc as (Hall & Hends & Hstarts).
    destruct (Hpart _ _ Hgeom) as (_ & Hge & _).
    unfold partsOk. cbn [Feature.allXy Feature.allEnds Feature.partStarts].
    split; [|split].
    + apply Forall_app. split; [exact Hall|]. constructor; [discriminate|constructor].
    + intros _. destruct (Feature.geom_ends g) as [[|e ends]|].
      * congruence.
      * cbn [map]. intros Happ. apply app_eq_nil in Happ. destruct Happ; discriminate.
      * intros Happ. apply app_eq_nil in Happ. destruct Happ; discriminate.
    + rewrite !length_app, Hstarts. reflexivity.
Qed.

Lemma decodeGeometry_shaped (fb : FlatBuffers.FlatBufferReader)
    (headerGeomType : Types.GeomType) (levels : nat) :
  forall tablePos g,
    Feature.decodeGeometry levels fb headerGeomType tablePos = Ok (Some g) ->
    shapedGeometry g.
Proof.
  induction levels as [|levels IH]; intros tablePos g H;
    cbn [Feature.decodeGeometry] in H; [discriminate H|].
  destruct (FlatBuffers.fieldOffset fb tablePos 6) as [typeFieldOff| |];
    cbn [bind] in H; try discriminate H.
  destruct (if (typeFieldOff =? 0)%Z then _ else _) as [type| |]; cbn [bind] in H;
    try discriminate H.
  destruct (FlatBuffers.fieldOffset fb tablePos 1) as [xyFieldOff| |];
    cbn [bind] in H; try discriminate H.
  destruct (if (xyFieldOff =? 0)%Z then _ else _) as [flatGeometry| |] eqn:Hflat;
    cbn [bind] in H; try discriminate H.
  destruct flatGeometry as [g0|].
  - (* the flat representation *)
    injection H as <-.
    destruct (xyFieldOff =? 0)%Z; [discriminate Hflat|].
    destruct (FlatBuffers.indirect fb xyFieldOff) as [xyVecOffset| |];
      cbn [bind] in Hflat; try discriminate Hflat.
    destruct (FlatBuffers.vectorLen fb xyVecOffset) as [xyLen| |];
      cbn [bind] in Hflat; try discriminate Hflat.
    destruct (Z.gtb_spec xyLen 0) as [Hlen|]; [|discriminate Hflat].
    destruct (FlatBuffers.readFloat64Array fb _ xyLen) as [xy| |] eqn:Hxy;
      cbn [bind] in Hflat; try discriminate Hflat.
    destruct (FlatBuffers.fieldOffset fb tablePos 0) as [endsFieldOff| |];
      cbn [bind] in Hflat; try discriminate Hflat.
    destruct (if (endsFieldOff =? 0)%Z then _ else _) as [ends| |] eqn:Hends;
      cbn [bind] in Hflat; try discriminate Hflat.
    injection Hflat as <-. unfold shapedGeometry, shaped.
    cbn [Feature.geom_type Feature.geom_xy Feature.geom_ends Feature.geom_parts].
    split; [|split].
    + apply (nonempty_length xy xyLen); [|lia].
      exact (readFloat64Array_length _ _ _ _ Hxy).
    + destruct (endsFieldOff =? 0)%Z; [injection Hends as <-; discriminate|].
      destruct (FlatBuffers.indirect fb endsFieldOff) as [endsVecOffset| |];
        cbn [bind] in Hends; try discriminate Hends.
      destruct (FlatBuffers.vectorLen fb endsVecOffset) as [endsLen| |];
        cbn [bind] in Hends; try discriminate Hends.
      destruct (Z.gtb_spec endsLen 0) as [Hlen'|]; [|injection Hends as <-; discriminate].
      destruct (FlatBuffers.readUint32Array fb _ endsLen) as [e| |] eqn:He;
        cbn [bind] in Hends; try discriminate Hends.
      injection Hends as <-. intros Hempty. injection Hempty as Hempty.
      apply (nonempty_length e endsLen); [|lia|exact Hempty].
      exact (readUint32Array_length _ _ _ _ He).
    + intros p Hp. discriminate Hp.
  - (* the nested parts *)
    destruct (FlatBuffers.fieldOffset fb tablePos 7) as [partsFieldOff| |];
      cbn [bind] in H; try discriminate H.
    destruct (partsFieldOff =? 0)%Z; [discriminate H|].
    destruct (FlatBuffers.indirect fb partsFieldOff) as [partsVecOffset| |];
      cbn [bind] in H; try discriminate H.
    destruct (FlatBuffers.vectorLen fb partsVecOffset) as [partsLen| |];
      cbn [bind] in H; try discriminate H.
    destruct (partsLen =? 0)%Z; [discriminate H|].
    destruct (Feature.decodeParts _ fb _ _ 0 _) as [acc| |] eqn:Hacc;
      cbn [bind] in H; try discriminate H.
    assert (Hok : partsOk acc).
    { apply (decodeParts_partsOk _ fb _ _ IH 0 _ acc) in Hacc; [exact Hacc|].
      split; [constructor|].
      split; [intros Hc; exfalso; apply Hc; reflexivity|reflexivity]. }
    destruct Hok as (Hall & Hends & Hstarts).
    destruct (Feature.allXy acc) as [|xy0 xys] eqn:Hxys; [discriminate H|].
    injection H as <-. unfold shapedGeometry, shaped.
    cbn [Feature.geom_type Feature.geom_xy Feature.geom_ends Feature.geom_parts].
    assert (Hne : Feature.allEnds acc <> []) by (apply Hends; discriminate).
    split; [|split].
    + cbn [List.concat]. pose proof (Forall_inv Hall) as H0.
      destruct xy0; [congruence|discriminate].
    + destruct (Feature.allEnds acc); [congruence|discriminate].
    + intros p Hp.
      destruct (Feature.isMultiPolygon type) eqn:Htype; cbn [andb] in Hp;
        [|discriminate Hp].
      destruct (Z.ltb_spec 1 (Z.of_nat (List.length (Feature.partStarts acc))));
        [|discriminate Hp].
      injection Hp as <-. split; [destruct type; try discriminate Htype; reflexivity|].
      split; [rewrite length_map; lia|].
      destruct (Feature.allEnds acc); [congruence|discriminate].
Qed.

Lemma decodeSingleFeature_shaped (bytes : Buf.view) (header : Types.FgbHeader)
    (f : Types.RawFeature) :
  Feature.decodeSingleFeature bytes header = Ok (Some f) -> shapedFeature f.
Proof.
  unfold Feature.decodeSingleFeature. intros H.
  destruct (FlatBuffers.rootTableOffset bytes) as [rootOffset| |]; cbn [bind] in H;
    try discriminate H.
  destruct (FlatBuffers.fieldOffset bytes rootOffset 0) as [geomFieldOff| |];
    cbn [bind] in H; try discriminate H.
  destruct (geomFieldOff =? 0)%Z; [discriminate H|].
  destruct (FlatBuffers.indirect bytes geomFieldOff) as [geomTableOffset| |];
    cbn [bind] in H; try discriminate H.
  destruct (Feature.decodeGeometry _ bytes _ geomTableOffset) as [[geom|]| |] eqn:Hgeom;
    cbn [bind] in H; try discriminate H.
  destruct (FlatBuffers.fieldOffset bytes rootOffset 1) as [propsFieldOff| |];
    cbn [bind] in H; try discriminate H.
  destruct (if (propsFieldOff =? 0)%Z then _ else _) as [properties| |];
    cbn [bind] in H; try discriminate H.
  injection H as <-. exact (decodeGeometry_shaped _ _ _ _ _ Hgeom).
Qed.

Lemma decodeFeatures_loop_shaped (bytes : Buf.view) (header : Types.FgbHeader)
    (maxFeatures : option Z) (fuel : nat) :
  forall (offset : Z) (features out : list Types.RawFeature),
    Forall shapedFeature features ->
    Feature.decodeFeatures_loop fuel bytes header maxFeatures offset features = Ok out ->
    Forall shapedFeature out.
Proof.
  induction fuel as [|fuel IH]; intros offset features out Hall H;
    cbn [Feature.decodeFeatures_loop] in H.
  - destruct (_ && _); [discriminate H|]. injection H as <-. exact Hall.
  - destruct (_ && _); [|injection H as <-; exact Hall].
    destruct (_ >? _)%Z; [injection H as <-; exact Hall|].
    destruct (Buf.newView _ _ _) as [view| |]; cbn [bind] in H; try discriminate H.
    destruct (Buf.getUint32 view 0) as [featureSize| |]; cbn [bind] in H;
      try discriminate H.
    destruct (featureSize =? 0)%Z; [injection H as <-; exact Hall|].
    destruct (_ >? _)%Z; [injection H as <-; exact Hall|].
    destruct (Feature.decodeSingleFeature _ header) as [feature| |] eqn:Hf;
      cbn [bind] in H; try discriminate H.
    apply IH in H; [exact H|].
    destruct feature as [f|]; [|exact Hall].
    apply Forall_app. split; [exact Hall|]. constructor; [|constructor].
    exact (decodeSingleFeature_shaped _ _ _ Hf).
Qed.

End DecodedShape.

(** X28. Every feature that [decodeFeatures] returns has coordinates:
    its [xy] is not empty; its [ends], when present, is not empty; and its
    [parts] is only present on a MultiPolygon, with two entries or more
    and together with [ends]. *)
Theorem decodeFeatures_shaped (bytes : Buf.view) (header : Types.FgbHeader)
    (maxFeatures : option Z) (features : list Types.RawFeature)
    (Hdecoded : Feature.decodeFeatures bytes header maxFeatures = Ok features) :
  Forall FeatureSpec.shapedFeature features.
Proof.
  unfold Feature.decodeFeatures in Hdecoded.
  exact (decodeFeatures_loop_shaped bytes header maxFeatures _ 0 [] features
           (Forall_nil _) Hdecoded).
Qed.

Lemma decodeFeatures_shaped_witness :
  Forall FeatureSpec.shapedFeature [Example.feature; Example.feature].
Proof.
  apply (decodeFeatures_shaped
           (Buf.ofBytes (Example.featureBytes ++ Example.featureBytes)) Example.header None
           [Example.feature; Example.feature]).
  vm_compute. reflexivity.
Defined.

(** ** The names of decoded properties (fgb/feature) *)

Section PropertyNames.
Import FeatureSpec.

Lemma map_set_keys (m : Types.PropertyMap) (key : string) (value : Types.PropertyValue) :
  (In key (map fst m) /\ map fst (Types.map_set m key value) = map fst m)
  \/ (~ In key (map fst m) /\ map fst (Types.map_set m key value) = map fst m ++ [key]).
Proof.
  induction m as [|[k v] m IH]; cbn [Types.map_set map fst].
  - right. split; [intros []|reflexivity].
  - destruct (String.eqb_spec k key) as [->|Hne]; cbn [map fst].
    + left. split; [left; reflexivity|reflexivity].
    + destruct IH as [[Hin Heq]|[Hnot Heq]]; rewrite Heq.
      * left. split; [right; exact Hin|reflexivity].
      * right. split; [|reflexivity]. intros [H|H]; [congruence|contradiction].
Qed.

Lemma map_set_entries (m : Types.PropertyMap) (key : string) (value : Types.PropertyValue)
    (P : string -> Prop) :
  P key -> Forall (fun entry => P (fst entry)) m ->
  Forall (fun entry => P (fst entry)) (Types.map_set m key value).
Proof.
  intros Hkey. induction m as [|[k v] m IH]; intros Hall; cbn [Types.map_set].
  - constructor; [exact Hkey|constructor].
  - destruct (String.eqb_spec k key) as [->|Hne].
    + constructor; [exact Hkey|exact (Forall_inv_tail Hall)].
    + constructor; [exact (Forall_inv Hall)|apply IH; exact (Forall_inv_tail Hall)].
Qed.

Lemma map_set_named (columns : list Types.ColumnMeta) (m : Types.PropertyMap)
    (col : Types.ColumnMeta) (value : Types.PropertyValue) :
  In col columns -> named columns m ->
  named columns (Types.map_set m (Types.col_name col) value).
Proof.
  intros Hcol [Hnodup Hall]. split.
  - destruct (map_set_keys m (Types.col_name col) value) as [[_ ->]|[Hnot ->]];
      [exact Hnodup|].
    apply NoDup_app; [exact Hnodup|constructor; [intros []|constructor]|].
    intros k Hk [<-|[]]. contradiction.
  - apply (map_set_entries m _ value (fun k => In k (map Types.col_name columns)));
      [apply in_map; exact Hcol|exact Hall].
Qed.

Lemma decodeProperties_loop_named (view propsBytes : Buf.view) (propsLen : Z)
    (columns : list Types.ColumnMeta) (fuel : nat) :
  forall (offset : Z) (props out : Types.PropertyMap),
    named columns props ->
    Feature.decodeProperties_loop fuel view propsBytes propsLen columns offset props
    = Ok out ->
    named columns out.
Proof.
  induction fuel as [|fuel IH]; intros offset props out Hprops H;
    cbn [Feature.decodeProperties_loop] in H.
  - destruct (offset <? propsLen)%Z; [discriminate H|]. injection H as <-. exact Hprops.
  - destruct (offset <? propsLen)%Z; [|injection H as <-; exact Hprops].
    destruct (_ >? _)%Z; [injection H as <-; exact Hprops|].
    destruct (Buf.getUint16 view offset) as [colIdx| |]; cbn [bind] in H;
      try discriminate H.
    destruct (_ >=? _)%Z; [injection H as <-; exact Hprops|].
    destruct (nth_error columns (Z.to_nat colIdx)) as [col|] eqn:Hcol;
      [|discriminate H].
    destruct (Feature.readPropertyValue _ _ _ _) as [[value bytesRead]| |];
      cbn [bind] in H; try discriminate H.
    apply IH in H; [exact H|].
    apply map_set_named; [exact (nth_error_In _ _ Hcol)|exact Hprops].
Qed.

Lemma named_nil (columns : list Types.ColumnMeta) : named columns [].
Proof. split; constructor. Qed.

Lemma decodeSingleFeature_named (bytes : Buf.view) (header : Types.FgbHeader)
    (f : Types.RawFeature) :
  Feature.decodeSingleFeature bytes header = Ok (Some f) ->
  named (Types.columns header) (Types.raw_properties f).
Proof.
  unfold Feature.decodeSingleFeature. intros H.
  destruct (FlatBuffers.rootTableOffset bytes) as [rootOffset| |]; cbn [bind] in H;
    try discriminate H.
  destruct (FlatBuffers.fieldOffset bytes rootOffset 0) as [geomFieldOff| |];
    cbn [bind] in H; try discriminate H.
  destruct (geomFieldOff =? 0)%Z; [discriminate H|].
  destruct (FlatBuffers.indirect bytes geomFieldOff) as [geomTableOffset| |];
    cbn [bind] in H; try discriminate H.
  destruct (Feature.decodeGeometry _ bytes _ geomTableOffset) as [[geom|]| |];
    cbn [bind] in H; try discriminate H.
  destruct (FlatBuffers.fieldOffset bytes rootOffset 1) as [propsFieldOff| |];
    cbn [bind] in H; try discriminate H.
  destruct (if (propsFieldOff =? 0)%Z then _ else _) as [properties| |] eqn:Hprops;
    cbn [bind] in H; try discriminate H.
  injection H as <-. cbn [Types.raw_properties].
  destruct (propsFieldOff =? 0)%Z; [injection Hprops as <-; apply named_nil|].
  destruct (FlatBuffers.indirect bytes propsFieldOff) as [propsVecOffset| |];
    cbn [bind] in Hprops; try discriminate Hprops.
  unfold Feature.decodeProperties in Hprops.
  destruct (FlatBuffers.vectorLen bytes propsVecOffset) as [propsLen| |];
    cbn [bind] in Hprops; try discriminate Hprops.
  destruct (propsLen =? 0)%Z; [injection Hprops as <-; apply named_nil|].
  destruct (FlatBuffers.readBytes bytes _ propsLen) as [propsBytes| |];
    cbn [bind] in Hprops; try discriminate Hprops.
  exact (decodeProperties_loop_named _ _ _ _ _ _ _ _ (named_nil _) Hprops).
Qed.

Lemma decodeFeatures_loop_named (bytes : Buf.view) (header : Types.FgbHeader)
    (maxFeatures : option Z) (fuel : nat) :
  forall (offset : Z) (features out : list Types.RawFeature),
    Forall (fun f => named (Types.columns header) (Types.raw_properties f)) features ->
    Feature.decodeFeatures_loop fuel bytes header maxFeatures offset features = Ok out ->
    Forall (fun f => named (Types.columns header) (Types.raw_properties f)) out.
Proof.
  induction fuel as [|fuel IH]; intros offset features out Hall H;
    cbn [Feature.decodeFeatures_loop] in H.
  - destruct (_ && _); [discriminate H|]. injection H as <-. exact Hall.
  - destruct (_ && _); [|injection H as <-; exact Hall].
    destruct (_ >? _)%Z; [injection H as <-; exact Hall|].
    destruct (Buf.newView _ _ _) as [view| |]; cbn [bind] in H; try discriminate H.
    destruct (Buf.getUint32 view 0) as [featureSize| |]; cbn [bind] in H;
      try discriminate H.
    destruct (featureSize =? 0)%Z; [injection H as <-; exact Hall|].
    destruct (_ >? _)%Z; [injection H as <-; exact Hall|].
    destruct (Feature.decodeSingleFeature _ header) as [feature| |] eqn:Hf;
      cbn [bind] in H; try discriminate H.
    apply IH in H; [exact H|].
    destruct feature as [f|]; [|exact Hall].
    apply Forall_app. split; [exact Hall|]. constructor; [|constructor].
    exact (decodeSingleFeature_named _ _ _ Hf).
Qed.

End PropertyNames.

(** X29. The decoder invents no property: in every feature that
    [decodeFeatures] returns, each property name is the name of a column
    of the header, and no name occurs twice. *)
Theorem decodeFeatures_property_names (bytes : Buf.view) (header : Types.FgbHeader)
    (maxFeatures : option Z) (features : list Types.RawFeature)
    (Hdecoded : Feature.decodeFeatures bytes header maxFeatures = Ok features) :
  Forall (fun f => FeatureSpec.named (Types.columns header) (Types.raw_properties f))
    features.
Proof.
  unfold Feature.decodeFeatures in Hdecoded.
  exact (decodeFeatures_loop_named bytes header maxFeatures _ 0 [] features
           (Forall_nil _) Hdecoded).
Qed.

Lemma decodeFeatures_property_names_witness :
  Forall (fun f => FeatureSpec.named (Types.columns Example.header) (Types.raw_properties f))
    [Example.feature; Example.feature].
Proof.
  apply (decodeFeatures_property_names
           (Buf.ofBytes (Example.featureBytes ++ Example.featureBytes)) Example.header None
           [Example.feature; Example.feature]).
  vm_compute. reflexivity.
Defined.
